(** * fsv: animation scheduler, collapse/expand controller and layout engines

    A shallow embedding of the scheduling and layout core of fsv
    (animation.c, colexp.c, geometry.c) together with the properties
    stated about it.

    The program computes with C [double]s.  The embedding is written once,
    over an interface [Double] of the arithmetic the code uses, and is
    instantiated twice:
    - [binary64]: IEEE 754 binary64 (Rocq's primitive floats), the arithmetic
      the compiled program really performs; the embedding runs on it;
    - [real]: the real numbers, the arithmetic the layout formulas were
      derived in; algebraic identities are proved on it.
    Functions of the C math library other than [sqrt] are collected in a
    second interface, [Libm]. *)

From Stdlib Require Import ZArith List Bool Lia Floats Reals Lra.
From Stdlib Require Import String.
Import ListNotations.

Set Implicit Arguments.
Set Warnings "-register-all,-inexact-float".

(** ** Arithmetic on [double] *)

Declare Scope double_scope.
Delimit Scope double_scope with D.

Class Double (D : Type) : Type := {
  d_of_Z : Z -> D;              (* (double)n, and integer-valued literals *)
  d_add : D -> D -> D;
  d_sub : D -> D -> D;
  d_mul : D -> D -> D;
  d_div : D -> D -> D;
  d_opp : D -> D;               (* - x *)
  d_sqrt : D -> D;
  d_lt : D -> D -> bool;        (* x < y *)
  d_le : D -> D -> bool;        (* x <= y *)
  d_PI : D                      (* the literal 3.14159265358979323846 *)
}.

Class Libm (D : Type) : Type := {
  d_cos : D -> D;
  d_sin : D -> D;
  d_asin : D -> D;
  d_atan2 : D -> D -> D;
  d_cbrt : D -> D;
  d_hypot : D -> D -> D;
  d_fmod : D -> D -> D;
  d_ceil : D -> D
}.

Notation "x + y" := (d_add x y) : double_scope.
Notation "x - y" := (d_sub x y) : double_scope.
Notation "x * y" := (d_mul x y) : double_scope.
Notation "x / y" := (d_div x y) : double_scope.
Notation "- x" := (d_opp x) : double_scope.
Notation "x <? y" := (d_lt x y) : double_scope.
Notation "x <=? y" := (d_le x y) : double_scope.
Notation "x >? y" := (d_lt y x) : double_scope.
Notation "x >=? y" := (d_le y x) : double_scope.

Section DoubleMacros.
Context {D : Type} `{Double D}.

(** A literal [n/m]; every literal written this way below is the
    correctly rounded quotient of two exactly representable integers,
    which is the value the C compiler gives the decimal literal. *)
Definition d_lit (n m : Z) : D := (d_of_Z n / d_of_Z m)%D.
Definition d0 : D := d_of_Z 0.
Definition d1 : D := d_of_Z 1.
Definition d2 : D := d_of_Z 2.

(* common.h *)
Definition EPSILON : D := d_lit 1 1000000.
Definition SQR (x : D) : D := (x * x)%D.
Definition INTERPOLATE (k a b : D) : D := (a + k * (b - a))%D.
(* glib: #define MIN(a,b) (((a) < (b)) ? (a) : (b)) and MAX likewise *)
Definition MIN (a b : D) : D := if (a <? b)%D then a else b.
Definition MAX (a b : D) : D := if (a >? b)%D then a else b.
End DoubleMacros.

(** *** IEEE 754 binary64 *)

Definition float_of_Z (z : Z) : float :=
  if (z =? - 9223372036854775808)%Z then (- 9223372036854775808)%float
  else if (z <? 0)%Z then PrimFloat.opp (PrimFloat.of_uint63 (Uint63.of_Z (- z)))
  else PrimFloat.of_uint63 (Uint63.of_Z z).

#[export] Instance binary64 : Double float := {
  d_of_Z := float_of_Z;
  d_add := PrimFloat.add;
  d_sub := PrimFloat.sub;
  d_mul := PrimFloat.mul;
  d_div := PrimFloat.div;
  d_opp := PrimFloat.opp;
  d_sqrt := PrimFloat.sqrt;
  d_lt := PrimFloat.ltb;
  d_le := PrimFloat.leb;
  d_PI := 0x1.921fb54442d18p+1%float
}.

(** *** Real numbers *)

Definition Rltb (x y : R) : bool := if Rlt_dec x y then true else false.
Definition Rleb (x y : R) : bool := if Rle_dec x y then true else false.

#[export] Instance real : Double R := {
  d_of_Z := IZR;
  d_add := Rplus;
  d_sub := Rminus;
  d_mul := Rmult;
  d_div := Rdiv;
  d_opp := Ropp;
  d_sqrt := sqrt;
  d_lt := Rltb;
  d_le := Rleb;
  d_PI := 3.14159265358979323846%R
}.

(** The C math library on the reals. *)

Definition R_trunc (x : R) : Z :=
  if Rle_dec 0 x then Int_part x else (- Int_part (- x))%Z.
Definition R_ceil (x : R) : R := IZR (- Int_part (- x)).
Definition R_fmod (x y : R) : R := (x - y * IZR (R_trunc (x / y)))%R.
Definition R_hypot (x y : R) : R := sqrt (x * x + y * y).
Definition R_cbrt (x : R) : R :=
  if Rlt_dec 0 x then Rpower x (/ 3)
  else if Rlt_dec x 0 then (- Rpower (- x) (/ 3))%R else 0%R.
Definition R_atan2 (y x : R) : R :=
  if Rlt_dec 0 x then atan (y / x)
  else if Rlt_dec x 0 then
         (if Rle_dec 0 y then atan (y / x) + PI else atan (y / x) - PI)%R
       else if Rlt_dec 0 y then (PI / 2)%R
            else if Rlt_dec y 0 then (- PI / 2)%R else 0%R.

#[export] Instance real_libm : Libm R := {
  d_cos := cos;
  d_sin := sin;
  d_asin := asin;
  d_atan2 := R_atan2;
  d_cbrt := R_cbrt;
  d_hypot := R_hypot;
  d_fmod := R_fmod;
  d_ceil := R_ceil
}.

(** ** animation.c: scheduled events and morphs *)

(** A [double *] handed to the morph functions.  The doubles this program
    animates are the [deployment] field of a directory descriptor (named by
    the descriptor's unique [id]) and file-scope or camera variables. *)
Inductive Var : Type :=
  | VarDeployment (id : nat)      (* &DIR_NODE_DESC(dnode)->deployment *)
  | VarOther (n : nat).           (* camera fields, about_part, ... *)

Definition Var_eqb (a b : Var) : bool :=
  match a, b with
  | VarDeployment i, VarDeployment j => Nat.eqb i j
  | VarOther i, VarOther j => Nat.eqb i j
  | _, _ => false
  end.

(* animation.h *)
Inductive MorphType : Type :=
  | MORPH_LINEAR
  | MORPH_QUADRATIC
  | MORPH_INV_QUADRATIC
  | MORPH_SIGMOID
  | MORPH_SIGMOID_ACCEL.

(** Function pointers are named by their index in the client's code table;
    a [void *] payload is an opaque number. *)
Definition EventCb := nat.
Definition MorphCb := nat.
Definition Data := nat.

(** [int] is 32 bits wide; [--n] wraps. *)
Definition int_wrap (z : Z) : Z := ((z + 2147483648) mod 4294967296 - 2147483648)%Z.
Definition INT_MAX : Z := 2147483647%Z.
Definition INT_MIN : Z := (- 2147483648)%Z.

(** [int64] is glib's [gint64]; a sum that leaves its range wraps around
    on the machines the program is built for. *)
Definition int64_wrap (z : Z) : Z :=
  ((z + 9223372036854775808) mod 18446744073709551616 - 9223372036854775808)%Z.
Definition INT64_MAX : Z := 9223372036854775807%Z.
Definition INT64_MIN : Z := (- 9223372036854775808)%Z.

Record ScheduledEvent : Type := mkScheduledEvent {
  ev_ptr : nat;            (* the address NEW(ScheduledEvent) returned *)
  nframes : Z;
  event_cb : EventCb;
  ev_data : Data
}.

Section Animation.
Variable D : Type.
Context `{Double D} `{Libm D}.

Inductive Morph : Type := mkMorph {
  type : MorphType;
  var : Var;
  start_value : D;
  end_value : D;
  t_start : D;
  t_end : D;
  step_cb : option MorphCb;      (* None is NULL *)
  end_cb : option MorphCb;
  data : Data;
  next : option Morph
}.

(** What a callback asks of this module. *)
Inductive ApiCall : Type :=
  | Call_schedule_event (cb : EventCb) (d : Data) (n : Z)
  | Call_morph_full (v : Var) (ty : MorphType) (target duration : D)
      (scb ecb : option MorphCb) (d : Data)
  | Call_morph (v : Var) (ty : MorphType) (target duration : D)
  | Call_morph_finish (v : Var)
  | Call_morph_break (v : Var).

(** The callbacks' code belongs to the clients of animation.c.  In this
    repository a scheduled event's callback starts, finishes or breaks
    morphs and schedules events (camera.c, fsv.c); a morph's step or end
    callback schedules events (camera.c) and otherwise touches state of
    other modules, never the morph queue that is being walked. *)
Record Client : Type := mkClient {
  event_code : EventCb -> Data -> list ApiCall;
  morph_cb_code : MorphCb -> Morph -> list (EventCb * Data * Z)
}.

(** Ghost record of what happened, newest first. *)
Inductive Fired : Type :=
  | Scheduled (ptr : nat) (cb : EventCb) (d : Data) (n : Z)
  | FiredEvent (ptr : nat) (cb : EventCb) (d : Data)
  | FiredStep (cb : MorphCb) (m : Morph)
  | FiredEnd (cb : MorphCb) (m : Morph).

Record State : Type := mkState {
  mem : Var -> D;                          (* the animated doubles *)
  clock : D;                               (* what xgettime( ) returns *)
  schevent_queue : list ScheduledEvent;
  morph_queue : list Morph;
  animation_active : bool;
  need_redraw : bool;                      (* globals.need_redraw *)
  next_ptr : nat;                          (* next address NEW gives out *)
  trace : list Fired
}.

Definition set_mem (f : Var -> D) (s : State) : State :=
  mkState f (clock s) (schevent_queue s) (morph_queue s)
    (animation_active s) (need_redraw s) (next_ptr s) (trace s).
Definition set_clock (t : D) (s : State) : State :=
  mkState (mem s) t (schevent_queue s) (morph_queue s)
    (animation_active s) (need_redraw s) (next_ptr s) (trace s).
Definition set_schevent_queue (q : list ScheduledEvent) (s : State) : State :=
  mkState (mem s) (clock s) q (morph_queue s)
    (animation_active s) (need_redraw s) (next_ptr s) (trace s).
Definition set_morph_queue (q : list Morph) (s : State) : State :=
  mkState (mem s) (clock s) (schevent_queue s) q
    (animation_active s) (need_redraw s) (next_ptr s) (trace s).
Definition set_animation_active (b : bool) (s : State) : State :=
  mkState (mem s) (clock s) (schevent_queue s) (morph_queue s)
    b (need_redraw s) (next_ptr s) (trace s).
Definition set_need_redraw (b : bool) (s : State) : State :=
  mkState (mem s) (clock s) (schevent_queue s) (morph_queue s)
    (animation_active s) b (next_ptr s) (trace s).
Definition set_next_ptr (n : nat) (s : State) : State :=
  mkState (mem s) (clock s) (schevent_queue s) (morph_queue s)
    (animation_active s) (need_redraw s) n (trace s).
Definition log (x : Fired) (s : State) : State :=
  mkState (mem s) (clock s) (schevent_queue s) (morph_queue s)
    (animation_active s) (need_redraw s) (next_ptr s) (x :: trace s).

(** [*var = x] *)
Definition store (v : Var) (x : D) (s : State) : State :=
  set_mem (fun u => if Var_eqb u v then x else mem s u) s.

Definition xgettime (s : State) : D := clock s.

(* redraw( ): the idle handler is (re)installed and both flags raised *)
Definition redraw (s : State) : State :=
  set_need_redraw true (set_animation_active true s).

(* schedule_event( ) *)
Definition schedule_event (cb : EventCb) (d : Data) (n : Z) (s : State) : State :=
  let new_schevent := mkScheduledEvent (next_ptr s) n cb d in
  let s := set_next_ptr (S (next_ptr s)) s in
  let s := log (Scheduled (ev_ptr new_schevent) cb d n) s in
  (* Make sure we're animating *)
  let s := if animation_active s then s else redraw s in
  (* Add new scheduled event to queue *)
  set_schevent_queue (new_schevent :: schevent_queue s) s.

(** [g_list_remove] on the event queue: the first link holding the pointer. *)
Fixpoint remove_ptr (p : nat) (q : list ScheduledEvent) : list ScheduledEvent :=
  match q with
  | [] => []
  | e :: q' => if Nat.eqb (ev_ptr e) p then q' else e :: remove_ptr p q'
  end.

(** [schevent->nframes = n] through the pointer. *)
Fixpoint write_nframes (p : nat) (n : Z) (q : list ScheduledEvent) : list ScheduledEvent :=
  match q with
  | [] => []
  | e :: q' =>
      if Nat.eqb (ev_ptr e) p
      then mkScheduledEvent (ev_ptr e) n (event_cb e) (ev_data e) :: q'
      else e :: write_nframes p n q'
  end.

(* compare_var( ) returns 0 when the two morphs are on the same variable;
   g_list_find_custom( ) returns the first link for which it does *)
Definition compare_var (m : Morph) (v : Var) : bool := negb (Var_eqb (var m) v).

Fixpoint g_list_find_custom (q : list Morph) (v : Var) : option Morph :=
  match q with
  | [] => None
  | m :: q' => if compare_var m v then g_list_find_custom q' v else Some m
  end.

(* last_morph_stage( ) *)
Fixpoint last_morph_stage (m : Morph) : Morph :=
  match next m with
  | None => m
  | Some m' => last_morph_stage m'
  end.

(** [last_morph_stage( m )->next = new_morph], seen from [m]. *)
Fixpoint set_last_next (m new_morph : Morph) : Morph :=
  mkMorph (type m) (var m) (start_value m) (end_value m) (t_start m) (t_end m)
    (step_cb m) (end_cb m) (data m)
    (match next m with
     | None => Some new_morph
     | Some m' => Some (set_last_next m' new_morph)
     end).

(** A write through the pointer [g_list_find_custom] returned: the first
    record on [v] is replaced by its updated version. *)
Fixpoint update_found (v : Var) (f : Morph -> Morph) (q : list Morph) : list Morph :=
  match q with
  | [] => []
  | m :: q' => if compare_var m v then m :: update_found v f q' else f m :: q'
  end.

(** [G_LIST_REMOVE(morph_queue, morph)] for the record found on [v]. *)
Fixpoint remove_found (v : Var) (q : list Morph) : list Morph :=
  match q with
  | [] => []
  | m :: q' => if compare_var m v then m :: remove_found v q' else q'
  end.

Definition set_times (m : Morph) (sv ts te : D) : Morph :=
  mkMorph (type m) (var m) sv (end_value m) ts te
    (step_cb m) (end_cb m) (data m) (next m).

Definition set_t_end (te : D) (m : Morph) : Morph :=
  mkMorph (type m) (var m) (start_value m) (end_value m) (t_start m) te
    (step_cb m) (end_cb m) (data m) (next m).

(* morph_full( ) *)
Definition morph_full (v : Var) (ty : MorphType) (target_value duration : D)
    (scb ecb : option MorphCb) (d : Data) (s : State) : State :=
  let t_now := xgettime s in
  (* Create new morph record *)
  let new_morph :=
    mkMorph ty v (mem s v) target_value t_now (t_now + duration)%D scb ecb d None in
  (* Check to see if the variable is already undergoing morphing *)
  match g_list_find_custom (morph_queue s) v with
  | None =>
      (* Variable is not being morphed *)
      let s := if animation_active s then s else redraw s in
      set_morph_queue (new_morph :: morph_queue s) s
  | Some morph =>
      (* Append new stage to the incumbent morph record(s) *)
      let mlast := last_morph_stage morph in
      let new_morph :=
        set_times new_morph (end_value mlast) (t_end mlast) (t_end mlast + duration)%D in
      set_morph_queue
        (update_found v (fun m => set_last_next m new_morph) (morph_queue s)) s
  end.

(* morph( ) *)
Definition morph (v : Var) (ty : MorphType) (target_value duration : D) (s : State) : State :=
  morph_full v ty target_value duration None None 0 s.

(* morph_finish( ) *)
Definition morph_finish (v : Var) (s : State) : State :=
  match g_list_find_custom (morph_queue s) v with
  | None => s   (* Variable is not being morphed *)
  | Some _ => set_morph_queue (update_found v (set_t_end d0) (morph_queue s)) s
  end.

(* morph_break( ) *)
Definition morph_break (v : Var) (s : State) : State :=
  match g_list_find_custom (morph_queue s) v with
  | None => s   (* Variable is not being morphed *)
  | Some _ => set_morph_queue (remove_found v (morph_queue s)) s
  end.

(** The stages of a record, first to last. *)
Fixpoint stages (m : Morph) : list Morph :=
  m :: match next m with
       | None => []
       | Some m' => stages m'
       end.

(** What one stage says, without its link to the next. *)
Definition stage_info (m : Morph) :=
  (type m, var m, start_value m, end_value m, t_start m, t_end m,
   step_cb m, end_cb m, data m).

(** The state of the queue the morph functions keep: one record per
    variable, and every stage of a record on the record's variable. *)
Definition chain_on (v : Var) (m : Morph) : Prop :=
  Forall (fun x => var x = v) (stages m).
Definition queue_ok (q : list Morph) : Prop :=
  NoDup (map var q) /\ Forall (fun m => chain_on (var m) m) q.

(** How often the end (step) callback of a morph on [v] has run. *)
Fixpoint count_end (v : Var) (tr : list Fired) : nat :=
  match tr with
  | [] => 0
  | FiredEnd _ m :: tr' => (if Var_eqb (var m) v then 1 else 0) + count_end v tr'
  | _ :: tr' => count_end v tr'
  end.
Fixpoint count_step (v : Var) (tr : list Fired) : nat :=
  match tr with
  | [] => 0
  | FiredStep _ m :: tr' => (if Var_eqb (var m) v then 1 else 0) + count_step v tr'
  | _ :: tr' => count_step v tr'
  end.

(** How often the event at address [p] has fired. *)
Fixpoint count_fired (p : nat) (tr : list Fired) : nat :=
  match tr with
  | [] => 0
  | FiredEvent q _ _ :: tr' => (if Nat.eqb q p then 1 else 0) + count_fired p tr'
  | _ :: tr' => count_fired p tr'
  end.

(** What a callback of a morph leaves alone: the doubles, the morph queue,
    the clock and the record of callbacks of morphs. *)
Definition same_morph_view (s s' : State) : Prop :=
  mem s' = mem s /\ morph_queue s' = morph_queue s /\ clock s' = clock s /\
  (forall v, count_end v (trace s') = count_end v (trace s)) /\
  (forall v, count_step v (trace s') = count_step v (trace s)).

Variable C : Client.

(** A step or end callback runs: it is recorded, and its code schedules
    its events. *)
Definition run_morph_cb (cb : MorphCb) (m : Morph) (s : State) : State :=
  fold_left (fun s c => match c with (e, d, n) => schedule_event e d n s end)
    (morph_cb_code C cb m) s.

(** The remapping of [percent] in morph_iteration( ). *)
Definition remap (ty : MorphType) (percent : D) : D :=
  match ty with
  | MORPH_LINEAR => percent
  | MORPH_QUADRATIC => SQR percent
  | MORPH_INV_QUADRATIC => (d1 - SQR (d1 - percent))%D
  | MORPH_SIGMOID => (d_lit 1 2 * (d1 - d_cos (d_PI * percent)))%D
  | MORPH_SIGMOID_ACCEL => (d_lit 1 2 * (d1 - d_cos (d_PI * SQR percent)))%D
  end.

(** The body of the loop of morph_iteration( ) for the record of one queue
    link.  A completed stage is replaced in the link by its successor and
    the link is looked at again ([continue]); the result is the record the
    link holds afterwards, [None] when the link was removed. *)
Fixpoint morph_link (t_now : D) (m : Morph) (s : State) : State * option Morph :=
  if (t_now >=? t_end m)%D then
    (* Morph complete - assign end value *)
    let s := store (var m) (end_value m) s in
    let s := match end_cb m with
             | Some cb => run_morph_cb cb m (log (FiredEnd cb m) s)
             | None => s
             end in
    match next m with
    | Some m' => morph_link t_now m' s      (* Drop in next stage *)
    | None => (s, None)                     (* Remove record from queue *)
    end
  else
    (* Update variable value using appropriate remapping *)
    let percent := ((t_now - t_start m) / (t_end m - t_start m))%D in
    let percent := remap (type m) percent in
    let s := store (var m) (INTERPOLATE percent (start_value m) (end_value m)) s in
    let s := match step_cb m with
             | Some cb => run_morph_cb cb m (log (FiredStep cb m) s)
             | None => s
             end in
    (s, Some m).

Fixpoint morph_loop (t_now : D) (mq_llink : list Morph) (s : State) : State * list Morph :=
  match mq_llink with
  | [] => (s, [])
  | m :: rest =>
      let (s1, r) := morph_link t_now m s in
      let (s2, q) := morph_loop t_now rest s1 in
      (s2, match r with Some m' => m' :: q | None => q end)
  end.

(* morph_iteration( ); the result says whether state changed *)
Definition morph_iteration (s : State) : State * bool :=
  let t_now := xgettime s in
  let (s', q) := morph_loop t_now (morph_queue s) s in
  (set_morph_queue q s', match morph_queue s with [] => false | _ => true end).

Definition api_call (c : ApiCall) (s : State) : State :=
  match c with
  | Call_schedule_event cb d n => schedule_event cb d n s
  | Call_morph_full v ty tg du scb ecb d => morph_full v ty tg du scb ecb d s
  | Call_morph v ty tg du => morph v ty tg du s
  | Call_morph_finish v => morph_finish v s
  | Call_morph_break v => morph_break v s
  end.

(** [(schevent->event_cb)( schevent->data )] *)
Definition run_event_cb (p : nat) (cb : EventCb) (d : Data) (s : State) : State :=
  fold_left (fun s c => api_call c s) (event_code C cb d) (log (FiredEvent p cb d) s).

(** The queue is a GList of links, one per event, each holding the address
    of its event.  A link is named here by the address it holds, and the
    fields of a link are read off the queue as it is at that moment. *)

(* the head of the list: [seq_llink = schevent_queue] *)
Definition first_link (q : list ScheduledEvent) : option nat :=
  match q with
  | [] => None
  | e :: _ => Some (ev_ptr e)
  end.

(* [(ScheduledEvent * )seq_llink->data] *)
Fixpoint link_data (p : nat) (q : list ScheduledEvent) : option ScheduledEvent :=
  match q with
  | [] => None
  | e :: q' => if Nat.eqb (ev_ptr e) p then Some e else link_data p q'
  end.

(* [seq_llink->next] *)
Fixpoint link_next (p : nat) (q : list ScheduledEvent) : option nat :=
  match q with
  | [] => None
  | e :: q' => if Nat.eqb (ev_ptr e) p then first_link q' else link_next p q'
  end.

(** The loop of scheduled_event_iteration( ), run for at most [fuel] links.
    [seq_llink] is the cursor, [None] for NULL; its successor is read from
    the queue as the callback left it, before the link is removed. *)
Fixpoint sched_loop (fuel : nat) (seq_llink : option nat) (s : State)
    (event_executed : bool) : option (State * bool) :=
  match seq_llink with
  | None => Some (s, event_executed)
  | Some p =>
      match fuel with
      | O => None
      | S fuel =>
          match link_data p (schevent_queue s) with
          | None => None      (* a cursor that is in no link of the queue *)
          | Some schevent =>
              let n := int_wrap (nframes schevent - 1) in
              let s := set_schevent_queue (write_nframes p n (schevent_queue s)) s in
              if (n <=? 0)%Z then
                (* Execute event *)
                let s := run_event_cb p (event_cb schevent) (ev_data schevent) s in
                (* Remove and free record *)
                let seq_llink := link_next p (schevent_queue s) in
                let s := set_schevent_queue (remove_ptr p (schevent_queue s)) s in
                sched_loop fuel seq_llink s true
              else
                sched_loop fuel (link_next p (schevent_queue s)) s event_executed
          end
      end
  end.

(* scheduled_event_iteration( ).  The loop is given one round per link the
   queue has when it begins; [sched_loop_returns] shows that it returns
   within these, and returns the same with any more. *)
Definition scheduled_event_iteration (s : State) : State * bool :=
  match sched_loop (List.length (schevent_queue s)) (first_link (schevent_queue s)) s false with
  | Some (s', event_executed) =>
      (s', event_executed || match schevent_queue s' with [] => false | _ => true end)
  | None => (s, true)
  end.

(** *** The environment of the scheduler *)

(** What can happen to the state between two looks at it: a tick of the
    event scheduler, a morph iteration, a call of the interface by some
    other module, the clock moving. *)
Inductive Op : Type :=
  | OpTick
  | OpMorphIteration
  | OpCall (c : ApiCall)
  | OpClock (t : D).

Definition do_op (op : Op) (s : State) : State :=
  match op with
  | OpTick => fst (scheduled_event_iteration s)
  | OpMorphIteration => fst (morph_iteration s)
  | OpCall c => api_call c s
  | OpClock t => set_clock t s
  end.

Definition run (ops : list Op) (s : State) : State :=
  fold_left (fun s op => do_op op s) ops s.

Fixpoint ticks (ops : list Op) : nat :=
  match ops with
  | [] => 0
  | OpTick :: ops' => S (ticks ops')
  | _ :: ops' => ticks ops'
  end.

(** The part of the state the event scheduler lives in: its queue, the
    allocator, and what the ghost record says of events. *)
Definition is_event_entry (x : Fired) : bool :=
  match x with
  | Scheduled _ _ _ _ | FiredEvent _ _ _ => true
  | _ => false
  end.

Definition ev_view (s : State) : list ScheduledEvent * nat * list Fired :=
  (schevent_queue s, next_ptr s, filter is_event_entry (trace s)).

Definition entry_ptr_below (n : nat) (x : Fired) : Prop :=
  match x with
  | Scheduled p _ _ _ | FiredEvent p _ _ => p < n
  | _ => True
  end.

(** Addresses in the queue are distinct and were given out by the
    allocator, as were those the record mentions. *)
Definition ev_ok (s : State) : Prop :=
  NoDup (map ev_ptr (schevent_queue s)) /\
  Forall (fun e => ev_ptr e < next_ptr s) (schevent_queue s) /\
  Forall (entry_ptr_below (next_ptr s)) (trace s).

(** The event at address [p], registered with callback [cb] and payload
    [d], is waiting with [k] frames on its counter and has not fired. *)
Definition Pending (p : nat) (cb : EventCb) (d : Data) (k : Z) (s : State) : Prop :=
  ev_ok s /\
  In (mkScheduledEvent p k cb d) (schevent_queue s) /\
  count_fired p (trace s) = 0.

(** The event at address [p] has fired, once, and is gone from the queue. *)
Definition Done (p : nat) (cb : EventCb) (d : Data) (s : State) : Prop :=
  ev_ok s /\
  ~ In p (map ev_ptr (schevent_queue s)) /\
  count_fired p (trace s) = 1 /\
  In (FiredEvent p cb d) (trace s) /\
  p < next_ptr s.

(** Every event registered at an address from [n0] on is in the queue with
    the counter it was registered with, and has not fired. *)
Definition Fresh (n0 : nat) (s : State) : Prop :=
  ev_ok s /\
  forall p cb d n, n0 <= p -> In (Scheduled p cb d n) (trace s) ->
    In (mkScheduledEvent p n cb d) (schevent_queue s) /\
    count_fired p (trace s) = 0.

End Animation.


Arguments stage_info {D} m.
Arguments var {D} m.
Arguments stages {D} m.

(** ** The filesystem tree (common.h) *)

Inductive FsvMode : Type :=
  | FSV_DISCV
  | FSV_MAPV
  | FSV_TREEV
  | FSV_SPLASH
  | FSV_NONE.

Inductive NodeType : Type :=
  | NODE_METANODE
  | NODE_DIRECTORY
  | NODE_REGFILE
  | NODE_SYMLINK
  | NODE_FIFO
  | NODE_SOCKET
  | NODE_CHARDEV
  | NODE_BLOCKDEV
  | NODE_UNKNOWN.

(** A [GNode] with the part of its descriptor the scanner fills in and the
    layout only reads.  Nodes are named by the unique [id] of their
    descriptor; [parent] and [children] hold such names ([children] is the
    first child followed by its [next] siblings). *)
Record GNode : Type := mkGNode {
  ntype : NodeType;            (* NODE_DESC(node)->type *)
  name : String.string;               (* NODE_DESC(node)->name *)
  size : Z;                    (* NODE_DESC(node)->size *)
  subtree_size : Z;            (* DIR_NODE_DESC(node)->subtree.size *)
  parent : option nat;         (* None is NULL *)
  children : list nat
}.

Definition Tree : Type := nat -> GNode.

Definition NODE_IS_DIR (t : Tree) (node : nat) : bool :=
  match ntype (t node) with NODE_DIRECTORY => true | _ => false end.
Definition NODE_IS_METANODE (t : Tree) (node : nat) : bool :=
  match ntype (t node) with NODE_METANODE => true | _ => false end.

(** [fits t n node]: the subtree of [node] is at most [n] levels high, so
    that a recursion that descends through [children] returns within [n]
    nested calls. *)
Fixpoint fits (t : Tree) (n : nat) (node : nat) : bool :=
  match n with
  | 0 => false
  | S n' => forallb (fits t n') (children (t node))
  end.

(** [rises t n node]: following [parent] from [node] reaches the root (whose
    parent is NULL) within [n] steps. *)
Fixpoint rises (t : Tree) (n : nat) (node : nat) : bool :=
  match n with
  | 0 => false
  | S n' => match parent (t node) with
            | None => true
            | Some up => rises t n' up
            end
  end.

(** ** geometry.c: the state of the display *)

(* Display lists *)
Inductive Dlist : Type :=
  | fstree_low_dlist
  | fstree_high_dlist
  | a_dlist (id : nat)
  | b_dlist (id : nat)
  | c_dlist (id : nat).

(** What is sent to OpenGL, as far as the caching protocol goes: display
    lists opened, closed and replayed, and geometry drawn directly (of the
    directory [id], or the cursor).  Transformations and rendering modes
    are left out. *)
Inductive GlCall : Type :=
  | GlNewList (dl : Dlist)       (* glNewList( dl, GL_COMPILE_AND_EXECUTE ) *)
  | GlEndList
  | GlCallList (dl : Dlist)
  | GlGeometry (id : nat)        (* faces of a directory or of its children *)
  | GlLabels (id : nat)          (* labels of a directory or of its children *)
  | GlCursor.

Section Geometry.
Variable D : Type.
Context `{Double D} `{Libm D}.

(* geometry.h *)
Record DiscVGeomParams : Type := mkDiscVGeomParams {
  radius : D;
  theta : D;
  pos_x : D;
  pos_y : D
}.

Record MapVGeomParams : Type := mkMapVGeomParams {
  c0_x : D;
  c0_y : D;
  c1_x : D;
  c1_y : D;
  height : D
}.

Record TreeVGeomParams : Type := mkTreeVGeomParams {
  leaf_distance : D;
  leaf_theta : D;
  leaf_height : D;
  platform_theta : D;
  platform_depth : D;
  platform_arc_width : D;
  platform_height : D;
  platform_subtree_arc_width : D
}.

(** Everything the collapse/expand controller and the layout engines read
    and write. *)
Record World : Type := mkWorld {
  anim : State D;   (* animation.c: doubles, clock, queues *)
  fsv_mode : FsvMode;   (* globals.fsv_mode *)
  current_node : nat;   (* globals.current_node *)
  ctree_expanded : nat -> bool;   (* GTK_CTREE_ROW(ctnode)->expanded, per directory *)
  a_dlist_stale : nat -> bool;   (* DirNodeDesc.a_dlist_stale *)
  b_dlist_stale : nat -> bool;   (* DirNodeDesc.b_dlist_stale *)
  c_dlist_stale : nat -> bool;   (* DirNodeDesc.c_dlist_stale *)
  geom_expanded : nat -> bool;   (* DirNodeDesc.geom_expanded *)
  node_flags : nat -> Z;   (* NodeDesc.flags *)
  fstree_low_draw_stage : Z;
  fstree_high_draw_stage : Z;
  gl : list GlCall;   (* what was sent to OpenGL, newest first *)
  discv_geom : nat -> DiscVGeomParams;   (* geomparams, DiscV reading *)
  mapv_geom : nat -> MapVGeomParams;   (* geomparams, MapV reading *)
  treev_geom : nat -> TreeVGeomParams;   (* geomparams, TreeV reading *)
  treev_core_radius : D;
  colexp_time : D;   (* static in colexp( ) *)
  depth : Z;   (* static in colexp( ) *)
  max_depth : Z;   (* static in colexp( ) *)
  scrollbars_colexp_adjust : bool;   (* colexp.c *)
  camera_manual_control : bool;   (* camera->manual_control *)
  camera_currently_moving : bool   (* camera.c *)
}.

Definition set_anim (x : State D) (w : World) : World :=
  mkWorld x (fsv_mode w) (current_node w) (ctree_expanded w) (a_dlist_stale w)
    (b_dlist_stale w) (c_dlist_stale w) (geom_expanded w) (node_flags w)
    (fstree_low_draw_stage w) (fstree_high_draw_stage w) (gl w) (discv_geom w)
    (mapv_geom w) (treev_geom w) (treev_core_radius w) (colexp_time w)
    (depth w) (max_depth w) (scrollbars_colexp_adjust w)
    (camera_manual_control w) (camera_currently_moving w).
Definition set_fsv_mode (x : FsvMode) (w : World) : World :=
  mkWorld (anim w) x (current_node w) (ctree_expanded w) (a_dlist_stale w)
    (b_dlist_stale w) (c_dlist_stale w) (geom_expanded w) (node_flags w)
    (fstree_low_draw_stage w) (fstree_high_draw_stage w) (gl w) (discv_geom w)
    (mapv_geom w) (treev_geom w) (treev_core_radius w) (colexp_time w)
    (depth w) (max_depth w) (scrollbars_colexp_adjust w)
    (camera_manual_control w) (camera_currently_moving w).
Definition set_current_node (x : nat) (w : World) : World :=
  mkWorld (anim w) (fsv_mode w) x (ctree_expanded w) (a_dlist_stale w)
    (b_dlist_stale w) (c_dlist_stale w) (geom_expanded w) (node_flags w)
    (fstree_low_draw_stage w) (fstree_high_draw_stage w) (gl w) (discv_geom w)
    (mapv_geom w) (treev_geom w) (treev_core_radius w) (colexp_time w)
    (depth w) (max_depth w) (scrollbars_colexp_adjust w)
    (camera_manual_control w) (camera_currently_moving w).
Definition set_ctree_expanded (x : nat -> bool) (w : World) : World :=
  mkWorld (anim w) (fsv_mode w) (current_node w) x (a_dlist_stale w)
    (b_dlist_stale w) (c_dlist_stale w) (geom_expanded w) (node_flags w)
    (fstree_low_draw_stage w) (fstree_high_draw_stage w) (gl w) (discv_geom w)
    (mapv_geom w) (treev_geom w) (treev_core_radius w) (colexp_time w)
    (depth w) (max_depth w) (scrollbars_colexp_adjust w)
    (camera_manual_control w) (camera_currently_moving w).
Definition set_a_dlist_stale (x : nat -> bool) (w : World) : World :=
  mkWorld (anim w) (fsv_mode w) (current_node w) (ctree_expanded w) x
    (b_dlist_stale w) (c_dlist_stale w) (geom_expanded w) (node_flags w)
    (fstree_low_draw_stage w) (fstree_high_draw_stage w) (gl w) (discv_geom w)
    (mapv_geom w) (treev_geom w) (treev_core_radius w) (colexp_time w)
    (depth w) (max_depth w) (scrollbars_colexp_adjust w)
    (camera_manual_control w) (camera_currently_moving w).
Definition set_b_dlist_stale (x : nat -> bool) (w : World) : World :=
  mkWorld (anim w) (fsv_mode w) (current_node w) (ctree_expanded w)
    (a_dlist_stale w) x (c_dlist_stale w) (geom_expanded w) (node_flags w)
    (fstree_low_draw_stage w) (fstree_high_draw_stage w) (gl w) (discv_geom w)
    (mapv_geom w) (treev_geom w) (treev_core_radius w) (colexp_time w)
    (depth w) (max_depth w) (scrollbars_colexp_adjust w)
    (camera_manual_control w) (camera_currently_moving w).
Definition set_c_dlist_stale (x : nat -> bool) (w : World) : World :=
  mkWorld (anim w) (fsv_mode w) (current_node w) (ctree_expanded w)
    (a_dlist_stale w) (b_dlist_stale w) x (geom_expanded w) (node_flags w)
    (fstree_low_draw_stage w) (fstree_high_draw_stage w) (gl w) (discv_geom w)
    (mapv_geom w) (treev_geom w) (treev_core_radius w) (colexp_time w)
    (depth w) (max_depth w) (scrollbars_colexp_adjust w)
    (camera_manual_control w) (camera_currently_moving w).
Definition set_geom_expanded (x : nat -> bool) (w : World) : World :=
  mkWorld (anim w) (fsv_mode w) (current_node w) (ctree_expanded w)
    (a_dlist_stale w) (b_dlist_stale w) (c_dlist_stale w) x (node_flags w)
    (fstree_low_draw_stage w) (fstree_high_draw_stage w) (gl w) (discv_geom w)
    (mapv_geom w) (treev_geom w) (treev_core_radius w) (colexp_time w)
    (depth w) (max_depth w) (scrollbars_colexp_adjust w)
    (camera_manual_control w) (camera_currently_moving w).
Definition set_node_flags (x : nat -> Z) (w : World) : World :=
  mkWorld (anim w) (fsv_mode w) (current_node w) (ctree_expanded w)
    (a_dlist_stale w) (b_dlist_stale w) (c_dlist_stale w) (geom_expanded w) x
    (fstree_low_draw_stage w) (fstree_high_draw_stage w) (gl w) (discv_geom w)
    (mapv_geom w) (treev_geom w) (treev_core_radius w) (colexp_time w)
    (depth w) (max_depth w) (scrollbars_colexp_adjust w)
    (camera_manual_control w) (camera_currently_moving w).
Definition set_fstree_low_draw_stage (x : Z) (w : World) : World :=
  mkWorld (anim w) (fsv_mode w) (current_node w) (ctree_expanded w)
    (a_dlist_stale w) (b_dlist_stale w) (c_dlist_stale w) (geom_expanded w)
    (node_flags w) x (fstree_high_draw_stage w) (gl w) (discv_geom w)
    (mapv_geom w) (treev_geom w) (treev_core_radius w) (colexp_time w)
    (depth w) (max_depth w) (scrollbars_colexp_adjust w)
    (camera_manual_control w) (camera_currently_moving w).
Definition set_fstree_high_draw_stage (x : Z) (w : World) : World :=
  mkWorld (anim w) (fsv_mode w) (current_node w) (ctree_expanded w)
    (a_dlist_stale w) (b_dlist_stale w) (c_dlist_stale w) (geom_expanded w)
    (node_flags w) (fstree_low_draw_stage w) x (gl w) (discv_geom w)
    (mapv_geom w) (treev_geom w) (treev_core_radius w) (colexp_time w)
    (depth w) (max_depth w) (scrollbars_colexp_adjust w)
    (camera_manual_control w) (camera_currently_moving w).
Definition set_gl (x : list GlCall) (w : World) : World :=
  mkWorld (anim w) (fsv_mode w) (current_node w) (ctree_expanded w)
    (a_dlist_stale w) (b_dlist_stale w) (c_dlist_stale w) (geom_expanded w)
    (node_flags w) (fstree_low_draw_stage w) (fstree_high_draw_stage w) x
    (discv_geom w) (mapv_geom w) (treev_geom w) (treev_core_radius w)
    (colexp_time w) (depth w) (max_depth w) (scrollbars_colexp_adjust w)
    (camera_manual_control w) (camera_currently_moving w).
Definition set_discv_geom (x : nat -> DiscVGeomParams) (w : World) : World :=
  mkWorld (anim w) (fsv_mode w) (current_node w) (ctree_expanded w)
    (a_dlist_stale w) (b_dlist_stale w) (c_dlist_stale w) (geom_expanded w)
    (node_flags w) (fstree_low_draw_stage w) (fstree_high_draw_stage w) (gl w)
    x (mapv_geom w) (treev_geom w) (treev_core_radius w) (colexp_time w)
    (depth w) (max_depth w) (scrollbars_colexp_adjust w)
    (camera_manual_control w) (camera_currently_moving w).
Definition set_mapv_geom (x : nat -> MapVGeomParams) (w : World) : World :=
  mkWorld (anim w) (fsv_mode w) (current_node w) (ctree_expanded w)
    (a_dlist_stale w) (b_dlist_stale w) (c_dlist_stale w) (geom_expanded w)
    (node_flags w) (fstree_low_draw_stage w) (fstree_high_draw_stage w) (gl w)
    (discv_geom w) x (treev_geom w) (treev_core_radius w) (colexp_time w)
    (depth w) (max_depth w) (scrollbars_colexp_adjust w)
    (camera_manual_control w) (camera_currently_moving w).
Definition set_treev_geom (x : nat -> TreeVGeomParams) (w : World) : World :=
  mkWorld (anim w) (fsv_mode w) (current_node w) (ctree_expanded w)
    (a_dlist_stale w) (b_dlist_stale w) (c_dlist_stale w) (geom_expanded w)
    (node_flags w) (fstree_low_draw_stage w) (fstree_high_draw_stage w) (gl w)
    (discv_geom w) (mapv_geom w) x (treev_core_radius w) (colexp_time w)
    (depth w) (max_depth w) (scrollbars_colexp_adjust w)
    (camera_manual_control w) (camera_currently_moving w).
Definition set_treev_core_radius (x : D) (w : World) : World :=
  mkWorld (anim w) (fsv_mode w) (current_node w) (ctree_expanded w)
    (a_dlist_stale w) (b_dlist_stale w) (c_dlist_stale w) (geom_expanded w)
    (node_flags w) (fstree_low_draw_stage w) (fstree_high_draw_stage w) (gl w)
    (discv_geom w) (mapv_geom w) (treev_geom w) x (colexp_time w) (depth w)
    (max_depth w) (scrollbars_colexp_adjust w) (camera_manual_control w)
    (camera_currently_moving w).
Definition set_colexp_time (x : D) (w : World) : World :=
  mkWorld (anim w) (fsv_mode w) (current_node w) (ctree_expanded w)
    (a_dlist_stale w) (b_dlist_stale w) (c_dlist_stale w) (geom_expanded w)
    (node_flags w) (fstree_low_draw_stage w) (fstree_high_draw_stage w) (gl w)
    (discv_geom w) (mapv_geom w) (treev_geom w) (treev_core_radius w) x
    (depth w) (max_depth w) (scrollbars_colexp_adjust w)
    (camera_manual_control w) (camera_currently_moving w).
Definition set_depth (x : Z) (w : World) : World :=
  mkWorld (anim w) (fsv_mode w) (current_node w) (ctree_expanded w)
    (a_dlist_stale w) (b_dlist_stale w) (c_dlist_stale w) (geom_expanded w)
    (node_flags w) (fstree_low_draw_stage w) (fstree_high_draw_stage w) (gl w)
    (discv_geom w) (mapv_geom w) (treev_geom w) (treev_core_radius w)
    (colexp_time w) x (max_depth w) (scrollbars_colexp_adjust w)
    (camera_manual_control w) (camera_currently_moving w).
Definition set_max_depth (x : Z) (w : World) : World :=
  mkWorld (anim w) (fsv_mode w) (current_node w) (ctree_expanded w)
    (a_dlist_stale w) (b_dlist_stale w) (c_dlist_stale w) (geom_expanded w)
    (node_flags w) (fstree_low_draw_stage w) (fstree_high_draw_stage w) (gl w)
    (discv_geom w) (mapv_geom w) (treev_geom w) (treev_core_radius w)
    (colexp_time w) (depth w) x (scrollbars_colexp_adjust w)
    (camera_manual_control w) (camera_currently_moving w).
Definition set_scrollbars_colexp_adjust (x : bool) (w : World) : World :=
  mkWorld (anim w) (fsv_mode w) (current_node w) (ctree_expanded w)
    (a_dlist_stale w) (b_dlist_stale w) (c_dlist_stale w) (geom_expanded w)
    (node_flags w) (fstree_low_draw_stage w) (fstree_high_draw_stage w) (gl w)
    (discv_geom w) (mapv_geom w) (treev_geom w) (treev_core_radius w)
    (colexp_time w) (depth w) (max_depth w) x (camera_manual_control w)
    (camera_currently_moving w).
Definition set_camera_manual_control (x : bool) (w : World) : World :=
  mkWorld (anim w) (fsv_mode w) (current_node w) (ctree_expanded w)
    (a_dlist_stale w) (b_dlist_stale w) (c_dlist_stale w) (geom_expanded w)
    (node_flags w) (fstree_low_draw_stage w) (fstree_high_draw_stage w) (gl w)
    (discv_geom w) (mapv_geom w) (treev_geom w) (treev_core_radius w)
    (colexp_time w) (depth w) (max_depth w) (scrollbars_colexp_adjust w) x
    (camera_currently_moving w).
Definition set_camera_currently_moving (x : bool) (w : World) : World :=
  mkWorld (anim w) (fsv_mode w) (current_node w) (ctree_expanded w)
    (a_dlist_stale w) (b_dlist_stale w) (c_dlist_stale w) (geom_expanded w)
    (node_flags w) (fstree_low_draw_stage w) (fstree_high_draw_stage w) (gl w)
    (discv_geom w) (mapv_geom w) (treev_geom w) (treev_core_radius w)
    (colexp_time w) (depth w) (max_depth w) (scrollbars_colexp_adjust w)
    (camera_manual_control w) x.

(** [f[id] = x] for a per-node field. *)
Definition upd {A : Type} (f : nat -> A) (id : nat) (x : A) : nat -> A :=
  fun i => if Nat.eqb i id then x else f i.

(** The [deployment] of a directory. *)
Definition deployment (w : World) (id : nat) : D := mem (anim w) (VarDeployment id).
Definition set_deployment (id : nat) (x : D) (w : World) : World :=
  set_anim (store (VarDeployment id) x (anim w)) w.

Definition DIR_COLLAPSED (w : World) (dnode : nat) : bool :=
  (deployment w dnode <? EPSILON)%D.
Definition DIR_EXPANDED (w : World) (dnode : nat) : bool :=
  (deployment w dnode >? d1 - EPSILON)%D.

(* dirtree_entry_expanded( ) *)
Definition dirtree_entry_expanded (w : World) (dnode : nat) : bool :=
  ctree_expanded w dnode.

Definition glcall (c : GlCall) (w : World) : World := set_gl (c :: gl w) w.

(* queue_uncached_draw( ) *)
Definition queue_uncached_draw (w : World) : World :=
  set_fstree_high_draw_stage 0 (set_fstree_low_draw_stage 0 w).

(* geometry_queue_rebuild( ) *)
Definition geometry_queue_rebuild (dnode : nat) (w : World) : World :=
  let w := set_a_dlist_stale (upd (a_dlist_stale w) dnode true) w in
  let w := set_b_dlist_stale (upd (b_dlist_stale w) dnode true) w in
  let w := set_c_dlist_stale (upd (c_dlist_stale w) dnode true) w in
  queue_uncached_draw w.

(** *** MapV: drawing *)

Inductive MapVAction : Type :=
  | MAPV_DRAW_GEOMETRY
  | MAPV_DRAW_LABELS.

Variable t : Tree.

(** The loop "recurse into subdirectories": it stops at the first child
    that is not a directory. *)
Fixpoint subdirs_loop (rec : nat -> World -> option World) (nodes : list nat)
    (w : World) : option World :=
  match nodes with
  | [] => Some w
  | node :: rest =>
      if NODE_IS_DIR t node then
        match rec node w with
        | Some w' => subdirs_loop rec rest w'
        | None => None
        end
      else Some w
  end.

(* mapv_draw_recursive( ); [None] when [fuel] nested calls do not suffice *)
Fixpoint mapv_draw_recursive (fuel : nat) (dnode : nat) (action : MapVAction)
    (w : World) : option World :=
  match fuel with
  | 0 => None
  | S fuel' =>
      let dir_collapsed := DIR_COLLAPSED w dnode in
      let w :=
        match action with
        | MAPV_DRAW_GEOMETRY =>
            (* Draw directory face or geometry of children (display list A) *)
            if a_dlist_stale w dnode then
              let w := glcall (GlNewList (a_dlist dnode)) w in
              let w := glcall (GlGeometry dnode) w in
              let w := glcall GlEndList w in
              set_a_dlist_stale (upd (a_dlist_stale w) dnode false) w
            else glcall (GlCallList (a_dlist dnode)) w
        | MAPV_DRAW_LABELS =>
            (* Draw name label(s) (display list B) *)
            if b_dlist_stale w dnode then
              let w := glcall (GlNewList (b_dlist dnode)) w in
              let w := glcall (GlLabels dnode) w in
              let w := glcall GlEndList w in
              set_b_dlist_stale (upd (b_dlist_stale w) dnode false) w
            else glcall (GlCallList (b_dlist dnode)) w
        end in
      (* Update geometry status *)
      let w := set_geom_expanded (upd (geom_expanded w) dnode (negb dir_collapsed)) w in
      if negb dir_collapsed then
        (* Recurse into subdirectories *)
        subdirs_loop (fun node => mapv_draw_recursive fuel' node action)
          (children (t dnode)) w
      else Some w
  end.

(** *** TreeV: platforms *)

(* geometry.h, geometry.c *)
Definition TREEV_LEAF_NODE_EDGE : D := d_of_Z 256.
Definition TREEV_PLATFORM_SPACING_DEPTH : D := d_of_Z 2048.
Definition TREEV_MIN_ARC_WIDTH : D := d_of_Z 90.
Definition TREEV_MAX_ARC_WIDTH : D := d_of_Z 225.
Definition TREEV_MIN_CORE_RADIUS : D := d_of_Z 8192.
Definition TREEV_CORE_GROW_FACTOR : D := d_lit 5 4.
Definition TREEV_PLATFORM_HEIGHT : D := d_lit 1582 10.
Definition TREEV_PLATFORM_SPACING_WIDTH : D := d_of_Z 512.
Definition TREEV_NEED_REARRANGE : Z := 1%Z.

(* geometry_treev_is_leaf( ) *)
Definition geometry_treev_is_leaf (w : World) (node : nat) : bool :=
  if NODE_IS_DIR t node then
    if dirtree_entry_expanded w node then false else true
  else true.

(** The walk up the parents in geometry_treev_platform_r0( ). *)
Fixpoint platform_r0_loop (fuel : nat) (w : World) (up_node : option nat) (r0 : D)
    : option D :=
  match up_node with
  | None => Some r0
  | Some up =>
      match fuel with
      | 0 => None
      | S fuel' =>
          let r0 := (r0 + TREEV_PLATFORM_SPACING_DEPTH)%D in
          let r0 := (r0 + platform_depth (treev_geom w up))%D in
          platform_r0_loop fuel' w (parent (t up)) r0
      end
  end.

(* geometry_treev_platform_r0( ) *)
Definition geometry_treev_platform_r0 (fuel : nat) (w : World) (dnode : nat) : option D :=
  if NODE_IS_METANODE t dnode then Some (treev_core_radius w)
  else
    match platform_r0_loop fuel w (parent (t dnode)) d0 with
    | Some r0 => Some (r0 + treev_core_radius w)%D
    | None => None
    end.

(** The arithmetic of treev_reshape_platform( ): from the number [n] of
    children and the inner radius [r0] to the depth [d] and arc width
    [theta] that solve the cubic, and to the depth and arc width that are
    assigned. *)
Record PlatformShape : Type := mkPlatformShape {
  shape_area : D;            (* A *)
  shape_d : D;               (* d *)
  shape_theta : D;           (* theta *)
  shape_depth : D;           (* platform.depth *)
  shape_min_arc_width : D;
  shape_arc_width : D        (* platform.arc_width *)
}.

(** The depth [d] that treev_reshape_platform( ) computes from the area
    [A] and the inner radius [r]: the closed form of a root of
    [d^3 + (2*r + w)*d^2 + (2*w*r - 2*A - w)*d - 2*A*r = 0]. *)
Definition treev_cubic_solution (A r : D) : D :=
  let c : Z -> D := d_of_Z in
  let w := TREEV_PLATFORM_SPACING_WIDTH in
  let w_2 := SQR TREEV_PLATFORM_SPACING_WIDTH in
  let w_3 := (SQR TREEV_PLATFORM_SPACING_WIDTH * TREEV_PLATFORM_SPACING_WIDTH)%D in
  let w_4 := (SQR TREEV_PLATFORM_SPACING_WIDTH * SQR TREEV_PLATFORM_SPACING_WIDTH)%D in
  let A_2 := SQR A in
  let A_3 := (A * A_2)%D in
  let r_2 := SQR r in
  let r_3 := (r * r_2)%D in
  let r_4 := SQR r_2 in
  let ka := (c 72%Z * (A * r - w * (A + r)) - c 64%Z * r_3 + c 48%Z * r_2 * w
             - c 36%Z * w_2 + c 24%Z * r * w_2 - c 8%Z * w_3)%D in
  let kb := (c 12%Z * d_sqrt
     (c 72%Z * A * w_2 - c 132%Z * A * r * w_2 - c 240%Z * A * w * r_3
      + c 120%Z * A * w_2 * r_2 - c 24%Z * A_2 * w * r - c 60%Z * w_3 * r
      + c 12%Z * (w_2 * r_2 + A_2 * w_2 - w_4 * r + w_4 * r_2 + A * w_3 + w_3)
      + c 48%Z * (w_2 * r_4 - w_2 * r_3 - w_3 * r_3) + c 96%Z * (A_3 + w_3 * r_2)
      + c 192%Z * A * r_4 + c 156%Z * A_2 * r_2 + c 3%Z * w_4 + c 144%Z * A_2 * w
      + c 264%Z * A * w * r_2))%D in
  let kc := d_cos (d_atan2 kb ka / c 3%Z)%D in
  let kd := d_cbrt (d_hypot ka kb) in
  (* Bring it all together *)
  ((- w - c 2%Z * r) / c 3%Z
   + ((c 8%Z * r_2 - c 4%Z * w * r + c 2%Z * w_2) / c 3%Z + c 4%Z * A + c 2%Z * w) * kc / kd
   + kc * kd / c 6%Z)%D.

Definition treev_platform_shape (n : Z) (r0 : D) : PlatformShape :=
  let c : Z -> D := d_of_Z in
  let edge05 := (d_lit 1 2 * TREEV_LEAF_NODE_EDGE)%D in
  let edge15 := (d_lit 3 2 * TREEV_LEAF_NODE_EDGE)%D in
  let w := TREEV_PLATFORM_SPACING_WIDTH in
  (* Estimated area, based on number of (immediate) children *)
  let k := (edge15 * d_ceil (d_sqrt (d_of_Z (Z.max 1 n))) + edge05)%D in
  let area := SQR k in
  let d := treev_cubic_solution area r0 in
  let theta := (c 180%Z * (d + w) / (d_PI * (r0 + d)))%D in
  (* Adjust depth upward to accomodate an integral number of rows *)
  let depth := (d + ((edge15 - d_fmod (d - edge05) edge15) + edge05))%D in
  (* Final arc width must be at least large enough to yield an
     inner edge length that is two leaf node edges long *)
  let min_arc_width :=
    (c 180%Z * (c 2%Z * TREEV_LEAF_NODE_EDGE + TREEV_PLATFORM_SPACING_WIDTH) / d_PI / r0)%D in
  mkPlatformShape area d theta depth min_arc_width (MAX min_arc_width theta).

(* treev_reshape_platform( ) *)
Definition treev_reshape_platform (dnode : nat) (r0 : D) (w : World) : World :=
  let sh := treev_platform_shape (Z.of_nat (List.length (children (t dnode)))) r0 in
  let g := treev_geom w dnode in
  let g := mkTreeVGeomParams (leaf_distance g) (leaf_theta g) (leaf_height g)
             (platform_theta g) (shape_depth sh) (shape_arc_width sh)
             (platform_height g) (platform_subtree_arc_width g) in
  let w := set_treev_geom (upd (treev_geom w) dnode g) w in
  (* Directory will need rebuilding, obviously *)
  geometry_queue_rebuild dnode w.

(* geometry_colexp_initiated( ) *)
Definition geometry_colexp_initiated (fuel : nat) (dnode : nat) (w : World) : option World :=
  match DIR_COLLAPSED w dnode, fsv_mode w with
  | true, FSV_TREEV =>
      match geometry_treev_platform_r0 fuel w dnode with
      | Some r0 => Some (treev_reshape_platform dnode r0 w)
      | None => None
      end
  | _, _ => Some w
  end.

(** [globals.fstree], the root metanode. *)
Variable fstree : nat.

(* mapv_draw( ) *)
Definition mapv_draw (fuel : nat) (high_detail : bool) (w : World) : option World :=
  (* Draw low-detail geometry *)
  let stage := fstree_low_draw_stage w in
  let w := if (stage =? 1)%Z then glcall (GlNewList fstree_low_dlist) w else w in
  match (if (stage <=? 1)%Z
         then mapv_draw_recursive fuel fstree MAPV_DRAW_GEOMETRY w
         else Some (glcall (GlCallList fstree_low_dlist) w)) with
  | None => None
  | Some w =>
      let w := if (stage =? 1)%Z then glcall GlEndList w else w in
      let w := if (stage <=? 1)%Z then set_fstree_low_draw_stage (stage + 1) w else w in
      if high_detail then
        (* Draw additional high-detail stuff *)
        let hstage := fstree_high_draw_stage w in
        let w := if (hstage =? 1)%Z then glcall (GlNewList fstree_high_dlist) w else w in
        match (if (hstage <=? 1)%Z then
                 (* "Cel lines" *)
                 match (if (fstree_low_draw_stage w <=? 1)%Z
                        then mapv_draw_recursive fuel fstree MAPV_DRAW_GEOMETRY w
                        else Some (glcall (GlCallList fstree_low_dlist) w)) with
                 | None => None
                 | Some w =>
                     (* Node name labels *)
                     mapv_draw_recursive fuel fstree MAPV_DRAW_LABELS w
                 end
               else Some (glcall (GlCallList fstree_high_dlist) w)) with
        | None => None
        | Some w =>
            let w := if (hstage =? 1)%Z then glcall GlEndList w else w in
            let w := if (hstage <=? 1)%Z
                     then set_fstree_high_draw_stage (hstage + 1) w else w in
            (* Node cursor *)
            Some (glcall GlCursor w)
        end
      else Some w
  end.

(** *** What the draw protocol is to send *)

(** The scanner sorts the children of a directory with the directories in
    front: no directory comes after a node that is not one. *)
Fixpoint dirs_lead (nodes : list nat) : bool :=
  match nodes with
  | [] => true
  | node :: rest =>
      if NODE_IS_DIR t node then dirs_lead rest
      else forallb (fun n => negb (NODE_IS_DIR t n)) rest
  end.

Definition dirs_first : Prop := forall d, dirs_lead (children (t d)) = true.

(** The directories on display in [w], from [dnode] down: [dnode], and
    unless it is collapsed every directory among its children with what
    is on display below it. *)
Fixpoint visible_dirs (fuel : nat) (w : World) (dnode : nat) : list nat :=
  match fuel with
  | 0 => []
  | S fuel' =>
      dnode :: (if DIR_COLLAPSED w dnode then []
                else flat_map (visible_dirs fuel' w)
                       (filter (NODE_IS_DIR t) (children (t dnode))))
  end.

(** The display list of a directory that an action works through, what
    the action draws into it, and the flag that says the list is stale. *)
Definition action_dlist (action : MapVAction) (d : nat) : Dlist :=
  match action with
  | MAPV_DRAW_GEOMETRY => a_dlist d
  | MAPV_DRAW_LABELS => b_dlist d
  end.
Definition action_draws (action : MapVAction) (d : nat) : GlCall :=
  match action with
  | MAPV_DRAW_GEOMETRY => GlGeometry d
  | MAPV_DRAW_LABELS => GlLabels d
  end.
Definition action_stale (action : MapVAction) (w : World) : nat -> bool :=
  match action with
  | MAPV_DRAW_GEOMETRY => a_dlist_stale w
  | MAPV_DRAW_LABELS => b_dlist_stale w
  end.

(** The directories [ds] drawn one after the other, each through its own
    display list: a list that is stale is rebuilt around the drawing and
    is stale no more, a list that is not is replayed.  The calls sent,
    newest first, and the flags afterwards. *)
Fixpoint draw_dirs (action : MapVAction) (ds : list nat) (stale : nat -> bool)
    : list GlCall * (nat -> bool) :=
  match ds with
  | [] => ([], stale)
  | d :: ds' =>
      let here :=
        if stale d
        then [GlEndList; action_draws action d; GlNewList (action_dlist action d)]
        else [GlCallList (action_dlist action d)] in
      let (l, stale') :=
        draw_dirs action ds' (if stale d then upd stale d false else stale) in
      (l ++ here, stale')
  end.

(** A full recursive draw of the tree as [w] shows it: every directory on
    display is drawn, from the root metanode down, and nothing else is
    sent. *)
Definition recursive_draw (fuel : nat) (action : MapVAction) (w : World)
    (stale : nat -> bool) (l : list GlCall) : Prop :=
  l = fst (draw_dirs action (visible_dirs fuel w fstree) stale).

(** What the low-detail part of a frame is to send at stage [s], drawing
    the tree as [w] shows it, and the flags of the geometry lists after
    it. *)
Definition low_part (fuel : nat) (s : Z) (w : World) (l : list GlCall) : Prop :=
  if (s <=? 0)%Z then recursive_draw fuel MAPV_DRAW_GEOMETRY w (a_dlist_stale w) l
  else if (s =? 1)%Z then
    exists r, recursive_draw fuel MAPV_DRAW_GEOMETRY w (a_dlist_stale w) r /\
              l = GlEndList :: r ++ [GlNewList fstree_low_dlist]
  else l = [GlCallList fstree_low_dlist].

Definition low_stale (fuel : nat) (s : Z) (w : World) : nat -> bool :=
  if (s <=? 1)%Z
  then snd (draw_dirs MAPV_DRAW_GEOMETRY (visible_dirs fuel w fstree) (a_dlist_stale w))
  else a_dlist_stale w.

(** What the high-detail part is to send at stage [s], the low-detail
    stage of the frame being [s_low]: the outlines (one more recursive
    draw of the geometry, or a replay of the low-detail list of the whole
    tree once that is captured), then the labels, drawn recursively, and
    the cursor. *)
Definition high_part (fuel : nat) (s s_low : Z) (w : World) (l : list GlCall) : Prop :=
  if (s <=? 1)%Z then
    exists outl lab,
      recursive_draw fuel MAPV_DRAW_LABELS w (b_dlist_stale w) lab /\
      (if (s_low <=? 0)%Z
       then recursive_draw fuel MAPV_DRAW_GEOMETRY w (low_stale fuel s_low w) outl
       else outl = [GlCallList fstree_low_dlist]) /\
      l = GlCursor :: (if (s =? 1)%Z then [GlEndList] else [])
            ++ lab ++ outl
            ++ (if (s =? 1)%Z then [GlNewList fstree_high_dlist] else [])
  else l = [GlCursor; GlCallList fstree_high_dlist].

(** Successive frames. *)
Fixpoint mapv_draws (fuel : nat) (hs : list bool) (w : World) : option World :=
  match hs with
  | [] => Some w
  | h :: hs' =>
      match mapv_draw fuel h w with
      | Some w' => mapv_draws fuel hs' w'
      | None => None
      end
  end.

End Geometry.

Arguments TREEV_PLATFORM_SPACING_DEPTH {D} {H}.
Arguments TREEV_MAX_ARC_WIDTH {D} {H}.
Arguments TREEV_MIN_ARC_WIDTH {D} {H}.
Arguments TREEV_MIN_CORE_RADIUS {D} {H}.
Arguments TREEV_CORE_GROW_FACTOR {D} {H}.
Arguments TREEV_PLATFORM_HEIGHT {D} {H}.
Arguments TREEV_LEAF_NODE_EDGE {D} {H}.
Arguments TREEV_PLATFORM_SPACING_WIDTH {D} {H}.

(** ** geometry.c: MapV layout *)

Section MapVLayout.
Variable D : Type.
Context `{Double D} `{Libm D}.
Variable t : Tree.

Local Open Scope double_scope.

Definition MAPV_BORDER_PROPORTION : D := d_lit 1 100.
Definition MAPV_ROOT_ASPECT_RATIO : D := d_lit 12 10.

(** [mapv_side_slant_ratios[NODE_DIRECTORY]]: the table is of [float], so
    the double read from it is the binary32 nearest to 0.032, which is
    8589935 / 2^28. *)
Definition mapv_side_slant_ratio_directory : D := d_lit 8589935 268435456.

(* Heights of directory and leaf nodes *)
Definition mapv_dir_height : D := d_of_Z 384.
Definition mapv_leaf_height : D := d_of_Z 128.

(* geometry.h *)
Definition MAPV_NODE_WIDTH (g : MapVGeomParams D) : D := c1_x g - c0_x g.
Definition MAPV_NODE_DEPTH (g : MapVGeomParams D) : D := c1_y g - c0_y g.
Definition MAPV_NODE_CENTER_X (g : MapVGeomParams D) : D := d_lit 1 2 * (c0_x g + c1_x g).
Definition MAPV_NODE_CENTER_Y (g : MapVGeomParams D) : D := d_lit 1 2 * (c0_y g + c1_y g).

(** A block is a node with its surrounding border area; a row is a run of
    consecutive blocks of the block list.  The C code marks a row by a
    pointer to its first block and walks the block list up to the first
    block of the next row; here a row holds its blocks. *)
Record MapVBlock : Type := mkMapVBlock {
  blk_node : nat;
  blk_area : D
}.

Record MapVRow : Type := mkMapVRow {
  row_blocks : list MapVBlock;
  row_area : D
}.

(** [size = MAX(256, NODE_DESC(node)->size); if (NODE_IS_DIR(node)) size +=
    DIR_NODE_DESC(node)->subtree.size;], [size] being an int64. *)
Definition mapv_block_size (node : nat) : Z :=
  let sz := if (256 >? size (t node))%Z then 256%Z else size (t node) in
  if NODE_IS_DIR t node then int64_wrap (sz + subtree_size (t node)) else sz.

(** The dimensions of the top face of a directory after the slant of its
    sides and half a border width are trimmed off, and the nominal border
    width. *)
Record MapVDirDims : Type := mkMapVDirDims {
  dir_dims_x : D;
  dir_dims_y : D;
  nominal_border : D
}.

Definition mapv_dir_dims (g : MapVGeomParams D) : MapVDirDims :=
  (* Obtain dimensions of top face of directory *)
  let dx := MAPV_NODE_WIDTH g in
  let dy := MAPV_NODE_DEPTH g in
  let k := mapv_side_slant_ratio_directory in
  let dx := dx - d2 * MIN (height g) (k * dx) in
  let dy := dy - d2 * MIN (height g) (k * dy) in
  (* Approximate/nominal node border width *)
  let a := MAPV_BORDER_PROPORTION * d_sqrt (dx * dy) in
  let b := MIN dx dy / d_of_Z 3 in
  let nb := MIN a b in
  (* Trim half a border width off the perimeter of the directory *)
  mkMapVDirDims (dx - nb) (dy - nb) nb.

(** First pass: the blocks, and the total area of the blocks added to
    [total]. *)
Fixpoint mapv_first_pass (nb : D) (nodes : list nat) (total : D) : list MapVBlock * D :=
  match nodes with
  | [] => ([], total)
  | node :: rest =>
      let k := d_sqrt (d_of_Z (mapv_block_size node)) + nb in
      let area := SQR k in
      let total := total + area in
      let (blocks, total) := mapv_first_pass nb rest total in
      (mkMapVBlock node area :: blocks, total)
  end.

(** Second pass: the blocks scaled down, in a first-draft set of rows.
    [row] is the row being filled, [None] when the next block begins a new
    row. *)
Fixpoint mapv_second_pass (dir_x scale_factor : D) (blocks : list MapVBlock)
    (row : option MapVRow) : list MapVRow :=
  match blocks with
  | [] => match row with
          | Some r => [r]
          | None => []
          end
  | block :: rest =>
      let block := mkMapVBlock (blk_node block) (blk_area block * scale_factor) in
      (* Begin new row *)
      let r := match row with
               | Some r => r
               | None => mkMapVRow [] d0
               end in
      (* Add block to row *)
      let r := mkMapVRow (row_blocks r ++ [block]) (row_area r + blk_area block) in
      (* Dimensions of block (block_dims.y == depth of row) *)
      let block_dims_y := row_area r / dir_x in
      let block_dims_x := blk_area block / block_dims_y in
      (* Check aspect ratio of block *)
      if block_dims_x / block_dims_y <? d1 then
        (* Next block will go into next row *)
        r :: mapv_second_pass dir_x scale_factor rest None
      else mapv_second_pass dir_x scale_factor rest (Some r)
  end.

(** Fourth pass, one row: the geometry of each block of the row, laid from
    [(px, py)], the right/rear corner of the first block, leftwards. *)
Fixpoint mapv_output_row (scale_factor block_dims_y px py : D) (blocks : list MapVBlock)
    : list (nat * MapVGeomParams D) :=
  match blocks with
  | [] => []
  | block :: rest =>
      let block_dims_x := blk_area block / block_dims_y in
      let area := scale_factor * d_of_Z (mapv_block_size (blk_node block)) in
      (* Calculate exact width of block's border region *)
      let k := block_dims_x + block_dims_y in
      let border := d_lit 1 4
                    * (k - d_sqrt (SQR k - d_of_Z 4 * (blk_area block - area))) in
      (* Assign geometry *)
      let gparams :=
        mkMapVGeomParams (px - block_dims_x + border) (py - block_dims_y + border)
          (px - border) (py - border)
          (if NODE_IS_DIR t (blk_node block) then mapv_dir_height else mapv_leaf_height) in
      (blk_node block, gparams)
        :: mapv_output_row scale_factor block_dims_y (px - block_dims_x) py rest
  end.

(** Fourth pass: the rows, from the rear forwards. *)
Fixpoint mapv_output (scale_factor dir_x start_x py : D) (rows : list MapVRow)
    : list (nat * MapVGeomParams D) :=
  match rows with
  | [] => []
  | row :: rest =>
      let block_dims_y := row_area row / dir_x in
      mapv_output_row scale_factor block_dims_y start_x py (row_blocks row)
        ++ mapv_output scale_factor dir_x start_x (py - block_dims_y) rest
  end.

(** [scale_factor]: the blocks have a total area greater than the directory
    can provide. *)
Definition mapv_scale_factor (g : MapVGeomParams D) (nodes : list nat) : D :=
  let dims := mapv_dir_dims g in
  let dir_area := dir_dims_x dims * dir_dims_y dims in
  let (_, total_block_area) := mapv_first_pass (nominal_border dims) nodes d0 in
  dir_area / total_block_area.

(** The layout of the children [nodes] of a directory of geometry [g]: the
    geometry assigned to each, in the order of assignment. *)
Definition mapv_layout (g : MapVGeomParams D) (nodes : list nat)
    : list (nat * MapVGeomParams D) :=
  let dims := mapv_dir_dims g in
  let (blocks, _) := mapv_first_pass (nominal_border dims) nodes d0 in
  let scale_factor := mapv_scale_factor g nodes in
  let rows := mapv_second_pass (dir_dims_x dims) scale_factor blocks None in
  let start_x := MAPV_NODE_CENTER_X g + d_lit 1 2 * dir_dims_x dims in
  let start_y := MAPV_NODE_CENTER_Y g + d_lit 1 2 * dir_dims_y dims in
  mapv_output scale_factor (dir_dims_x dims) start_x start_y rows.

(** The visible footprint of a node: the area of its top face before the
    slant of its sides. *)
Definition mapv_footprint (g : MapVGeomParams D) : D :=
  MAPV_NODE_WIDTH g * MAPV_NODE_DEPTH g.

(** The tail of the fourth pass: each block's geometry is stored and a
    directory is recursed into before the next block is stored.  The
    positions depend on the blocks and rows only, which no recursive call
    touches, so they are taken from [mapv_layout]. *)
Fixpoint mapv_assign (rec : nat -> World D -> option (World D))
    (placements : list (nat * MapVGeomParams D)) (w : World D) : option (World D) :=
  match placements with
  | [] => Some w
  | (node, gparams) :: rest =>
      let w := set_mapv_geom (upd (mapv_geom w) node gparams) w in
      match (if NODE_IS_DIR t node then rec node w else Some w) with
      | Some w => mapv_assign rec rest w
      | None => None
      end
  end.

(** The three statements every layout engine runs on a directory first. *)
Definition reset_deployment (dnode : nat) (w : World D) : World D :=
  let w := set_anim (morph_break (VarDeployment dnode) (anim w)) w in
  let w := set_deployment dnode (if dirtree_entry_expanded w dnode then d1 else d0) w in
  geometry_queue_rebuild dnode w.

(* mapv_init_recursive( ) *)
Fixpoint mapv_init_recursive (fuel : nat) (dnode : nat) (w : World D) : option (World D) :=
  match fuel with
  | 0 => None
  | S fuel' =>
      let w := reset_deployment dnode w in
      (* If this directory has no children, there is nothing further to do here *)
      match children (t dnode) with
      | [] => Some w
      | nodes =>
          mapv_assign (mapv_init_recursive fuel')
            (mapv_layout (mapv_geom w dnode) nodes) w
      end
  end.

Variable fstree : nat.

(* mapv_init( ); the initial cursor state is not modelled *)
Definition mapv_init (fuel : nat) (w : World D) : option (World D) :=
  match children (t fstree) with
  | [] => None                       (* root_dnode is NULL *)
  | root_dnode :: _ =>
      (* Determine dimensions of bottommost (root) node *)
      let root_dims_y :=
        d_sqrt (d_of_Z (subtree_size (t fstree)) / MAPV_ROOT_ASPECT_RATIO) in
      let root_dims_x := MAPV_ROOT_ASPECT_RATIO * root_dims_y in
      (* Set up base geometry *)
      let g := mapv_geom w fstree in
      let w := set_mapv_geom
                 (upd (mapv_geom w) fstree
                    (mkMapVGeomParams (c0_x g) (c0_y g) (c1_x g) (c1_y g) d0)) w in
      let w := set_mapv_geom
                 (upd (mapv_geom w) root_dnode
                    (mkMapVGeomParams (- d_lit 1 2 * root_dims_x) (- d_lit 1 2 * root_dims_y)
                       (d_lit 1 2 * root_dims_x) (d_lit 1 2 * root_dims_y)
                       mapv_dir_height)) w in
      mapv_init_recursive fuel root_dnode w
  end.

End MapVLayout.

(** ** colexp.c: collapsing and expanding directories *)

Inductive ColExpMesg : Type :=
  | COLEXP_COLLAPSE_RECURSIVE
  | COLEXP_EXPAND
  | COLEXP_EXPAND_ANY
  | COLEXP_EXPAND_RECURSIVE.

(** The step/end callback of the deployment morphs, as a function pointer. *)
Definition colexp_progress_cb : MorphCb := 1.

Section Colexp.
Variable D : Type.
Context `{Double D} `{Libm D}.
Variable t : Tree.

(** camera_look_at_full( ) of camera.c, which re-aims the camera. *)
Variable camera_look_at_full : nat -> MorphType -> D -> World D -> World D.

(* Duration of a single collapse/expansion (in seconds) *)
Definition DISCV_COLEXP_TIME : D := d_lit 3 2.
Definition MAPV_COLEXP_TIME : D := d_lit 3 8.
Definition TREEV_COLEXP_TIME : D := d_lit 1 2.

(** The loop of collapsed_depth( ), from [up_node] on. *)
Fixpoint collapsed_depth_loop (fuel : nat) (w : World D) (up_node : option nat) (depth : Z)
    : option Z :=
  match fuel, up_node with
  | 0, _ => None
  | _, None => None                 (* NODE_IS_DIR( NULL ) *)
  | S fuel', Some up =>
      if NODE_IS_DIR t up then
        if negb (DIR_COLLAPSED w up) then Some depth
        else collapsed_depth_loop fuel' w (parent (t up)) (depth + 1)
      else Some depth
  end.

(* collapsed_depth( ) *)
Definition collapsed_depth (fuel : nat) (w : World D) (dnode : nat) : option Z :=
  collapsed_depth_loop fuel w (parent (t dnode)) 0.

(* max_expanded_depth( ) *)
Fixpoint max_expanded_depth (fuel : nat) (w : World D) (dnode : nat) : option Z :=
  match fuel with
  | 0 => None
  | S fuel' =>
      (fix loop (nodes : list nat) (max_depth : Z) : option Z :=
         match nodes with
         | [] => Some max_depth
         | node :: rest =>
             if NODE_IS_DIR t node then
               match (if DIR_EXPANDED w node
                      then match max_expanded_depth fuel' w node with
                           | Some m => Some (1 + m)%Z
                           | None => None
                           end
                      else Some 0%Z) with
               | Some subtree_depth => loop rest (Z.max max_depth subtree_depth)
               | None => None
               end
             else Some max_depth
         end) (children (t dnode)) 0%Z
  end.

(** dirtree.c.  The entries of the directory tree widget are expanded and
    collapsed with the handlers that call colexp( ) blocked. *)

(* dirtree_entry_expand( ): the entry and those of all its ancestors *)
Fixpoint dirtree_entry_expand_loop (fuel : nat) (up_node : option nat) (w : World D)
    : option (World D) :=
  match fuel, up_node with
  | 0, _ => None
  | _, None => None
  | S fuel', Some up =>
      if NODE_IS_DIR t up then
        let w := if negb (dirtree_entry_expanded w up)
                 then set_ctree_expanded (upd (ctree_expanded w) up true) w else w in
        dirtree_entry_expand_loop fuel' (parent (t up)) w
      else Some w
  end.

Definition dirtree_entry_expand (fuel : nat) (dnode : nat) (w : World D) : option (World D) :=
  dirtree_entry_expand_loop fuel (Some dnode) w.

(** gtk_ctree_collapse_recursive( ) and gtk_ctree_expand_recursive( ): the
    entry and the entries of all directories below it. *)
Fixpoint ctree_set_recursive (fuel : nat) (b : bool) (dnode : nat) (w : World D)
    : option (World D) :=
  match fuel with
  | 0 => None
  | S fuel' =>
      let w := set_ctree_expanded (upd (ctree_expanded w) dnode b) w in
      (fix loop (nodes : list nat) (w : World D) : option (World D) :=
         match nodes with
         | [] => Some w
         | node :: rest =>
             if NODE_IS_DIR t node then
               match ctree_set_recursive fuel' b node w with
               | Some w' => loop rest w'
               | None => None
               end
             else loop rest w
         end) (children (t dnode)) w
  end.

Definition dirtree_entry_collapse_recursive (fuel : nat) (dnode : nat) (w : World D) :=
  ctree_set_recursive fuel false dnode w.
Definition dirtree_entry_expand_recursive (fuel : nat) (dnode : nat) (w : World D) :=
  ctree_set_recursive fuel true dnode w.

(* g_node_is_ancestor( node, descendant ) *)
Fixpoint g_node_is_ancestor (fuel : nat) (node : nat) (descendant : option nat) : bool :=
  match fuel, descendant with
  | S fuel', Some d =>
      match parent (t d) with
      | Some up => if Nat.eqb up node then true else g_node_is_ancestor fuel' node (Some up)
      | None => false
      end
  | _, _ => false
  end.

(** A call of the morph interface on the animation state of the world. *)
Definition on_anim (f : State D -> State D) (w : World D) : World D :=
  set_anim (f (anim w)) w.

(** The part of colexp( ) run at the top of a request only ([depth == 0]),
    before anything is animated. *)
Definition colexp_begin (fuel : nat) (dnode : nat) (mesg : ColExpMesg) (w : World D)
    : option (World D) :=
  (* Update ctree and determine maximum recursion depth *)
  match (match mesg with
         | COLEXP_COLLAPSE_RECURSIVE =>
             match dirtree_entry_collapse_recursive fuel dnode w with
             | Some w =>
                 match max_expanded_depth fuel w dnode with
                 | Some m => Some (set_max_depth m w)
                 | None => None
                 end
             | None => None
             end
         | COLEXP_EXPAND =>
             match dirtree_entry_expand fuel dnode w with
             | Some w => Some (set_max_depth 0%Z w)
             | None => None
             end
         | COLEXP_EXPAND_ANY =>
             match dirtree_entry_expand fuel dnode w with
             | Some w =>
                 match collapsed_depth fuel w dnode with
                 | Some m => Some (set_max_depth m w)
                 | None => None
                 end
             | None => None
             end
         | COLEXP_EXPAND_RECURSIVE =>
             match dirtree_entry_expand_recursive fuel dnode w with
             | Some w => Some (set_max_depth 0%Z w)   (* high-water mark *)
             | None => None
             end
         end) with
  | None => None
  | Some w =>
      (* filelist_reset_access( ) and gui_update( ) touch the GUI only *)
      (* Collapse/expand time for current visualization mode *)
      match fsv_mode w with
      | FSV_DISCV => Some (set_colexp_time DISCV_COLEXP_TIME w)
      | FSV_MAPV => Some (set_colexp_time MAPV_COLEXP_TIME w)
      | FSV_TREEV => Some (set_colexp_time TREEV_COLEXP_TIME w)
      | _ => None                     (* SWITCH_FAIL *)
      end
  end.

(** The part run for every directory: the old morph is broken, the wait is
    queued as a morph that holds the value, and the collapse or expansion
    proper follows it. *)
Definition colexp_animate (dnode : nat) (mesg : ColExpMesg) (w : World D) : World D :=
  let v := VarDeployment dnode in
  let w := on_anim (morph_break v) w in
  (* Determine time to wait before collapsing/expanding directory *)
  let wait_count :=
    match mesg with
    | COLEXP_COLLAPSE_RECURSIVE => (max_depth w - depth w)%Z
    | COLEXP_EXPAND_RECURSIVE | COLEXP_EXPAND => depth w
    | COLEXP_EXPAND_ANY => (max_depth w - depth w)%Z
    end in
  let w :=
    if (wait_count >? 0)%Z then
      let wait_time := (d_of_Z wait_count * colexp_time w)%D in
      on_anim (morph v MORPH_LINEAR (deployment w dnode) wait_time) w
    else w in
  (* Initiate collapse/expand *)
  match mesg with
  | COLEXP_COLLAPSE_RECURSIVE =>
      on_anim (morph_full v MORPH_QUADRATIC d0 (colexp_time w)
                 (Some colexp_progress_cb) (Some colexp_progress_cb) dnode) w
  | _ =>
      on_anim (morph_full v MORPH_INV_QUADRATIC d1 (colexp_time w)
                 (Some colexp_progress_cb) (Some colexp_progress_cb) dnode) w
  end.

(** The part run at the top of a request only, after everything is
    animated: the camera follows, and the scrollbars are told. *)
Definition colexp_end (fuel : nat) (dnode : nat) (mesg : ColExpMesg) (w : World D) : World D :=
  let curnode_is_ancestor := g_node_is_ancestor fuel (current_node w) (Some dnode) in
  let curnode_is_equal := Nat.eqb (current_node w) dnode in
  let curnode_is_descendant := g_node_is_ancestor fuel dnode (Some (current_node w)) in
  let pan_time := (d_of_Z (max_depth w + 1) * colexp_time w)%D in
  let w :=
    if negb (camera_manual_control w) then
      match mesg with
      | COLEXP_COLLAPSE_RECURSIVE =>
          if curnode_is_ancestor || curnode_is_equal
          then camera_look_at_full (current_node w) MORPH_LINEAR pan_time w
          else if curnode_is_descendant
               then camera_look_at_full dnode MORPH_LINEAR pan_time w
               else w
      | COLEXP_EXPAND | COLEXP_EXPAND_RECURSIVE =>
          if curnode_is_ancestor || curnode_is_equal
          then camera_look_at_full (current_node w) MORPH_LINEAR pan_time w
          else w
      | COLEXP_EXPAND_ANY => w
      end
    else w in
  set_scrollbars_colexp_adjust
    (curnode_is_ancestor && match fsv_mode w with FSV_TREEV => true | _ => false end) w.

(* colexp( ); [None] when [fuel] nested calls do not suffice *)
Fixpoint colexp (fuel : nat) (dnode : nat) (mesg : ColExpMesg) (w : World D)
    : option (World D) :=
  match fuel with
  | 0 => None
  | S fuel' =>
      match (if (depth w =? 0)%Z then colexp_begin fuel' dnode mesg w else Some w) with
      | None => None
      | Some w =>
          let w := colexp_animate dnode mesg w in
          (* Recursion *)
          match (match mesg with
                 | COLEXP_EXPAND =>
                     geometry_colexp_initiated t fuel' dnode w
                 | COLEXP_EXPAND_ANY =>
                     (* Ensure that all parent directories are expanded *)
                     match (match parent (t dnode) with
                            | None => None
                            | Some up =>
                                if NODE_IS_DIR t up then
                                  let w := set_depth (depth w + 1) w in
                                  match colexp fuel' up COLEXP_EXPAND_ANY w with
                                  | Some w => Some (set_depth (depth w - 1) w)
                                  | None => None
                                  end
                                else Some w
                            end) with
                     | Some w => geometry_colexp_initiated t fuel' dnode w
                     | None => None
                     end
                 | COLEXP_COLLAPSE_RECURSIVE | COLEXP_EXPAND_RECURSIVE =>
                     match geometry_colexp_initiated t fuel' dnode w with
                     | None => None
                     | Some w =>
                         (* Perform action on subdirectories *)
                         let w := set_depth (depth w + 1) w in
                         match subdirs_loop t (fun node => colexp fuel' node mesg)
                                 (children (t dnode)) w with
                         | Some w => Some (set_depth (depth w - 1) w)
                         | None => None
                         end
                     end
                 end) with
          | None => None
          | Some w =>
              let w :=
                match mesg with
                | COLEXP_EXPAND_RECURSIVE =>
                    (* Update high-water mark *)
                    set_max_depth (Z.max (max_depth w) (depth w)) w
                | _ => w
                end in
              if (depth w =? 0)%Z then Some (colexp_end fuel' dnode mesg w) else Some w
          end
      end
  end.

(** *** What a request to expand leaves in the morph queue *)

(** [under_root node l]: [l] lists the directories above [node], nearest
    first; above the last of them is the root metanode. *)
Inductive under_root : nat -> list nat -> Prop :=
  | under_metanode node top :
      parent (t node) = Some top -> NODE_IS_DIR t top = false ->
      parent (t top) = None ->
      under_root node []
  | under_directory node up l :
      parent (t node) = Some up -> NODE_IS_DIR t up = true ->
      under_root up l ->
      under_root node (up :: l).

(** The number of collapsed directory levels at the head of [l]. *)
Fixpoint leading_collapsed (w : World D) (l : list nat) : Z :=
  match l with
  | [] => 0
  | up :: l' => if DIR_COLLAPSED w up then (1 + leading_collapsed w l')%Z else 0%Z
  end.

Definition mode_colexp_time (m : FsvMode) : D :=
  match m with
  | FSV_DISCV => DISCV_COLEXP_TIME
  | FSV_MAPV => MAPV_COLEXP_TIME
  | _ => TREEV_COLEXP_TIME
  end.

(** The expansion of [node], started at time [ts] from the value [x]. *)
Definition expand_stage (node : nat) (x ts ct : D) : Morph D :=
  mkMorph MORPH_INV_QUADRATIC (VarDeployment node) x d1 ts (ts + ct)%D
    (Some colexp_progress_cb) (Some colexp_progress_cb) node None.

(** The record colexp( ) queues for [node] when it has [wait_count] levels
    to wait: the expansion, behind a morph that holds the value for
    [wait_count] times the duration of one level if there is a wait. *)
Definition cascade_record (w0 : World D) (node : nat) (wait_count : Z) : Morph D :=
  let x := deployment w0 node in
  let now := clock (anim w0) in
  let ct := mode_colexp_time (fsv_mode w0) in
  if (wait_count >? 0)%Z then
    let wait_end := (now + d_of_Z wait_count * ct)%D in
    mkMorph MORPH_LINEAR (VarDeployment node) x x now wait_end None None 0
      (Some (expand_stage node x wait_end ct))
  else expand_stage node x now ct.

End Colexp.

(** ** geometry.c: initialization of the three modes *)

Section GeometryInit.
Variable D : Type.
Context `{Double D} `{Libm D}.
Variable t : Tree.
Variable fstree : nat.

(** camera.c, as far as treev_arrange( ) calls it. *)
Variable camera_pan_break : World D -> World D.
Variable camera_look_at_full : nat -> MorphType -> D -> World D -> World D.

Local Open Scope double_scope.

Definition DEG (angleRad : D) : D := angleRad * (d_of_Z 180 / d_PI).
Definition RAD (angle360 : D) : D := angle360 * (d_PI / d_of_Z 180).

(** *** DiscV *)

Definition DISCV_LEAF_RANGE_ARC_WIDTH : D := d_of_Z 315.
Definition DISCV_LEAF_STEM_PROPORTION : D := d_lit 1 2.

Definition upd_discv (node : nat) (f : DiscVGeomParams D -> DiscVGeomParams D)
    (w : World D) : World D :=
  set_discv_geom (upd (discv_geom w) node (f (discv_geom w node))) w.

(** The size a node is ordered by: its own, plus its subtree's for a
    directory. *)
Definition discv_sort_size (a : nat) : Z :=
  if NODE_IS_DIR t a then int64_wrap (size (t a) + subtree_size (t a)) else size (t a).

(** discv_node_compare( ): the sign of the [int] it returns. *)
Definition discv_node_compare (a b : nat) : comparison :=
  let a_size := discv_sort_size a in
  let b_size := discv_sort_size b in
  if (a_size <? b_size)%Z then Gt
  else if (a_size >? b_size)%Z then Lt
  else String.compare (name (t a)) (name (t b)).

(** g_list_sort( ) is a stable sort; an insertion keeps an element ahead of
    those that compare equal to it and came after it. *)
Fixpoint g_list_insert_sorted (cmp : nat -> nat -> comparison) (x : nat) (l : list nat)
    : list nat :=
  match l with
  | [] => [x]
  | y :: l' =>
      match cmp x y with
      | Gt => y :: g_list_insert_sorted cmp x l'
      | _ => x :: l
      end
  end.

Definition g_list_sort (l : list nat) (cmp : nat -> nat -> comparison) : list nat :=
  fold_right (g_list_insert_sorted cmp) [] l.

(** Assign radii (and arc widths, temporarily) to leaf nodes. *)
Fixpoint discv_assign_radii (dir_radius : D) (nodes : list nat) (total_arc_width : D)
    (w : World D) : World D * D :=
  match nodes with
  | [] => (w, total_arc_width)
  | node :: rest =>
      let sz := if (64 >? size (t node))%Z then 64%Z else size (t node) in
      let node_size :=
        if NODE_IS_DIR t node then int64_wrap (sz + subtree_size (t node)) else sz in
      (* Area of disc == node_size *)
      let radius := d_sqrt (d_of_Z node_size / d_PI) in
      (* Center-to-center distance (parent to leaf) *)
      let dist := dir_radius + radius * (d1 + DISCV_LEAF_STEM_PROPORTION) in
      let arc_width := d2 * DEG (d_asin (radius / dist)) in
      let w := upd_discv node
                 (fun g => mkDiscVGeomParams radius arc_width dist (pos_y g)) w in
      discv_assign_radii dir_radius rest (total_arc_width + arc_width) w
  end.

(** Assign angle positions to leaf nodes, and recurse into
    subdirectories.  [first] tells the first (largest) node. *)
Fixpoint discv_assign_angles (rec : nat -> D -> World D -> option (World D))
    (k : D) (stagger : bool) (nodes : list nat) (first : bool)
    (theta0 theta1 : D) (even out : bool) (w : World D) : option (World D) :=
  match nodes with
  | [] => Some w
  | node :: rest =>
      let gparams := discv_geom w node in
      let arc_width := k * theta gparams in
      let dist := pos_x gparams in
      let dist := if stagger && out then dist + d2 * radius gparams else dist in
      let '(th, theta0, theta1, out) :=
        if first then
          (* First (largest) node *)
          (theta0, theta0 + d_lit 1 2 * arc_width, theta1 - d_lit 1 2 * arc_width, negb out)
        else if even then
          (theta0 + d_lit 1 2 * arc_width, theta0 + arc_width, theta1, negb out)
        else
          (theta1 - d_lit 1 2 * arc_width, theta0, theta1 - arc_width, out) in
      let w := upd_discv node
                 (fun g => mkDiscVGeomParams (radius g) th
                             (dist * d_cos (RAD th)) (dist * d_sin (RAD th))) w in
      match (if NODE_IS_DIR t node then rec node (th + d_of_Z 180) w else Some w) with
      | Some w => discv_assign_angles rec k stagger rest false theta0 theta1 (negb even) out w
      | None => None
      end
  end.

(* discv_init_recursive( ) *)
Fixpoint discv_init_recursive (fuel : nat) (dnode : nat) (stem_theta : D) (w : World D)
    : option (World D) :=
  match fuel with
  | 0 => None
  | S fuel' =>
      let w := if NODE_IS_DIR t dnode then reset_deployment dnode w else w in
      (* If this directory has no children, there is nothing further to do here *)
      match children (t dnode) with
      | [] => Some w
      | nodes =>
          let dir_radius := radius (discv_geom w dnode) in
          let (w, total_arc_width) := discv_assign_radii dir_radius nodes d0 w in
          (* Create a list of leaf nodes, sorted by size *)
          let node_list := g_list_sort (rev nodes) discv_node_compare in
          let k := DISCV_LEAF_RANGE_ARC_WIDTH / total_arc_width in
          (* If this is going to be a tight fit, stagger the leaf nodes *)
          let stagger := k <=? d1 in
          discv_assign_angles (discv_init_recursive fuel') k stagger node_list true
            (stem_theta - d_of_Z 180) (stem_theta + d_of_Z 180) true true w
      end
  end.

(* discv_init( ) *)
Definition discv_init (fuel : nat) (w : World D) : option (World D) :=
  let w := upd_discv fstree (fun g => mkDiscVGeomParams d0 d0 (pos_x g) (pos_y g)) w in
  match discv_init_recursive fuel fstree (d_of_Z 270) w with
  | None => None
  | Some w =>
      match children (t fstree) with
      | [] => None                   (* root_dnode is NULL *)
      | root_dnode :: _ =>
          Some (upd_discv fstree
                  (fun g => mkDiscVGeomParams (radius g) (theta g) d0
                              (- radius (discv_geom w root_dnode))) w)
      end
  end.

(** *** TreeV *)

Definition TREEV_LEAF_HEIGHT_MULTIPLIER : D := d1.

Definition upd_treev (node : nat) (f : TreeVGeomParams D -> TreeVGeomParams D)
    (w : World D) : World D :=
  set_treev_geom (upd (treev_geom w) node (f (treev_geom w node))) w.

Definition with_leaf_height (x : D) (g : TreeVGeomParams D) : TreeVGeomParams D :=
  mkTreeVGeomParams (leaf_distance g) (leaf_theta g) x (platform_theta g)
    (platform_depth g) (platform_arc_width g) (platform_height g)
    (platform_subtree_arc_width g).
Definition with_platform_theta (x : D) (g : TreeVGeomParams D) : TreeVGeomParams D :=
  mkTreeVGeomParams (leaf_distance g) (leaf_theta g) (leaf_height g) x
    (platform_depth g) (platform_arc_width g) (platform_height g)
    (platform_subtree_arc_width g).
Definition with_platform_height (x : D) (g : TreeVGeomParams D) : TreeVGeomParams D :=
  mkTreeVGeomParams (leaf_distance g) (leaf_theta g) (leaf_height g) (platform_theta g)
    (platform_depth g) (platform_arc_width g) x (platform_subtree_arc_width g).
Definition with_platform_subtree_arc_width (x : D) (g : TreeVGeomParams D)
    : TreeVGeomParams D :=
  mkTreeVGeomParams (leaf_distance g) (leaf_theta g) (leaf_height g) (platform_theta g)
    (platform_depth g) (platform_arc_width g) (platform_height g) x.

(** The loop of treev_arrange_recursive( ) over the subdirectories, which
    come first among the children: each is arranged, and its arc width is
    parked in its [platform.theta]. *)
Fixpoint treev_arrange_subdirs (rec : nat -> World D -> option (World D))
    (nodes : list nat) (subtree_arc_width : D) (w : World D) : option (World D * D) :=
  match nodes with
  | [] => Some (w, subtree_arc_width)
  | node :: rest =>
      if negb (NODE_IS_DIR t node) then Some (w, subtree_arc_width)
      else
        match rec node w with
        | None => None
        | Some w =>
            let g := treev_geom w node in
            let arc_width :=
              deployment w node * MAX (platform_arc_width g) (platform_subtree_arc_width g) in
            let w := upd_treev node (with_platform_theta arc_width) w in   (* temporary value *)
            treev_arrange_subdirs rec rest (subtree_arc_width + arc_width) w
        end
  end.

(** Spread the subdirectories, sweeping counterclockwise. *)
Fixpoint treev_spread_subdirs (nodes : list nat) (th : D) (w : World D) : World D :=
  match nodes with
  | [] => w
  | node :: rest =>
      if negb (NODE_IS_DIR t node) then w
      else
        let arc_width := platform_theta (treev_geom w node) in
        let w := upd_treev node (with_platform_theta (th + d_lit 1 2 * arc_width)) w in
        treev_spread_subdirs rest (th + arc_width) w
  end.

(* treev_arrange_recursive( ) *)
Fixpoint treev_arrange_recursive (fuel : nat) (dnode : nat) (r0 : D) (reshape_tree : bool)
    (w : World D) : option (World D) :=
  match fuel with
  | 0 => None
  | S fuel' =>
      if negb reshape_tree
         && (Z.land (node_flags w dnode) TREEV_NEED_REARRANGE =? 0)%Z then Some w
      else
        match (if reshape_tree && NODE_IS_DIR t dnode then
                 if geometry_treev_is_leaf t w dnode then
                   (* Ensure directory leaf gets repositioned *)
                   inl (geometry_queue_rebuild dnode w)
                 else
                   (* Reshape directory platform *)
                   inr (treev_reshape_platform t dnode r0 w)
               else inr w) with
        | inl w => Some w
        | inr w =>
            (* Recurse into expanded subdirectories, and obtain the overall
               arc width of the subtree *)
            let subtree_r0 :=
              r0 + platform_depth (treev_geom w dnode) + TREEV_PLATFORM_SPACING_DEPTH in
            match treev_arrange_subdirs
                    (fun node w => treev_arrange_recursive fuel' node subtree_r0 reshape_tree w)
                    (children (t dnode)) d0 w with
            | None => None
            | Some (w, subtree_arc_width) =>
                let w := upd_treev dnode (with_platform_subtree_arc_width subtree_arc_width) w in
                let w := treev_spread_subdirs (children (t dnode))
                           (- d_lit 1 2 * subtree_arc_width) w in
                (* Clear the "need rearrange" flag *)
                Some (set_node_flags
                        (upd (node_flags w) dnode
                           (Z.land (node_flags w dnode) (Z.lnot TREEV_NEED_REARRANGE))) w)
            end
        end
  end.

(** The [for (;;)] of treev_arrange( ), run at most [n] times: the core
    radius grows or shrinks until the total arc width is within bounds. *)
Fixpoint treev_arrange_loop (n : nat) (fuel : nat) (resized : bool) (w : World D)
    : option (World D * bool) :=
  match n with
  | 0 => None
  | S n' =>
      let g := treev_geom w fstree in
      if platform_subtree_arc_width g >? TREEV_MAX_ARC_WIDTH then
        (* Grow core radius *)
        let w := set_treev_core_radius (treev_core_radius w * TREEV_CORE_GROW_FACTOR) w in
        match treev_arrange_recursive fuel fstree (treev_core_radius w) true w with
        | Some w => treev_arrange_loop n' fuel true w
        | None => None
        end
      else if (platform_subtree_arc_width g <? TREEV_MIN_ARC_WIDTH)
              && (platform_depth g >? TREEV_MIN_CORE_RADIUS) then
        (* Shrink core radius *)
        let w := set_treev_core_radius
                   (MAX TREEV_MIN_CORE_RADIUS
                      (treev_core_radius w / TREEV_CORE_GROW_FACTOR)) w in
        match treev_arrange_recursive fuel fstree (treev_core_radius w) true w with
        | Some w => treev_arrange_loop n' fuel true w
        | None => None
        end
      else Some (w, resized)
  end.

(* treev_arrange( ) *)
Definition treev_arrange (fuel : nat) (initial_arrange : bool) (w : World D)
    : option (World D) :=
  match treev_arrange_recursive fuel fstree (treev_core_radius w) initial_arrange w with
  | None => None
  | Some w =>
      (* Check that the tree's total arc width is within bounds *)
      match treev_arrange_loop fuel fuel false w with
      | None => None
      | Some (w, resized) =>
          if resized && camera_currently_moving w then
            (* Camera's destination has moved, so it will need a flight
               path correction *)
            let w := camera_pan_break w in
            Some (camera_look_at_full (current_node w) MORPH_INV_QUADRATIC (- d1) w)
          else Some w
      end
  end.

(** The loop of treev_init_recursive( ): assign heights to leaf nodes. *)
Fixpoint treev_init_children (rec : nat -> World D -> option (World D))
    (nodes : list nat) (w : World D) : option (World D) :=
  match nodes with
  | [] => Some w
  | node :: rest =>
      let sz := if (64 >? size (t node))%Z then 64%Z else size (t node) in
      match (if NODE_IS_DIR t node then
               match rec node (upd_treev node (with_platform_height TREEV_PLATFORM_HEIGHT) w) with
               | Some w => Some (int64_wrap (sz + subtree_size (t node)), w)
               | None => None
               end
             else Some (sz, w)) with
      | None => None
      | Some (sz, w) =>
          let w := upd_treev node
                     (with_leaf_height (d_sqrt (d_of_Z sz) * TREEV_LEAF_HEIGHT_MULTIPLIER)) w in
          treev_init_children rec rest w
      end
  end.

(* treev_init_recursive( ) *)
Fixpoint treev_init_recursive (fuel : nat) (dnode : nat) (w : World D) : option (World D) :=
  match fuel with
  | 0 => None
  | S fuel' =>
      let w := if NODE_IS_DIR t dnode then reset_deployment dnode w else w in
      let w := set_node_flags (upd (node_flags w) dnode 0%Z) w in
      treev_init_children (treev_init_recursive fuel') (children (t dnode)) w
  end.

(* treev_init( ); the point buffers and the initial cursor state are not
   modelled *)
Definition treev_init (fuel : nat) (w : World D) : option (World D) :=
  match children (t fstree) with
  | [] => None                       (* root_dnode is NULL *)
  | root_dnode :: _ =>
      let w := set_treev_core_radius TREEV_MIN_CORE_RADIUS w in
      let w := upd_treev fstree
                 (fun g => mkTreeVGeomParams (leaf_distance g) (leaf_theta g) (leaf_height g)
                             (d_of_Z 90) d0 TREEV_MAX_ARC_WIDTH d0
                             (platform_subtree_arc_width g)) w in
      let w := upd_treev root_dnode
                 (fun g => mkTreeVGeomParams (d_lit 1 2 * TREEV_PLATFORM_SPACING_DEPTH) d0
                             (leaf_height g) d0 (platform_depth g) (platform_arc_width g)
                             (platform_height g) (platform_subtree_arc_width g)) w in
      match treev_init_recursive fuel fstree w with
      | Some w => treev_arrange fuel true w
      | None => None
      end
  end.

(** *** color.c *)

(** The loop of color_assign_recursive( ); the colors themselves are not
    modelled. *)
Fixpoint color_assign_children (rec : nat -> World D -> option (World D))
    (nodes : list nat) (w : World D) : option (World D) :=
  match nodes with
  | [] => Some w
  | node :: rest =>
      match (if NODE_IS_DIR t node then rec node w else Some w) with
      | Some w => color_assign_children rec rest w
      | None => None
      end
  end.

(* color_assign_recursive( ) *)
Fixpoint color_assign_recursive (fuel : nat) (dnode : nat) (w : World D)
    : option (World D) :=
  match fuel with
  | 0 => None
  | S fuel' =>
      let w := geometry_queue_rebuild dnode w in
      color_assign_children (color_assign_recursive fuel') (children (t dnode)) w
  end.

(* geometry_init( ); the allocation of the two display lists of the whole
   tree is not modelled *)
Definition geometry_init (fuel : nat) (mode : FsvMode) (w : World D) : option (World D) :=
  let w := set_deployment fstree d1 w in
  let w := geometry_queue_rebuild fstree w in
  match (match mode with
         | FSV_DISCV => discv_init fuel w
         | FSV_MAPV => mapv_init t fstree fuel w
         | FSV_TREEV => treev_init fuel w
         | _ => None                 (* SWITCH_FAIL *)
         end) with
  | Some w => color_assign_recursive fuel fstree w
  | None => None
  end.

(** *** The directories of the tree *)

(** [dir_below x d]: [d] is [x] or lies below [x] through directories
    only. *)
Inductive dir_below : nat -> nat -> Prop :=
  | dir_below_here x : dir_below x x
  | dir_below_child x c d :
      In c (children (t x)) -> NODE_IS_DIR t c = true -> dir_below c d ->
      dir_below x d.

(** A directory is settled when no morph of its deployment is queued, its
    deployment is 1.0 or 0.0 as its entry in the directory tree is
    expanded or not, and its three display lists are stale. *)
Definition settled (w : World D) (d : nat) : Prop :=
  g_list_find_custom (morph_queue (anim w)) (VarDeployment d) = None /\
  deployment w d = (if dirtree_entry_expanded w d then d1 else d0) /\
  a_dlist_stale w d = true /\ b_dlist_stale w d = true /\ c_dlist_stale w d = true.

End GeometryInit.

(** ** Concrete states *)

(** A fresh state on binary64 and one on the reals: every double is 0, the
    clock reads 1000 s, nothing is queued. *)
Definition ex_init : State float :=
  mkState (fun _ => 0%float) 1000%float [] [] false false 0 [].
Definition ex_initR : State R :=
  mkState (fun _ => 0%R) 1000%R [] [] false false 0 [].

Definition ex_v : Var := VarOther 0.

(** A client none of whose callbacks calls back. *)
Definition ex_quiet : Client R := mkClient (fun _ _ => []) (fun _ _ => []).

(** [morph( &x, MORPH_LINEAR, 1.0, 2.0 )] on a fresh state. *)
Definition ex_morphing : State float := morph ex_v MORPH_LINEAR 1%float 2%float ex_init.
Definition ex_record : Morph float :=
  mkMorph MORPH_LINEAR ex_v 0%float 1%float 1000%float 1002%float None None 0 None.

(** [morph_full( &x, MORPH_LINEAR, 1.0, 2.0, NULL, end_cb, data )], with
    [end_cb] the callback number 0 and [data] 7, on a fresh state. *)
Definition ex_morphingR : State R :=
  morph_full ex_v MORPH_LINEAR 1%R 2%R None (Some 0) 7 ex_initR.

(** Binary64 clients: one whose callbacks do nothing, and one whose event
    callback number 0 schedules the event callback number 1, one frame
    ahead, with the payload it was given itself. *)
Definition ex_quiet64 : Client float := mkClient (fun _ _ => []) (fun _ _ => []).
Definition ex_nesting : Client float :=
  mkClient
    (fun cb d => match cb with
                 | 0 => [Call_schedule_event float 1 d 1%Z]
                 | _ => []
                 end)
    (fun _ _ => []).

(** The same client on the reals. *)
Definition ex_nestingR : Client R :=
  mkClient
    (fun cb d => match cb with
                 | 0 => [Call_schedule_event R 1 d 1%Z]
                 | _ => []
                 end)
    (fun _ _ => []).

(** A small filesystem: the metanode 0, the root directory 1, a chain of
    directories 2, 3, 4, 5 below it, and in directory 5 two regular files,
    6 of 900 bytes and 7 of 100 bytes. *)
Definition ex_tree : Tree := fun id =>
  match id with
  | 0 => mkGNode NODE_METANODE ""%string 0 1000 None [1]
  | 1 => mkGNode NODE_DIRECTORY "/"%string 0 1000 (Some 0) [2]
  | 2 => mkGNode NODE_DIRECTORY "a"%string 0 1000 (Some 1) [3]
  | 3 => mkGNode NODE_DIRECTORY "b"%string 0 1000 (Some 2) [4]
  | 4 => mkGNode NODE_DIRECTORY "c"%string 0 1000 (Some 3) [5]
  | 5 => mkGNode NODE_DIRECTORY "d"%string 0 1000 (Some 4) [6; 7]
  | 6 => mkGNode NODE_REGFILE "big"%string 900 0 (Some 5) []
  | _ => mkGNode NODE_REGFILE "small"%string 100 0 (Some 5) []
  end.

(** A root directory holding a file of 1 byte beside one of 4.9e18 bytes,
    and one holding a file beside a directory whose subtree is of
    2^63 - 1 bytes. *)
Definition ex_lopsided : Tree := fun id =>
  match id with
  | 0 => mkGNode NODE_METANODE ""%string 0 4900000000000000001 None [1]
  | 1 => mkGNode NODE_DIRECTORY "/"%string 0 4900000000000000001 (Some 0) [2; 3]
  | 2 => mkGNode NODE_REGFILE "tiny"%string 1 0 (Some 1) []
  | _ => mkGNode NODE_REGFILE "huge"%string 4900000000000000000 0 (Some 1) []
  end.
Definition ex_overflowing : Tree := fun id =>
  match id with
  | 0 => mkGNode NODE_METANODE ""%string 0 9223372036854775807 None [1]
  | 1 => mkGNode NODE_DIRECTORY "/"%string 0 9223372036854775807 (Some 0) [2; 3]
  | 2 => mkGNode NODE_DIRECTORY "d"%string 0 9223372036854775807 (Some 1) []
  | _ => mkGNode NODE_REGFILE "f"%string 100 0 (Some 1) []
  end.

Definition ex_mapv0 : MapVGeomParams float := mkMapVGeomParams 0%float 0%float 0%float 0%float 0%float.
Definition ex_discv0 : DiscVGeomParams float := mkDiscVGeomParams 0%float 0%float 0%float 0%float.
Definition ex_treev0 : TreeVGeomParams float := mkTreeVGeomParams 0%float 0%float 0%float 0%float 0%float 0%float 0%float 0%float.

(** The program in MapV mode right after start: nothing expanded in the
    directory tree, every deployment 0, nothing drawn yet. *)
Definition ex_world : World float :=
  mkWorld ex_init FSV_MAPV 1
    (fun _ => false) (fun _ => false) (fun _ => false) (fun _ => false)
    (fun _ => false) (fun _ => 0%Z) 0%Z 0%Z []
    (fun _ => ex_discv0) (fun _ => ex_mapv0) (fun _ => ex_treev0)
    0%float 0%float 0%Z 0%Z false false false.

(** The program in MapV mode with the metanode and the directories 1 and
    2 fully deployed, the directories below them collapsed, and no display
    list stale. *)
Definition ex_world_open : World float :=
  mkWorld
    (set_mem (fun v => match v with
                       | VarDeployment 0 | VarDeployment 1 | VarDeployment 2 => 1%float
                       | _ => 0%float
                       end) ex_init)
    FSV_MAPV 1
    (fun n => Nat.leb n 2) (fun _ => false) (fun _ => false) (fun _ => false)
    (fun _ => false) (fun _ => 0%Z) 0%Z 0%Z []
    (fun _ => ex_discv0) (fun _ => ex_mapv0) (fun _ => ex_treev0)
    0%float 0%float 0%Z 0%Z false false false.

(** The same program on the reals, with the root directory already expanded
    (deployment 1) and the directories 2, 3, 4, 5 collapsed. *)
Definition ex_memR : Var -> R := fun v =>
  match v with
  | VarDeployment 1 => 1%R
  | _ => 0%R
  end.
Definition ex_worldR : World R :=
  mkWorld (set_mem ex_memR ex_initR) FSV_MAPV 1
    (fun n => Nat.eqb n 1) (fun _ => false) (fun _ => false) (fun _ => false)
    (fun _ => false) (fun _ => 0%Z) 0%Z 0%Z []
    (fun _ => mkDiscVGeomParams 0%R 0%R 0%R 0%R)
    (fun _ => mkMapVGeomParams 0%R 0%R 0%R 0%R 0%R)
    (fun _ => mkTreeVGeomParams 0%R 0%R 0%R 0%R 0%R 0%R 0%R 0%R)
    0%R 0%R 0%Z 0%Z false false false.

(** A camera that stays where it is. *)
Definition ex_camera : nat -> MorphType -> R -> World R -> World R :=
  fun _ _ _ w => w.

(** The geometry of a directory 100 wide and 100 deep, on the reals. *)
Definition ex_dir_geomR : MapVGeomParams R :=
  mkMapVGeomParams (-50)%R (-50)%R 50%R 50%R 384%R.

(** ** Vocabulary of the proofs *)

Section AnimationVocabulary.
Variable D : Type.
Context `{Double D} `{Libm D}.
Variable C : Client D.

(** The end of a stage and a step of a stage, seen from a variable the
    stage is not on. *)
Definition stage_end (m : Morph D) (s : State D) : State D :=
  let s := store (var m) (end_value m) s in
  match end_cb m with
  | Some cb => run_morph_cb C cb m (log (FiredEnd cb m) s)
  | None => s
  end.

Definition stage_step (x : D) (m : Morph D) (s : State D) : State D :=
  let s := store (var m) x s in
  match step_cb m with
  | Some cb => run_morph_cb C cb m (log (FiredStep cb m) s)
  | None => s
  end.

Definition same_for (v : Var) (s s' : State D) : Prop :=
  mem s' v = mem s v /\
  morph_queue s' = morph_queue s /\
  count_end v (trace s') = count_end v (trace s) /\
  count_step v (trace s') = count_step v (trace s).

(** [grows s s']: from [s] to [s'] events were scheduled, and nothing else
    happened that the scheduler can see. *)
Inductive grows : State D -> State D -> Prop :=
  | grows_same s s' : ev_view s' = ev_view s -> grows s s'
  | grows_sched s s' cb d n : ev_view s' = ev_view (schedule_event cb d n s) -> grows s s'
  | grows_trans s1 s2 s3 : grows s1 s2 -> grows s2 s3 -> grows s1 s3.

Definition stable (P : State D -> Prop) : Prop :=
  (forall s s', ev_view s' = ev_view s -> P s -> P s') /\
  (forall cb d n s, P s -> P (schedule_event cb d n s)).

(** A predicate the loop body keeps when it works on the event at [pe]. *)
Definition insensitive (pe : nat) (P : State D -> Prop) : Prop :=
  stable P /\
  (forall n s, P s -> P (set_schevent_queue (write_nframes pe n (schevent_queue s)) s)) /\
  (forall cb d s, In pe (map ev_ptr (schevent_queue s)) -> P s ->
     P (log (FiredEvent D pe cb d) s)) /\
  (forall s, P s -> P (set_schevent_queue (remove_ptr pe (schevent_queue s)) s)).

(** The body of the loop for one link. *)
Definition sched_step (e : ScheduledEvent) (s : State D) : State D :=
  let n := int_wrap (nframes e - 1) in
  let s := set_schevent_queue (write_nframes (ev_ptr e) n (schevent_queue s)) s in
  if (n <=? 0)%Z then
    let s := run_event_cb C (ev_ptr e) (event_cb e) (ev_data e) s in
    set_schevent_queue (remove_ptr (ev_ptr e) (schevent_queue s)) s
  else s.

(** The loop as it runs when the callbacks leave the links behind the
    cursor alone: one link after the other of the queue it began with. *)
Fixpoint sched_pass (rest : list ScheduledEvent) (s : State D) (ex : bool) : State D * bool :=
  match rest with
  | [] => (s, ex)
  | e :: rest' =>
      sched_pass rest' (sched_step e s)
        (if (int_wrap (nframes e - 1) <=? 0)%Z then true else ex)
  end.

End AnimationVocabulary.

Arguments stable : clear implicits.
Arguments insensitive : clear implicits.

Section GeometryVocabulary.
Variable D : Type.
Context `{Double D} `{Libm D}.
Variable t : Tree.

(** [drew action ds w w']: from [w] to [w'] the directories [ds] were
    drawn, and nothing else was done that the protocol looks at. *)
Definition drew (action : MapVAction) (ds : list nat) (w w' : World D) : Prop :=
  gl w' = fst (draw_dirs action ds (action_stale action w)) ++ gl w /\
  action_stale action w' = snd (draw_dirs action ds (action_stale action w)) /\
  (match action with
   | MAPV_DRAW_GEOMETRY => b_dlist_stale w' = b_dlist_stale w
   | MAPV_DRAW_LABELS => a_dlist_stale w' = a_dlist_stale w
   end) /\
  fstree_low_draw_stage w' = fstree_low_draw_stage w /\
  fstree_high_draw_stage w' = fstree_high_draw_stage w /\
  c_dlist_stale w' = c_dlist_stale w /\
  anim w' = anim w.

Definition count_high (hs : list bool) : nat := count_occ Bool.bool_dec hs true.

Definition row_nodes (row : option (MapVRow D)) : list nat :=
  match row with
  | Some r => map (@blk_node D) (row_blocks r)
  | None => []
  end.

(** What the layout needs of the sizes of a directory: the size of its
    subtree is not below 0, and added to the directory's own size, which
    counts for at least [floor], it does not leave the range of int64. *)
Definition dir_size_ok (floor : Z) (n : nat) : Prop :=
  NODE_IS_DIR t n = true ->
  (0 <= subtree_size (t n) /\
   Z.max floor (size (t n)) + subtree_size (t n) <= INT64_MAX)%Z.

Definition sizes_ok (nodes : list nat) : Prop :=
  forall n, In n nodes -> dir_size_ok 256 n.

(** [cascade_ok wb w' nodes]: from [wb] to [w'] the directories [nodes],
    met at recursion depths [depth wb], [depth wb + 1], ..., each got the
    record of the cascade, and nothing else of the animation changed. *)
Definition cascade_ok (wb w' : World D) (nodes : list nat) : Prop :=
  fsv_mode w' = fsv_mode wb /\ colexp_time w' = colexp_time wb /\
  depth w' = depth wb /\ max_depth w' = max_depth wb /\
  mem (anim w') = mem (anim wb) /\ clock (anim w') = clock (anim wb) /\
  queue_ok (morph_queue (anim w')) /\
  (forall i x, nth_error nodes i = Some x ->
     g_list_find_custom (morph_queue (anim w')) (VarDeployment x)
     = Some (cascade_record wb x (max_depth wb - (depth wb + Z.of_nat i)))) /\
  (forall v, (forall x, In x nodes -> v <> VarDeployment x) ->
     g_list_find_custom (morph_queue (anim w')) v
     = g_list_find_custom (morph_queue (anim wb)) v).

(** [calm w w']: from [w] to [w'] the directory tree is as it was, the
    morph queue is still well formed, and every settled directory is still
    settled. *)
Definition calm (w w' : World D) : Prop :=
  ctree_expanded w' = ctree_expanded w /\
  queue_ok (morph_queue (anim w')) /\
  forall d, settled w d -> settled w' d.

(** [visits x w w']: the step from [w] to [w'] is calm and leaves every
    directory at or below [x] settled. *)
Definition visits (x : nat) (w w' : World D) : Prop :=
  calm w w' /\
  forall d, dir_below t x d -> NODE_IS_DIR t d = true -> settled w' d.

(** The directories below the children [nodes] are settled. *)
Definition below_settled (nodes : list nat) (w' : World D) : Prop :=
  forall c, In c nodes -> NODE_IS_DIR t c = true ->
  forall d, dir_below t c d -> NODE_IS_DIR t d = true -> settled w' d.

End GeometryVocabulary.

Section MapVRealVocabulary.
Variable t : Tree.

Local Open Scope R_scope.

(** The row being filled, if any, has a positive area. *)
Definition row_acc_ok (row : option (MapVRow R)) : Prop :=
  match row with
  | Some r => 0 < row_area r
  | None => True
  end.

Definition row_acc_nodes (row : option (MapVRow R)) : list nat :=
  match row with
  | Some r => map (@blk_node R) (row_blocks r)
  | None => []
  end.

(** What is proved of each node's geometry. *)
Definition placed_ok (scale_factor : R) (p : nat * MapVGeomParams R) : Prop :=
  mapv_footprint (snd p) = scale_factor * IZR (mapv_block_size t (fst p)) /\
  0 < MAPV_NODE_WIDTH (snd p) /\ 0 < MAPV_NODE_DEPTH (snd p).

End MapVRealVocabulary.

From Stdlib Require Import Sorting.Permutation Sorting.Sorted.

(** ** animation.c: further vocabulary and concrete states *)

Section MorphStageVocabulary.
Variable D : Type.

(** Whether the stage [m] has an end callback. *)
Definition with_end_cb (m : Morph D) : bool :=
  match end_cb m with Some _ => true | None => false end.

End MorphStageVocabulary.

Arguments with_end_cb {D} m.

(** A record of two stages on [ex_v], as two calls of morph_full( ) at
    time 1000 leave it: from 0 to 1 in two seconds, linearly, then on to 5
    in three more seconds, each stage with an end callback. *)
Definition ex_stage2R : Morph R :=
  mkMorph MORPH_QUADRATIC ex_v 1%R 5%R 1002%R 1005%R None (Some 1) 8 None.
Definition ex_chainR : Morph R :=
  mkMorph MORPH_LINEAR ex_v 0%R 1%R 1000%R 1002%R None (Some 0) 7 (Some ex_stage2R).
Definition ex_chainedR : State R :=
  mkState (fun _ => 0%R) 1000%R [] [ex_chainR] true true 0 [].

(** ** animation.c: the framerate *)

(* Messages for framerate_iteration( ) *)
Inductive FramerateMesg : Type :=
  | FRAME_RENDERED
  | STOP_TIMING.

Section Framerate.
Variable D : Type.
Context `{Double D}.

Local Open Scope Z_scope.

(* The framerate is maintained as a rolling average over this
   length of time (in seconds) *)
Definition FRAMERATE_AVERAGE_TIME : D := d_of_Z 4.

(** The static variables of framerate_iteration( ).  [frametimes] is the
    block the pointer of that name points to, [num_frametimes] doubles
    long.  The global [framerate], a [float] that is written and never
    read, is left out. *)
Record FramerateStatics : Type := mkFramerateStatics {
  t_prev : D;
  sum_frametimes : D;
  frametimes : list D;
  num_frametimes : Z;
  f : Z
}.

Definition framerate_statics_init : FramerateStatics :=
  mkFramerateStatics (- d1)%D d0 [] 0 0.

(** What a slot added by xrealloc( ) holds before it is written. *)
Variable junk : D.

(** Accesses to a block of doubles; [None] is an access outside of it. *)
Definition array_get (a : list D) (i : Z) : option D :=
  if 0 <=? i then nth_error a (Z.to_nat i) else None.

Definition array_set (a : list D) (i : Z) (x : D) : option (list D) :=
  if (0 <=? i) && (i <? Z.of_nat (List.length a)) then
    Some (firstn (Z.to_nat i) a ++ x :: skipn (S (Z.to_nat i)) a)
  else None.

(** [memmove( &a[dst], &a[src], n * sizeof(double) )]; a negative [n] is a
    huge [size_t]. *)
Definition memmove (a : list D) (dst src n : Z) : option (list D) :=
  let len := Z.of_nat (List.length a) in
  if (0 <=? dst) && (0 <=? src) && (0 <=? n) && (dst + n <=? len) && (src + n <=? len) then
    Some (firstn (Z.to_nat dst) a
          ++ firstn (Z.to_nat n) (skipn (Z.to_nat src) a)
          ++ skipn (Z.to_nat (dst + n)) a)
  else None.

(** [RESIZE(a, n, double)] *)
Definition RESIZE (a : list D) (n : Z) : option (list D) :=
  if 0 <? n then
    Some (firstn (Z.to_nat n) a ++ repeat junk (Z.to_nat n - List.length a))
  else None.

Notation "'do' x <- e ; k" := (match e with Some x => k | None => None end)
  (at level 10, x pattern, e at level 100, k at level 200, only parsing).
Notation "x +' y" := (int_wrap (x + y)) (at level 50, left associativity, only parsing).
Notation "x -' y" := (int_wrap (x - y)) (at level 50, left associativity, only parsing).

(** "Check that the frametime buffer isn't too small", on the buffer, the
    sum and the length. *)
Definition frametimes_grow (f : Z) (st : list D * D * Z) : option (list D * D * Z) :=
  let '(a, sum, num) := st in
  if (sum <? FRAMERATE_AVERAGE_TIME)%D then
    (* Insert a new element into the frametime buffer, right
       after the current element, with value equal to that
       of the oldest element *)
    let num := num +' 1 in
    do a <- RESIZE a num;
    do a <- (if f <? num -' 2 then memmove a (f +' 2) (f +' 1) (num -' f -' 2)
             else do x <- array_get a 0; array_set a (f +' 1) x);
    do x <- array_get a (f +' 1);
    Some (a, (sum + x)%D, num)
  else Some st.

(** "Check that the frametime buffer isn't too big" *)
Definition frametimes_shrink (f : Z) (st : list D * D * Z) : option (list D * D * Z) :=
  let '(a, sum, num) := st in
  if (sum >? FRAMERATE_AVERAGE_TIME + d1)%D && (num >? 4) then
    (* Remove the oldest element from the frametime array *)
    do (a, sum) <-
      (if f <? num -' 1 then
         do x <- array_get a (f +' 1);
         do a <- memmove a (f +' 1) (f +' 2) (num -' f -' 2);
         Some (a, (sum - x)%D)
       else
         do x <- array_get a 0;
         do a <- memmove a 0 1 (num -' 1);
         Some (a, (sum - x)%D));
    let num := num -' 1 in
    do a <- RESIZE a num;
    Some (a, sum, num)
  else Some st.

(** framerate_iteration( ); [t_now] is what xgettime( ) returns if it is
    called, and [None] is undefined behaviour: an access outside the
    buffer, a buffer of no element, a remainder by zero. *)
Definition framerate_iteration (mesg : FramerateMesg) (t_now : D) (s : FramerateStatics)
    : option FramerateStatics :=
  if num_frametimes s =? 0 then
    (* First-time initialization *)
    Some (mkFramerateStatics (t_prev s) (sum_frametimes s) [d0] 1 (f s))
  else
    match mesg with
    | STOP_TIMING =>
        (* Entering steady state *)
        Some (mkFramerateStatics (- d1)%D (sum_frametimes s) (frametimes s)
                (num_frametimes s) (f s))
    | FRAME_RENDERED =>
        if (t_prev s <? d0)%D then
          (* First frame after steady state *)
          Some (mkFramerateStatics t_now (sum_frametimes s) (frametimes s)
                  (num_frametimes s) (f s))
        else
          (* Time for last rendered frame *)
          let delta_t := (t_now - t_prev s)%D in
          (* Update frametime buffer and sum *)
          do x <- array_get (frametimes s) (f s);
          let sum := (sum_frametimes s - x)%D in
          do a <- array_set (frametimes s) (f s) delta_t;
          let sum := (sum + delta_t)%D in
          do st <- frametimes_grow (f s) (a, sum, num_frametimes s);
          do (a, sum, num) <- frametimes_shrink (f s) st;
          if num =? 0 then None
          else Some (mkFramerateStatics (t_prev s) sum a num (Z.rem (f s +' 1) num))
    end.

(** A run of calls, each with its message and the reading of the clock. *)
Fixpoint framerate_run (calls : list (FramerateMesg * D)) (s : FramerateStatics)
    : option FramerateStatics :=
  match calls with
  | [] => Some s
  | (mesg, t_now) :: rest =>
      do s <- framerate_iteration mesg t_now s;
      framerate_run rest s
  end.

(** "Check that sum_frametimes == SIGMA frametimes": the sum the DEBUG
    build computes. *)
Definition sigma_sum (a : list D) : D := fold_left (fun acc x => (acc + x)%D) a d0.

(** The buffer has [num_frametimes] elements, at least one, and [f] is an
    index into it. *)
Definition frametimes_ok (s : FramerateStatics) : Prop :=
  Z.of_nat (List.length (frametimes s)) = num_frametimes s /\
  0 <= f s < num_frametimes s.

(** The buffer is a ring: with [i] the current index, the oldest element
    is the one after it, cyclically. *)
Definition oldest (i : nat) (a : list D) : D :=
  nth (if (S i <? List.length a)%nat then S i else 0%nat) a junk.

(** [a] with [a[i]] overwritten, with a copy of the oldest element
    inserted after [a[i]], and with the oldest element removed. *)
Definition overwrite (i : nat) (x : D) (a : list D) : list D :=
  firstn i a ++ x :: skipn (S i) a.
Definition insert_oldest (i : nat) (a : list D) : list D :=
  firstn (S i) a ++ oldest i a :: skipn (S i) a.
Definition remove_oldest (i : nat) (a : list D) : list D :=
  if (S i <? List.length a)%nat then firstn (S i) a ++ skipn (S (S i)) a else skipn 1 a.

(** The calls of a run of rendered frames at the clock readings [ts]. *)
Definition frames_rendered (ts : list D) : list (FramerateMesg * D) :=
  map (fun t_now => (FRAME_RENDERED, t_now)) ts.

End Framerate.

Arguments FRAMERATE_AVERAGE_TIME {D} {H}.
Arguments framerate_statics_init {D} {H}.

(** Frames rendered half a second apart, then further apart, on binary64
    and on the reals; the first call only allocates the buffer and the
    second only starts the timing. *)
Definition ex_frames : list (FramerateMesg * float) :=
  frames_rendered [0; 1; 1.5; 2; 2.5; 3; 3.5; 4; 5; 6; 7; 8; 9; 100; 101]%float.
Definition ex_framesR : list (FramerateMesg * R) :=
  frames_rendered [0; 1; 2; 3; 4; 5; 6]%R.

(** The statics after the buffer is allocated and a first frame at time 1
    has started the timing. *)
Definition ex_timing : FramerateStatics float :=
  mkFramerateStatics 1%float 0%float [0%float] 1 0.

(** ** animation.c: what one tick of the scheduler does to the whole queue *)

(** The event is due at the next tick: its counter, decremented, is not
    above zero. *)
Definition due (e : ScheduledEvent) : bool := (int_wrap (nframes e - 1) <=? 0)%Z.

(** The event with its counter decremented. *)
Definition tick_down (e : ScheduledEvent) : ScheduledEvent :=
  mkScheduledEvent (ev_ptr e) (int_wrap (nframes e - 1)) (event_cb e) (ev_data e).

Definition ev_call (e : ScheduledEvent) : nat * EventCb * Data :=
  (ev_ptr e, event_cb e, ev_data e).

Section TickVocabulary.
Variable D : Type.

(** The events that fired, newest first. *)
Fixpoint fired_events (tr : list (Fired D)) : list (nat * EventCb * Data) :=
  match tr with
  | [] => []
  | FiredEvent _ p cb d :: tr' => (p, cb, d) :: fired_events tr'
  | _ :: tr' => fired_events tr'
  end.

(** The events a callback's calls of the interface register, in the
    order of the calls: only schedule_event( ) registers one. *)
Definition scheduled_by (l : list (ApiCall D)) : list (EventCb * Data * Z) :=
  flat_map (fun c => match c with
                     | Call_schedule_event _ cb d n => [(cb, d, n)]
                     | _ => []
                     end) l.

(** What the callbacks of the events of [q] that are due register, the
    callbacks taken in the order of [q]. *)
Definition tick_requests (C : Client D) (q : list ScheduledEvent)
    : list (EventCb * Data * Z) :=
  flat_map (fun e => scheduled_by (event_code C (event_cb e) (ev_data e)))
    (filter due q).

End TickVocabulary.

Arguments fired_events {D} tr.
Arguments scheduled_by {D} l.
Arguments tick_requests {D} C q.

(** Events registered one after the other, the first at address [n0], as
    they stand in a queue they were prepended to: the last one in front,
    each with the counter it was registered with. *)
Fixpoint registered (n0 : nat) (l : list (EventCb * Data * Z)) : list ScheduledEvent :=
  match l with
  | [] => []
  | (cb, d, n) :: l' => registered (S n0) l' ++ [mkScheduledEvent n0 n cb d]
  end.

(** Three events in the queue, the one scheduled last in front: the first
    and the last are due at the next tick, the one in between two ticks
    later. *)
Definition ex_ticking : State float :=
  mkState (fun _ => 0%float) 1000%float
    [mkScheduledEvent 2 1 6 12; mkScheduledEvent 1 3 5 11; mkScheduledEvent 0 1 0 10]
    [] true true 3 [].

(** ** geometry.c: where the MapV layout puts the children *)

Section MapVTilingVocabulary.
Variable t : Tree.

Local Open Scope R_scope.

(** The total area of [blocks], and of the rows [rows]. *)
Fixpoint block_sum (blocks : list (MapVBlock R)) : R :=
  match blocks with
  | [] => 0
  | b :: rest => blk_area b + block_sum rest
  end.
Fixpoint rows_sum (rows : list (MapVRow R)) : R :=
  match rows with
  | [] => 0
  | r :: rest => row_area r + rows_sum rest
  end.

(** The block has room for its node scaled by [scale_factor]. *)
Definition block_fits (scale_factor : R) (b : MapVBlock R) : Prop :=
  0 < scale_factor * IZR (mapv_block_size t (blk_node b)) <= blk_area b.

(** The row's area is that of its blocks, each of which has room for its
    node. *)
Definition row_fits (scale_factor : R) (r : MapVRow R) : Prop :=
  row_area r = block_sum (row_blocks r) /\
  Forall (block_fits scale_factor) (row_blocks r) /\
  0 < row_area r.

Definition row_acc_fits (scale_factor : R) (row : option (MapVRow R)) : Prop :=
  match row with
  | Some r => row_fits scale_factor r
  | None => True
  end.

Definition row_acc_area (row : option (MapVRow R)) : R :=
  match row with
  | Some r => row_area r
  | None => 0
  end.

(** The rectangle of [gp] lies inside [x0, x1] x [y0, y1]. *)
Definition inside_rect (x0 y0 x1 y1 : R) (gp : MapVGeomParams R) : Prop :=
  x0 <= c0_x gp /\ c1_x gp <= x1 /\ y0 <= c0_y gp /\ c1_y gp <= y1.

(** [q], placed after [p], lies wholly to the left of [p] or wholly in
    front of it: the two rectangles share at most a stretch of boundary. *)
Definition apart (p q : nat * MapVGeomParams R) : Prop :=
  c1_x (snd q) <= c0_x (snd p) \/ c1_y (snd q) <= c0_y (snd p).

End MapVTilingVocabulary.

(** ** colexp.c: what a recursive collapse or expansion leaves in the morph queue *)

Section ColexpWalkVocabulary.
Variable D : Type.
Context `{Double D} `{Libm D}.
Variable t : Tree.

(** The children the loop "perform action on subdirectories" acts on: the
    directories ahead of the first child that is not one. *)
Fixpoint leading_dirs (nodes : list nat) : list nat :=
  match nodes with
  | [] => []
  | node :: rest => if NODE_IS_DIR t node then node :: leading_dirs rest else []
  end.

(** The directories a recursive colexp( ) on [dnode] acts on, in order,
    each with the recursion depth it is met at; [dnode] itself is at
    depth [k]. *)
Fixpoint colexp_walk (fuel : nat) (dnode : nat) (k : Z) : list (nat * Z) :=
  match fuel with
  | 0 => []
  | S fuel' =>
      (dnode, k)
        :: flat_map (fun c => colexp_walk fuel' c (k + 1)) (leading_dirs (children (t dnode)))
  end.

(** The collapse of [node], started at time [ts] from the value [x]. *)
Definition collapse_stage (node : nat) (x ts ct : D) : Morph D :=
  mkMorph MORPH_QUADRATIC (VarDeployment node) x d0 ts (ts + ct)%D
    (Some colexp_progress_cb) (Some colexp_progress_cb) node None.

Definition colexp_stage (mesg : ColExpMesg) (node : nat) (x ts ct : D) : Morph D :=
  match mesg with
  | COLEXP_COLLAPSE_RECURSIVE => collapse_stage node x ts ct
  | _ => expand_stage node x ts ct
  end.

(** The record colexp( ) queues for [node] when it has [wait_count] levels
    to wait: the collapse or expansion, behind a morph that holds the
    value for [wait_count] times the duration of one level if there is a
    wait.  The value, the time and the duration are those of [w0]. *)
Definition colexp_record (mesg : ColExpMesg) (w0 : World D) (node : nat) (wait_count : Z)
    : Morph D :=
  let x := deployment w0 node in
  let now := clock (anim w0) in
  let ct := mode_colexp_time (fsv_mode w0) in
  if (wait_count >? 0)%Z then
    let wait_end := (now + d_of_Z wait_count * ct)%D in
    mkMorph MORPH_LINEAR (VarDeployment node) x x now wait_end None None 0
      (Some (colexp_stage mesg node x wait_end ct))
  else colexp_stage mesg node x now ct.

(** The number of levels a directory met at depth [k] waits, [M] being
    the maximum depth. *)
Definition colexp_wait_count (mesg : ColExpMesg) (M k : Z) : Z :=
  match mesg with
  | COLEXP_COLLAPSE_RECURSIVE | COLEXP_EXPAND_ANY => (M - k)%Z
  | COLEXP_EXPAND | COLEXP_EXPAND_RECURSIVE => k
  end.

(** [walked mesg w0 M wa w' walk]: from [wa] to [w'] the directories of
    [walk] each got their record, and nothing else of the animation
    changed. *)
Definition walked (mesg : ColExpMesg) (w0 : World D) (M : Z) (wa w' : World D)
    (walk : list (nat * Z)) : Prop :=
  fsv_mode w' = fsv_mode wa /\ colexp_time w' = colexp_time wa /\
  mem (anim w') = mem (anim wa) /\ clock (anim w') = clock (anim wa) /\
  queue_ok (morph_queue (anim w')) /\
  (forall x k, In (x, k) walk ->
     g_list_find_custom (morph_queue (anim w')) (VarDeployment x)
     = Some (colexp_record mesg w0 x (colexp_wait_count mesg M k))) /\
  (forall v, (forall x k, In (x, k) walk -> v <> VarDeployment x) ->
     g_list_find_custom (morph_queue (anim w')) v
     = g_list_find_custom (morph_queue (anim wa)) v).

(** What colexp( ) relies on between its steps: the doubles, the clock,
    the mode and the duration of one level are those of [w0], and during a
    collapse the maximum depth is [M]. *)
Definition colexp_frame (mesg : ColExpMesg) (w0 : World D) (M : Z) (w : World D) : Prop :=
  mem (anim w) = mem (anim w0) /\ clock (anim w) = clock (anim w0) /\
  fsv_mode w = fsv_mode w0 /\
  colexp_time w = mode_colexp_time (fsv_mode w0) /\
  (mesg = COLEXP_COLLAPSE_RECURSIVE -> max_depth w = M) /\
  queue_ok (morph_queue (anim w)).

End ColexpWalkVocabulary.

(** ** geometry.c: the nodes a layout recursion meets *)

Section TreeWalk.
Variable t : Tree.

(** The children of [c] that a recursion which descends through
    directories meets at [c] within [fuel] nested calls: [c] itself, then
    what it meets below [c] when [c] is a directory. *)
Fixpoint nodes_below (fuel : nat) (dnode : nat) : list nat :=
  match fuel with
  | 0 => []
  | S fuel' =>
      flat_map (fun c => c :: (if NODE_IS_DIR t c then nodes_below fuel' c else []))
        (children (t dnode))
  end.

Definition node_and_below (fuel : nat) (c : nat) : list nat :=
  c :: (if NODE_IS_DIR t c then nodes_below fuel c else []).

End TreeWalk.

Section MapVNestingVocabulary.
Variable t : Tree.

Local Open Scope R_scope.

(** A rectangle a directory can lay its children out on. *)
Definition mapv_good (g : MapVGeomParams R) : Prop :=
  0 < MAPV_NODE_WIDTH g /\ 0 < MAPV_NODE_DEPTH g /\ 0 <= height g.

(** In [w] the children of [d] have the geometry the layout of [d]'s own
    geometry gives them. *)
Definition mapv_laid_out (w : World R) (d : nat) : Prop :=
  map (fun c => (c, mapv_geom w c)) (children (t d))
  = mapv_layout t (mapv_geom w d) (children (t d)).

(** What a run of mapv_init_recursive( ) on [x] leaves at and below [x],
    [good] being what is known of the rectangles. *)
Definition laid_below (good : MapVGeomParams R -> Prop) (w' : World R) (x : nat) : Prop :=
  forall d, dir_below t x d -> mapv_laid_out w' d /\ good (mapv_geom w' d).

Definition nested_below (w' : World R) (x : nat) : Prop := laid_below mapv_good w' x.

End MapVNestingVocabulary.

(** ** geometry.c: where the DiscV layout puts the children *)

Section DiscVPlacement.
Variable D : Type.
Context `{Double D} `{Libm D}.
Variable t : Tree.

Local Open Scope double_scope.

(** [node_size] of the first loop of discv_init_recursive( ). *)
Definition discv_node_size (node : nat) : Z :=
  let sz := if (64 >? size (t node))%Z then 64%Z else size (t node) in
  if NODE_IS_DIR t node then int64_wrap (sz + subtree_size (t node)) else sz.

(** What the first loop stores for [node] under a directory of radius
    [dir_radius]: the radius, the centre-to-centre distance, and,
    temporarily in [theta], the arc width. *)
Definition discv_radius (node : nat) : D :=
  d_sqrt (d_of_Z (discv_node_size node) / d_PI).
Definition discv_dist (dir_radius : D) (node : nat) : D :=
  dir_radius + discv_radius node * (d1 + @DISCV_LEAF_STEM_PROPORTION D _).
Definition discv_arc (dir_radius : D) (node : nat) : D :=
  d2 * DEG (d_asin (discv_radius node / discv_dist dir_radius node)).
Definition discv_radii (dir_radius : D) (node : nat) : DiscVGeomParams D :=
  mkDiscVGeomParams (discv_radius node) (discv_arc dir_radius node)
    (discv_dist dir_radius node) d0.

(** [total_arc_width] after the first loop. *)
Definition discv_total (dir_radius : D) (nodes : list nat) : D :=
  fold_left (fun a c => a + discv_arc dir_radius c) nodes d0.

(** The body of the second loop for one node of geometry [gparams]: its
    new geometry, and the new [theta0], [theta1] and [out]. *)
Definition discv_angle_step (k : D) (stagger : bool) (gparams : DiscVGeomParams D)
    (first : bool) (theta0 theta1 : D) (even out : bool)
    : DiscVGeomParams D * D * D * bool :=
  let arc_width := k * theta gparams in
  let dist := pos_x gparams in
  let dist := if stagger && out then dist + d2 * radius gparams else dist in
  let '(th, theta0, theta1, out) :=
    if first then
      (theta0, theta0 + d_lit 1 2 * arc_width, theta1 - d_lit 1 2 * arc_width, negb out)
    else if even then
      (theta0 + d_lit 1 2 * arc_width, theta0 + arc_width, theta1, negb out)
    else
      (theta1 - d_lit 1 2 * arc_width, theta0, theta1 - arc_width, out) in
  (mkDiscVGeomParams (radius gparams) th (dist * d_cos (RAD th)) (dist * d_sin (RAD th)),
   theta0, theta1, out).

(** The geometry the second loop gives the nodes of [nodes], read off the
    geometry [g] the first loop left. *)
Fixpoint discv_place (k : D) (stagger : bool) (g : nat -> DiscVGeomParams D)
    (nodes : list nat) (first : bool) (theta0 theta1 : D) (even out : bool)
    : list (nat * DiscVGeomParams D) :=
  match nodes with
  | [] => []
  | node :: rest =>
      let '(gparams, theta0, theta1, out) :=
        discv_angle_step k stagger (g node) first theta0 theta1 even out in
      (node, gparams) :: discv_place k stagger g rest false theta0 theta1 (negb even) out
  end.

(** The order the second loop takes the children of [d] in. *)
Definition discv_order (d : nat) : list nat :=
  g_list_sort (rev (children (t d))) (discv_node_compare t).

(** [k] of discv_init_recursive( ) on a directory of radius [dir_radius]. *)
Definition discv_k (dir_radius : D) (d : nat) : D :=
  @DISCV_LEAF_RANGE_ARC_WIDTH D _ / discv_total dir_radius (children (t d)).

(** In [w] the children of [d] have the geometry the two loops give them
    for the radius [d] has in [w] and some stem angle. *)
Definition discv_laid_out (w : World D) (d : nat) : Prop :=
  exists stem_theta,
    let dir_radius := radius (discv_geom w d) in
    let k := discv_k dir_radius d in
    map (fun c => (c, discv_geom w c)) (discv_order d)
    = discv_place k (k <=? d1) (discv_radii dir_radius) (discv_order d) true
        (stem_theta - d_of_Z 180) (stem_theta + d_of_Z 180) true true.

(** What a run of discv_init_recursive( ) on [x] leaves at and below [x]. *)
Definition discv_below (w' : World D) (x : nat) : Prop :=
  forall d, dir_below t x d ->
    discv_laid_out w' d /\ (d = x \/ radius (discv_geom w' d) = discv_radius d).

End DiscVPlacement.

Section DiscVSectors.
Variable t : Tree.

Local Open Scope R_scope.

Definition sum_of (f : nat -> R) (l : list nat) : R :=
  fold_right (fun c a => f c + a) 0 l.

(** The angle, in degrees, of the sector the second loop reserves for the
    child [c] of [d]. *)
Definition discv_sector (w : World R) (d c : nat) : R :=
  discv_k t (radius (discv_geom w d)) d * discv_arc t (radius (discv_geom w d)) c.

End DiscVSectors.

(** ** geometry.c: how TreeV fans the subdirectories out *)

Section TreeVFan.
Variable D : Type.
Context `{Double D} `{Libm D}.
Variable t : Tree.

Local Open Scope double_scope.

(** [arc_width] of the first loop of treev_arrange_recursive( ): the arc a
    subdirectory takes of the fan of its parent. *)
Definition treev_arc (w : World D) (node : nat) : D :=
  deployment w node
  * MAX (platform_arc_width (treev_geom w node))
        (platform_subtree_arc_width (treev_geom w node)).

(** Not a directory leaf: the metanode, or a directory that is expanded. *)
Definition treev_open (w : World D) (dnode : nat) : bool :=
  negb (NODE_IS_DIR t dnode && geometry_treev_is_leaf t w dnode).

(** [treev_arranged w x d]: treev_arrange_recursive( [x], r0, TRUE ) gets
    as far as the two loops over the subdirectories of [d]. *)
Inductive treev_arranged (w : World D) : nat -> nat -> Prop :=
  | treev_arranged_here x : treev_open w x = true -> treev_arranged w x x
  | treev_arranged_child x c d :
      treev_open w x = true -> In c (leading_dirs t (children (t x))) ->
      treev_arranged w c d -> treev_arranged w x d.

(** The subdirectories of [d] are fanned out in [w]: the subtree arc width
    of [d] is the running sum of their arcs, and each has its platform
    centred half its arc past the running angle, which starts at minus
    half the subtree arc width. *)
Definition treev_fanned (w : World D) (d : nat) : Prop :=
  let subdirs := leading_dirs t (children (t d)) in
  let subtree_arc_width := platform_subtree_arc_width (treev_geom w d) in
  subtree_arc_width = fold_left (fun a c => a + treev_arc w c) subdirs d0 /\
  forall i c, nth_error subdirs i = Some c ->
    platform_theta (treev_geom w c)
    = fold_left (fun th c => th + treev_arc w c) (firstn i subdirs)
        (- d_lit 1 2 * subtree_arc_width)
      + d_lit 1 2 * treev_arc w c.

End TreeVFan.

(** ** geometry.c: asking TreeV to rearrange *)

Section TreeVRearrange.
Variable D : Type.
Context `{Double D} `{Libm D}.
Variable t : Tree.

Local Open Scope double_scope.

(** The loop of treev_queue_rearrange( ), up the parents; [flags] is a
    bitfield of 2 bits. *)
Fixpoint treev_queue_rearrange_loop (fuel : nat) (up_node : option nat) (w : World D)
    : option (World D) :=
  match up_node with
  | None => Some w
  | Some up =>
      match fuel with
      | 0 => None
      | S fuel' =>
          let w := set_node_flags
                     (upd (node_flags w) up
                        (Z.land (Z.lor (node_flags w up) TREEV_NEED_REARRANGE) 3)) w in
          (* Branch geometry has to be rebuilt (display list B) *)
          let w := set_b_dlist_stale (upd (b_dlist_stale w) up true) w in
          treev_queue_rearrange_loop fuel' (parent (t up)) w
      end
  end.

(* treev_queue_rearrange( ) *)
Definition treev_queue_rearrange (fuel : nat) (dnode : nat) (w : World D)
    : option (World D) :=
  match treev_queue_rearrange_loop fuel (Some dnode) w with
  | Some w => Some (queue_uncached_draw w)
  | None => None
  end.

(* geometry_colexp_in_progress( ) *)
Definition geometry_colexp_in_progress (fuel : nat) (dnode : nat) (w : World D)
    : option (World D) :=
  (* Check geometry status against deployment. If they don't concur
     properly, then directory geometry has to be rebuilt *)
  let w := if negb (Bool.eqb (geom_expanded w dnode) (deployment w dnode >? EPSILON)) then
             geometry_queue_rebuild dnode w
           else queue_uncached_draw w in
  match fsv_mode w with
  | FSV_TREEV =>
      (* Take care of shifting angles *)
      treev_queue_rearrange fuel dnode w
  | _ => Some w
  end.

(** [descends x path]: [path] leads down from [x], each directory among
    the subdirectories, ahead of the first non-directory child, of the one
    before. *)
Fixpoint descends (x : nat) (path : list nat) : Prop :=
  match path with
  | [] => True
  | p :: rest => In p (leading_dirs t (children (t x))) /\ descends p rest
  end.

(** The flag TREEV_NEED_REARRANGE of [node]. *)
Definition need_rearrange (w : World D) (node : nat) : bool :=
  negb (Z.land (node_flags w node) TREEV_NEED_REARRANGE =? 0)%Z.

End TreeVRearrange.

(** The small filesystem in TreeV mode. *)
Definition ex_treevR : World R := set_fsv_mode FSV_TREEV ex_worldR.

(** ** geometry.c: the height a MapV node stands at *)

Section MapVLevels.
Variable D : Type.
Context `{Double D} `{Libm D}.
Variable t : Tree.

Local Open Scope double_scope.

(** The loop of geometry_mapv_node_z0( ), up the parents. *)
Fixpoint mapv_node_z0_loop (fuel : nat) (w : World D) (up_node : option nat) (z : D)
    : option D :=
  match up_node with
  | None => Some z
  | Some up =>
      match fuel with
      | 0 => None
      | S fuel' =>
          mapv_node_z0_loop fuel' w (parent (t up)) (z + height (mapv_geom w up))
      end
  end.

(* geometry_mapv_node_z0( ) *)
Definition geometry_mapv_node_z0 (fuel : nat) (w : World D) (node : nat) : option D :=
  mapv_node_z0_loop fuel w (parent (t node)) d0.

(** [dir_path x path]: [path] leads down from [x] through directories,
    each a child of the one before. *)
Fixpoint dir_path (x : nat) (path : list nat) : Prop :=
  match path with
  | [] => True
  | p :: rest => In p (children (t x)) /\ NODE_IS_DIR t p = true /\ dir_path p rest
  end.

End MapVLevels.

(** ** geometry.c: the heights TreeV gives the nodes *)

Section TreeVHeights.
Variable D : Type.
Context `{Double D} `{Libm D}.
Variable t : Tree.

Local Open Scope double_scope.

(** [size] of the loop of treev_init_recursive( ). *)
Definition treev_leaf_size (node : nat) : Z :=
  let sz := if (64 >? size (t node))%Z then 64%Z else size (t node) in
  if NODE_IS_DIR t node then int64_wrap (sz + subtree_size (t node)) else sz.

(** What treev_init_recursive( ) leaves of the child [c] of a directory:
    its height as a leaf and, for a directory, the height of its
    platform. *)
Definition treev_heights_ok (w : World D) (c : nat) : Prop :=
  leaf_height (treev_geom w c)
  = d_sqrt (d_of_Z (treev_leaf_size c)) * @TREEV_LEAF_HEIGHT_MULTIPLIER D _ /\
  (NODE_IS_DIR t c = true ->
   platform_height (treev_geom w c) = @TREEV_PLATFORM_HEIGHT D _).

(** What a run of treev_init_recursive( ) on [x] leaves at and below [x]. *)
Definition treev_initialised (w : World D) (x : nat) : Prop :=
  forall d, dir_below t x d ->
    node_flags w d = 0%Z /\ forall c, In c (children (t d)) -> treev_heights_ok w c.

End TreeVHeights.

(** ** geometry.c: how wide a TreeV tree can get *)

Section TreeVSpan.
Variable t : Tree.

Local Open Scope R_scope.

(** In exact arithmetic the depth [d] that treev_reshape_platform( )
    computes for a directory of [n] children satisfies [d * d < 2 * A + w]
    at every inner radius, [A] being the area estimated from [n] and [w]
    the spacing width.  [treev_arc_bound n / r0] bounds the arc width the
    platform is given at the inner radius [r0]. *)
Definition treev_arc_bound (n : Z) : R :=
  180 * (sqrt (2 * shape_area (treev_platform_shape n 8192) + 512) + 512) / d_PI.

(** [treev_span fuel dnode / r0] bounds the subtree arc width of [dnode]
    when its platform is at the inner radius [r0]: every subdirectory
    takes its own arc or that of its subtree, whichever is larger. *)
Fixpoint treev_span (fuel : nat) (dnode : nat) : R :=
  match fuel with
  | 0 => 0
  | S fuel' =>
      sum_of (fun c => Rmax (treev_arc_bound (Z.of_nat (List.length (children (t c)))))
                            (treev_span fuel' c))
        (leading_dirs t (children (t dnode)))
  end.

(** Every directory at or below [x] has the deployment its entry in the
    directory tree asks for. *)
Definition deployed_below (w : World R) (x : nat) : Prop :=
  forall d, dir_below t x d -> NODE_IS_DIR t d = true ->
    deployment w d = if ctree_expanded w d then 1 else 0.

End TreeVSpan.

(** The program on the reals with the directory 2 in the middle of an
    expansion: its deployment is at 0.5 and a morph of it is queued. *)
Definition ex_world_midR : World R :=
  set_anim
    (morph_full (VarDeployment 2) MORPH_INV_QUADRATIC 1%R 2%R None None 2
       (set_mem (fun v => match v with
                          | VarDeployment 1 => 1%R
                          | VarDeployment 2 => (1 / 2)%R
                          | _ => 0%R
                          end) ex_initR))
    ex_worldR.
(** * Properties *)

(** ** Comparisons on the reals *)

Lemma Rltb_true (x y : R) : Rltb x y = true <-> (x < y)%R.
Proof. unfold Rltb. destruct (Rlt_dec x y); split; intros; try easy. Qed.

Lemma Rleb_true (x y : R) : Rleb x y = true <-> (x <= y)%R.
Proof. unfold Rleb. destruct (Rle_dec x y); split; intros; try easy. Qed.

Lemma Rltb_false (x y : R) : Rltb x y = false <-> (y <= x)%R.
Proof. unfold Rltb. destruct (Rlt_dec x y); split; intros; try easy; lra. Qed.

Lemma Rleb_false (x y : R) : Rleb x y = false <-> (y < x)%R.
Proof. unfold Rleb. destruct (Rle_dec x y); split; intros; try easy; lra. Qed.


Ltac splits := repeat match goal with |- _ /\ _ => split end.

(** ** animation.c: the morph queue *)

Lemma int64_wrap_small (z : Z) : (INT64_MIN <= z <= INT64_MAX)%Z -> int64_wrap z = z.
Proof.
  unfold INT64_MIN, INT64_MAX, int64_wrap. intros Hz.
  rewrite Z.mod_small by lia. lia.
Qed.

Lemma Var_eqb_eq (a b : Var) : Var_eqb a b = true <-> a = b.
Proof.
  destruct a as [i|i], b as [j|j]; simpl; try (split; congruence);
    rewrite Nat.eqb_eq; split; congruence.
Qed.

Lemma Var_eqb_refl (a : Var) : Var_eqb a a = true.
Proof. apply Var_eqb_eq; reflexivity. Qed.

Lemma Var_eqb_neq (a b : Var) : Var_eqb a b = false <-> a <> b.
Proof.
  rewrite <- Var_eqb_eq. destruct (Var_eqb a b); split; congruence.
Qed.

Section MorphFacts.
Context {D : Type} `{Double D}.

(** Induction along the [next] chain of a morph record. *)
Lemma Morph_chain_ind (P : Morph D -> Prop) :
  (forall m, next m = None -> P m) ->
  (forall m m', next m = Some m' -> P m' -> P m) ->
  forall m, P m.
Proof.
  intros Hlast Hstep.
  fix IH 1. intros m.
  destruct m as [ty v sv ev ts te scb ecb d [m'|]].
  - apply (Hstep _ m'); [reflexivity | apply IH].
  - apply Hlast; reflexivity.
Qed.

Lemma stages_set_last_next (m new_morph : Morph D) :
  next new_morph = None ->
  map stage_info (stages (set_last_next m new_morph))
  = map stage_info (stages m) ++ [stage_info new_morph].
Proof.
  intros Hnew. induction m as [m Hm | m m' Hm IH] using Morph_chain_ind.
  - destruct m as [ty v sv ev ts te scb ecb d nx]; simpl in *; subst nx; simpl.
    destruct new_morph; simpl in *; subst; reflexivity.
  - destruct m as [ty v sv ev ts te scb ecb d nx]; simpl in *; subst nx; simpl.
    f_equal. exact IH.
Qed.

Lemma last_morph_stage_set_last_next (m new_morph : Morph D) :
  next new_morph = None ->
  last_morph_stage (set_last_next m new_morph) = new_morph.
Proof.
  intros Hnew. induction m as [m Hm | m m' Hm IH] using Morph_chain_ind.
  - destruct m as [ty v sv ev ts te scb ecb d nx]; simpl in *; subst nx; simpl.
    destruct new_morph; simpl in *; subst; reflexivity.
  - destruct m as [ty v sv ev ts te scb ecb d nx]; simpl in *; subst nx; simpl.
    exact IH.
Qed.

Lemma last_morph_stage_in_stages (m : Morph D) :
  exists pre, stages m = pre ++ [last_morph_stage m].
Proof.
  induction m as [m Hm | m m' Hm IH] using Morph_chain_ind.
  - exists []. destruct m; simpl in *; subst; reflexivity.
  - destruct IH as [pre IH]. exists (m :: pre).
    destruct m; simpl in *; subst; simpl. f_equal. exact IH.
Qed.

(** Where [g_list_find_custom] finds a record, and what the writes through
    the pointer it returns do to the queue. *)
Lemma find_custom_split (q : list (Morph D)) (v : Var) (m : Morph D) :
  g_list_find_custom q v = Some m ->
  exists l1 l2,
    q = l1 ++ m :: l2 /\ var m = v /\
    Forall (fun x => var x <> v) l1 /\
    (forall f, update_found v f q = l1 ++ f m :: l2) /\
    remove_found v q = l1 ++ l2.
Proof.
  induction q as [|x q IH]; simpl; [discriminate|].
  unfold compare_var. destruct (Var_eqb (var x) v) eqn:E; simpl.
  - intros [= <-]. exists [], q. apply Var_eqb_eq in E.
    repeat split; auto.
  - intros Hf. destruct (IH Hf) as (l1 & l2 & -> & Hv & Hl1 & Hup & Hrm).
    exists (x :: l1), l2. apply Var_eqb_neq in E.
    repeat split; auto.
    + intros f. simpl. now rewrite Hup.
    + simpl. now rewrite Hrm.
Qed.

Lemma find_custom_none (q : list (Morph D)) (v : Var) :
  g_list_find_custom q v = None <-> Forall (fun x => var x <> v) q.
Proof.
  induction q as [|x q IH]; simpl.
  - split; auto.
  - unfold compare_var. destruct (Var_eqb (var x) v) eqn:E; simpl.
    + apply Var_eqb_eq in E. split; [discriminate|].
      intros Hall. inversion Hall; subst. congruence.
    + apply Var_eqb_neq in E. rewrite IH. split.
      * intros; constructor; auto.
      * intros Hall; inversion Hall; auto.
Qed.

Lemma find_custom_app (l1 l2 : list (Morph D)) (v : Var) :
  Forall (fun x => var x <> v) l1 ->
  g_list_find_custom (l1 ++ l2) v = g_list_find_custom l2 v.
Proof.
  induction 1 as [|x l1 Hx _ IH]; simpl; auto.
  unfold compare_var. apply Var_eqb_neq in Hx. now rewrite Hx.
Qed.

Lemma find_custom_other (l1 l2 : list (Morph D)) (m m' : Morph D) (u : Var) :
  var m = var m' -> u <> var m ->
  g_list_find_custom (l1 ++ m' :: l2) u = g_list_find_custom (l1 ++ m :: l2) u.
Proof.
  intros Hv Hu. induction l1 as [|x l1 IH]; simpl.
  - unfold compare_var. rewrite <- Hv.
    assert (E : Var_eqb (var m) u = false) by (apply Var_eqb_neq; congruence).
    now rewrite E.
  - now rewrite IH.
Qed.

Lemma var_set_last_next (m new_morph : Morph D) :
  var (set_last_next m new_morph) = var m.
Proof. destruct m; reflexivity. Qed.

(** The stage last_morph_stage( ) returns is the last of the stages. *)
Lemma last_stages (m : Morph D) :
  forall d0 : Morph D, last (stages m) d0 = last_morph_stage m.
Proof.
  induction m as [m Hm | m m' Hm IH] using Morph_chain_ind; intros d0.
  - destruct m; simpl in *; subst; reflexivity.
  - destruct m as [ty v sv ev ts te scb ecb d nx]; simpl in Hm; subst nx.
    transitivity (last (stages m') d0); [|apply IH].
    destruct m'; reflexivity.
Qed.

Lemma last_morph_stage_last (m : Morph D) :
  last_morph_stage m = last (stages m) m.
Proof. symmetry. apply last_stages. Qed.

(** C2.  A morph requested on a variable that is already being morphed is
    appended to the incumbent record as a further stage: the record stays
    where it is in the queue, its stages are kept as they are and followed
    by the new one, which starts at the end time and end value of the
    last of the record's stages (so the value is continuous from one stage
    to the next) and ends [duration] later; the variable itself is not
    written and no other record is touched. *)
Theorem morph_full_chains
    (v : Var) (ty : MorphType) (target duration : D)
    (scb ecb : option MorphCb) (d : Data) (s : State D) (m : Morph D) :
  g_list_find_custom (morph_queue s) v = Some m ->
  let s' := morph_full v ty target duration scb ecb d s in
  let mlast := last (stages m) m in
  exists new_stage l1 l2,
    stage_info new_stage
      = (ty, v, end_value mlast, target, t_end mlast, (t_end mlast + duration)%D,
         scb, ecb, d) /\
    next new_stage = None /\
    t_start new_stage = t_end mlast /\
    t_end new_stage = (t_end mlast + duration)%D /\
    start_value new_stage = end_value mlast /\
    morph_queue s = l1 ++ m :: l2 /\
    morph_queue s' = l1 ++ set_last_next m new_stage :: l2 /\
    map stage_info (stages (set_last_next m new_stage))
      = map stage_info (stages m) ++ [stage_info new_stage] /\
    last (stages (set_last_next m new_stage)) m = new_stage /\
    g_list_find_custom (morph_queue s') v = Some (set_last_next m new_stage) /\
    (forall u, u <> v ->
       g_list_find_custom (morph_queue s') u = g_list_find_custom (morph_queue s) u) /\
    mem s' = mem s /\ trace s' = trace s /\
    schevent_queue s' = schevent_queue s.
Proof.
  intros Hf s' mlast.
  destruct (find_custom_split _ _ Hf) as (l1 & l2 & Hq & Hv & Hl1 & Hup & _).
  set (new_stage :=
         set_times (mkMorph ty v (mem s v) target (xgettime s)
                      (xgettime s + duration)%D scb ecb d None)
           (end_value mlast) (t_end mlast) (t_end mlast + duration)%D).
  assert (Hs' : morph_queue s' = l1 ++ set_last_next m new_stage :: l2).
  { unfold s', morph_full. rewrite Hf. simpl. rewrite Hup.
    now rewrite (last_morph_stage_last m). }
  exists new_stage, l1, l2.
  repeat split; auto.
  - apply stages_set_last_next; reflexivity.
  - rewrite last_stages. apply last_morph_stage_set_last_next. reflexivity.
  - rewrite Hs', find_custom_app by assumption.
    simpl. unfold compare_var. rewrite var_set_last_next, Hv, Var_eqb_refl.
    reflexivity.
  - intros u Hu. rewrite Hs', Hq.
    apply find_custom_other; [symmetry; apply var_set_last_next | congruence].
  - unfold s', morph_full. rewrite Hf. reflexivity.
  - unfold s', morph_full. rewrite Hf. reflexivity.
  - unfold s', morph_full. rewrite Hf. reflexivity.
Qed.

End MorphFacts.

Section MorphIterationFacts.
Variable D : Type.
Context `{Double D} `{Libm D}.
Variable C : Client D.

Lemma stages_eq (m : Morph D) :
  stages m = m :: match next m with None => [] | Some m' => stages m' end.
Proof. destruct m; reflexivity. Qed.

Lemma chain_on_head (v : Var) (m : Morph D) : chain_on v m -> var m = v.
Proof. unfold chain_on. rewrite stages_eq. intros Hc. now inversion Hc. Qed.

Lemma chain_on_next (v : Var) (m m' : Morph D) :
  next m = Some m' -> chain_on v m -> chain_on v m'.
Proof.
  unfold chain_on. rewrite (stages_eq m). intros ->. intros Hc. now inversion Hc.
Qed.

Lemma morph_link_eq (t_now : D) (m : Morph D) (s : State D) :
  morph_link C t_now m s =
  if (t_now >=? t_end m)%D then
    let s := store (var m) (end_value m) s in
    let s := match end_cb m with
             | Some cb => run_morph_cb C cb m (log (FiredEnd cb m) s)
             | None => s
             end in
    match next m with
    | Some m' => morph_link C t_now m' s
    | None => (s, None)
    end
  else
    let percent := ((t_now - t_start m) / (t_end m - t_start m))%D in
    let percent := remap (type m) percent in
    let s := store (var m) (INTERPOLATE percent (start_value m) (end_value m)) s in
    let s := match step_cb m with
             | Some cb => run_morph_cb C cb m (log (FiredStep cb m) s)
             | None => s
             end in
    (s, Some m).
Proof. destruct m; reflexivity. Qed.

Lemma same_morph_view_refl (s : State D) : same_morph_view s s.
Proof. repeat split. Qed.

Lemma same_morph_view_trans (s1 s2 s3 : State D) :
  same_morph_view s1 s2 -> same_morph_view s2 s3 -> same_morph_view s1 s3.
Proof.
  intros (A1 & A2 & A3 & A4 & A5) (B1 & B2 & B3 & B4 & B5).
  repeat split; try congruence; intros v; rewrite ?B4, ?B5; auto.
Qed.

Lemma schedule_event_morph_view (cb : EventCb) (d : Data) (n : Z) (s : State D) :
  same_morph_view s (schedule_event cb d n s).
Proof.
  unfold schedule_event, same_morph_view. simpl.
  destruct (animation_active s); simpl; repeat split.
Qed.

Lemma run_morph_cb_morph_view (cb : MorphCb) (m : Morph D) (s : State D) :
  same_morph_view s (run_morph_cb C cb m s).
Proof.
  unfold run_morph_cb. generalize (morph_cb_code C cb m) as l. intros l.
  revert s. induction l as [|[[e d] n] l IH]; intros s; simpl.
  - apply same_morph_view_refl.
  - eapply same_morph_view_trans; [apply schedule_event_morph_view | apply IH].
Qed.

Lemma mem_store (v u : Var) (x : D) (s : State D) :
  mem (store v x s) u = if Var_eqb u v then x else mem s u.
Proof. reflexivity. Qed.




Lemma same_for_trans (v : Var) (s1 s2 s3 : State D) :
  same_for v s1 s2 -> same_for v s2 s3 -> same_for v s1 s3.
Proof.
  intros (A1 & A2 & A3 & A4) (B1 & B2 & B3 & B4). repeat split; congruence.
Qed.

Lemma stage_end_other (v : Var) (m : Morph D) (s : State D) :
  var m <> v -> same_for v s (stage_end C m s).
Proof.
  intros Hv.
  assert (E : Var_eqb (var m) v = false) by (apply Var_eqb_neq; congruence).
  assert (E' : Var_eqb v (var m) = false) by (apply Var_eqb_neq; congruence).
  unfold stage_end, same_for. destruct (end_cb m) as [cb|].
  - destruct (run_morph_cb_morph_view cb m
                (log (FiredEnd cb m) (store (var m) (end_value m) s)))
      as (A1 & A2 & _ & A4 & A5).
    rewrite A1, A2, A4, A5. simpl. rewrite E, E'. auto.
  - simpl. rewrite E'. auto.
Qed.

Lemma stage_step_other (v : Var) (x : D) (m : Morph D) (s : State D) :
  var m <> v -> same_for v s (stage_step C x m s).
Proof.
  intros Hv.
  assert (E : Var_eqb (var m) v = false) by (apply Var_eqb_neq; congruence).
  assert (E' : Var_eqb v (var m) = false) by (apply Var_eqb_neq; congruence).
  unfold stage_step, same_for. destruct (step_cb m) as [cb|].
  - destruct (run_morph_cb_morph_view cb m (log (FiredStep cb m) (store (var m) x s)))
      as (A1 & A2 & _ & A4 & A5).
    rewrite A1, A2, A4, A5. simpl. rewrite E, E'. auto.
  - simpl. rewrite E'. auto.
Qed.

Lemma morph_link_stage (t_now : D) (m : Morph D) (s : State D) :
  morph_link C t_now m s =
  if (t_now >=? t_end m)%D then
    match next m with
    | Some m' => morph_link C t_now m' (stage_end C m s)
    | None => (stage_end C m s, None)
    end
  else
    (stage_step C
       (INTERPOLATE (remap (type m) ((t_now - t_start m) / (t_end m - t_start m))%D)
          (start_value m) (end_value m)) m s, Some m).
Proof. rewrite morph_link_eq. reflexivity. Qed.

(** One queue link whose record is on another variable than [v]: nothing
    of [v] changes, and the link stays on its own variable. *)
Lemma morph_link_other (t_now : D) (v u : Var) (m : Morph D) :
  u <> v -> chain_on u m ->
  forall s s' r, morph_link C t_now m s = (s', r) ->
    same_for v s s' /\
    match r with Some m' => var m' = u /\ chain_on u m' | None => True end.
Proof.
  intros Hu.
  induction m as [m Hm | m m' Hm IH] using Morph_chain_ind; intros Hc s s' r;
    rewrite morph_link_stage, Hm; pose proof (chain_on_head Hc) as Hv;
    assert (Hne : var m <> v) by congruence.
  - destruct (t_now >=? t_end m)%D; intros [= <- <-]; split; auto.
    + now apply stage_end_other.
    + now apply stage_step_other.
  - destruct (t_now >=? t_end m)%D.
    + intros Hl. apply IH in Hl; [|eapply chain_on_next; eauto].
      destruct Hl as [Hl1 Hl2]. split; auto.
      eapply same_for_trans; [apply stage_end_other; eauto | exact Hl1].
    + intros [= <- <-]; split; auto. now apply stage_step_other.
Qed.

Lemma morph_loop_others (t_now : D) (v : Var) (l : list (Morph D)) :
  Forall (fun x => var x <> v /\ chain_on (var x) x) l ->
  forall s s' q, morph_loop C t_now l s = (s', q) ->
    same_for v s s' /\
    Forall (fun x => var x <> v /\ chain_on (var x) x) q.
Proof.
  induction 1 as [|x l [Hx Hcx] _ IH]; intros s s' q; simpl.
  - intros [= <- <-]. split; [repeat split | constructor].
  - destruct (morph_link C t_now x s) as [s1 r] eqn:E1.
    destruct (morph_loop C t_now l s1) as [s2 q2] eqn:E2.
    intros [= <- <-].
    destruct (morph_link_other t_now Hx Hcx s E1) as (A1 & A5).
    destruct (IH _ _ _ E2) as (B1 & B5).
    split; [eapply same_for_trans; eauto|].
    destruct r as [m'|]; auto. destruct A5 as [A5 A6].
    constructor; auto. rewrite A5. auto.
Qed.

Lemma morph_loop_cons (t_now : D) (m : Morph D) (rest : list (Morph D)) (s : State D) :
  morph_loop C t_now (m :: rest) s =
  let (s1, r) := morph_link C t_now m s in
  let (s2, q) := morph_loop C t_now rest s1 in
  (s2, match r with Some m' => m' :: q | None => q end).
Proof. reflexivity. Qed.

Lemma morph_loop_app (t_now : D) (l1 l2 : list (Morph D)) (s : State D) :
  morph_loop C t_now (l1 ++ l2) s =
  let (s1, q1) := morph_loop C t_now l1 s in
  let (s2, q2) := morph_loop C t_now l2 s1 in
  (s2, q1 ++ q2).
Proof.
  revert s. induction l1 as [|x l1 IH]; intros s; simpl.
  - now destruct (morph_loop C t_now l2 s).
  - destruct (morph_link C t_now x s) as [s1 r]. rewrite IH.
    destruct (morph_loop C t_now l1 s1) as [s2 q1].
    destruct (morph_loop C t_now l2 s2) as [s3 q2].
    now destruct r.
Qed.

Lemma queue_ok_split (l1 l2 : list (Morph D)) (m : Morph D) :
  queue_ok (l1 ++ m :: l2) ->
  Forall (fun x => var x <> var m /\ chain_on (var x) x) l1 /\
  Forall (fun x => var x <> var m /\ chain_on (var x) x) l2 /\
  chain_on (var m) m.
Proof.
  intros [Hnd Hch].
  rewrite map_app in Hnd. simpl in Hnd.
  apply Forall_app in Hch. destruct Hch as [Hc1 Hc2].
  inversion Hc2 as [|? ? Hcm Hc2']; subst.
  pose proof (NoDup_remove_2 _ _ _ Hnd) as Hnotin.
  repeat split; auto.
  - rewrite Forall_forall in *. intros x Hx. split; auto.
    intros E. apply Hnotin. apply in_or_app. left. rewrite <- E. now apply in_map.
  - rewrite Forall_forall in *. intros x Hx. split; auto.
    intros E. apply Hnotin. apply in_or_app. right. rewrite <- E. now apply in_map.
Qed.

Lemma Forall_var_weaken (v : Var) (q : list (Morph D)) :
  Forall (fun x => var x <> v /\ chain_on (var x) x) q ->
  Forall (fun x => var x <> v) q.
Proof. apply Forall_impl. tauto. Qed.

(** A morph iteration when [v] is not being morphed. *)
Lemma morph_iteration_not_morphed (v : Var) (s : State D) :
  queue_ok (morph_queue s) ->
  g_list_find_custom (morph_queue s) v = None ->
  let s' := fst (morph_iteration C s) in
  mem s' v = mem s v /\
  count_end v (trace s') = count_end v (trace s) /\
  count_step v (trace s') = count_step v (trace s) /\
  g_list_find_custom (morph_queue s') v = None.
Proof.
  intros [_ Hch] Hf. apply find_custom_none in Hf.
  unfold morph_iteration.
  destruct (morph_loop C (xgettime s) (morph_queue s) s) as [s1 q] eqn:E.
  simpl.
  assert (Hall : Forall (fun x => var x <> v /\ chain_on (var x) x) (morph_queue s)).
  { rewrite Forall_forall in *. intros x Hx. split; auto. }
  destruct (morph_loop_others _ Hall s E) as ((A1 & A2 & A3 & A4) & A5).
  repeat split; auto.
  apply find_custom_none. now apply Forall_var_weaken.
Qed.

End MorphIterationFacts.

Section MorphFinishBreak.
Variable D : Type.
Context `{Double D} `{Libm D}.
Variable C : Client D.

Lemma find_custom_removed (l1 l2 : list (Morph D)) (m : Morph D) (u : Var) :
  u <> var m ->
  g_list_find_custom (l1 ++ l2) u = g_list_find_custom (l1 ++ m :: l2) u.
Proof.
  intros Hu. induction l1 as [|x l1 IH]; simpl.
  - unfold compare_var.
    assert (E : Var_eqb (var m) u = false) by (apply Var_eqb_neq; congruence).
    now rewrite E.
  - now rewrite IH.
Qed.

Lemma queue_ok_removed (l1 l2 : list (Morph D)) (m : Morph D) :
  queue_ok (l1 ++ m :: l2) -> queue_ok (l1 ++ l2).
Proof.
  intros [Hnd Hch]. split.
  - rewrite map_app in *. simpl in Hnd. eapply NoDup_remove_1; eauto.
  - apply Forall_app in Hch. destruct Hch as [Hc1 Hc2].
    inversion Hc2; subst. apply Forall_app; auto.
Qed.

(** C3.  morph_break( ) takes the record on [v], with all the stages
    chained to it, out of the morph queue; it runs no callback and writes
    no double, and the iterations that follow neither write [v] nor run a
    callback of a morph on [v].  When [v] is not being morphed nothing
    changes at all. *)
Theorem morph_break_discards (v : Var) (s : State D) (t : D) :
  queue_ok (morph_queue s) ->
  let s' := morph_break v s in
  trace s' = trace s /\ mem s' = mem s /\ schevent_queue s' = schevent_queue s /\
  match g_list_find_custom (morph_queue s) v with
  | None => s' = s
  | Some m =>
      exists l1 l2, morph_queue s = l1 ++ m :: l2 /\ morph_queue s' = l1 ++ l2
  end /\
  g_list_find_custom (morph_queue s') v = None /\
  (forall u, u <> v ->
     g_list_find_custom (morph_queue s') u = g_list_find_custom (morph_queue s) u) /\
  queue_ok (morph_queue s') /\
  (let s'' := fst (morph_iteration C (set_clock t s')) in
   mem s'' v = mem s v /\
   count_end v (trace s'') = count_end v (trace s) /\
   count_step v (trace s'') = count_step v (trace s)).
Proof.
  intros Hok s'.
  assert (Hmain :
    trace s' = trace s /\ mem s' = mem s /\ schevent_queue s' = schevent_queue s /\
    match g_list_find_custom (morph_queue s) v with
    | None => s' = s
    | Some m =>
        exists l1 l2, morph_queue s = l1 ++ m :: l2 /\ morph_queue s' = l1 ++ l2
    end /\
    g_list_find_custom (morph_queue s') v = None /\
    (forall u, u <> v ->
       g_list_find_custom (morph_queue s') u = g_list_find_custom (morph_queue s) u) /\
    queue_ok (morph_queue s')).
  { unfold s', morph_break.
    destruct (g_list_find_custom (morph_queue s) v) as [m|] eqn:Hf.
    - destruct (find_custom_split _ _ Hf) as (l1 & l2 & Hq & Hv & Hl1 & _ & Hrm).
      simpl. rewrite Hrm. splits; auto.
      + exists l1, l2. auto.
      + rewrite Hq in Hok. destruct (queue_ok_split _ _ _ Hok) as (A1 & A2 & _).
        rewrite Hv in A1, A2.
        apply find_custom_none. apply Forall_app; split;
          eapply Forall_impl; try eassumption; simpl; tauto.
      + intros u Hu. rewrite Hq. apply find_custom_removed. congruence.
      + rewrite Hq in Hok. eapply queue_ok_removed; eauto.
    - splits; auto. }
  destruct Hmain as (A1 & A2 & A3 & A4 & A5 & A6 & A7).
  splits; auto.
  destruct (@morph_iteration_not_morphed D _ _ C v (set_clock t s') A7 A5)
    as (B1 & B2 & B3 & _); cbv zeta.
  rewrite B1, B2, B3. simpl. now rewrite A1, A2.
Qed.

Lemma stage_end_self (m : Morph D) (s : State D) :
  let s' := stage_end C m s in
  mem s' (var m) = end_value m /\
  morph_queue s' = morph_queue s /\
  count_end (var m) (trace s')
    = count_end (var m) (trace s) + (match end_cb m with Some _ => 1 | None => 0 end) /\
  count_step (var m) (trace s') = count_step (var m) (trace s).
Proof.
  unfold stage_end. destruct (end_cb m) as [cb|]; cbv zeta.
  - destruct (run_morph_cb_morph_view C cb m
                (log (FiredEnd cb m) (store (var m) (end_value m) s)))
      as (A1 & A2 & _ & A4 & A5).
    rewrite A1, A2, A4, A5. simpl. rewrite !Var_eqb_refl. repeat split; lia.
  - simpl. rewrite Var_eqb_refl. repeat split; lia.
Qed.

(** C1, as the code has it.  morph_finish( ) marks the record on [v] as
    due; the next morph iteration, at whatever time (not before 0) it runs,
    completes a single-stage morph: [*v] is the target value, the end
    callback has run exactly once when there is one (morph_full) and no
    callback has run when there is none (morph), no step callback has run,
    and [v] is no longer being morphed.  On a variable that is not being
    morphed morph_finish( ) does nothing. *)
Theorem morph_finish_completes_at_next_iteration (v : Var) (s : State D) (t : D) :
  queue_ok (morph_queue s) ->
  (d0 <=? t)%D = true ->
  match g_list_find_custom (morph_queue s) v with
  | None => morph_finish v s = s
  | Some m =>
      next m = None ->
      let s2 := fst (morph_iteration C (set_clock t (morph_finish v s))) in
      mem s2 v = end_value m /\
      count_end v (trace s2)
        = count_end v (trace s) + (match end_cb m with Some _ => 1 | None => 0 end) /\
      count_step v (trace s2) = count_step v (trace s) /\
      g_list_find_custom (morph_queue s2) v = None
  end.
Proof.
  intros Hok Ht.
  destruct (g_list_find_custom (morph_queue s) v) as [m|] eqn:Hf.
  2:{ unfold morph_finish. now rewrite Hf. }
  intros Hnext.
  destruct (find_custom_split _ _ Hf) as (l1 & l2 & Hq & Hv & _ & Hup & _).
  rewrite Hq in Hok. destruct (queue_ok_split _ _ _ Hok) as (H1 & H2 & _).
  rewrite Hv in H1, H2.
  unfold morph_finish. rewrite Hf, Hup.
  unfold morph_iteration. simpl morph_queue. unfold xgettime. simpl clock.
  rewrite morph_loop_app.
  match goal with |- context [morph_loop C t l1 ?s0] =>
    destruct (morph_loop C t l1 s0) as [s1 q1] eqn:E1 end.
  pose proof E1 as E1'. eapply morph_loop_others in E1'; [|exact H1].
  destruct E1' as ((A1 & A2 & A3 & A4) & A5).
  rewrite morph_loop_cons, morph_link_stage.
  simpl t_end. rewrite Ht. simpl next. rewrite Hnext.
  match goal with |- context [morph_loop C t l2 ?s0] =>
    destruct (morph_loop C t l2 s0) as [s2 q2] eqn:E2 end.
  pose proof E2 as E2'. eapply morph_loop_others in E2'; [|exact H2].
  destruct E2' as ((B1 & B2 & B3 & B4) & B5).
  pose proof (stage_end_self (set_t_end d0 m) s1) as (S1 & S2 & S3 & S4).
  assert (Hv' : var (set_t_end d0 m) = v) by exact Hv.
  rewrite Hv' in S1, S3, S4.
  cbv zeta. simpl fst. simpl.
  repeat split.
  - rewrite B1. exact S1.
  - rewrite B3, S3, A3. reflexivity.
  - rewrite B4, S4, A4. reflexivity.
  - apply find_custom_none. apply Forall_app; split; now apply Forall_var_weaken.
Qed.

End MorphFinishBreak.

(** *** The claims on concrete states *)

Lemma morph_full_chains_witness :
  exists new_stage,
    t_start new_stage = 1005%R /\
    t_end new_stage = (1005 + 4)%R /\
    start_value new_stage = 5%R /\
    map stage_info (stages (set_last_next ex_chainR new_stage))
    = [stage_info ex_chainR; stage_info ex_stage2R; stage_info new_stage] /\
    g_list_find_custom
      (morph_queue (morph_full ex_v MORPH_SIGMOID 0%R 4%R None None 0 ex_chainedR))
      ex_v
    = Some (set_last_next ex_chainR new_stage).
Proof.
  destruct (@morph_full_chains R _ ex_v MORPH_SIGMOID 0%R 4%R None None 0
              ex_chainedR ex_chainR eq_refl)
    as (ns & l1 & l2 & _ & _ & A & A' & B & _ & _ & S & _ & F & _).
  exists ns. repeat split; [exact A | exact A' | exact B | exact S | exact F].
Defined.

Lemma ex_morphingR_ok : queue_ok (morph_queue ex_morphingR).
Proof.
  split; simpl.
  - constructor; [simpl; tauto | constructor].
  - constructor; [|constructor]. unfold chain_on; simpl. constructor; auto.
Qed.

Lemma morph_break_discards_witness :
  morph_queue (morph_break ex_v ex_morphingR) = [] /\
  trace (morph_break ex_v ex_morphingR) = [].
Proof.
  destruct (@morph_break_discards R _ _ ex_quiet ex_v ex_morphingR 1001%R ex_morphingR_ok)
    as (A & _ & _ & (l1 & l2 & B1 & B2) & _).
  split; [|exact A].
  destruct l1 as [|x [|y l1]]; destruct l2; simpl in B1; try discriminate B1.
  exact B2.
Defined.

(** C1 as stated fails: right after morph( ) and morph_finish( ) the
    variable still has its old value, 0 and not the target 1, the record
    is still queued, and no callback has run. *)
Lemma morph_finish_not_immediate :
  let s := morph_finish ex_v ex_morphing in
  mem s ex_v = 0%float /\ mem s ex_v <> 1%float /\
  count_end ex_v (trace s) = 0 /\
  g_list_find_custom (morph_queue s) ex_v
  = Some (mkMorph MORPH_LINEAR ex_v 0%float 1%float 1000%float 0%float None None 0 None).
Proof.
  cbv zeta. vm_compute. repeat split. intros E. discriminate E.
Qed.

Lemma morph_finish_completes_at_next_iteration_witness :
  let s2 := fst (morph_iteration ex_quiet (set_clock 1001%R (morph_finish ex_v ex_morphingR))) in
  mem s2 ex_v = 1%R /\ count_end ex_v (trace s2) = 1.
Proof.
  assert (Ht : (d0 <=? 1001%R)%D = true).
  { apply Rleb_true. unfold d0; simpl. lra. }
  pose proof (@morph_finish_completes_at_next_iteration R _ _ ex_quiet ex_v
                ex_morphingR 1001%R ex_morphingR_ok Ht) as Hthm.
  simpl in Hthm. destruct (Hthm eq_refl) as (A & B & _).
  split; [exact A | exact B].
Defined.

(** ** animation.c: scheduled events *)

Section EventFacts.
Variable D : Type.
Context `{Double D} `{Libm D}.
Variable C : Client D.

(** *** The scheduler's view of a state *)

Lemma count_fired_filter (p : nat) (tr : list (Fired D)) :
  count_fired p (filter (@is_event_entry D) tr) = count_fired p tr.
Proof.
  induction tr as [|x tr IH]; simpl; auto.
  destruct x; simpl; auto.
Qed.

Lemma in_filter_scheduled (p : nat) (cb : EventCb) (d : Data) (n : Z) (tr : list (Fired D)) :
  In (Scheduled D p cb d n) (filter (@is_event_entry D) tr) <-> In (Scheduled D p cb d n) tr.
Proof. rewrite filter_In. simpl. tauto. Qed.

Lemma in_filter_fired (p : nat) (cb : EventCb) (d : Data) (tr : list (Fired D)) :
  In (FiredEvent D p cb d) (filter (@is_event_entry D) tr) <-> In (FiredEvent D p cb d) tr.
Proof. rewrite filter_In. simpl. tauto. Qed.

Lemma forall_below_filter (n : nat) (tr : list (Fired D)) :
  Forall (@entry_ptr_below D n) (filter (@is_event_entry D) tr)
  <-> Forall (@entry_ptr_below D n) tr.
Proof.
  induction tr as [|x tr IH]; simpl; [tauto|].
  destruct x; simpl; rewrite ?Forall_cons_iff, IH; simpl; tauto.
Qed.

Lemma view_fields (s s' : State D) :
  ev_view s' = ev_view s ->
  schevent_queue s' = schevent_queue s /\ next_ptr s' = next_ptr s /\
  (forall p, count_fired p (trace s') = count_fired p (trace s)) /\
  (forall p cb d n, In (Scheduled D p cb d n) (trace s') <-> In (Scheduled D p cb d n) (trace s)) /\
  (forall p cb d, In (FiredEvent D p cb d) (trace s') <-> In (FiredEvent D p cb d) (trace s)) /\
  (forall n, Forall (@entry_ptr_below D n) (trace s') <-> Forall (@entry_ptr_below D n) (trace s)).
Proof.
  unfold ev_view. intros [= Hq Hn Ht]. splits; auto.
  - intros p. now rewrite <- (count_fired_filter p (trace s')), Ht, count_fired_filter.
  - intros. now rewrite <- in_filter_scheduled, Ht, in_filter_scheduled.
  - intros. now rewrite <- in_filter_fired, Ht, in_filter_fired.
  - intros. now rewrite <- forall_below_filter, Ht, forall_below_filter.
Qed.



Lemma grows_stable (P : State D -> Prop) :
  stable D P -> forall s s', grows s s' -> P s -> P s'.
Proof.
  intros [Hv Hs]. induction 1 as [s s' E | s s' cb d n E | s1 s2 s3 _ IH1 _ IH2]; intros HP.
  - eapply Hv; eauto.
  - eapply Hv; [exact E|]. now apply Hs.
  - auto.
Qed.

Lemma grows_refl (s : State D) : grows s s.
Proof. now apply grows_same. Qed.

Lemma grows_schedule_event cb d n (s : State D) : grows s (schedule_event cb d n s).
Proof. now eapply grows_sched. Qed.

Lemma grows_morph_full v ty tg du scb ecb d (s : State D) :
  grows s (morph_full v ty tg du scb ecb d s).
Proof.
  apply grows_same. unfold morph_full.
  destruct (g_list_find_custom (morph_queue s) v); [reflexivity|].
  destruct (animation_active s); reflexivity.
Qed.

Lemma grows_morph_finish v (s : State D) : grows s (morph_finish v s).
Proof.
  apply grows_same. unfold morph_finish.
  destruct (g_list_find_custom (morph_queue s) v); reflexivity.
Qed.

Lemma grows_morph_break v (s : State D) : grows s (morph_break v s).
Proof.
  apply grows_same. unfold morph_break.
  destruct (g_list_find_custom (morph_queue s) v); reflexivity.
Qed.

Lemma grows_api_call (c : ApiCall D) (s : State D) : grows s (api_call c s).
Proof.
  destruct c; simpl.
  - apply grows_schedule_event.
  - apply grows_morph_full.
  - apply grows_morph_full.
  - apply grows_morph_finish.
  - apply grows_morph_break.
Qed.

Lemma grows_api_calls (l : list (ApiCall D)) (s : State D) :
  grows s (fold_left (fun s c => api_call c s) l s).
Proof.
  revert s. induction l as [|c l IH]; intros s; simpl.
  - apply grows_refl.
  - eapply grows_trans; [apply grows_api_call | apply IH].
Qed.

Lemma grows_run_morph_cb cb m (s : State D) : grows s (run_morph_cb C cb m s).
Proof.
  unfold run_morph_cb. generalize (morph_cb_code C cb m). intros l.
  revert s. induction l as [|[[e d] n] l IH]; intros s; simpl.
  - apply grows_refl.
  - eapply grows_trans; [apply grows_schedule_event | apply IH].
Qed.

Lemma grows_stage_end m (s : State D) : grows s (stage_end C m s).
Proof.
  unfold stage_end. destruct (end_cb m) as [cb|].
  - eapply grows_trans; [|apply grows_run_morph_cb]. now apply grows_same.
  - now apply grows_same.
Qed.

Lemma grows_stage_step x m (s : State D) : grows s (stage_step C x m s).
Proof.
  unfold stage_step. destruct (step_cb m) as [cb|].
  - eapply grows_trans; [|apply grows_run_morph_cb]. now apply grows_same.
  - now apply grows_same.
Qed.

Lemma grows_morph_link t_now m : forall (s : State D), grows s (fst (morph_link C t_now m s)).
Proof.
  induction m as [m Hm | m m' Hm IH] using Morph_chain_ind; intros s;
    rewrite morph_link_stage, Hm; destruct (t_now >=? t_end m)%D; simpl.
  - apply grows_stage_end.
  - apply grows_stage_step.
  - eapply grows_trans; [apply grows_stage_end | apply IH].
  - apply grows_stage_step.
Qed.

Lemma grows_morph_loop t_now l : forall (s : State D), grows s (fst (morph_loop C t_now l s)).
Proof.
  induction l as [|m l IH]; intros s; simpl.
  - apply grows_refl.
  - pose proof (grows_morph_link t_now m s) as G1.
    destruct (morph_link C t_now m s) as [s1 r]. simpl in G1.
    pose proof (IH s1) as G2.
    destruct (morph_loop C t_now l s1) as [s2 q]. simpl in *.
    eapply grows_trans; eauto.
Qed.

Lemma grows_morph_iteration (s : State D) : grows s (fst (morph_iteration C s)).
Proof.
  unfold morph_iteration.
  pose proof (grows_morph_loop (xgettime s) (morph_queue s) s) as G.
  destruct (morph_loop C (xgettime s) (morph_queue s) s) as [s1 q]. simpl in *.
  eapply grows_trans; [exact G|]. now apply grows_same.
Qed.

(** *** The queue operations of the loop *)

Lemma map_ptr_write (p : nat) (n : Z) (q : list ScheduledEvent) :
  map ev_ptr (write_nframes p n q) = map ev_ptr q.
Proof.
  induction q as [|e q IH]; simpl; auto.
  destruct (Nat.eqb (ev_ptr e) p); simpl; congruence.
Qed.

Lemma in_write_other (p : nat) (n : Z) (x : ScheduledEvent) (q : list ScheduledEvent) :
  ev_ptr x <> p -> In x q -> In x (write_nframes p n q).
Proof.
  intros Hx. induction q as [|e q IH]; simpl; auto.
  destruct (Nat.eqb (ev_ptr e) p) eqn:E; simpl.
  - apply Nat.eqb_eq in E. intros [->|Hin]; [congruence | auto].
  - intros [->|Hin]; auto.
Qed.

Lemma in_write_self (n : Z) (e : ScheduledEvent) (q : list ScheduledEvent) :
  NoDup (map ev_ptr q) -> In e q ->
  In (mkScheduledEvent (ev_ptr e) n (event_cb e) (ev_data e)) (write_nframes (ev_ptr e) n q).
Proof.
  induction q as [|x q IH]; simpl; [tauto|].
  intros Hnd [->|Hin].
  - rewrite Nat.eqb_refl. now left.
  - inversion Hnd as [|? ? Hnotin Hnd']; subst.
    destruct (Nat.eqb (ev_ptr x) (ev_ptr e)) eqn:E.
    + apply Nat.eqb_eq in E. exfalso. apply Hnotin. rewrite E. now apply in_map.
    + right. auto.
Qed.

Lemma in_remove_other (p : nat) (x : ScheduledEvent) (q : list ScheduledEvent) :
  ev_ptr x <> p -> In x q -> In x (remove_ptr p q).
Proof.
  intros Hx. induction q as [|e q IH]; simpl; auto.
  destruct (Nat.eqb (ev_ptr e) p) eqn:E; simpl.
  - apply Nat.eqb_eq in E. intros [->|Hin]; [congruence | auto].
  - intros [->|Hin]; auto.
Qed.

Lemma in_remove_incl (p : nat) (x : ScheduledEvent) (q : list ScheduledEvent) :
  In x (remove_ptr p q) -> In x q.
Proof.
  induction q as [|e q IH]; simpl; auto.
  destruct (Nat.eqb (ev_ptr e) p); simpl; tauto.
Qed.

Lemma in_ptr_remove_incl (p p' : nat) (q : list ScheduledEvent) :
  In p' (map ev_ptr (remove_ptr p q)) -> In p' (map ev_ptr q).
Proof.
  rewrite !in_map_iff. intros (x & Hx & Hin). exists x. split; auto.
  eapply in_remove_incl; eauto.
Qed.

Lemma nodup_remove (p : nat) (q : list ScheduledEvent) :
  NoDup (map ev_ptr q) ->
  NoDup (map ev_ptr (remove_ptr p q)) /\ ~ In p (map ev_ptr (remove_ptr p q)).
Proof.
  induction q as [|e q IH]; simpl.
  - split; [constructor | tauto].
  - intros Hnd. inversion Hnd as [|? ? Hnotin Hnd']; subst.
    destruct (Nat.eqb (ev_ptr e) p) eqn:E; simpl.
    + apply Nat.eqb_eq in E. subst p. auto.
    + apply Nat.eqb_neq in E. destruct (IH Hnd') as [A B]. split.
      * constructor; auto. intros Hin. apply Hnotin. eapply in_ptr_remove_incl; eauto.
      * intros [Heq|Hin]; auto.
Qed.

Lemma schedule_event_view cb d n (s : State D) :
  schevent_queue (schedule_event cb d n s)
    = mkScheduledEvent (next_ptr s) n cb d :: schevent_queue s /\
  next_ptr (schedule_event cb d n s) = S (next_ptr s) /\
  trace (schedule_event cb d n s) = Scheduled D (next_ptr s) cb d n :: trace s.
Proof.
  unfold schedule_event. simpl. destruct (animation_active s); simpl; auto.
Qed.

(** *** Invariants of the scheduler *)

Lemma below_mono (n n' : nat) (tr : list (Fired D)) :
  n <= n' -> Forall (@entry_ptr_below D n) tr -> Forall (@entry_ptr_below D n') tr.
Proof.
  intros Hle. apply Forall_impl. intros [p ? ? ?|p ? ?|? ?|? ?]; simpl; lia.
Qed.

Lemma count_fired_below (n p : nat) (tr : list (Fired D)) :
  Forall (@entry_ptr_below D n) tr -> n <= p -> count_fired p tr = 0.
Proof.
  induction 1 as [|x tr Hx _ IH]; intros Hp; simpl; auto.
  destruct x as [q ? ? ?|q ? ?|? ?|? ?]; simpl in *; auto.
  assert (E : Nat.eqb q p = false) by (apply Nat.eqb_neq; lia).
  rewrite E. simpl. auto.
Qed.

Lemma ev_ok_stable : stable D (@ev_ok D).
Proof.
  split.
  - intros s s' E (A & B & Cc). destruct (view_fields E) as (Hq & Hn & _ & _ & _ & Ht).
    unfold ev_ok. rewrite Hq, Hn. splits; auto. now apply Ht.
  - intros cb d n s (A & B & Cc).
    destruct (schedule_event_view cb d n s) as (Hq & Hn & Ht).
    unfold ev_ok. rewrite Hq, Hn, Ht. simpl. splits.
    + constructor; auto. intros Hin. apply in_map_iff in Hin.
      destruct Hin as (x & Hx & Hin). rewrite Forall_forall in B.
      specialize (B _ Hin). lia.
    + constructor; [simpl; lia|]. eapply Forall_impl; [|exact B]. simpl. intros; lia.
    + constructor; [simpl; lia|]. eapply below_mono; [|exact Cc]. lia.
Qed.


Lemma ev_ok_insensitive (pe : nat) : insensitive D pe (@ev_ok D).
Proof.
  split; [apply ev_ok_stable|]. splits.
  - intros n s (A & B & Cc). unfold ev_ok. simpl. splits; auto.
    + now rewrite map_ptr_write.
    + rewrite Forall_forall in *. intros x Hx.
      assert (Hp : In (ev_ptr x) (map ev_ptr (write_nframes pe n (schevent_queue s))))
        by now apply in_map.
      rewrite map_ptr_write in Hp. apply in_map_iff in Hp.
      destruct Hp as (y & Hy & Hin). rewrite <- Hy. auto.
  - intros cb d s Hin (A & B & Cc). unfold ev_ok. simpl. splits; auto.
    constructor; auto. simpl. apply in_map_iff in Hin.
    destruct Hin as (x & <- & Hin). rewrite Forall_forall in B. auto.
  - intros s (A & B & Cc). unfold ev_ok. simpl. splits; auto.
    + now apply nodup_remove.
    + rewrite Forall_forall in *. intros x Hx. apply B. eapply in_remove_incl; eauto.
Qed.

Lemma Pending_insensitive (pe p : nat) cb d k :
  p <> pe -> insensitive D pe (Pending p cb d k).
Proof.
  intros Hne. destruct (ev_ok_insensitive pe) as ([O1 O2] & O3 & O4 & O5).
  split; [split|splits].
  - intros s s' E (A & B & Cc). destruct (view_fields E) as (Hq & _ & Hc & _).
    split; [eapply O1; eauto|]. rewrite Hq, Hc. auto.
  - intros cb' d' n s (A & B & Cc).
    destruct (schedule_event_view cb' d' n s) as (Hq & Hn & Ht).
    split; [now apply O2|]. rewrite Hq, Ht. simpl. auto.
  - intros n s (A & B & Cc). split; [now apply O3|]. simpl. split; auto.
    apply in_write_other; auto.
  - intros cb' d' s Hin (A & B & Cc). split; [now apply O4|]. simpl. split; auto.
    assert (E : Nat.eqb pe p = false) by (apply Nat.eqb_neq; congruence).
    now rewrite E.
  - intros s (A & B & Cc). split; [now apply O5|]. simpl. split; auto.
    apply in_remove_other; auto.
Qed.

Lemma Done_insensitive (pe p : nat) cb d :
  p <> pe -> insensitive D pe (Done p cb d).
Proof.
  intros Hne. destruct (ev_ok_insensitive pe) as ([O1 O2] & O3 & O4 & O5).
  split; [split|splits].
  - intros s s' E (A & B & Cc & Dd & Ee).
    destruct (view_fields E) as (Hq & Hn & Hc & _ & Hf & _).
    split; [eapply O1; eauto|]. rewrite Hq, Hc, Hn, Hf. auto.
  - intros cb' d' n s (A & B & Cc & Dd & Ee).
    destruct (schedule_event_view cb' d' n s) as (Hq & Hn & Ht).
    split; [now apply O2|]. rewrite Hq, Ht, Hn. simpl. splits; auto.
    intros [Heq|Hin]; [lia | auto].
  - intros n s (A & B & Cc & Dd & Ee). split; [now apply O3|]. simpl.
    rewrite map_ptr_write. auto.
  - intros cb' d' s Hin (A & B & Cc & Dd & Ee). split; [now apply O4|]. simpl.
    assert (E : Nat.eqb pe p = false) by (apply Nat.eqb_neq; congruence).
    rewrite E. splits; auto.
  - intros s (A & B & Cc & Dd & Ee). split; [now apply O5|]. simpl. splits; auto.
    intros Hin. apply B. eapply in_ptr_remove_incl; eauto.
Qed.

Lemma InQ_insensitive (pe : nat) (x : ScheduledEvent) :
  ev_ptr x <> pe -> insensitive D pe (fun s : State D => In x (schevent_queue s)).
Proof.
  intros Hne. split; [split|splits].
  - intros s s' E. destruct (view_fields E) as (Hq & _). now rewrite Hq.
  - intros cb d n s. destruct (schedule_event_view cb d n s) as (Hq & _).
    rewrite Hq. simpl. auto.
  - intros n s. simpl. now apply in_write_other.
  - intros cb d s _. simpl. auto.
  - intros s. simpl. now apply in_remove_other.
Qed.

Lemma NotFired_insensitive (pe p : nat) :
  p <> pe -> insensitive D pe (fun s : State D => count_fired p (trace s) = 0).
Proof.
  intros Hne. split; [split|splits].
  - intros s s' E. destruct (view_fields E) as (_ & _ & Hc & _). now rewrite Hc.
  - intros cb d n s. destruct (schedule_event_view cb d n s) as (_ & _ & Ht).
    rewrite Ht. simpl. auto.
  - intros n s. simpl. auto.
  - intros cb d s _. simpl.
    assert (E : Nat.eqb pe p = false) by (apply Nat.eqb_neq; congruence).
    now rewrite E.
  - intros s. simpl. auto.
Qed.

Lemma Fresh_stable (n0 : nat) : stable D (Fresh n0).
Proof.
  destruct ev_ok_stable as [O1 O2]. split.
  - intros s s' E (A & B).
    destruct (view_fields E) as (Hq & _ & Hc & Hs & _).
    split; [eapply O1; eauto|]. intros p cb d n Hp Hin.
    rewrite Hq, Hc. apply B; auto. now apply Hs.
  - intros cb' d' n' s (A & B).
    destruct (schedule_event_view cb' d' n' s) as (Hq & Hn & Ht).
    split; [now apply O2|]. intros p cb d n Hp. rewrite Hq, Ht. simpl.
    intros [Heq|Hin].
    + injection Heq as <- <- <- <-. split; auto.
      destruct A as (_ & _ & A). eapply count_fired_below; eauto.
    + destruct (B _ _ _ _ Hp Hin). auto.
Qed.

Lemma Fresh_insensitive (pe n0 : nat) : pe < n0 -> insensitive D pe (Fresh n0).
Proof.
  intros Hlt. destruct (ev_ok_insensitive pe) as (_ & O3 & O4 & O5).
  split; [apply Fresh_stable|]. splits.
  - intros n s (A & B). split; [now apply O3|]. simpl. intros p cb d k Hp Hin.
    destruct (B _ _ _ _ Hp Hin). split; auto. apply in_write_other; auto. simpl. lia.
  - intros cb' d' s Hin' (A & B). split; [now apply O4|]. simpl.
    intros p cb d k Hp [Heq|Hin]; [discriminate|].
    destruct (B _ _ _ _ Hp Hin). split; auto.
    assert (E : Nat.eqb pe p = false) by (apply Nat.eqb_neq; lia).
    now rewrite E.
  - intros s (A & B). split; [now apply O5|]. simpl. intros p cb d k Hp Hin.
    destruct (B _ _ _ _ Hp Hin). split; auto. apply in_remove_other; auto. simpl. lia.
Qed.

(** *** One tick *)


Lemma sched_pass_cons (e : ScheduledEvent) (rest : list ScheduledEvent) (s : State D) (ex : bool) :
  sched_pass C (e :: rest) s ex =
  sched_pass C rest (sched_step C e s)
    (if (int_wrap (nframes e - 1) <=? 0)%Z then true else ex).
Proof. reflexivity. Qed.

Lemma sched_step_keeps (P : State D -> Prop) (e : ScheduledEvent) (s : State D) :
  insensitive D (ev_ptr e) P -> In (ev_ptr e) (map ev_ptr (schevent_queue s)) ->
  P s -> P (sched_step C e s).
Proof.
  intros (Hst & Hw & Hl & Hr) Hin HP. unfold sched_step. cbv zeta.
  destruct (int_wrap (nframes e - 1) <=? 0)%Z.
  - apply Hr. unfold run_event_cb.
    eapply grows_stable; [exact Hst | apply grows_api_calls |].
    apply Hl; [simpl; now rewrite map_ptr_write | now apply Hw].
  - now apply Hw.
Qed.

Lemma sched_pass_keeps (P : State D -> Prop) (rest : list ScheduledEvent) :
  forall (s : State D) (ex : bool),
    (forall e, In e rest -> insensitive D (ev_ptr e) P) ->
    NoDup (map ev_ptr rest) ->
    (forall e, In e rest -> In e (schevent_queue s)) ->
    P s -> P (fst (sched_pass C rest s ex)).
Proof.
  induction rest as [|e rest IH]; intros s ex Hins Hnd Hq HP.
  - exact HP.
  - rewrite sched_pass_cons. inversion Hnd as [|? ? Hnotin Hnd']; subst.
    apply IH; auto.
    + intros x Hx. apply Hins. now right.
    + intros x Hx. apply (@sched_step_keeps (fun s => In x (schevent_queue s))).
      * apply InQ_insensitive. intros E. apply Hnotin. rewrite <- E. now apply in_map.
      * apply in_map. apply Hq. now left.
      * apply Hq. now right.
    + apply sched_step_keeps; auto.
      * apply Hins. now left.
      * apply in_map. apply Hq. now left.
Qed.

(** The link of the event itself. *)
Lemma sched_step_self (p : nat) cb d k (s : State D) :
  Pending p cb d k s ->
  let s' := sched_step C (mkScheduledEvent p k cb d) s in
  if (int_wrap (k - 1) <=? 0)%Z then Done p cb d s'
  else Pending p cb d (int_wrap (k - 1)) s'.
Proof.
  intros (Hok & Hin & Hnf). unfold sched_step. simpl.
  destruct (ev_ok_insensitive p) as (Hst & Hw & Hl & Hr).
  set (s1 := set_schevent_queue (write_nframes p (int_wrap (k - 1)) (schevent_queue s)) s).
  assert (Hok1 : ev_ok s1) by (apply Hw; exact Hok).
  assert (Hin1 : In (mkScheduledEvent p (int_wrap (k - 1)) cb d) (schevent_queue s1)).
  { unfold s1. simpl. destruct Hok as (Hnd & _).
    exact (in_write_self (int_wrap (k - 1)) (mkScheduledEvent p k cb d) _ Hnd Hin). }
  destruct (int_wrap (k - 1) <=? 0)%Z.
  - set (s2 := log (FiredEvent D p cb d) s1).
    assert (Hp1 : In p (map ev_ptr (schevent_queue s1))).
    { apply in_map_iff. eexists; split; [|exact Hin1]. reflexivity. }
    assert (Hok2 : ev_ok s2) by (apply Hl; auto).
    set (s3 := run_event_cb C p cb d s1).
    assert (G : grows s2 s3) by (unfold s3, run_event_cb; apply grows_api_calls).
    assert (Hlt : p < next_ptr s2).
    { destruct Hok1 as (_ & B & _). rewrite Forall_forall in B.
      exact (B _ Hin1). }
    assert (Hs3 : ev_ok s3 /\ count_fired p (trace s3) = 1 /\
                  In (FiredEvent D p cb d) (trace s3) /\ p < next_ptr s3).
    { apply (@grows_stable (fun s => ev_ok s /\ count_fired p (trace s) = 1 /\
                                   In (FiredEvent D p cb d) (trace s) /\ p < next_ptr s))
        with (s := s2); auto.
      - destruct ev_ok_stable as [O1 O2]. split.
        + intros a b E (A1 & A2 & A3 & A4).
          destruct (view_fields E) as (_ & Hn & Hc & _ & Hf & _).
          rewrite Hc, Hn, Hf. split; [eapply O1; eauto | auto].
        + intros cb' d' n' a (A1 & A2 & A3 & A4).
          destruct (schedule_event_view cb' d' n' a) as (_ & Hn & Ht).
          rewrite Hn, Ht. simpl. split; [now apply O2 | auto].
      - splits; auto.
        + unfold s2. simpl. rewrite Nat.eqb_refl. unfold s1. simpl. now rewrite Hnf.
        + unfold s2. simpl. now left. }
    destruct Hs3 as (A1 & A2 & A3 & A4).
    split; [now apply Hr|]. simpl. splits; auto.
    destruct A1 as (Hnd & _). now apply nodup_remove.
  - split; [exact Hok1|]. split; [exact Hin1|]. exact Hnf.
Qed.

Lemma sched_pass_fires (p : nat) cb d k (rest : list ScheduledEvent) :
  forall (s : State D) (ex : bool),
    ev_ok s -> NoDup (map ev_ptr rest) ->
    (forall e, In e rest -> In e (schevent_queue s)) ->
    In (mkScheduledEvent p k cb d) rest ->
    count_fired p (trace s) = 0 ->
    let s' := fst (sched_pass C rest s ex) in
    if (int_wrap (k - 1) <=? 0)%Z then Done p cb d s'
    else Pending p cb d (int_wrap (k - 1)) s'.
Proof.
  induction rest as [|e rest IH]; intros s ex Hok Hnd Hq Hin Hnf; [destruct Hin|].
  rewrite sched_pass_cons. inversion Hnd as [|? ? Hnotin Hnd']; subst.
  assert (Hrest : forall x, In x rest -> In x (schevent_queue (sched_step C e s))).
  { intros x Hx. apply (@sched_step_keeps (fun s => In x (schevent_queue s))).
    - apply InQ_insensitive. intros E. apply Hnotin. rewrite <- E. now apply in_map.
    - apply in_map. apply Hq. now left.
    - apply Hq. now right. }
  destruct Hin as [->|Hin].
  - assert (Hp : Pending p cb d k s).
    { split; [exact Hok|]. split; [apply Hq; now left | exact Hnf]. }
    pose proof (sched_step_self Hp) as Hself. cbv zeta in Hself |- *.
    assert (Hother : forall x, In x rest -> p <> ev_ptr x).
    { intros x Hx E. apply Hnotin. simpl. rewrite E. now apply in_map. }
    destruct (int_wrap (k - 1) <=? 0)%Z.
    + apply sched_pass_keeps; auto.
      intros x Hx. apply Done_insensitive. auto.
    + apply sched_pass_keeps; auto.
      intros x Hx. apply Pending_insensitive. auto.
  - assert (Hne : p <> ev_ptr e).
    { intros E. apply Hnotin. rewrite <- E.
      change p with (ev_ptr (mkScheduledEvent p k cb d)). now apply in_map. }
    apply IH; auto.
    + apply sched_step_keeps; auto; [apply ev_ok_insensitive|].
      apply in_map. apply Hq. now left.
    + apply (@sched_step_keeps (fun s => count_fired p (trace s) = 0)); auto.
      * now apply NotFired_insensitive.
      * apply in_map. apply Hq. now left.
Qed.

(** *** The loop on the live queue *)

Unset Implicit Arguments.

Lemma write_nframes_app (p : nat) (n : Z) (l1 l2 : list ScheduledEvent) (e : ScheduledEvent) :
  ~ In p (map ev_ptr l1) -> ev_ptr e = p ->
  write_nframes p n (l1 ++ e :: l2)
  = l1 ++ mkScheduledEvent (ev_ptr e) n (event_cb e) (ev_data e) :: l2.
Proof.
  intros Hl1 He. induction l1 as [|x l1 IH]; simpl.
  - rewrite He, Nat.eqb_refl. reflexivity.
  - destruct (Nat.eqb_spec (ev_ptr x) p) as [E | _].
    + exfalso. apply Hl1. now left.
    + rewrite IH; [reflexivity|]. intros Hin. apply Hl1. now right.
Qed.

Lemma remove_ptr_app (p : nat) (l1 l2 : list ScheduledEvent) (e : ScheduledEvent) :
  ~ In p (map ev_ptr l1) -> ev_ptr e = p ->
  remove_ptr p (l1 ++ e :: l2) = l1 ++ l2.
Proof.
  intros Hl1 He. induction l1 as [|x l1 IH]; simpl.
  - rewrite He, Nat.eqb_refl. reflexivity.
  - destruct (Nat.eqb_spec (ev_ptr x) p) as [E | _].
    + exfalso. apply Hl1. now left.
    + rewrite IH; [reflexivity|]. intros Hin. apply Hl1. now right.
Qed.

(** What a call of the interface does to the scheduler's queue. *)
Lemma api_call_prepends (c : ApiCall D) (s : State D) :
  exists new, schevent_queue (api_call c s) = new ++ schevent_queue s /\
    Forall (fun e => next_ptr s <= ev_ptr e) new /\
    next_ptr s <= next_ptr (api_call c s) /\
    fired_events (trace (api_call c s)) = fired_events (trace s).
Proof.
  destruct c as [cb d n | v ty tg du scb ecb d | v ty tg du | v | v]; cbn [api_call].
  - destruct (schedule_event_view cb d n s) as (A1 & A2 & A3).
    exists [mkScheduledEvent (next_ptr s) n cb d].
    rewrite A1, A2, A3. splits; auto.
  - exists []. unfold morph_full.
    destruct (g_list_find_custom (morph_queue s) v); [|destruct (animation_active s)];
      simpl; splits; auto.
  - exists []. unfold morph, morph_full.
    destruct (g_list_find_custom (morph_queue s) v); [|destruct (animation_active s)];
      simpl; splits; auto.
  - exists []. unfold morph_finish.
    destruct (g_list_find_custom (morph_queue s) v); simpl; splits; auto.
  - exists []. unfold morph_break.
    destruct (g_list_find_custom (morph_queue s) v); simpl; splits; auto.
Qed.

Lemma api_calls_prepend (l : list (ApiCall D)) (s : State D) :
  exists new,
    schevent_queue (fold_left (fun s c => api_call c s) l s) = new ++ schevent_queue s /\
    Forall (fun e => next_ptr s <= ev_ptr e) new /\
    next_ptr s <= next_ptr (fold_left (fun s c => api_call c s) l s) /\
    fired_events (trace (fold_left (fun s c => api_call c s) l s)) = fired_events (trace s).
Proof.
  revert s. induction l as [|c l IH]; intros s; cbn [fold_left].
  - exists []. splits; auto.
  - destruct (api_call_prepends c s) as (n1 & A1 & A2 & A3 & A4).
    destruct (IH (api_call c s)) as (n2 & B1 & B2 & B3 & B4).
    exists (n2 ++ n1). rewrite B1, A1, B4, A4, app_assoc. splits; auto; [|lia].
    apply Forall_app. split; [|exact A2].
    eapply Forall_impl; [|exact B2]. cbv beta. intros e He. lia.
Qed.

Lemma link_data_app (l1 l2 : list ScheduledEvent) (e : ScheduledEvent) :
  ~ In (ev_ptr e) (map ev_ptr l1) ->
  link_data (ev_ptr e) (l1 ++ e :: l2) = Some e.
Proof.
  intros Hl1. induction l1 as [|x l1 IH]; simpl.
  - now rewrite Nat.eqb_refl.
  - destruct (Nat.eqb_spec (ev_ptr x) (ev_ptr e)) as [E | _].
    + exfalso. apply Hl1. now left.
    + apply IH. intros Hin. apply Hl1. now right.
Qed.

Lemma link_next_app (p : nat) (l1 l2 : list ScheduledEvent) (e : ScheduledEvent) :
  ~ In p (map ev_ptr l1) -> ev_ptr e = p ->
  link_next p (l1 ++ e :: l2) = first_link l2.
Proof.
  intros Hl1 He. induction l1 as [|x l1 IH]; simpl.
  - now rewrite He, Nat.eqb_refl.
  - destruct (Nat.eqb_spec (ev_ptr x) p) as [E | _].
    + exfalso. apply Hl1. now left.
    + apply IH. intros Hin. apply Hl1. now right.
Qed.

(** One round of the loop on the link of [e], behind which the links of
    [rest] follow: the cursor moves to the first of [rest], whatever the
    callback scheduled having gone in front. *)
Lemma sched_loop_round (fuel : nat) (pre rest : list ScheduledEvent) (e : ScheduledEvent)
    (s : State D) (ex : bool) :
  ev_ok s ->
  schevent_queue s = pre ++ e :: rest ->
  sched_loop C (S fuel) (Some (ev_ptr e)) s ex
  = sched_loop C fuel (first_link rest) (sched_step C e s)
      (if (int_wrap (nframes e - 1) <=? 0)%Z then true else ex) /\
  exists pre', schevent_queue (sched_step C e s) = pre' ++ rest.
Proof.
  intros (Hnd & Hlt & _) Hq.
  assert (Hp : ~ In (ev_ptr e) (map ev_ptr pre)).
  { rewrite Hq, map_app in Hnd. apply NoDup_remove_2 in Hnd.
    intros Hin. apply Hnd. apply in_or_app. now left. }
  assert (Hpe : ev_ptr e < next_ptr s).
  { rewrite Forall_forall in Hlt. apply Hlt. rewrite Hq. apply in_or_app. right. now left. }
  cbn [sched_loop]. unfold sched_step. cbv zeta.
  rewrite Hq, (link_data_app _ _ _ Hp), (write_nframes_app _ _ _ _ e Hp eq_refl).
  fold (tick_down e).
  destruct (int_wrap (nframes e - 1) <=? 0)%Z eqn:Edue.
  - unfold run_event_cb.
    match goal with |- context [fold_left ?f ?l ?s0] =>
      destruct (api_calls_prepend l s0) as (n2 & A1 & A2 & _) end.
    cbn [schevent_queue set_schevent_queue log next_ptr] in A1, A2.
    assert (Hp2 : ~ In (ev_ptr e) (map ev_ptr (n2 ++ pre))).
    { rewrite map_app, in_app_iff. intros [Hin | Hin]; [|now apply Hp].
      apply in_map_iff in Hin. destruct Hin as (x & Hx & Hin).
      rewrite Forall_forall in A2. specialize (A2 x Hin). lia. }
    rewrite A1, app_assoc.
    rewrite (link_next_app (ev_ptr e) (n2 ++ pre) rest (tick_down e) Hp2 eq_refl).
    rewrite (remove_ptr_app (ev_ptr e) (n2 ++ pre) rest (tick_down e) Hp2 eq_refl).
    split; [reflexivity|]. exists (n2 ++ pre). reflexivity.
  - cbn [schevent_queue set_schevent_queue].
    rewrite (link_next_app (ev_ptr e) pre rest (tick_down e) Hp eq_refl).
    split; [reflexivity|].
    exists (pre ++ [tick_down e]).
    now rewrite <- app_assoc.
Qed.

(** The loop on the live queue goes through the links the queue had when
    it began, and returns once it has been given a round for each. *)
Lemma sched_loop_pass (rest : list ScheduledEvent) :
  forall (pre : list ScheduledEvent) (s : State D) (ex : bool) (fuel : nat),
    ev_ok s ->
    schevent_queue s = pre ++ rest ->
    List.length rest <= fuel ->
    sched_loop C fuel (first_link rest) s ex = Some (sched_pass C rest s ex).
Proof.
  induction rest as [|e rest IH]; intros pre s ex fuel Hok Hq Hf.
  - destruct fuel; reflexivity.
  - destruct fuel as [|fuel]; [cbn [List.length] in Hf; lia|].
    cbn [first_link].
    destruct (sched_loop_round fuel pre rest e s ex Hok Hq) as (E & pre' & Hq').
    rewrite E, sched_pass_cons.
    apply IH with (pre := pre'); auto; [|cbn [List.length] in Hf; lia].
    apply sched_step_keeps; auto; [apply ev_ok_insensitive|].
    rewrite Hq, map_app. apply in_or_app. right. now left.
Qed.

Lemma sched_loop_returns (s : State D) (fuel : nat) :
  ev_ok s -> List.length (schevent_queue s) <= fuel ->
  sched_loop C fuel (first_link (schevent_queue s)) s false
  = Some (sched_pass C (schevent_queue s) s false).
Proof. intros Hok Hf. now apply sched_loop_pass with (pre := []). Qed.

Lemma scheduled_event_iteration_pass (s : State D) :
  ev_ok s ->
  scheduled_event_iteration C s
  = (let (s', ex) := sched_pass C (schevent_queue s) s false in
     (s', ex || match schevent_queue s' with [] => false | _ => true end)).
Proof.
  intros Hok. unfold scheduled_event_iteration.
  now rewrite (sched_loop_returns s (List.length (schevent_queue s)) Hok (le_n _)).
Qed.

Set Implicit Arguments.

Lemma tick_pending (p : nat) cb d k (s : State D) :
  Pending p cb d k s ->
  let s' := fst (scheduled_event_iteration C s) in
  if (int_wrap (k - 1) <=? 0)%Z then Done p cb d s'
  else Pending p cb d (int_wrap (k - 1)) s'.
Proof.
  intros (Hok & Hin & Hnf). rewrite (scheduled_event_iteration_pass s Hok).
  pose proof (@sched_pass_fires p cb d k (schevent_queue s) s false Hok) as Hl.
  destruct (sched_pass C (schevent_queue s) s false) as [s1 ex]. simpl in *.
  apply Hl; auto. now destruct Hok.
Qed.

Lemma tick_keeps (P : State D -> Prop) (s : State D) :
  ev_ok s ->
  (forall e, In e (schevent_queue s) -> insensitive D (ev_ptr e) P) ->
  P s -> P (fst (scheduled_event_iteration C s)).
Proof.
  intros Hok Hins HP. rewrite (scheduled_event_iteration_pass s Hok).
  pose proof (@sched_pass_keeps P (schevent_queue s) s false Hins) as Hl.
  destruct (sched_pass C (schevent_queue s) s false) as [s1 ex]. simpl in *.
  apply Hl; auto. now destruct Hok.
Qed.

Lemma tick_done (p : nat) cb d (s : State D) :
  Done p cb d s -> Done p cb d (fst (scheduled_event_iteration C s)).
Proof.
  intros Hd. apply tick_keeps; auto; [now destruct Hd|].
  intros e He. apply Done_insensitive. intros E.
  destruct Hd as (_ & Hnotin & _). apply Hnotin. rewrite E. now apply in_map.
Qed.

(** *** Many ticks, and whatever happens between them *)

Lemma Pending_stable (p : nat) cb d k : stable D (Pending (D:=D) p cb d k).
Proof. apply (@Pending_insensitive (S p) p cb d k). lia. Qed.

Lemma Done_stable (p : nat) cb d : stable D (Done (D:=D) p cb d).
Proof. apply (@Done_insensitive (S p) p cb d). lia. Qed.

Lemma grows_do_op (op : Op D) (s : State D) :
  op <> OpTick D -> grows s (do_op C op s).
Proof.
  destruct op; simpl; intros Hop.
  - congruence.
  - apply grows_morph_iteration.
  - apply grows_api_call.
  - now apply grows_same.
Qed.

Lemma run_done (p : nat) cb d (ops : list (Op D)) :
  forall s : State D, Done p cb d s -> Done p cb d (run C ops s).
Proof.
  induction ops as [|op ops IH]; intros s Hd; [exact Hd|].
  unfold run. simpl. apply IH. destruct op; simpl.
  - now apply tick_done.
  - eapply grows_stable; [apply Done_stable | apply grows_morph_iteration | exact Hd].
  - eapply grows_stable; [apply Done_stable | apply grows_api_call | exact Hd].
  - eapply grows_stable; [apply Done_stable | now apply grows_same | exact Hd].
Qed.

Lemma int_wrap_small (z : Z) : (INT_MIN <= z <= INT_MAX)%Z -> int_wrap z = z.
Proof.
  unfold INT_MIN, INT_MAX, int_wrap. intros Hz.
  rewrite Z.mod_small by lia. lia.
Qed.

Lemma run_pending (p : nat) cb d (ops : list (Op D)) :
  forall (k : Z) (s : State D),
    (INT_MIN < k <= INT_MAX)%Z ->
    Pending p cb d k s ->
    if (Z.of_nat (ticks ops) <? Z.max k 1)%Z
    then Pending p cb d (k - Z.of_nat (ticks ops)) (run C ops s)
    else Done p cb d (run C ops s).
Proof.
  induction ops as [|op ops IH]; intros k s Hk Hp.
  - simpl. replace (0 <? Z.max k 1)%Z with true by (symmetry; apply Z.ltb_lt; lia).
    now rewrite Z.sub_0_r.
  - assert (Hother : op <> OpTick D ->
        if (Z.of_nat (ticks (op :: ops)) <? Z.max k 1)%Z
        then Pending p cb d (k - Z.of_nat (ticks (op :: ops))) (run C (op :: ops) s)
        else Done p cb d (run C (op :: ops) s)).
    { intros Hop.
      assert (Ht : ticks (op :: ops) = ticks ops) by (destruct op; simpl; congruence).
      rewrite Ht. unfold run. simpl. apply IH; auto.
      eapply grows_stable; [apply Pending_stable | now apply grows_do_op | exact Hp]. }
    destruct op; try (apply Hother; discriminate).
    pose proof (tick_pending Hp) as Htick. cbv zeta in Htick.
    rewrite int_wrap_small in Htick by (unfold INT_MIN, INT_MAX in *; lia).
    unfold run. simpl fold_left. simpl ticks.
    destruct (k - 1 <=? 0)%Z eqn:E.
    + apply Z.leb_le in E.
      replace (Z.of_nat (S (ticks ops)) <? Z.max k 1)%Z with false
        by (symmetry; apply Z.ltb_ge; lia).
      now apply run_done.
    + apply Z.leb_gt in E.
      specialize (IH (k - 1)%Z (do_op C (OpTick D) s)).
      assert (Hk' : (INT_MIN < k - 1 <= INT_MAX)%Z) by (unfold INT_MIN, INT_MAX in *; lia).
      specialize (IH Hk' Htick).
      replace (Z.max (k - 1) 1) with (k - 1)%Z in IH by lia.
      replace (Z.max k 1) with k by lia.
      destruct (Z.of_nat (ticks ops) <? k - 1)%Z eqn:E2.
      * apply Z.ltb_lt in E2.
        replace (Z.of_nat (S (ticks ops)) <? k)%Z with true
          by (symmetry; apply Z.ltb_lt; lia).
        replace (k - Z.of_nat (S (ticks ops)))%Z with (k - 1 - Z.of_nat (ticks ops))%Z by lia.
        exact IH.
      * apply Z.ltb_ge in E2.
        replace (Z.of_nat (S (ticks ops)) <? k)%Z with false
          by (symmetry; apply Z.ltb_ge; lia).
        exact IH.
Qed.

Lemma schedule_event_pending cb d n (s : State D) :
  ev_ok s -> Pending (next_ptr s) cb d n (schedule_event cb d n s).
Proof.
  intros Hok. destruct ev_ok_stable as [_ O2].
  destruct (schedule_event_view cb d n s) as (Hq & Hn & Ht).
  split; [now apply O2|]. rewrite Hq, Ht. simpl. split; [now left|].
  destruct Hok as (_ & _ & Hb). eapply count_fired_below; eauto.
Qed.

(** C4, as the code has it.  An event registered with [n] frames fires in
    the course of tick number [max n 1] after its registration, counting
    the ticks of the event scheduler only, whatever else happens in
    between: before that tick it has not fired and waits in the queue with
    its counter decremented once per tick; from that tick on it has fired
    exactly once, with its payload, and is gone from the queue.  An event
    registered with 0 frames (or fewer) fires in the first tick, like one
    registered with 1. *)
Theorem schedule_event_fires_on_tick (cb : EventCb) (d : Data) (n : Z)
    (s : State D) (ops : list (Op D)) :
  ev_ok s ->
  (INT_MIN < n <= INT_MAX)%Z ->
  let p := next_ptr s in
  let s' := run C ops (schedule_event cb d n s) in
  if (Z.of_nat (ticks ops) <? Z.max n 1)%Z
  then In (mkScheduledEvent p (n - Z.of_nat (ticks ops)) cb d) (schevent_queue s') /\
       count_fired p (trace s') = 0
  else ~ In p (map ev_ptr (schevent_queue s')) /\
       count_fired p (trace s') = 1 /\
       In (FiredEvent D p cb d) (trace s').
Proof.
  intros Hok Hn p s'.
  pose proof (@run_pending p cb d ops n (schedule_event cb d n s) Hn
                (schedule_event_pending cb d n Hok)) as Hrun.
  fold s' in Hrun.
  destruct (Z.of_nat (ticks ops) <? Z.max n 1)%Z.
  - destruct Hrun as (_ & A & B). auto.
  - destruct Hrun as (_ & A & B & Cc & _). auto.
Qed.

Lemma run_quiet_pending (p : nat) cb d k (ops : list (Op D)) :
  forall s : State D,
    ticks ops = 0 -> Pending p cb d k s -> Pending p cb d k (run C ops s).
Proof.
  induction ops as [|op ops IH]; intros s Ht Hp; [exact Hp|].
  unfold run. simpl. apply IH.
  - destruct op; simpl in Ht; congruence.
  - eapply grows_stable; [apply Pending_stable | apply grows_do_op | exact Hp].
    destruct op; simpl in Ht; congruence.
Qed.

(** C10.  The loop of a tick follows the queue as the callbacks leave it,
    and returns once it has been given a round for every event that was
    queued when the tick began.  An event registered while the tick is
    running (which only a callback run by that tick can do) is, when the
    tick returns, in the queue with the counter it was registered with,
    and has not fired: the tick neither decrements nor fires it.  It does
    not fire before a later tick, and when its counter [n] is an [int]
    above INT_MIN it fires in the course of tick number [max n 1] after
    this one. *)
Theorem nested_event_waits_for_next_tick (s : State D) (fuel : nat) :
  ev_ok s ->
  List.length (schevent_queue s) <= fuel ->
  exists s' ex,
    sched_loop C fuel (first_link (schevent_queue s)) s false = Some (s', ex) /\
    fst (scheduled_event_iteration C s) = s' /\
    forall p cb d n,
      next_ptr s <= p ->
      In (Scheduled D p cb d n) (trace s') ->
      In (mkScheduledEvent p n cb d) (schevent_queue s') /\
      count_fired p (trace s') = 0 /\
      (forall ops, ticks ops = 0 -> Pending p cb d n (run C ops s')) /\
      ((INT_MIN < n <= INT_MAX)%Z ->
       forall ops,
         if (Z.of_nat (ticks ops) <? Z.max n 1)%Z
         then Pending p cb d (n - Z.of_nat (ticks ops)) (run C ops s')
         else Done p cb d (run C ops s')).
Proof.
  intros Hok Hf.
  assert (HF : Fresh (next_ptr s) (fst (scheduled_event_iteration C s))).
  { apply tick_keeps; auto.
    - intros e He. apply Fresh_insensitive.
      destruct Hok as (_ & B & _). rewrite Forall_forall in B. auto.
    - split; [exact Hok|]. intros p cb d n Hp Hin.
      destruct Hok as (_ & _ & Hb). rewrite Forall_forall in Hb.
      specialize (Hb _ Hin). simpl in Hb. lia. }
  rewrite (scheduled_event_iteration_pass s Hok) in HF |- *.
  rewrite (sched_loop_returns s fuel Hok Hf).
  destruct (sched_pass C (schevent_queue s) s false) as [s' ex]. cbn [fst] in *.
  exists s', ex. splits; auto.
  intros p cb d n Hp Hin. destruct HF as (Hok' & HF).
  destruct (HF _ _ _ _ Hp Hin) as (A & B).
  assert (HP : Pending p cb d n s') by (split; auto).
  splits; auto.
  - intros ops Ht. now apply run_quiet_pending.
  - intros Hn ops. now apply run_pending.
Qed.

End EventFacts.

(** *** The claims on concrete states *)

Lemma ex_initR_ev_ok : ev_ok ex_initR.
Proof. split; [constructor | split; constructor]. Qed.

Lemma ex_init_ev_ok : ev_ok ex_init.
Proof. split; [constructor | split; constructor]. Qed.

Lemma schedule_event_fires_on_tick_witness :
  let s' := run ex_quiet [OpTick R; OpClock 1001%R; OpTick R]
              (schedule_event 0 7 2%Z ex_initR) in
  ~ In 0 (map ev_ptr (schevent_queue s')) /\
  count_fired 0 (trace s') = 1 /\
  In (FiredEvent R 0 0 7) (trace s').
Proof.
  assert (Hn : (INT_MIN < 2 <= INT_MAX)%Z) by (unfold INT_MIN, INT_MAX; lia).
  exact (@schedule_event_fires_on_tick R _ _ ex_quiet 0 7 2%Z ex_initR
           [OpTick R; OpClock 1001%R; OpTick R] ex_initR_ev_ok Hn).
Defined.

(** C4 as stated fails for [n_frames = 0]: after 0 ticks the event has not
    fired and is still queued; it fires in tick 1, exactly as an event
    registered with [n_frames = 1] does. *)
Lemma schedule_event_zero_frames_fires_on_first_tick :
  let s0 := schedule_event 0 7 0%Z ex_init in
  let s1 := fst (scheduled_event_iteration ex_quiet64 s0) in
  let s0' := schedule_event 0 7 1%Z ex_init in
  let s1' := fst (scheduled_event_iteration ex_quiet64 s0') in
  (count_fired 0 (trace s0) = 0 /\
   schevent_queue s0 = [mkScheduledEvent 0 0%Z 0 7]) /\
  (count_fired 0 (trace s1) = 1 /\ schevent_queue s1 = []) /\
  (count_fired 0 (trace s1') = 1 /\ schevent_queue s1' = []).
Proof. vm_compute. repeat split. Qed.

Lemma nested_event_waits_for_next_tick_witness :
  let s := schedule_event 0 7 1%Z ex_initR in
  exists s' ex,
    sched_loop ex_nestingR 1 (Some 0) s false = Some (s', ex) /\
    In (FiredEvent R 0 0 7) (trace s') /\
    In (mkScheduledEvent 1 1%Z 1 7) (schevent_queue s') /\
    count_fired 1 (trace s') = 0 /\
    Done 1 1 7 (run ex_nestingR [OpTick R] s').
Proof.
  cbv zeta.
  assert (Hok : ev_ok (schedule_event 0 7 1%Z ex_initR)).
  { apply ev_ok_stable. exact ex_initR_ev_ok. }
  destruct (@nested_event_waits_for_next_tick R _ _ ex_nestingR
              (schedule_event 0 7 1%Z ex_initR) 1 Hok (le_n 1))
    as (s' & ex & E & _ & Hs').
  exists s', ex. split; [exact E|].
  assert (Et : trace s' = [Scheduled R 1 1 7 1%Z; FiredEvent R 0 0 7; Scheduled R 0 0 7 1%Z]).
  { cbn in E. injection E as <- _. reflexivity. }
  assert (Hin : In (Scheduled R 1 1 7 1%Z) (trace s')) by (rewrite Et; now left).
  assert (Hn : (INT_MIN < 1 <= INT_MAX)%Z) by (unfold INT_MIN, INT_MAX; lia).
  destruct (Hs' 1 1 7 1%Z ltac:(cbn; lia) Hin) as (A & B & _ & K).
  splits; auto.
  - rewrite Et. right. now left.
  - exact (K Hn [OpTick R]).
Defined.

(** ** geometry.c: the three-stage draw protocol *)

Unset Implicit Arguments.

Section DrawFacts.
Variable D : Type.
Context `{Double D}.
Variable t : Tree.
Variable fstree : nat.


Lemma draw_dirs_app (action : MapVAction) (ds1 ds2 : list nat) :
  forall stale,
    draw_dirs action (ds1 ++ ds2) stale
    = (fst (draw_dirs action ds2 (snd (draw_dirs action ds1 stale)))
         ++ fst (draw_dirs action ds1 stale),
       snd (draw_dirs action ds2 (snd (draw_dirs action ds1 stale)))).
Proof.
  induction ds1 as [|d ds1 IH]; intros stale; cbn [app draw_dirs].
  - cbn [fst snd]. rewrite app_nil_r. now destruct (draw_dirs action ds2 stale).
  - cbv zeta. rewrite IH.
    destruct (draw_dirs action ds1 (if stale d then upd stale d false else stale))
      as [l1 st1]. cbn [fst snd]. now rewrite app_assoc.
Qed.

(** Every directory drawn shows among the calls, and its list is not stale
    afterwards; the flags of the other directories stay. *)
Lemma draw_dirs_covers (action : MapVAction) (ds : list nat) :
  forall stale d, In d ds ->
    (In (action_draws action d) (fst (draw_dirs action ds stale)) \/
     In (GlCallList (action_dlist action d)) (fst (draw_dirs action ds stale))) /\
    (stale d = true -> In (action_draws action d) (fst (draw_dirs action ds stale))).
Proof.
  induction ds as [|x ds IH]; intros stale d Hin; [destruct Hin|].
  cbn [draw_dirs]. cbv zeta.
  destruct (draw_dirs action ds (if stale x then upd stale x false else stale))
    as [l st] eqn:E. cbn [fst].
  destruct (Nat.eq_dec x d) as [-> | Hne].
  - destruct (stale d) eqn:Es.
    + split; [left|intros _]; apply in_or_app; right; right; now left.
    + split; [right; apply in_or_app; right; now left | discriminate].
  - destruct Hin as [-> | Hin]; [congruence|].
    destruct (IH (if stale x then upd stale x false else stale) d Hin) as (A & B).
    rewrite E in A, B. cbn [fst] in A, B. split.
    + destruct A as [A | A]; [left | right]; apply in_or_app; now left.
    + intros Hs. apply in_or_app. left. apply B.
      destruct (stale x); [|exact Hs].
      unfold upd. destruct (Nat.eqb_spec d x); [congruence | exact Hs].
Qed.

Lemma draw_dirs_flags (action : MapVAction) (ds : list nat) :
  forall stale d,
    snd (draw_dirs action ds stale) d = (if in_dec Nat.eq_dec d ds then false else stale d).
Proof.
  induction ds as [|x ds IH]; intros stale d; [reflexivity|].
  cbn [draw_dirs]. cbv zeta.
  pose proof (IH (if stale x then upd stale x false else stale) d) as K.
  destruct (draw_dirs action ds (if stale x then upd stale x false else stale))
    as [l st]. cbn [snd] in *. rewrite K.
  destruct (in_dec Nat.eq_dec d ds) as [Hin | Hin].
  - destruct (in_dec Nat.eq_dec d (x :: ds)) as [_ | Hn]; [reflexivity|].
    exfalso. apply Hn. now right.
  - destruct (in_dec Nat.eq_dec d (x :: ds)) as [[-> | Hd] | Hn].
    + destruct (stale d) eqn:Es; [|exact Es]. unfold upd. now rewrite Nat.eqb_refl.
    + contradiction.
    + destruct (stale x); [|reflexivity].
      unfold upd. destruct (Nat.eqb_spec d x) as [-> | _]; [|reflexivity].
      exfalso. apply Hn. now left.
Qed.

Lemma drew_nil (action : MapVAction) (w : World D) : drew action [] w w.
Proof. unfold drew. destruct action; cbn; splits; auto. Qed.

Lemma drew_app (action : MapVAction) (ds1 ds2 : list nat) (w1 w2 w3 : World D) :
  drew action ds1 w1 w2 -> drew action ds2 w2 w3 -> drew action (ds1 ++ ds2) w1 w3.
Proof.
  intros (A1 & A2 & A3 & A4 & A5 & A6 & A7) (B1 & B2 & B3 & B4 & B5 & B6 & B7).
  unfold drew. rewrite draw_dirs_app. cbn [fst snd].
  rewrite B1, B2, A1, A2, app_assoc.
  splits; try congruence.
  destruct action; congruence.
Qed.

Lemma visible_dirs_anim (fuel : nat) (w w' : World D) :
  anim w' = anim w -> forall d, visible_dirs t fuel w' d = visible_dirs t fuel w d.
Proof.
  intros E. induction fuel as [|fuel IH]; intros d; [reflexivity|].
  cbn [visible_dirs]. unfold DIR_COLLAPSED, deployment. rewrite E.
  destruct (_ <? _)%D; [reflexivity|].
  f_equal. apply flat_map_ext. exact IH.
Qed.

(** The loop over the children goes through every directory among them,
    the directories being in front. *)
Lemma subdirs_loop_drew (action : MapVAction) (fuel : nat)
    (rec : nat -> World D -> option (World D)) (nodes : list nat) :
  (forall node w, fits t fuel node = true ->
     exists w', rec node w = Some w' /\ drew action (visible_dirs t fuel w node) w w') ->
  dirs_lead t nodes = true ->
  forallb (fits t fuel) nodes = true ->
  forall w, exists w',
    subdirs_loop t rec nodes w = Some w' /\
    drew action (flat_map (visible_dirs t fuel w) (filter (NODE_IS_DIR t) nodes)) w w'.
Proof.
  intros Hrec. induction nodes as [|node rest IH]; intros Hlead Hfits w.
  - exists w. split; [reflexivity | apply drew_nil].
  - cbn [subdirs_loop filter dirs_lead forallb] in *.
    apply andb_true_iff in Hfits. destruct Hfits as [Hn Hr].
    destruct (NODE_IS_DIR t node) eqn:Hd.
    + destruct (Hrec node w Hn) as (w1 & E1 & X1). rewrite E1.
      destruct (IH Hlead Hr w1) as (w2 & E2 & X2).
      exists w2. split; [exact E2|]. cbn [flat_map].
      apply (drew_app _ _ _ _ _ _ X1).
      replace (flat_map (visible_dirs t fuel w) (filter (NODE_IS_DIR t) rest))
        with (flat_map (visible_dirs t fuel w1) (filter (NODE_IS_DIR t) rest)); [exact X2|].
      apply flat_map_ext. apply visible_dirs_anim.
      destruct X1 as (_ & _ & _ & _ & _ & _ & A). exact A.
    + exists w. split; [reflexivity|].
      replace (filter (NODE_IS_DIR t) rest) with (@nil nat); [apply drew_nil|].
      symmetry. clear - Hlead. induction rest as [|x rest IH]; [reflexivity|].
      cbn [forallb filter] in *. apply andb_true_iff in Hlead. destruct Hlead as [Hx Hl].
      destruct (NODE_IS_DIR t x); [discriminate | now apply IH].
Qed.

(** mapv_draw_recursive( ) returns, and draws every directory on display
    at and below [dnode]. *)
Lemma mapv_draw_recursive_drew (Hdf : dirs_first t) (fuel : nat) :
  forall (dnode : nat) (action : MapVAction) (w : World D),
    fits t fuel dnode = true ->
    exists w',
      mapv_draw_recursive t fuel dnode action w = Some w' /\
      drew action (visible_dirs t fuel w dnode) w w'.
Proof.
  induction fuel as [|fuel IH]; intros dnode action w Hfits; [discriminate|].
  cbn [fits] in Hfits. cbn [mapv_draw_recursive visible_dirs]. cbv zeta.
  set (w1 := match action with
             | MAPV_DRAW_GEOMETRY => _
             | MAPV_DRAW_LABELS => _
             end).
  set (w2 := set_geom_expanded _ w1).
  assert (X2 : drew action [dnode] w w2).
  { unfold drew, w2, w1. cbn [draw_dirs]. cbv zeta.
    destruct action; cbn [action_stale action_dlist action_draws].
    - destruct (a_dlist_stale w dnode); cbn; splits; auto.
    - destruct (b_dlist_stale w dnode); cbn; splits; auto. }
  assert (Ec : DIR_COLLAPSED w2 dnode = DIR_COLLAPSED w dnode).
  { unfold DIR_COLLAPSED, deployment.
    destruct X2 as (_ & _ & _ & _ & _ & _ & A). now rewrite A. }
  destruct (DIR_COLLAPSED w dnode) eqn:Hcol; cbn [negb].
  - exists w2. split; [reflexivity | exact X2].
  - destruct (subdirs_loop_drew action fuel
                (fun node => mapv_draw_recursive t fuel node action)
                (children (t dnode))
                (fun node w0 Hn => IH node action w0 Hn) (Hdf dnode) Hfits w2)
      as (w3 & E3 & X3).
    exists w3. split; [exact E3|].
    change (dnode :: ?l) with ([dnode] ++ l).
    apply (drew_app _ _ _ _ _ _ X2).
    replace (flat_map (visible_dirs t fuel w) (filter (NODE_IS_DIR t) (children (t dnode))))
      with (flat_map (visible_dirs t fuel w2) (filter (NODE_IS_DIR t) (children (t dnode))));
      [exact X3|].
    apply flat_map_ext. apply visible_dirs_anim.
    destruct X2 as (_ & _ & _ & _ & _ & _ & A). exact A.
Qed.

(** One call of mapv_draw( ), at whatever stages the counters are. *)
Lemma mapv_draw_spec (Hdf : dirs_first t) (fuel : nat) (high_detail : bool) (w : World D) :
  fits t fuel fstree = true ->
  exists w' lowp highp,
    mapv_draw t fstree fuel high_detail w = Some w' /\
    gl w' = highp ++ lowp ++ gl w /\
    low_part t fstree fuel (fstree_low_draw_stage w) w lowp /\
    (if high_detail
     then high_part t fstree fuel (fstree_high_draw_stage w) (fstree_low_draw_stage w) w highp
     else highp = []) /\
    fstree_low_draw_stage w'
      = (if (fstree_low_draw_stage w <=? 1)%Z
         then (fstree_low_draw_stage w + 1)%Z else fstree_low_draw_stage w) /\
    fstree_high_draw_stage w'
      = (if high_detail && (fstree_high_draw_stage w <=? 1)%Z
         then (fstree_high_draw_stage w + 1)%Z else fstree_high_draw_stage w) /\
    c_dlist_stale w' = c_dlist_stale w /\
    anim w' = anim w /\
    ((fstree_low_draw_stage w <=? 1)%Z = true ->
     forall d, In d (visible_dirs t fuel w fstree) -> a_dlist_stale w' d = false) /\
    (high_detail = true -> (fstree_high_draw_stage w <=? 1)%Z = true ->
     forall d, In d (visible_dirs t fuel w fstree) -> b_dlist_stale w' d = false).
Proof.
  intros Hfits. unfold mapv_draw.
  set (stage := fstree_low_draw_stage w).
  set (vis := visible_dirs t fuel w fstree).
  (* the low-detail part *)
  set (wa := if (stage =? 1)%Z then glcall (GlNewList fstree_low_dlist) w else w).
  assert (Wa : gl wa = (if (stage =? 1)%Z then [GlNewList fstree_low_dlist] else []) ++ gl w /\
               a_dlist_stale wa = a_dlist_stale w /\ b_dlist_stale wa = b_dlist_stale w /\
               c_dlist_stale wa = c_dlist_stale w /\ anim wa = anim w /\
               fstree_low_draw_stage wa = stage /\
               fstree_high_draw_stage wa = fstree_high_draw_stage w).
  { unfold wa. destruct (stage =? 1)%Z; cbn; splits; auto. }
  destruct Wa as (Wa1 & Wa2 & Wa3 & Wa4 & Wa5 & Wa6 & Wa7).
  assert (Hlow : exists wl lowp,
    (if (stage <=? 1)%Z
     then mapv_draw_recursive t fuel fstree MAPV_DRAW_GEOMETRY wa
     else Some (glcall (GlCallList fstree_low_dlist) wa)) = Some wl /\
    let wl' := if (stage =? 1)%Z then glcall GlEndList wl else wl in
    let wl'' := if (stage <=? 1)%Z then set_fstree_low_draw_stage (stage + 1) wl' else wl' in
    gl wl'' = lowp ++ gl w /\ low_part t fstree fuel stage w lowp /\
    a_dlist_stale wl'' = low_stale t fstree fuel stage w /\
    b_dlist_stale wl'' = b_dlist_stale w /\
    fstree_low_draw_stage wl'' = (if (stage <=? 1)%Z then (stage + 1)%Z else stage) /\
    fstree_high_draw_stage wl'' = fstree_high_draw_stage w /\
    c_dlist_stale wl'' = c_dlist_stale w /\ anim wl'' = anim w).
  { unfold low_part, low_stale, recursive_draw. fold vis.
    destruct (Z.leb_spec stage 1) as [Hle|Hgt].
    - destruct (mapv_draw_recursive_drew Hdf fuel fstree MAPV_DRAW_GEOMETRY wa Hfits)
        as (wl & E & X).
      rewrite (visible_dirs_anim fuel w wa Wa5) in X. fold vis in X.
      destruct X as (A1 & A2 & A3 & A4 & A5 & A6 & A7).
      cbn [action_stale] in A1, A2. rewrite Wa2 in A1, A2.
      destruct (Z.eqb_spec stage 1) as [He|Hne].
      + exists wl, (GlEndList :: fst (draw_dirs MAPV_DRAW_GEOMETRY vis (a_dlist_stale w))
                      ++ [GlNewList fstree_low_dlist]).
        split; [exact E|].
        replace (stage <=? 0)%Z with false by (symmetry; apply Z.leb_gt; lia).
        cbn. splits; try congruence.
        * rewrite A1, Wa1. cbn. now rewrite <- app_assoc.
        * eexists. split; reflexivity.
      + exists wl, (fst (draw_dirs MAPV_DRAW_GEOMETRY vis (a_dlist_stale w))).
        split; [exact E|].
        replace (stage <=? 0)%Z with true by (symmetry; apply Z.leb_le; lia).
        cbn. splits; try congruence. rewrite A1, Wa1. reflexivity.
    - destruct (Z.eqb_spec stage 1) as [He|Hne]; [lia|].
      exists (glcall (GlCallList fstree_low_dlist) wa), [GlCallList fstree_low_dlist].
      replace (stage <=? 0)%Z with false by (symmetry; apply Z.leb_gt; lia).
      cbn. splits; auto; try (now rewrite Wa1). }
  destruct Hlow as (wl & lowp & El & Hl). rewrite El. cbv zeta in Hl.
  set (wl2 := if (stage <=? 1)%Z
              then set_fstree_low_draw_stage (stage + 1)
                     (if (stage =? 1)%Z then glcall GlEndList wl else wl)
              else (if (stage =? 1)%Z then glcall GlEndList wl else wl)) in *.
  destruct Hl as (L1 & L2 & La & Lb & L3 & L4 & L5 & L6).
  assert (Hvis2 : visible_dirs t fuel wl2 fstree = vis)
    by (apply visible_dirs_anim; exact L6).
  assert (Hafter : forall w' : World D, a_dlist_stale w' = low_stale t fstree fuel stage w ->
            (stage <=? 1)%Z = true -> forall d, In d vis -> a_dlist_stale w' d = false).
  { intros w' Ea Hs d Hd. rewrite Ea. unfold low_stale. rewrite Hs. fold vis.
    rewrite draw_dirs_flags. destruct (in_dec Nat.eq_dec d vis); [reflexivity | contradiction]. }
  destruct high_detail.
  2:{ exists wl2, lowp, []. cbn [app andb]. splits; auto. discriminate. }
  set (hstage := fstree_high_draw_stage wl2).
  assert (Hh : hstage = fstree_high_draw_stage w) by exact L4.
  set (wh0 := if (hstage =? 1)%Z then glcall (GlNewList fstree_high_dlist) wl2 else wl2).
  assert (W0 : fstree_low_draw_stage wh0 = fstree_low_draw_stage wl2 /\
               gl wh0 = (if (hstage =? 1)%Z then [GlNewList fstree_high_dlist] else [])
                          ++ gl wl2 /\
               c_dlist_stale wh0 = c_dlist_stale wl2 /\ anim wh0 = anim wl2 /\
               fstree_high_draw_stage wh0 = hstage /\
               a_dlist_stale wh0 = a_dlist_stale wl2 /\
               b_dlist_stale wh0 = b_dlist_stale wl2).
  { unfold wh0. destruct (hstage =? 1)%Z; cbn; splits; auto. }
  destruct W0 as (W1 & W2 & W3 & W4 & W5 & W6 & W7).
  rewrite <- Hh. unfold high_part, recursive_draw. fold vis.
  destruct (Z.leb_spec hstage 1) as [Hle|Hgt].
  - (* outlines, then labels *)
    assert (Hs01 : (fstree_low_draw_stage wl2 <=? 1)%Z = (stage <=? 0)%Z).
    { rewrite L3. destruct (Z.leb_spec stage 1); destruct (Z.leb_spec stage 0);
        destruct (Z.leb_spec (stage + 1) 1); destruct (Z.leb_spec stage 1); try lia; reflexivity. }
    assert (Hout : exists wo outl,
      (if (fstree_low_draw_stage wh0 <=? 1)%Z
       then mapv_draw_recursive t fuel fstree MAPV_DRAW_GEOMETRY wh0
       else Some (glcall (GlCallList fstree_low_dlist) wh0)) = Some wo /\
      gl wo = outl ++ gl wh0 /\
      (if (stage <=? 0)%Z
       then outl = fst (draw_dirs MAPV_DRAW_GEOMETRY vis (low_stale t fstree fuel stage w))
       else outl = [GlCallList fstree_low_dlist]) /\
      fstree_low_draw_stage wo = fstree_low_draw_stage wl2 /\
      fstree_high_draw_stage wo = hstage /\
      c_dlist_stale wo = c_dlist_stale wl2 /\ anim wo = anim wl2 /\
      b_dlist_stale wo = b_dlist_stale w /\
      ((stage <=? 1)%Z = true -> forall d, In d vis -> a_dlist_stale wo d = false)).
    { rewrite W1, Hs01. destruct (stage <=? 0)%Z eqn:Es0.
      - destruct (mapv_draw_recursive_drew Hdf fuel fstree MAPV_DRAW_GEOMETRY wh0 Hfits)
          as (wo & E & X).
        rewrite (visible_dirs_anim fuel wl2 wh0 W4), Hvis2 in X.
        destruct X as (A1 & A2 & A3 & A4 & A5 & A6 & A7).
        cbn [action_stale] in A1, A2. rewrite W6, La in A1, A2.
        exists wo, (fst (draw_dirs MAPV_DRAW_GEOMETRY vis (low_stale t fstree fuel stage w))).
        splits; try congruence.
        intros _ d Hd. rewrite A2, draw_dirs_flags.
        destruct (in_dec Nat.eq_dec d vis); [reflexivity | contradiction].
      - exists (glcall (GlCallList fstree_low_dlist) wh0), [GlCallList fstree_low_dlist].
        cbn. splits; auto; try congruence.
        intros Hs. apply Hafter; [congruence | exact Hs]. }
    destruct Hout as (wo & outl & Eo & O1 & O2 & O3 & O4 & O5 & O6 & O7 & O8).
    rewrite Eo.
    destruct (mapv_draw_recursive_drew Hdf fuel fstree MAPV_DRAW_LABELS wo Hfits)
      as (wb & Eb & X).
    rewrite (visible_dirs_anim fuel wl2 wo O6), Hvis2 in X.
    rewrite Eb. destruct X as (B1 & B2 & B3 & B4 & B5 & B6 & B7).
    cbn [action_stale] in B1, B2. rewrite O7 in B1, B2.
    set (lab := fst (draw_dirs MAPV_DRAW_LABELS vis (b_dlist_stale w))) in *.
    eexists _, lowp,
      (GlCursor :: (if (hstage =? 1)%Z then [GlEndList] else [])
         ++ lab ++ outl ++ (if (hstage =? 1)%Z then [GlNewList fstree_high_dlist] else [])).
    split; [reflexivity|].
    replace (true && true) with true by reflexivity.
    assert (Hb : forall w' : World D, b_dlist_stale w' = b_dlist_stale wb ->
                   forall d, In d vis -> b_dlist_stale w' d = false).
    { intros w' Eb' d Hd. rewrite Eb', B2, draw_dirs_flags.
      destruct (in_dec Nat.eq_dec d vis); [reflexivity | contradiction]. }
    assert (Ha : forall w' : World D, a_dlist_stale w' = a_dlist_stale wb ->
                   (stage <=? 1)%Z = true -> forall d, In d vis -> a_dlist_stale w' d = false).
    { intros w' Ea' Hs d Hd. rewrite Ea', B3. now apply O8. }
    destruct (Z.eqb_spec hstage 1) as [He|Hne]; cbn; splits; auto;
      try congruence;
      try (rewrite B1, O1, W2, L1; cbn; rewrite <- ?app_assoc; cbn;
           rewrite ?app_nil_r; reflexivity);
      try (exists outl, lab; splits; auto);
      try (intros _ _; now apply Hb);
      try (now apply Ha).
  - destruct (Z.eqb_spec hstage 1) as [He|Hne]; [lia|].
    eexists _, lowp, [GlCursor; GlCallList fstree_high_dlist].
    split; [reflexivity|]. cbn. unfold wh0.
    replace (hstage =? 1)%Z with false by (symmetry; apply Z.eqb_neq; lia).
    cbn. splits; auto.
    + rewrite L1. reflexivity.
    + intros _ Hs. discriminate Hs.
Qed.


Lemma mapv_draws_stages (Hdf : dirs_first t) (fuel : nat) (hs : list bool) :
  fits t fuel fstree = true ->
  forall w : World D,
    (0 <= fstree_low_draw_stage w <= 2)%Z ->
    (0 <= fstree_high_draw_stage w <= 2)%Z ->
    exists w',
      mapv_draws t fstree fuel hs w = Some w' /\
      fstree_low_draw_stage w'
        = Z.min 2 (fstree_low_draw_stage w + Z.of_nat (List.length hs)) /\
      fstree_high_draw_stage w'
        = Z.min 2 (fstree_high_draw_stage w + Z.of_nat (count_high hs)) /\
      c_dlist_stale w' = c_dlist_stale w /\ anim w' = anim w.
Proof.
  intros Hfits. induction hs as [|h hs IH]; intros w Hl Hh.
  - exists w. simpl. splits; auto; lia.
  - destruct (mapv_draw_spec Hdf fuel h w Hfits)
      as (w1 & lowp & highp & E & _ & _ & _ & S1 & S2 & S3 & S4 & _).
    simpl mapv_draws. rewrite E.
    assert (Hl1 : (0 <= fstree_low_draw_stage w1 <= 2)%Z).
    { rewrite S1. destruct (Z.leb_spec (fstree_low_draw_stage w) 1); lia. }
    assert (Hh1 : (0 <= fstree_high_draw_stage w1 <= 2)%Z).
    { rewrite S2. destruct h; simpl; [|lia].
      destruct (Z.leb_spec (fstree_high_draw_stage w) 1); lia. }
    destruct (IH w1 Hl1 Hh1) as (w' & E' & T1 & T2 & T3 & T4).
    exists w'. split; [exact E'|]. splits; try congruence.
    + rewrite T1, S1. simpl List.length.
      destruct (Z.leb_spec (fstree_low_draw_stage w) 1); lia.
    + rewrite T2, S2. unfold count_high. simpl count_occ.
      destruct h; simpl.
      * destruct (Bool.bool_dec true true); [|congruence].
        destruct (Z.leb_spec (fstree_high_draw_stage w) 1); lia.
      * destruct (Bool.bool_dec false true); [discriminate|]. lia.
Qed.

(** C8.  geometry_queue_rebuild( ) raises the three staleness flags of the
    directory and zeroes both stage counters.  After any number of draws
    since then, either counter is at the number of draws that advanced it,
    capped at 2; and the next draw does, for each of the two levels of
    detail, what [low_part] and [high_part] say at that stage: at stage 0
    a full recursive draw, in which every directory on display is drawn
    through its own display list (rebuilt if stale, and stale no more
    afterwards); at stage 1 the same full recursive draw between the
    glNewList and glEndList of the display list of the whole tree; and
    from stage 2 on nothing but a replay of that list.  So from the third
    high-detail frame after a change on, a frame is three calls: the two
    lists and the cursor.  The directories are taken to stand in front
    among the children of a directory, as the scanner sorts them. *)
Theorem three_stage_draw_protocol (fuel : nat) (dnode : nat) (w : World D)
    (hs : list bool) :
  dirs_first t ->
  fits t fuel fstree = true ->
  let w0 := geometry_queue_rebuild dnode w in
  (a_dlist_stale w0 dnode = true /\ b_dlist_stale w0 dnode = true /\
   c_dlist_stale w0 dnode = true /\
   fstree_low_draw_stage w0 = 0%Z /\ fstree_high_draw_stage w0 = 0%Z) /\
  exists w',
    mapv_draws t fstree fuel hs w0 = Some w' /\
    fstree_low_draw_stage w' = Z.min 2 (Z.of_nat (List.length hs)) /\
    fstree_high_draw_stage w' = Z.min 2 (Z.of_nat (count_high hs)) /\
    forall high_detail, exists w'' lowp highp,
      mapv_draw t fstree fuel high_detail w' = Some w'' /\
      gl w'' = highp ++ lowp ++ gl w' /\
      low_part t fstree fuel (fstree_low_draw_stage w') w' lowp /\
      (if high_detail
       then high_part t fstree fuel (fstree_high_draw_stage w')
              (fstree_low_draw_stage w') w' highp
       else highp = []) /\
      fstree_low_draw_stage w'' = Z.min 2 (fstree_low_draw_stage w' + 1) /\
      fstree_high_draw_stage w''
        = (if high_detail then Z.min 2 (fstree_high_draw_stage w' + 1)
           else fstree_high_draw_stage w') /\
      (List.length hs <= 1 ->
       forall d, In d (visible_dirs t fuel w' fstree) ->
         (In (GlGeometry d) lowp \/ In (GlCallList (a_dlist d)) lowp) /\
         (a_dlist_stale w' d = true -> In (GlGeometry d) lowp) /\
         a_dlist_stale w'' d = false) /\
      (List.length hs = 1 ->
       exists r, lowp = GlEndList :: r ++ [GlNewList fstree_low_dlist] /\
         forall d, In d (visible_dirs t fuel w' fstree) ->
           In (GlGeometry d) r \/ In (GlCallList (a_dlist d)) r) /\
      (2 <= count_high hs -> high_detail = true ->
       gl w'' = [GlCursor; GlCallList fstree_high_dlist; GlCallList fstree_low_dlist]
                  ++ gl w' /\
       fstree_low_draw_stage w'' = 2%Z /\ fstree_high_draw_stage w'' = 2%Z).
Proof.
  intros Hdf Hfits w0.
  assert (H0 : a_dlist_stale w0 dnode = true /\ b_dlist_stale w0 dnode = true /\
               c_dlist_stale w0 dnode = true /\
               fstree_low_draw_stage w0 = 0%Z /\ fstree_high_draw_stage w0 = 0%Z).
  { unfold w0, geometry_queue_rebuild, queue_uncached_draw, upd. simpl.
    rewrite Nat.eqb_refl. auto. }
  split; [exact H0|]. destruct H0 as (_ & _ & _ & HL & HH).
  destruct (mapv_draws_stages Hdf fuel hs Hfits w0) as (w' & E & S1 & S2 & _); try lia.
  rewrite HL in S1. rewrite HH in S2. simpl in S1, S2.
  exists w'. splits; auto.
  intros high_detail.
  destruct (mapv_draw_spec Hdf fuel high_detail w' Hfits)
    as (w'' & lowp & highp & E' & G & LP & HP & T1 & T2 & _ & _ & FA & _).
  exists w'', lowp, highp. splits; auto.
  - rewrite T1. destruct (Z.leb_spec (fstree_low_draw_stage w') 1); lia.
  - rewrite T2. destruct high_detail; simpl; auto.
    destruct (Z.leb_spec (fstree_high_draw_stage w') 1); lia.
  - intros Hlen d Hd.
    assert (Hs : (fstree_low_draw_stage w' <=? 1)%Z = true) by (apply Z.leb_le; lia).
    destruct (draw_dirs_covers MAPV_DRAW_GEOMETRY (visible_dirs t fuel w' fstree)
                (a_dlist_stale w') d Hd) as (Cv & Cs).
    cbn [action_draws action_dlist] in Cv, Cs.
    assert (Hsub : forall c,
              In c (fst (draw_dirs MAPV_DRAW_GEOMETRY (visible_dirs t fuel w' fstree)
                           (a_dlist_stale w'))) -> In c lowp).
    { intros c Hc. unfold low_part, recursive_draw in LP.
      destruct (Z.leb_spec (fstree_low_draw_stage w') 0); [now rewrite LP|].
      destruct (Z.eqb_spec (fstree_low_draw_stage w') 1) as [_ | Hne]; [|lia].
      destruct LP as (r & -> & ->). right. apply in_or_app. now left. }
    splits.
    + destruct Cv as [Cv | Cv]; [left | right]; now apply Hsub.
    + intros Hst. now apply Hsub, Cs.
    + now apply FA.
  - intros Hlen. unfold low_part, recursive_draw in LP.
    replace (fstree_low_draw_stage w') with 1%Z in LP by lia. cbn in LP.
    destruct LP as (r & -> & ->). eexists. split; [reflexivity|].
    intros d Hd.
    exact (proj1 (draw_dirs_covers MAPV_DRAW_GEOMETRY _ (a_dlist_stale w') d Hd)).
  - intros Hcnt ->.
    assert (Hlen : 2 <= List.length hs).
    { unfold count_high in Hcnt. pose proof (count_occ_bound Bool.bool_dec true hs). lia. }
    assert (L2 : fstree_low_draw_stage w' = 2%Z) by lia.
    assert (H2 : fstree_high_draw_stage w' = 2%Z) by lia.
    rewrite L2 in LP, T1. rewrite H2 in HP, T2.
    unfold low_part in LP. unfold high_part in HP. simpl in LP, HP, T1, T2.
    subst lowp highp. auto.
Qed.

End DrawFacts.

(** The example tree has its directories in front. *)
Lemma ex_tree_dirs_first : dirs_first ex_tree.
Proof. intros d. do 8 (destruct d as [|d]; [reflexivity|]). reflexivity. Qed.

Lemma three_stage_draw_protocol_witness :
  (exists w'',
     mapv_draw ex_tree 0 10 false (geometry_queue_rebuild 1 ex_world_open) = Some w'' /\
     gl w'' = [GlCallList (a_dlist 3); GlCallList (a_dlist 2);
               GlEndList; GlGeometry 1; GlNewList (a_dlist 1);
               GlCallList (a_dlist 0)] /\
     a_dlist_stale w'' 1 = false) /\
  (exists w' w'',
     mapv_draws ex_tree 0 10 [true; true] (geometry_queue_rebuild 1 ex_world_open) = Some w' /\
     mapv_draw ex_tree 0 10 true w' = Some w'' /\
     gl w'' = [GlCursor; GlCallList fstree_high_dlist; GlCallList fstree_low_dlist] ++ gl w').
Proof.
  split.
  - destruct (three_stage_draw_protocol float ex_tree 0 10 1 ex_world_open []
                ex_tree_dirs_first eq_refl)
      as (_ & w' & E & _ & _ & Hnext).
    cbn [mapv_draws] in E. injection E as <-.
    destruct (Hnext false) as (w'' & lowp & highp & E' & G & LP & HP & _ & _ & Hvis & _).
    exists w''. split; [exact E'|].
    cbn in HP. subst highp. split.
    + rewrite G. unfold low_part, recursive_draw in LP. rewrite LP. vm_compute. reflexivity.
    + apply (Hvis (le_S _ _ (le_n 0)) 1%nat). vm_compute. right. now left.
  - destruct (three_stage_draw_protocol float ex_tree 0 10 1 ex_world_open [true; true]
                ex_tree_dirs_first eq_refl)
      as (_ & w' & E & _ & _ & Hnext).
    destruct (Hnext true) as (w'' & lowp & highp & E' & _ & _ & _ & _ & _ & _ & _ & Hreplay).
    exists w', w''. split; [exact E|]. split; [exact E'|].
    apply Hreplay; [unfold count_high; simpl; lia | reflexivity].
Defined.

(** ** MapV layout: every child is placed *)

Unset Implicit Arguments.

Section MapVShape.
Variable D : Type.
Context `{Double D}.
Variable t : Tree.

Lemma mapv_first_pass_nodes (nb : D) (nodes : list nat) (total : D) :
  map (@blk_node D) (fst (mapv_first_pass t nb nodes total)) = nodes.
Proof.
  revert total. induction nodes as [|n nodes IH]; intros total; [reflexivity|].
  cbn [mapv_first_pass]. cbv zeta.
  specialize (IH (total + SQR (d_sqrt (d_of_Z (mapv_block_size t n)) + nb))%D).
  destruct (mapv_first_pass t nb nodes _) as [bl tot]. simpl in *. now rewrite IH.
Qed.


Lemma mapv_second_pass_nodes (dir_x scale_factor : D) (blocks : list (MapVBlock D)) :
  forall row,
    map (@blk_node D)
        (List.concat (map (@row_blocks D) (mapv_second_pass dir_x scale_factor blocks row)))
    = row_nodes row ++ map (@blk_node D) blocks.
Proof.
  induction blocks as [|b blocks IH]; intros row.
  - destruct row as [r|]; simpl; now rewrite ?app_nil_r.
  - cbn [mapv_second_pass]. cbv zeta. cbn [blk_area blk_node row_area row_blocks].
    set (r0 := match row with Some r => r | None => mkMapVRow [] d0 end).
    assert (Hn0 : map (@blk_node D) (row_blocks r0) = row_nodes row)
      by (unfold r0; destruct row; reflexivity).
    match goal with |- context [if ?c then _ else _] => destruct c end.
    + cbn [map List.concat row_blocks]. rewrite map_app, IH, map_app, Hn0. simpl.
      rewrite <- app_assoc. reflexivity.
    + rewrite IH. cbn [row_nodes row_blocks]. rewrite map_app, Hn0. simpl.
      rewrite <- app_assoc. reflexivity.
Qed.

Lemma mapv_output_row_nodes (scale_factor block_dims_y : D) (blocks : list (MapVBlock D)) :
  forall px py,
    map fst (mapv_output_row t scale_factor block_dims_y px py blocks)
    = map (@blk_node D) blocks.
Proof.
  induction blocks as [|b blocks IH]; intros px py; [reflexivity|].
  cbn [mapv_output_row]. cbv zeta. cbn [map fst]. now rewrite IH.
Qed.

Lemma mapv_output_nodes (scale_factor dir_x start_x : D) (rows : list (MapVRow D)) :
  forall py,
    map fst (mapv_output t scale_factor dir_x start_x py rows)
    = map (@blk_node D) (List.concat (map (@row_blocks D) rows)).
Proof.
  induction rows as [|r rows IH]; intros py; [reflexivity|].
  cbn [mapv_output map List.concat]. cbv zeta.
  now rewrite !map_app, mapv_output_row_nodes, IH.
Qed.

(** Whatever the arithmetic, the layout assigns a geometry to each child
    once, in the order of the children. *)
Lemma mapv_layout_nodes (g : MapVGeomParams D) (nodes : list nat) :
  map fst (mapv_layout t g nodes) = nodes.
Proof.
  unfold mapv_layout. cbv zeta.
  pose proof (mapv_first_pass_nodes (nominal_border (mapv_dir_dims g)) nodes d0) as F1.
  destruct (mapv_first_pass t (nominal_border (mapv_dir_dims g)) nodes d0) as [bl tot].
  rewrite mapv_output_nodes, mapv_second_pass_nodes. exact F1.
Qed.

End MapVShape.

(** ** MapV layout on the reals *)

Section MapVFacts.
Variable t : Tree.

Local Open Scope R_scope.

Ltac on_reals :=
  unfold d_lit, d0, d1, d2, SQR in *;
  cbn [d_of_Z d_add d_sub d_mul d_div d_opp d_sqrt d_lt d_le real] in *.

Lemma MIN_real (a b : R) : MIN a b = Rmin a b.
Proof.
  unfold MIN, Rmin. on_reals. unfold Rltb.
  destruct (Rlt_dec a b), (Rle_dec a b); lra.
Qed.

(** The border of a block of area [ba] in a row of depth [bdy] leaves a
    rectangle of exactly the area [area], with positive sides. *)
Lemma mapv_border_exact (ba bdy area : R) :
  0 < bdy -> 0 < area ->
  let bdx := ba / bdy in
  let k := bdx + bdy in
  let border := 1 / 4 * (k - sqrt (k * k - 4 * (ba - area))) in
  (bdx - 2 * border) * (bdy - 2 * border) = area /\
  0 < bdx - 2 * border /\ 0 < bdy - 2 * border.
Proof.
  intros Hy Ha bdx k border.
  assert (Eba : ba = bdx * bdy) by (unfold bdx; field; lra).
  clearbody bdx.
  assert (Ed : k * k - 4 * (ba - area) = (bdx - bdy) * (bdx - bdy) + 4 * area)
    by (rewrite Eba; unfold k; ring).
  set (s := sqrt (k * k - 4 * (ba - area))) in *.
  assert (Hs : s * s = (bdx - bdy) * (bdx - bdy) + 4 * area).
  { unfold s. rewrite sqrt_sqrt; [exact Ed|]. rewrite Ed.
    pose proof (Rle_0_sqr (bdx - bdy)) as Hq. unfold Rsqr in Hq. lra. }
  assert (Hs0 : 0 <= s) by apply sqrt_pos.
  clearbody s. subst ba.
  assert (H1 : bdx - bdy < s) by nra.
  assert (H2 : bdy - bdx < s) by nra.
  unfold border, k. splits; nra.
Qed.

Lemma mapv_dir_dims_pos (g : MapVGeomParams R) :
  0 < MAPV_NODE_WIDTH g -> 0 < MAPV_NODE_DEPTH g ->
  0 < dir_dims_x (mapv_dir_dims g) /\ 0 < dir_dims_y (mapv_dir_dims g) /\
  0 <= nominal_border (mapv_dir_dims g).
Proof.
  intros Hw Hd. unfold mapv_dir_dims. cbn [dir_dims_x dir_dims_y nominal_border].
  unfold mapv_side_slant_ratio_directory, MAPV_BORDER_PROPORTION.
  set (W := MAPV_NODE_WIDTH g) in *. set (Dp := MAPV_NODE_DEPTH g) in *.
  on_reals. rewrite !MIN_real.
  set (k := 8589935 / 268435456).
  assert (Hk : 0 < k < 1 / 4) by (unfold k; lra).
  assert (Hx : W - 2 * (k * W) <= W - 2 * Rmin (height g) (k * W))
    by (pose proof (Rmin_r (height g) (k * W)); lra).
  assert (Hy : Dp - 2 * (k * Dp) <= Dp - 2 * Rmin (height g) (k * Dp))
    by (pose proof (Rmin_r (height g) (k * Dp)); lra).
  set (dx := W - 2 * Rmin (height g) (k * W)) in *.
  set (dy := Dp - 2 * Rmin (height g) (k * Dp)) in *.
  assert (Hdx : 0 < dx) by nra. assert (Hdy : 0 < dy) by nra.
  pose proof (sqrt_pos (dx * dy)) as Hs.
  set (nb := Rmin (1 / 100 * sqrt (dx * dy)) (Rmin dx dy / 3)).
  assert (Hnb1 : nb <= Rmin dx dy / 3) by apply Rmin_r.
  assert (Hnb0 : 0 <= nb).
  { unfold nb. apply Rmin_glb; [nra|].
    pose proof (Rmin_glb_lt dx dy 0 Hdx Hdy). lra. }
  pose proof (Rmin_l dx dy). pose proof (Rmin_r dx dy).
  splits; lra.
Qed.


(** Without overflow the size of a block is the sum itself, and it is 256
    at least. *)
Lemma mapv_block_size_sum (n : nat) :
  dir_size_ok t 256 n ->
  mapv_block_size t n
  = (Z.max 256 (size (t n))
     + if NODE_IS_DIR t n then subtree_size (t n) else 0)%Z /\
  (256 <= mapv_block_size t n)%Z.
Proof.
  unfold dir_size_ok, mapv_block_size. intros Hn.
  replace (if (256 >? size (t n))%Z then 256%Z else size (t n))
    with (Z.max 256 (size (t n))) by (destruct (Z.gtb_spec 256 (size (t n))); lia).
  destruct (NODE_IS_DIR t n).
  - specialize (Hn eq_refl).
    rewrite int64_wrap_small by (unfold INT64_MIN, INT64_MAX in *; lia). lia.
  - lia.
Qed.

Lemma mapv_block_size_pos (n : nat) :
  dir_size_ok t 256 n -> 0 < IZR (mapv_block_size t n).
Proof.
  intros Hn. apply IZR_lt. destruct (mapv_block_size_sum n Hn). lia.
Qed.

Lemma mapv_first_pass_spec (nb : R) (nodes : list nat) :
  0 <= nb -> sizes_ok t nodes ->
  forall total, 0 <= total ->
    map (@blk_node R) (fst (mapv_first_pass t nb nodes total)) = nodes /\
    Forall (fun b => 0 < blk_area b) (fst (mapv_first_pass t nb nodes total)) /\
    total <= snd (mapv_first_pass t nb nodes total) /\
    (nodes <> [] -> total < snd (mapv_first_pass t nb nodes total)).
Proof.
  intros Hnb. induction nodes as [|n nodes IH]; intros Hok total Ht.
  - simpl. splits; auto; [lra | congruence].
  - cbn [mapv_first_pass]. cbv zeta.
    set (k := (d_sqrt (d_of_Z (mapv_block_size t n)) + nb)%D).
    assert (Hk : 0 < k).
    { unfold k. on_reals.
      assert (0 < sqrt (IZR (mapv_block_size t n))).
      { apply sqrt_lt_R0, mapv_block_size_pos. apply Hok. now left. }
      lra. }
    assert (Ha : 0 < SQR k) by (on_reals; nra).
    destruct (IH (fun m Hm => Hok m (or_intror Hm)) (total + SQR k)%D) as (I1 & I2 & I3 & _).
    { on_reals. lra. }
    destruct (mapv_first_pass t nb nodes (total + SQR k)%D) as [bl tot].
    cbn [fst snd] in *. on_reals. splits.
    + simpl. now rewrite I1.
    + constructor; [exact Ha | exact I2].
    + lra.
    + intros _. lra.
Qed.



Lemma mapv_second_pass_spec (dir_x scale_factor : R) (blocks : list (MapVBlock R)) :
  0 < scale_factor ->
  Forall (fun b => 0 < blk_area b) blocks ->
  forall row, row_acc_ok row ->
    Forall (fun r => 0 < row_area r) (mapv_second_pass dir_x scale_factor blocks row) /\
    map (@blk_node R)
        (List.concat (map (@row_blocks R) (mapv_second_pass dir_x scale_factor blocks row)))
    = row_acc_nodes row ++ map (@blk_node R) blocks.
Proof.
  intros Hsf. induction blocks as [|b blocks IH]; intros Hb row Hrow.
  - destruct row as [r|]; simpl in *.
    + split; [repeat constructor; exact Hrow | now rewrite !app_nil_r].
    + split; [constructor | reflexivity].
  - inversion Hb as [|? ? Hb1 Hb2]; subst.
    cbn [mapv_second_pass]. cbv zeta. cbn [blk_area blk_node row_area row_blocks].
    set (r0 := match row with Some r => r | None => mkMapVRow [] d0 end).
    assert (Hr0 : 0 <= row_area r0).
    { unfold r0. destruct row as [r|]; simpl in *; on_reals; lra. }
    assert (Hn0 : map (@blk_node R) (row_blocks r0) = row_acc_nodes row).
    { unfold r0. destruct row; reflexivity. }
    set (r1 := mkMapVRow (row_blocks r0 ++ [mkMapVBlock (blk_node b) (blk_area b * scale_factor)%D])
                 (row_area r0 + blk_area b * scale_factor)%D).
    assert (Hr1 : 0 < row_area r1) by (unfold r1; simpl; on_reals; nra).
    assert (Hn1 : map (@blk_node R) (row_blocks r1) = row_acc_nodes row ++ [blk_node b]).
    { unfold r1. simpl. rewrite map_app, Hn0. reflexivity. }
    match goal with |- context [if ?c then _ else _] => destruct c end.
    + destruct (IH Hb2 None I) as (I1 & I2). split.
      * constructor; [exact Hr1 | exact I1].
      * cbn [map List.concat]. rewrite map_app, I2, Hn1. simpl.
        rewrite <- app_assoc. reflexivity.
    + destruct (IH Hb2 (Some r1) Hr1) as (I1 & I2). split; [exact I1|].
      rewrite I2. cbn [row_acc_nodes]. rewrite Hn1, <- app_assoc. reflexivity.
Qed.


Lemma mapv_output_row_spec (scale_factor block_dims_y : R) (blocks : list (MapVBlock R)) :
  0 < scale_factor -> 0 < block_dims_y ->
  sizes_ok t (map (@blk_node R) blocks) ->
  forall px py,
    Forall (placed_ok t scale_factor)
      (mapv_output_row t scale_factor block_dims_y px py blocks) /\
    map fst (mapv_output_row t scale_factor block_dims_y px py blocks)
    = map (@blk_node R) blocks.
Proof.
  intros Hsf Hy. induction blocks as [|b blocks IH]; intros Hok px py.
  - simpl. split; constructor.
  - cbn [mapv_output_row]. cbv zeta.
    destruct (IH (fun m Hm => Hok m (or_intror Hm)) (px - blk_area b / block_dims_y)%D py)
      as (I1 & I2).
    split; [|cbn [map fst]; now rewrite I2].
    constructor; [|exact I1].
    assert (Ha : 0 < scale_factor * IZR (mapv_block_size t (blk_node b))).
    { apply Rmult_lt_0_compat; [exact Hsf|].
      apply mapv_block_size_pos. apply Hok. now left. }
    destruct (mapv_border_exact (blk_area b) block_dims_y _ Hy Ha) as (E1 & E2 & E3).
    unfold placed_ok, mapv_footprint, MAPV_NODE_WIDTH, MAPV_NODE_DEPTH.
    cbn [fst snd c0_x c0_y c1_x c1_y]. on_reals.
    set (border := 1 / 4 * (blk_area b / block_dims_y + block_dims_y
                            - sqrt ((blk_area b / block_dims_y + block_dims_y)
                                    * (blk_area b / block_dims_y + block_dims_y)
                                    - 4 * (blk_area b
                                           - scale_factor
                                             * IZR (mapv_block_size t (blk_node b)))))) in *.
    replace (px - border - (px - blk_area b / block_dims_y + border))
      with (blk_area b / block_dims_y - 2 * border) by ring.
    replace (py - border - (py - block_dims_y + border))
      with (block_dims_y - 2 * border) by ring.
    splits; assumption.
Qed.

Lemma mapv_output_spec (scale_factor dir_x start_x : R) (rows : list (MapVRow R)) :
  0 < scale_factor -> 0 < dir_x ->
  Forall (fun r => 0 < row_area r) rows ->
  sizes_ok t (map (@blk_node R) (List.concat (map (@row_blocks R) rows))) ->
  forall py,
    Forall (placed_ok t scale_factor) (mapv_output t scale_factor dir_x start_x py rows) /\
    map fst (mapv_output t scale_factor dir_x start_x py rows)
    = map (@blk_node R) (List.concat (map (@row_blocks R) rows)).
Proof.
  intros Hsf Hx. induction rows as [|r rows IH]; intros Hr Hok py.
  - simpl. split; constructor.
  - inversion Hr as [|? ? Hr1 Hr2]; subst.
    cbn [mapv_output]. cbv zeta.
    cbn [map List.concat] in Hok. rewrite map_app in Hok.
    assert (Hy : 0 < (row_area r / dir_x)%D)
      by (on_reals; apply Rdiv_lt_0_compat; assumption).
    destruct (mapv_output_row_spec scale_factor (row_area r / dir_x)%D (row_blocks r) Hsf Hy
                (fun m Hm => Hok m (in_or_app _ _ _ (or_introl Hm))) start_x py) as (A1 & A2).
    destruct (IH Hr2 (fun m Hm => Hok m (in_or_app _ _ _ (or_intror Hm)))
                (py - row_area r / dir_x)%D) as (B1 & B2).
    split.
    + apply Forall_app. split; assumption.
    + cbn [map List.concat]. rewrite !map_app, A2, B2. reflexivity.
Qed.

Lemma mapv_layout_spec (g : MapVGeomParams R) (nodes : list nat) :
  0 < MAPV_NODE_WIDTH g -> 0 < MAPV_NODE_DEPTH g -> sizes_ok t nodes ->
  map fst (mapv_layout t g nodes) = nodes /\
  Forall (placed_ok t (mapv_scale_factor t g nodes)) (mapv_layout t g nodes).
Proof.
  intros Hw Hd Hok.
  destruct nodes as [|n0 nodes0] eqn:En; [split; constructor|]. rewrite <- En in *.
  destruct (mapv_dir_dims_pos g Hw Hd) as (Hx & Hy & Hnb).
  destruct (mapv_first_pass_spec (nominal_border (mapv_dir_dims g)) nodes Hnb Hok d0)
    as (F1 & F2 & _ & F4); [on_reals; lra|].
  specialize (F4 ltac:(rewrite En; congruence)).
  assert (Hsf : 0 < mapv_scale_factor t g nodes).
  { unfold mapv_scale_factor. cbv zeta.
    destruct (mapv_first_pass t (nominal_border (mapv_dir_dims g)) nodes d0) as [bl tot].
    cbn [snd] in F4. on_reals. apply Rdiv_lt_0_compat; nra. }
  unfold mapv_layout. cbv zeta.
  destruct (mapv_first_pass t (nominal_border (mapv_dir_dims g)) nodes d0) as [bl tot] eqn:Efp.
  cbn [fst snd] in *.
  destruct (mapv_second_pass_spec (dir_dims_x (mapv_dir_dims g)) (mapv_scale_factor t g nodes)
              bl Hsf F2 None I) as (S1 & S2).
  cbn [row_acc_nodes app] in S2. rewrite F1 in S2.
  destruct (mapv_output_spec (mapv_scale_factor t g nodes) (dir_dims_x (mapv_dir_dims g))
              (MAPV_NODE_CENTER_X g + d_lit 1 2 * dir_dims_x (mapv_dir_dims g))%D _
              Hsf Hx S1 ltac:(rewrite S2; exact Hok)
              (MAPV_NODE_CENTER_Y g + d_lit 1 2 * dir_dims_y (mapv_dir_dims g))%D)
    as (O1 & O2).
  split; [rewrite O2; exact S2 | exact O1].
Qed.

(** C6 (amended).  In exact arithmetic, and when no sum of a directory's
    own size (counted as 256 at least) and the size of its subtree leaves
    the range of int64, the layout of the children [nodes] of a directory
    whose top face has positive width and depth assigns a geometry to
    every child, in order; the border width solved from the quadratic
    makes each child's visible footprint exactly [scale_factor * size'],
    where [size'] is [max(256, size)], plus the subtree size for a
    directory; every footprint has positive width and depth; hence any two
    footprints are in the ratio of the two [size'] (900 : 256 for files of
    900 and 100 bytes). *)
Theorem mapv_footprint_exact (g : MapVGeomParams R) (nodes : list nat) :
  0 < MAPV_NODE_WIDTH g -> 0 < MAPV_NODE_DEPTH g -> sizes_ok t nodes ->
  map fst (mapv_layout t g nodes) = nodes /\
  (forall n gp, In (n, gp) (mapv_layout t g nodes) ->
     let size' := (Z.max 256 (size (t n))
                   + if NODE_IS_DIR t n then subtree_size (t n) else 0)%Z in
     mapv_block_size t n = size' /\
     mapv_footprint gp = mapv_scale_factor t g nodes * IZR size' /\
     0 < MAPV_NODE_WIDTH gp /\ 0 < MAPV_NODE_DEPTH gp) /\
  (forall n1 g1 n2 g2,
     In (n1, g1) (mapv_layout t g nodes) -> In (n2, g2) (mapv_layout t g nodes) ->
     mapv_footprint g1 * IZR (mapv_block_size t n2)
     = mapv_footprint g2 * IZR (mapv_block_size t n1)).
Proof.
  intros Hw Hd Hok.
  destruct (mapv_layout_spec g nodes Hw Hd Hok) as (L1 & L2).
  rewrite Forall_forall in L2.
  splits.
  - exact L1.
  - intros n gp Hin. cbv zeta.
    assert (Hn : In n nodes).
    { rewrite <- L1. apply in_map_iff. exists (n, gp). split; [reflexivity | exact Hin]. }
    destruct (mapv_block_size_sum n (Hok n Hn)) as (Es & _).
    destruct (L2 _ Hin) as (E1 & P1 & P2). cbn [fst snd] in E1, P1, P2.
    rewrite <- Es. splits; auto.
  - intros n1 g1 n2 g2 H1 H2.
    destruct (L2 _ H1) as (E1 & _). destruct (L2 _ H2) as (E2 & _).
    cbn [fst snd] in E1, E2. rewrite E1, E2. ring.
Qed.

End MapVFacts.

(** *** The layout of a directory holding files of 900 and 100 bytes *)

(** C6, the claim as stated fails, on binary64 runs of [mapv_init].  On
    the example tree the footprints of the files of 900 and 100 bytes in
    directory 5 are in the ratio 900 : 256 (3.515625), not 900 : 100.
    Beside a file of 4.9e18 bytes a file of 1 byte gets a rectangle of
    width 0, so its footprint is neither positive nor the scaled area.  A
    directory whose subtree is of 2^63 - 1 bytes has its size wrap around
    to a negative number, and its rectangle and its neighbour's are
    NaN. *)
Lemma mapv_footprint_claim_fails :
  option_map
    (fun w => (mapv_footprint (mapv_geom w 6) / mapv_footprint (mapv_geom w 7))%float)
    (mapv_init ex_tree 0 10 ex_world)
  = Some 3.515625%float /\
  option_map
    (fun w => (MAPV_NODE_WIDTH (mapv_geom w 2), mapv_footprint (mapv_geom w 2),
               (0 <? MAPV_NODE_DEPTH (mapv_geom w 2))%float))
    (mapv_init ex_lopsided 0 10 ex_world)
  = Some (0%float, 0%float, true) /\
  mapv_block_size ex_overflowing 2 = (- 9223372036854775553)%Z /\
  option_map
    (fun w => (PrimFloat.is_nan (MAPV_NODE_WIDTH (mapv_geom w 2)),
               PrimFloat.is_nan (MAPV_NODE_WIDTH (mapv_geom w 3))))
    (mapv_init ex_overflowing 0 10 ex_world)
  = Some (true, true).
Proof. vm_compute. repeat split. Qed.

(** A directory 100 wide and 100 deep holding the directory 5 of the
    example tree beside the files 6 and 7. *)
Lemma ex_mixed_sizes_ok : sizes_ok ex_tree [5%nat; 6%nat; 7%nat].
Proof.
  intros n [<- | [<- | [<- | []]]] Hd; try discriminate Hd.
  unfold INT64_MAX. cbn. lia.
Qed.

Lemma mapv_footprint_exact_witness :
  let l := mapv_layout ex_tree ex_dir_geomR [5%nat; 6%nat; 7%nat] in
  map fst l = [5%nat; 6%nat; 7%nat] /\
  (forall g5 g7, In (5%nat, g5) l -> In (7%nat, g7) l ->
     (mapv_footprint g5 * 256 = mapv_footprint g7 * 1256)%R /\
     (0 < MAPV_NODE_WIDTH g5)%R /\ (0 < MAPV_NODE_DEPTH g7)%R).
Proof.
  cbv zeta.
  destruct (mapv_footprint_exact ex_tree ex_dir_geomR [5%nat; 6%nat; 7%nat])
    as (A & B & C).
  - unfold MAPV_NODE_WIDTH; simpl; lra.
  - unfold MAPV_NODE_DEPTH; simpl; lra.
  - exact ex_mixed_sizes_ok.
  - split; [exact A|]. intros g5 g7 H5 H7.
    destruct (B _ _ H5) as (_ & _ & W5 & _).
    destruct (B _ _ H7) as (_ & _ & _ & D7).
    splits; auto.
    pose proof (C _ _ _ _ H5 H7) as E.
    replace (mapv_block_size ex_tree 7) with 256%Z in E by reflexivity.
    replace (mapv_block_size ex_tree 5) with 1256%Z in E by reflexivity.
    exact E.
Defined.

(** ** colexp.c: expanding a directory inside collapsed ancestors *)

Unset Implicit Arguments.

Section ColexpFacts.
Variable D : Type.
Context `{Double D} `{Libm D}.
Variable t : Tree.
Variable camera_look_at_full : nat -> MorphType -> D -> World D -> World D.

(** *** The directories above a node *)

Lemma under_root_unique (n : nat) (l1 : list nat) :
  under_root t n l1 -> forall l2, under_root t n l2 -> l1 = l2.
Proof.
  induction 1 as [n top Hp Hd Ht | n up l Hp Hd Hu IH]; intros l2 H2.
  - inversion H2 as [? top' Hp' Hd' Ht' | ? up' l' Hp' Hd' Hu']; subst; auto.
    congruence.
  - inversion H2 as [? top' Hp' Hd' Ht' | ? up' l' Hp' Hd' Hu']; subst.
    + congruence.
    + assert (up' = up) by congruence. subst up'. f_equal. now apply IH.
Qed.

Lemma under_root_above (n : nat) (l : list nat) :
  under_root t n l ->
  forall x, In x l -> exists l', under_root t x l' /\ List.length l' < List.length l.
Proof.
  induction 1 as [n top Hp Hd Ht | n up l Hp Hd Hu IH]; intros x Hx; [destruct Hx|].
  destruct Hx as [<-|Hx].
  - exists l. split; [auto | simpl; lia].
  - destruct (IH x Hx) as (l' & A & B). exists l'. split; [auto | simpl; lia].
Qed.

Lemma under_root_not_in (n : nat) (l : list nat) : under_root t n l -> ~ In n l.
Proof.
  intros Hu Hin. destruct (under_root_above _ _ Hu n Hin) as (l' & A & B).
  rewrite (under_root_unique _ _ A _ Hu) in B. lia.
Qed.

Lemma under_root_nodup (n : nat) (l : list nat) : under_root t n l -> NoDup (n :: l).
Proof.
  induction 1 as [n top Hp Hd Ht | n up l Hp Hd Hu IH].
  - constructor; [tauto | constructor].
  - constructor; auto.
    apply (under_root_not_in n (up :: l)). econstructor 2; eauto.
Qed.

(** *** The loops that walk up *)

Lemma dirtree_entry_expand_loop_returns (n : nat) (l : list nat) :
  under_root t n l -> NODE_IS_DIR t n = true ->
  forall fuel (w : World D), List.length l + 2 <= fuel ->
    exists f, dirtree_entry_expand_loop t fuel (Some n) w
              = Some (set_ctree_expanded f w).
Proof.
  induction 1 as [n top Hp Hd Ht | n up l Hp Hd Hu IH]; intros Hn fuel w Hf.
  - destruct fuel as [|[|fuel]]; simpl in Hf; try lia.
    simpl. rewrite Hn, Hp, Hd.
    destruct (negb (dirtree_entry_expanded w n)).
    + eexists. reflexivity.
    + exists (ctree_expanded w). destruct w; reflexivity.
  - destruct fuel as [|fuel]; simpl in Hf; try lia.
    simpl. rewrite Hn, Hp.
    destruct (negb (dirtree_entry_expanded w n)).
    + destruct (IH Hd fuel (set_ctree_expanded (upd (ctree_expanded w) n true) w))
        as (f & E); [lia|].
      rewrite E. exists f. reflexivity.
    + destruct (IH Hd fuel w) as (f & E); [lia|]. rewrite E. exists f. reflexivity.
Qed.

Lemma collapsed_depth_loop_returns (n : nat) (l : list nat) :
  under_root t n l ->
  forall fuel (w : World D) (z : Z), List.length l + 1 <= fuel ->
    collapsed_depth_loop t fuel w (parent (t n)) z = Some (z + leading_collapsed w l)%Z.
Proof.
  induction 1 as [n top Hp Hd Ht | n up l Hp Hd Hu IH]; intros fuel w z Hf.
  - destruct fuel as [|fuel]; simpl in Hf; try lia.
    simpl. rewrite Hp, Hd. f_equal. lia.
  - destruct fuel as [|fuel]; simpl in Hf; try lia.
    cbn [collapsed_depth_loop leading_collapsed]. rewrite Hp, Hd.
    destruct (DIR_COLLAPSED w up); cbn [negb].
    + rewrite IH by lia. f_equal. lia.
    + f_equal. lia.
Qed.

Lemma platform_r0_loop_returns (n : nat) (l : list nat) :
  under_root t n l ->
  forall fuel (w : World D) (r0 : D), List.length l + 1 <= fuel ->
    exists r, platform_r0_loop t fuel w (parent (t n)) r0 = Some r.
Proof.
  induction 1 as [n top Hp Hd Ht | n up l Hp Hd Hu IH]; intros fuel w r0 Hf.
  - destruct fuel as [|fuel]; simpl in Hf; try lia.
    rewrite Hp. simpl. rewrite Ht. destruct fuel; eexists; reflexivity.
  - destruct fuel as [|fuel]; simpl in Hf; try lia.
    rewrite Hp. simpl. apply IH. lia.
Qed.

Lemma geometry_colexp_initiated_returns (n : nat) (l : list nat) :
  under_root t n l -> NODE_IS_DIR t n = true ->
  forall fuel (w : World D), List.length l + 1 <= fuel ->
    exists w', geometry_colexp_initiated t fuel n w = Some w' /\
      anim w' = anim w /\ fsv_mode w' = fsv_mode w /\
      colexp_time w' = colexp_time w /\ depth w' = depth w /\
      max_depth w' = max_depth w.
Proof.
  intros Hu Hn fuel w Hf. unfold geometry_colexp_initiated.
  destruct (DIR_COLLAPSED w n); [|exists w; auto 10].
  destruct (fsv_mode w) eqn:Hm; try solve [exists w; auto 10].
  unfold geometry_treev_platform_r0.
  assert (Hmeta : NODE_IS_METANODE t n = false).
  { unfold NODE_IS_DIR in Hn. unfold NODE_IS_METANODE. destruct (ntype (t n)); congruence. }
  rewrite Hmeta.
  destruct (platform_r0_loop_returns _ _ Hu fuel w d0 Hf) as (r & E). rewrite E.
  eexists. split; [reflexivity|]. simpl. rewrite Hm. auto 10.
Qed.

(** *** One directory *)

Lemma remove_found_none (v : Var) (q : list (Morph D)) :
  g_list_find_custom q v = None -> remove_found v q = q.
Proof.
  induction q as [|m q IH]; simpl; auto.
  destruct (compare_var m v); [|discriminate]. intros Hf. now rewrite IH.
Qed.

Lemma remove_found_spec (v : Var) (q : list (Morph D)) :
  queue_ok q ->
  g_list_find_custom (remove_found v q) v = None /\
  queue_ok (remove_found v q) /\
  (forall u, u <> v ->
     g_list_find_custom (remove_found v q) u = g_list_find_custom q u).
Proof.
  intros Hok. destruct (g_list_find_custom q v) as [m|] eqn:Hf.
  - destruct (find_custom_split _ _ Hf) as (l1 & l2 & Hq & Hv & Hl1 & _ & Hrm).
    rewrite Hrm. subst q. splits.
    + destruct (queue_ok_split _ _ _ Hok) as (A1 & A2 & _). rewrite Hv in A1, A2.
      apply find_custom_none. apply Forall_app; split;
        eapply Forall_impl; try eassumption; simpl; tauto.
    + eapply queue_ok_removed; eauto.
    + intros u Hu. apply find_custom_removed. congruence.
  - rewrite (remove_found_none _ _ Hf). splits; auto.
Qed.

Lemma morph_break_queue (v : Var) (s : State D) :
  morph_break v s = set_morph_queue (remove_found v (morph_queue s)) s.
Proof.
  unfold morph_break. destruct (g_list_find_custom (morph_queue s) v) eqn:Hf; auto.
  rewrite (remove_found_none _ _ Hf). destruct s; reflexivity.
Qed.

Lemma chain_on_cascade_record (w : World D) (n : nat) (z : Z) :
  var (cascade_record w n z) = VarDeployment n /\
  chain_on (VarDeployment n) (cascade_record w n z).
Proof.
  unfold cascade_record, chain_on. destruct (z >? 0)%Z; simpl; repeat constructor.
Qed.

(** What colexp( ) does to one directory on the way up: whatever was
    animating its deployment is dropped, and the record of the cascade is
    put at the head of the queue. *)
Lemma colexp_animate_any (n : nat) (w : World D) :
  queue_ok (morph_queue (anim w)) ->
  colexp_time w = mode_colexp_time (fsv_mode w) ->
  exists a,
    colexp_animate n COLEXP_EXPAND_ANY w = set_anim a w /\
    mem a = mem (anim w) /\ clock a = clock (anim w) /\
    morph_queue a
      = cascade_record w n (max_depth w - depth w)
          :: remove_found (VarDeployment n) (morph_queue (anim w)).
Proof.
  intros Hok Hct.
  destruct (remove_found_spec (VarDeployment n) _ Hok) as (Hnone & _ & _).
  unfold colexp_animate, on_anim. rewrite morph_break_queue.
  unfold cascade_record, deployment. rewrite <- Hct.
  set (q0 := remove_found (VarDeployment n) (morph_queue (anim w))) in *.
  cbn [anim set_anim max_depth depth colexp_time].
  destruct (max_depth w - depth w >? 0)%Z.
  - match goal with |- context [morph_full _ _ _ _ _ _ _ ?s0] => set (s1 := s0) end.
    assert (Hq1 : exists hold, morph_queue s1 = hold :: q0 /\
              hold = mkMorph MORPH_LINEAR (VarDeployment n)
                       (mem (anim w) (VarDeployment n)) (mem (anim w) (VarDeployment n))
                       (clock (anim w))
                       (clock (anim w) + d_of_Z (max_depth w - depth w) * colexp_time w)%D
                       None None 0 None /\
              mem s1 = mem (anim w) /\ clock s1 = clock (anim w)).
    { eexists. unfold s1, morph, morph_full.
      cbn [morph_queue set_morph_queue anim set_anim]. rewrite Hnone. simpl.
      destruct (animation_active (anim w)); simpl; splits; reflexivity. }
    destruct Hq1 as (hold & Hq1 & Hhold & Hm1 & Hc1).
    unfold morph_full. rewrite Hq1.
    cbn [g_list_find_custom]. unfold compare_var.
    assert (Hvh : var hold = VarDeployment n) by (subst hold; reflexivity).
    rewrite Hvh, Var_eqb_refl. cbn [negb update_found]. unfold compare_var.
    rewrite Hvh, Var_eqb_refl. cbn [negb].
    eexists. split; [reflexivity|].
    cbn [mem clock morph_queue set_morph_queue]. splits; auto.
    f_equal. subst hold. unfold xgettime. rewrite Hm1, Hc1. reflexivity.
  - unfold morph_full. cbn [morph_queue set_morph_queue anim set_anim]. rewrite Hnone.
    eexists. split; [reflexivity|]. simpl.
    destruct (animation_active (anim w)); simpl; splits; auto.
Qed.

(** *** The way up *)


Lemma cascade_record_ext (w1 w2 : World D) (x : nat) (z : Z) :
  mem (anim w1) = mem (anim w2) -> clock (anim w1) = clock (anim w2) ->
  fsv_mode w1 = fsv_mode w2 ->
  cascade_record w1 x z = cascade_record w2 x z.
Proof.
  intros A B Cc. unfold cascade_record, deployment. now rewrite A, B, Cc.
Qed.

Lemma colexp_any_eq (fuel : nat) (n : nat) (w : World D) :
  colexp t camera_look_at_full (S fuel) n COLEXP_EXPAND_ANY w =
  match (if (depth w =? 0)%Z
         then colexp_begin t fuel n COLEXP_EXPAND_ANY w else Some w) with
  | None => None
  | Some w =>
      let w := colexp_animate n COLEXP_EXPAND_ANY w in
      match (match parent (t n) with
             | None => None
             | Some up =>
                 if NODE_IS_DIR t up then
                   match colexp t camera_look_at_full fuel up COLEXP_EXPAND_ANY
                           (set_depth (depth w + 1) w) with
                   | Some w => Some (set_depth (depth w - 1) w)
                   | None => None
                   end
                 else Some w
             end) with
      | None => None
      | Some w =>
          match geometry_colexp_initiated t fuel n w with
          | None => None
          | Some w =>
              if (depth w =? 0)%Z
              then Some (colexp_end t camera_look_at_full fuel n COLEXP_EXPAND_ANY w)
              else Some w
          end
      end
  end.
Proof.
  cbn [colexp].
  destruct (if (depth w =? 0)%Z then colexp_begin t fuel n COLEXP_EXPAND_ANY w else Some w)
    as [wb|]; [|reflexivity].
  cbv zeta. destruct (parent (t n)) as [up|]; [|reflexivity].
  destruct (NODE_IS_DIR t up); [|reflexivity].
  destruct (colexp t camera_look_at_full fuel up COLEXP_EXPAND_ANY _); reflexivity.
Qed.

Lemma colexp_end_any (fuel n : nat) (w : World D) :
  exists b, colexp_end t camera_look_at_full fuel n COLEXP_EXPAND_ANY w
            = set_scrollbars_colexp_adjust b w.
Proof.
  unfold colexp_end. cbv zeta. eexists.
  destruct (negb (camera_manual_control w)); reflexivity.
Qed.

Lemma colexp_any_core (n : nat) (l : list nat) :
  under_root t n l -> NODE_IS_DIR t n = true ->
  forall fuel (w wb : World D),
    List.length l + 2 <= fuel ->
    (if (depth w =? 0)%Z
     then colexp_begin t fuel n COLEXP_EXPAND_ANY w else Some w) = Some wb ->
    depth wb = depth w -> (0 <= depth wb)%Z ->
    queue_ok (morph_queue (anim wb)) ->
    colexp_time wb = mode_colexp_time (fsv_mode wb) ->
    exists w',
      colexp t camera_look_at_full (S fuel) n COLEXP_EXPAND_ANY w = Some w' /\
      cascade_ok wb w' (n :: l).
Proof.
  intros Hu. induction Hu as [n top Hp Hd Ht | n up l Hp Hd Hu IH];
    intros Hn fuel w wb Hf Hb Hdep Hpos Hok Hct;
    rewrite colexp_any_eq, Hb; cbv zeta;
    destruct (colexp_animate_any n wb Hok Hct) as (a & Ea & Am & Ac & Aq);
    rewrite Ea, Hp, Hd;
    destruct (remove_found_spec (VarDeployment n) _ Hok) as (R1 & R2 & R3);
    destruct (chain_on_cascade_record wb n (max_depth wb - depth wb)) as (Cv & Cc).
  - (* the directory right under the metanode *)
    assert (Hur : under_root t n []) by (econstructor 1; eauto).
    destruct (geometry_colexp_initiated_returns n [] Hur Hn fuel (set_anim a wb)) as (w5 & E5 & G1 & G2 & G3 & G4 & G5);
      [simpl in *; lia|].
    rewrite E5.
    assert (Hres : exists w', (if (depth w5 =? 0)%Z
                               then Some (colexp_end t camera_look_at_full fuel n
                                            COLEXP_EXPAND_ANY w5)
                               else Some w5) = Some w' /\
                     anim w' = anim w5 /\ fsv_mode w' = fsv_mode w5 /\
                     colexp_time w' = colexp_time w5 /\ depth w' = depth w5 /\
                     max_depth w' = max_depth w5).
    { destruct (depth w5 =? 0)%Z.
      - destruct (colexp_end_any fuel n w5) as (b & Eb). rewrite Eb.
        eexists. split; [reflexivity|]. simpl. auto 10.
      - exists w5. auto 10. }
    destruct Hres as (w' & E' & T1 & T2 & T3 & T4 & T5).
    exists w'. split; [exact E'|].
    unfold cascade_ok. rewrite T1, T2, T3, T4, T5, G1, G2, G3, G4, G5. simpl.
    rewrite Am, Ac, Aq. splits; auto.
    + split.
      * simpl. constructor.
        -- rewrite Cv. intros Hin. apply in_map_iff in Hin.
           destruct Hin as (m & Hm & Hin).
           apply find_custom_none in R1. rewrite Forall_forall in R1.
           exact (R1 m Hin Hm).
        -- apply R2.
      * constructor; [rewrite Cv; exact Cc | apply R2].
    + intros i x Hi. destruct i as [|i]; simpl in Hi.
      * injection Hi as <-. simpl. unfold compare_var. rewrite Cv, Var_eqb_refl. simpl.
        do 2 f_equal. lia.
      * destruct i; discriminate.
    + intros v Hv. simpl. unfold compare_var. rewrite Cv.
      assert (Hne : v <> VarDeployment n) by (apply Hv; now left).
      assert (E : Var_eqb (VarDeployment n) v = false) by (apply Var_eqb_neq; congruence).
      rewrite E. simpl. now apply R3.
  - (* a directory under a directory *)
    set (w1 := set_anim a wb).
    set (w2 := set_depth (depth w1 + 1) w1).
    assert (Hq1 : queue_ok (morph_queue (anim w2))).
    { unfold w2, w1. simpl. rewrite Aq. split.
      - simpl. constructor.
        + rewrite Cv. intros Hin. apply in_map_iff in Hin.
          destruct Hin as (m & Hm & Hin).
          apply find_custom_none in R1. rewrite Forall_forall in R1.
          exact (R1 m Hin Hm).
        + apply R2.
      - constructor; [rewrite Cv; exact Cc | apply R2]. }
    assert (Hd2 : depth w2 = (depth wb + 1)%Z) by reflexivity.
    destruct fuel as [|fuel]; [simpl in Hf; lia|].
    destruct (IH Hd fuel w2 w2) as (w3 & E3 & X3).
    { simpl in Hf. lia. }
    { rewrite Hd2. replace (depth wb + 1 =? 0)%Z with false; auto.
      symmetry. apply Z.eqb_neq. lia. }
    { reflexivity. }
    { rewrite Hd2. lia. }
    { exact Hq1. }
    { unfold w2, w1. simpl. exact Hct. }
    fold w1. fold w2. rewrite E3.
    destruct X3 as (X1 & X2 & X3 & X4 & X5 & X6 & X7 & X8 & X9).
    set (w4 := set_depth (depth w3 - 1) w3).
    assert (Hur : under_root t n (up :: l)) by (econstructor 2; eauto).
    destruct (geometry_colexp_initiated_returns n (up :: l) Hur Hn (S fuel) w4)
      as (w5 & E5 & G1 & G2 & G3 & G4 & G5); [simpl in *; lia|].
    rewrite E5.
    assert (Hres : exists w', (if (depth w5 =? 0)%Z
                               then Some (colexp_end t camera_look_at_full (S fuel) n
                                            COLEXP_EXPAND_ANY w5)
                               else Some w5) = Some w' /\
                     anim w' = anim w5 /\ fsv_mode w' = fsv_mode w5 /\
                     colexp_time w' = colexp_time w5 /\ depth w' = depth w5 /\
                     max_depth w' = max_depth w5).
    { destruct (depth w5 =? 0)%Z.
      - destruct (colexp_end_any (S fuel) n w5) as (b & Eb). rewrite Eb.
        eexists. split; [reflexivity|]. simpl. auto 10.
      - exists w5. auto 10. }
    destruct Hres as (w' & E' & T1 & T2 & T3 & T4 & T5).
    exists w'. split; [exact E'|].
    assert (Hrec : forall x z, cascade_record w2 x z = cascade_record wb x z).
    { intros x z. apply cascade_record_ext; unfold w2, w1; simpl; auto. }
    unfold cascade_ok. rewrite T1, T2, T3, T4, T5, G1, G2, G3, G4, G5.
    unfold w4. simpl. rewrite X1, X2, X3, X4, X5, X6. unfold w2, w1. simpl.
    splits; auto; try lia.
    + intros i x Hi. destruct i as [|i]; simpl in Hi.
      * injection Hi as <-.
        rewrite X9.
        -- unfold w2, w1. simpl. rewrite Aq. simpl. unfold compare_var.
           rewrite Cv, Var_eqb_refl. simpl. do 2 f_equal. lia.
        -- intros x Hx E. injection E as E. subst x.
           exact (under_root_not_in n (up :: l) Hur Hx).
      * rewrite (X8 i x Hi). rewrite Hrec. do 2 f_equal.
        unfold w2, w1. simpl. lia.
    + intros v Hv. rewrite X9.
      * unfold w2, w1. simpl. rewrite Aq. simpl. unfold compare_var. rewrite Cv.
        assert (Hne : v <> VarDeployment n) by (apply Hv; now left).
        assert (E : Var_eqb (VarDeployment n) v = false) by (apply Var_eqb_neq; congruence).
        rewrite E. simpl. now apply R3.
      * intros x Hx. apply Hv. now right.
Qed.

Lemma leading_collapsed_ext (w1 w2 : World D) (l : list nat) :
  mem (anim w1) = mem (anim w2) ->
  leading_collapsed w1 l = leading_collapsed w2 l.
Proof.
  intros A. induction l as [|x l IH]; simpl; [reflexivity|].
  unfold DIR_COLLAPSED, deployment. rewrite A, IH. reflexivity.
Qed.

Lemma colexp_begin_any (n : nat) (l : list nat) (fuel : nat) (w : World D) :
  under_root t n l -> NODE_IS_DIR t n = true -> List.length l + 2 <= fuel ->
  fsv_mode w = FSV_DISCV \/ fsv_mode w = FSV_MAPV \/ fsv_mode w = FSV_TREEV ->
  exists f,
    colexp_begin t fuel n COLEXP_EXPAND_ANY w
    = Some (set_colexp_time (mode_colexp_time (fsv_mode w))
              (set_max_depth (leading_collapsed w l) (set_ctree_expanded f w))).
Proof.
  intros Hu Hn Hf Hm.
  destruct (dirtree_entry_expand_loop_returns n l Hu Hn fuel w Hf) as (f & Ef).
  exists f. unfold colexp_begin, dirtree_entry_expand, collapsed_depth. rewrite Ef.
  rewrite (collapsed_depth_loop_returns n l Hu fuel _ 0%Z) by lia.
  rewrite (leading_collapsed_ext (set_ctree_expanded f w) w l) by reflexivity.
  simpl. destruct Hm as [M|[M|M]]; rewrite M; reflexivity.
Qed.

(** The whole request, from the top: [colexp_begin] and the way up. *)
Lemma colexp_any_top (fuel dnode : nat) (chain : list nat) (w : World D) :
  under_root t dnode chain -> NODE_IS_DIR t dnode = true ->
  List.length chain + 2 <= fuel ->
  depth w = 0%Z ->
  fsv_mode w = FSV_DISCV \/ fsv_mode w = FSV_MAPV \/ fsv_mode w = FSV_TREEV ->
  queue_ok (morph_queue (anim w)) ->
  exists f w',
    colexp t camera_look_at_full (S fuel) dnode COLEXP_EXPAND_ANY w = Some w' /\
    cascade_ok
      (set_colexp_time (mode_colexp_time (fsv_mode w))
         (set_max_depth (leading_collapsed w chain) (set_ctree_expanded f w)))
      w' (dnode :: chain).
Proof.
  intros Hu Hn Hf Hdep Hm Hok.
  destruct (colexp_begin_any dnode chain fuel w Hu Hn Hf Hm) as (f & Eb).
  exists f.
  set (wb := set_colexp_time (mode_colexp_time (fsv_mode w))
               (set_max_depth (leading_collapsed w chain) (set_ctree_expanded f w))) in *.
  apply (colexp_any_core dnode chain Hu Hn fuel w wb);
    try solve [unfold wb; simpl; auto; lia].
  rewrite Hdep. simpl. exact Eb.
Qed.

(** C5 (amended).  An EXPAND_ANY request on the directory [dnode], whose
    directory ancestors from its parent up to the root directory are [chain],
    returns; the high-water depth it leaves is the number of collapsed
    directories at the head of [chain]; every directory of
    [dnode :: chain], collapsed or not, gets a record that morphs its
    deployment to 1 over one per-level duration, the directory met at
    recursion depth [i] behind a hold of [max_depth - i] per-level durations
    when that number is positive and with no hold otherwise (so the
    requested directory starts last and the outermost collapsed ancestor at
    once); no deployment value is written and no other variable's record is
    touched. *)
Theorem expand_any_cascade (fuel dnode : nat) (chain : list nat) (w : World D) :
  under_root t dnode chain -> NODE_IS_DIR t dnode = true ->
  List.length chain + 3 <= fuel ->
  depth w = 0%Z ->
  fsv_mode w = FSV_DISCV \/ fsv_mode w = FSV_MAPV \/ fsv_mode w = FSV_TREEV ->
  queue_ok (morph_queue (anim w)) ->
  exists w',
    colexp t camera_look_at_full fuel dnode COLEXP_EXPAND_ANY w = Some w' /\
    max_depth w' = leading_collapsed w chain /\
    mem (anim w') = mem (anim w) /\
    queue_ok (morph_queue (anim w')) /\
    (forall i x, nth_error (dnode :: chain) i = Some x ->
       g_list_find_custom (morph_queue (anim w')) (VarDeployment x)
       = Some (cascade_record w x (leading_collapsed w chain - Z.of_nat i))) /\
    (forall v, (forall x, In x (dnode :: chain) -> v <> VarDeployment x) ->
       g_list_find_custom (morph_queue (anim w')) v
       = g_list_find_custom (morph_queue (anim w)) v).
Proof.
  intros Hu Hn Hf Hdep Hm Hok.
  destruct fuel as [|fuel]; [lia|].
  destruct (colexp_any_top fuel dnode chain w Hu Hn ltac:(lia) Hdep Hm Hok)
    as (f & w' & E & X).
  set (wb := set_colexp_time (mode_colexp_time (fsv_mode w))
               (set_max_depth (leading_collapsed w chain) (set_ctree_expanded f w))) in *.
  destruct X as (X1 & X2 & X3 & X4 & X5 & X6 & X7 & X8 & X9).
  exists w'. splits.
  - exact E.
  - rewrite X4. reflexivity.
  - rewrite X5. reflexivity.
  - exact X7.
  - intros i x Hi. rewrite (X8 i x Hi).
    rewrite (cascade_record_ext wb w) by reflexivity.
    do 2 f_equal. unfold wb. simpl. lia.
  - intros v Hv. rewrite (X9 v Hv). reflexivity.
Qed.

End ColexpFacts.

(** *** The cascade on a small tree *)

Lemma ex_tree_under_root : under_root ex_tree 5 [4; 3; 2; 1].
Proof.
  repeat (eapply under_directory; [reflexivity | reflexivity |]).
  eapply under_metanode; reflexivity.
Qed.

Lemma ex_worldR_leading_collapsed : leading_collapsed ex_worldR [4; 3; 2; 1] = 3%Z.
Proof.
  cbn [leading_collapsed].
  assert (E0 : forall n, n <> 1 -> DIR_COLLAPSED ex_worldR n = true).
  { intros n Hne. unfold DIR_COLLAPSED, deployment. simpl.
    destruct n as [|[|n]]; try congruence; apply Rltb_true; unfold EPSILON, d_lit; simpl; lra. }
  assert (E1 : DIR_COLLAPSED ex_worldR 1 = false).
  { unfold DIR_COLLAPSED, deployment. simpl.
    apply Rltb_false; unfold EPSILON, d_lit; simpl; lra. }
  rewrite !E0, E1 by congruence. reflexivity.
Qed.

(** C5, the claim as stated fails.  Directory 5 lies under exactly three
    collapsed directories (4, 3, 2) and the expanded root directory 1.  An
    EXPAND_ANY request on 5 also queues an expansion for the root directory,
    a fourth ancestor; and the timing is outermost first: directory 2 starts
    expanding at once (time 1000) while the requested directory 5 holds its
    value for three per-level durations and starts last. *)
Lemma expand_any_outermost_first_and_root_too :
  exists w',
    colexp ex_tree ex_camera 10 5 COLEXP_EXPAND_ANY ex_worldR = Some w' /\
    leading_collapsed ex_worldR [4; 3; 2; 1] = 3%Z /\
    g_list_find_custom (morph_queue (anim w')) (VarDeployment 1)
    = Some (expand_stage 1 1%R 1000%R (3 / 8)%R) /\
    g_list_find_custom (morph_queue (anim w')) (VarDeployment 2)
    = Some (expand_stage 2 0%R 1000%R (3 / 8)%R) /\
    g_list_find_custom (morph_queue (anim w')) (VarDeployment 5)
    = Some (mkMorph MORPH_LINEAR (VarDeployment 5) 0%R 0%R 1000%R
              (1000 + 3 * (3 / 8))%R None None 0
              (Some (expand_stage 5 0%R (1000 + 3 * (3 / 8))%R (3 / 8)%R))).
Proof.
  destruct (colexp_any_top R ex_tree ex_camera 9 5 [4; 3; 2; 1] ex_worldR
              ex_tree_under_root eq_refl ltac:(simpl; lia) eq_refl
              (or_intror (or_introl eq_refl)) ltac:(split; constructor))
    as (f & w' & E & X).
  destruct X as (_ & _ & _ & _ & _ & _ & _ & Hrec & _).
  exists w'. split; [exact E|]. split; [exact ex_worldR_leading_collapsed|].
  rewrite (Hrec 4 1 eq_refl), (Hrec 3 2 eq_refl), (Hrec 0 5 eq_refl).
  cbn [max_depth set_colexp_time set_max_depth depth set_ctree_expanded ex_worldR].
  rewrite ex_worldR_leading_collapsed.
  splits; reflexivity.
Qed.

Lemma expand_any_cascade_witness :
  exists w',
    colexp ex_tree ex_camera 10 5 COLEXP_EXPAND_ANY ex_worldR = Some w' /\
    max_depth w' = leading_collapsed ex_worldR [4; 3; 2; 1] /\
    mem (anim w') = mem (anim ex_worldR) /\
    queue_ok (morph_queue (anim w')) /\
    (forall i x, nth_error [5; 4; 3; 2; 1] i = Some x ->
       g_list_find_custom (morph_queue (anim w')) (VarDeployment x)
       = Some (cascade_record ex_worldR x
                 (leading_collapsed ex_worldR [4; 3; 2; 1] - Z.of_nat i))) /\
    (forall v, (forall x, In x [5; 4; 3; 2; 1] -> v <> VarDeployment x) ->
       g_list_find_custom (morph_queue (anim w')) v
       = g_list_find_custom (morph_queue (anim ex_worldR)) v).
Proof.
  apply (expand_any_cascade R ex_tree ex_camera 10 5 [4; 3; 2; 1] ex_worldR).
  - exact ex_tree_under_root.
  - reflexivity.
  - simpl; lia.
  - reflexivity.
  - right; left; reflexivity.
  - split; constructor.
Defined.

(** ** Initialization settles every directory *)

Section InitFacts.
Variable D : Type.
Context `{Double D} `{Libm D}.
Variable t : Tree.


Lemma calm_refl (w : World D) : queue_ok (morph_queue (anim w)) -> calm w w.
Proof. intros Hq. unfold calm. auto. Qed.

Lemma calm_trans (w1 w2 w3 : World D) : calm w1 w2 -> calm w2 w3 -> calm w1 w3.
Proof.
  intros (A1 & A2 & A3) (B1 & B2 & B3). unfold calm. splits; auto; congruence.
Qed.

(** A step that leaves the animation, the directory tree and the stale
    flags alone. *)
Lemma quiet_calm (w w' : World D) :
  queue_ok (morph_queue (anim w)) ->
  anim w' = anim w -> ctree_expanded w' = ctree_expanded w ->
  a_dlist_stale w' = a_dlist_stale w -> b_dlist_stale w' = b_dlist_stale w ->
  c_dlist_stale w' = c_dlist_stale w ->
  calm w w'.
Proof.
  intros Hq Ea Ec E1 E2 E3. unfold calm, settled, deployment, dirtree_entry_expanded.
  rewrite Ea, Ec, E1, E2, E3. auto.
Qed.

Lemma upd_true (f : nat -> bool) (x d : nat) : f d = true -> upd f x true d = true.
Proof. intros Hf. unfold upd. destruct (Nat.eqb d x); auto. Qed.

Lemma upd_same (A : Type) (f : nat -> A) (x : nat) (v : A) : upd f x v x = v.
Proof. unfold upd. now rewrite Nat.eqb_refl. Qed.

Lemma geometry_queue_rebuild_calm (x : nat) (w : World D) :
  queue_ok (morph_queue (anim w)) -> calm w (geometry_queue_rebuild x w).
Proof.
  intros Hq. unfold calm, settled, deployment, dirtree_entry_expanded. simpl.
  splits; auto. intros d (S1 & S2 & S3 & S4 & S5). splits; auto using upd_true.
Qed.

Lemma geometry_queue_rebuild_stale (x : nat) (w : World D) :
  let w' := geometry_queue_rebuild x w in
  a_dlist_stale w' x = true /\ b_dlist_stale w' x = true /\ c_dlist_stale w' x = true.
Proof. simpl. rewrite !upd_same. auto. Qed.

(** The three statements at the head of every layout engine settle the
    directory and unsettle no other. *)
Lemma reset_deployment_calm (x : nat) (w : World D) :
  queue_ok (morph_queue (anim w)) ->
  calm w (reset_deployment x w) /\ settled (reset_deployment x w) x.
Proof.
  intros Hq.
  destruct (remove_found_spec D (VarDeployment x) _ Hq) as (R1 & R2 & R3).
  assert (Hs : settled (reset_deployment x w) x).
  { unfold settled, reset_deployment, deployment, dirtree_entry_expanded, set_deployment.
    cbv zeta. simpl. rewrite !upd_same, (morph_break_queue D). simpl.
    rewrite Nat.eqb_refl. splits; auto. }
  split; [|exact Hs].
  unfold calm. splits.
  - reflexivity.
  - unfold reset_deployment, set_deployment. simpl. rewrite (morph_break_queue D).
    simpl. exact R2.
  - intros d Hd. destruct (Nat.eq_dec d x) as [->|Hne]; [exact Hs|].
    destruct Hd as (S1 & S2 & S3 & S4 & S5).
    unfold settled, reset_deployment, deployment, dirtree_entry_expanded, set_deployment
      in *.
    cbv zeta. simpl. rewrite (morph_break_queue D). simpl.
    assert (E : Nat.eqb d x = false) by (apply Nat.eqb_neq; exact Hne).
    rewrite E. splits; auto using upd_true.
    rewrite R3; [exact S1 | congruence].
Qed.



Lemma below_settled_nil (w' : World D) : below_settled t [] w'.
Proof. intros c []. Qed.

Lemma below_settled_cons (c : nat) (nodes : list nat) (w1 w2 w' : World D) :
  (if NODE_IS_DIR t c then visits t c w1 w2 else True) ->
  calm w2 w' -> below_settled t nodes w' ->
  below_settled t (c :: nodes) w'.
Proof.
  intros Hc (_ & _ & Hk) Hn c' [<-|Hin] Hd d Hb Hdd.
  - rewrite Hd in Hc. destruct Hc as (_ & Hs). apply Hk, Hs; assumption.
  - exact (Hn c' Hin Hd d Hb Hdd).
Qed.

(** Once [x] is settled and the directories below its children are, so is
    every directory at or below [x]. *)
Lemma visits_intro (x : nat) (w w1 w' : World D) :
  calm w w1 -> (NODE_IS_DIR t x = true -> settled w1 x) ->
  calm w1 w' -> below_settled t (children (t x)) w' ->
  visits t x w w'.
Proof.
  intros C1 Hx C2 Hb. split; [exact (calm_trans _ _ _ C1 C2)|].
  intros d Hd Hdir. inversion Hd as [|? c ? Hin Hc Hcd]; subst.
  - destruct C2 as (_ & _ & Hk). apply Hk, Hx, Hdir.
  - exact (Hb c Hin Hc d Hcd Hdir).
Qed.

(** One round of a loop over the children: the child [c] is given its
    geometry (a calm step to [w1]), a directory is recursed into, and the
    loop goes on as [K]. *)
Lemma loop_step (recc K : World D -> option (World D)) (c : nat) (nodes : list nat)
    (w w1 w' : World D) :
  calm w w1 ->
  (forall w2, recc w1 = Some w2 -> visits t c w1 w2) ->
  (forall w2, queue_ok (morph_queue (anim w2)) -> K w2 = Some w' ->
              calm w2 w' /\ below_settled t nodes w') ->
  match (if NODE_IS_DIR t c then recc w1 else Some w1) with
  | Some w => K w
  | None => None
  end = Some w' ->
  calm w w' /\ below_settled t (c :: nodes) w'.
Proof.
  intros C1 Hrec HK E.
  assert (Hq1 : queue_ok (morph_queue (anim w1))) by apply C1.
  destruct (NODE_IS_DIR t c) eqn:Hd.
  - destruct (recc w1) as [w2|] eqn:E2; [|discriminate].
    pose proof (Hrec w2 eq_refl) as V.
    destruct (HK w2 ltac:(apply V) E) as (C3 & B3).
    split; [exact (calm_trans _ _ _ C1 (calm_trans _ _ _ (proj1 V) C3))|].
    apply (below_settled_cons c _ w1 w2 w'); [rewrite Hd; exact V | exact C3 | exact B3].
  - destruct (HK w1 Hq1 E) as (C3 & B3).
    split; [exact (calm_trans _ _ _ C1 C3)|].
    apply (below_settled_cons c _ w1 w1 w'); [now rewrite Hd | exact C3 | exact B3].
Qed.

Lemma loop_step_returns (recc K : World D -> option (World D)) (c : nat) (w1 : World D) :
  (forall w, exists w', recc w = Some w') ->
  (forall w, exists w', K w = Some w') ->
  exists w', match (if NODE_IS_DIR t c then recc w1 else Some w1) with
             | Some w => K w
             | None => None
             end = Some w'.
Proof.
  intros Hrec HK.
  destruct (NODE_IS_DIR t c); [|apply HK].
  destruct (Hrec w1) as (w2 & ->). apply HK.
Qed.

(** *** MapV *)

Lemma mapv_assign_visits (rec : nat -> World D -> option (World D))
    (pl : list (nat * MapVGeomParams D)) :
  (forall c w w', queue_ok (morph_queue (anim w)) -> rec c w = Some w' -> visits t c w w') ->
  forall w w', queue_ok (morph_queue (anim w)) ->
    mapv_assign t rec pl w = Some w' ->
    calm w w' /\ below_settled t (map fst pl) w'.
Proof.
  intros Hrec. induction pl as [|[c g] pl IH]; intros w w' Hq E.
  - simpl in E. injection E as <-. split; [now apply calm_refl | apply below_settled_nil].
  - cbn [mapv_assign] in E. cbv zeta in E.
    set (w1 := set_mapv_geom (upd (mapv_geom w) c g) w) in *.
    assert (C1 : calm w w1) by (apply quiet_calm; auto).
    assert (Hq1 : queue_ok (morph_queue (anim w1))) by apply C1.
    destruct (NODE_IS_DIR t c) eqn:Hd.
    + destruct (rec c w1) as [w2|] eqn:E2; [|discriminate].
      pose proof (Hrec c w1 w2 Hq1 E2) as V.
      destruct (IH w2 w' ltac:(apply V) E) as (C3 & B3).
      split; [exact (calm_trans _ _ _ C1 (calm_trans _ _ _ (proj1 V) C3))|].
      cbn [map fst]. apply (below_settled_cons c _ w1 w2 w'); [rewrite Hd; exact V | exact C3 | exact B3].
    + destruct (IH w1 w' Hq1 E) as (C3 & B3).
      split; [exact (calm_trans _ _ _ C1 C3)|].
      cbn [map fst]. apply (below_settled_cons c _ w1 w1 w'); [now rewrite Hd | exact C3 | exact B3].
Qed.

Lemma mapv_init_recursive_visits (fuel : nat) :
  forall x w w', queue_ok (morph_queue (anim w)) ->
    mapv_init_recursive t fuel x w = Some w' -> visits t x w w'.
Proof.
  induction fuel as [|fuel IH]; intros x w w' Hq E; [discriminate|].
  cbn [mapv_init_recursive] in E. cbv zeta in E.
  destruct (reset_deployment_calm x w Hq) as (C1 & S1).
  set (w1 := reset_deployment x w) in *.
  assert (Hq1 : queue_ok (morph_queue (anim w1))) by apply C1.
  destruct (children (t x)) as [|c0 cs] eqn:Ec.
  - injection E as <-. apply (visits_intro x w w1 w1); auto.
    + now apply calm_refl.
    + rewrite Ec. apply below_settled_nil.
  - destruct (mapv_assign_visits _ _ IH w1 w' Hq1 E) as (C2 & B2).
    rewrite mapv_layout_nodes in B2.
    apply (visits_intro x w w1 w'); auto. now rewrite Ec.
Qed.

Lemma mapv_assign_returns (rec : nat -> World D -> option (World D))
    (pl : list (nat * MapVGeomParams D)) :
  (forall c, In c (map fst pl) -> forall w, exists w', rec c w = Some w') ->
  forall w, exists w', mapv_assign t rec pl w = Some w'.
Proof.
  induction pl as [|[c g] pl IH]; intros Hrec w; [now exists w|].
  cbn [mapv_assign]. cbv zeta.
  set (w1 := set_mapv_geom (upd (mapv_geom w) c g) w).
  assert (H1 : exists w2, (if NODE_IS_DIR t c then rec c w1 else Some w1) = Some w2).
  { destruct (NODE_IS_DIR t c); [apply Hrec; now left | now exists w1]. }
  destruct H1 as (w2 & E2). rewrite E2.
  apply IH. intros c' Hin. apply Hrec. now right.
Qed.

Lemma mapv_init_recursive_returns (fuel : nat) :
  forall x w, fits t fuel x = true -> exists w', mapv_init_recursive t fuel x w = Some w'.
Proof.
  induction fuel as [|fuel IH]; intros x w Hf; [discriminate|].
  cbn [mapv_init_recursive fits] in *. cbv zeta.
  destruct (children (t x)) as [|c0 cs] eqn:Ec; [eexists; reflexivity|].
  apply mapv_assign_returns. rewrite mapv_layout_nodes.
  intros c Hin w1. apply IH. rewrite forallb_forall in Hf. now apply Hf.
Qed.

(** *** DiscV *)

Lemma g_list_insert_sorted_in (cmp : nat -> nat -> comparison) (x c : nat) (l : list nat) :
  In c (g_list_insert_sorted cmp x l) <-> c = x \/ In c l.
Proof.
  induction l as [|y l IH]; simpl.
  - intuition.
  - destruct (cmp x y); simpl; rewrite ?IH; intuition.
Qed.

Lemma g_list_sort_in (cmp : nat -> nat -> comparison) (c : nat) (l : list nat) :
  In c (g_list_sort l cmp) <-> In c l.
Proof.
  unfold g_list_sort. induction l as [|y l IH]; simpl; [tauto|].
  rewrite g_list_insert_sorted_in, IH. intuition.
Qed.

Lemma discv_assign_radii_quiet (dir_radius : D) (nodes : list nat) :
  forall total w,
    let w' := fst (discv_assign_radii t dir_radius nodes total w) in
    anim w' = anim w /\ ctree_expanded w' = ctree_expanded w /\
    a_dlist_stale w' = a_dlist_stale w /\ b_dlist_stale w' = b_dlist_stale w /\
    c_dlist_stale w' = c_dlist_stale w.
Proof.
  induction nodes as [|n nodes IH]; intros total w; [simpl; auto 10|].
  cbn [discv_assign_radii]. cbv zeta.
  match goal with |- context [discv_assign_radii t dir_radius nodes ?a ?b] =>
    destruct (IH a b) as (A1 & A2 & A3 & A4 & A5) end.
  rewrite A1, A2, A3, A4, A5. simpl. auto 10.
Qed.

Lemma discv_assign_angles_visits (rec : nat -> D -> World D -> option (World D))
    (k : D) (stagger : bool) (nodes : list nat) :
  (forall c th w w', queue_ok (morph_queue (anim w)) -> rec c th w = Some w' ->
                     visits t c w w') ->
  forall first theta0 theta1 even out w w',
    queue_ok (morph_queue (anim w)) ->
    discv_assign_angles t rec k stagger nodes first theta0 theta1 even out w = Some w' ->
    calm w w' /\ below_settled t nodes w'.
Proof.
  intros Hrec. induction nodes as [|c nodes IH];
    intros first theta0 theta1 even out w w' Hq E.
  - simpl in E. injection E as <-. split; [now apply calm_refl | apply below_settled_nil].
  - cbn [discv_assign_angles] in E.
    destruct first; [|destruct even]; cbv beta iota zeta in E;
      (match type of E with context [if NODE_IS_DIR t c then rec c ?a ?b else _] =>
         refine (loop_step (rec c a) _ c nodes w b w' _ _ _ E) end;
       [ apply quiet_calm; auto
       | intros w2 E2; refine (Hrec _ _ _ _ _ E2); simpl; exact Hq
       | intros w2 Hq2 E2; exact (IH _ _ _ _ _ w2 w' Hq2 E2) ]).
Qed.

Lemma below_settled_incl (l1 l2 : list nat) (w' : World D) :
  (forall c, In c l2 -> In c l1) -> below_settled t l1 w' -> below_settled t l2 w'.
Proof. intros Hi Hb c Hin. apply Hb, Hi, Hin. Qed.

Lemma discv_init_recursive_visits (fuel : nat) :
  forall x th w w', queue_ok (morph_queue (anim w)) ->
    discv_init_recursive t fuel x th w = Some w' -> visits t x w w'.
Proof.
  induction fuel as [|fuel IH]; intros x th w w' Hq E; [discriminate|].
  cbn [discv_init_recursive] in E. cbv zeta in E.
  set (w1 := if NODE_IS_DIR t x then reset_deployment x w else w) in *.
  assert (C1 : calm w w1 /\ (NODE_IS_DIR t x = true -> settled w1 x)).
  { unfold w1. destruct (NODE_IS_DIR t x).
    - destruct (reset_deployment_calm x w Hq). auto.
    - split; [now apply calm_refl | discriminate]. }
  destruct C1 as (C1 & S1).
  assert (Hq1 : queue_ok (morph_queue (anim w1))) by apply C1.
  destruct (children (t x)) as [|c0 cs] eqn:Ec.
  - injection E as <-. apply (visits_intro x w w1 w1); auto.
    + now apply calm_refl.
    + rewrite Ec. apply below_settled_nil.
  - pose proof (discv_assign_radii_quiet (radius (discv_geom w1 x)) (c0 :: cs) d0 w1) as Q.
    destruct (discv_assign_radii t (radius (discv_geom w1 x)) (c0 :: cs) d0 w1)
      as [w2 total] eqn:Er.
    cbn [fst] in Q. destruct Q as (Q1 & Q2 & Q3 & Q4 & Q5).
    assert (C2 : calm w1 w2) by (apply quiet_calm; auto).
    destruct (discv_assign_angles_visits _ _ _ _ IH _ _ _ _ _ w2 w'
                ltac:(apply C2) E) as (C3 & B3).
    apply (visits_intro x w w1 w'); auto.
    + exact (calm_trans _ _ _ C2 C3).
    + rewrite Ec. apply (below_settled_incl _ _ w' ) with (2 := B3).
      intros c Hin. apply g_list_sort_in, in_rev. rewrite rev_involutive. exact Hin.
Qed.

Lemma discv_assign_angles_returns (rec : nat -> D -> World D -> option (World D))
    (k : D) (stagger : bool) (nodes : list nat) :
  (forall c, In c nodes -> forall th w, exists w', rec c th w = Some w') ->
  forall first theta0 theta1 even out w,
    exists w', discv_assign_angles t rec k stagger nodes first theta0 theta1 even out w
               = Some w'.
Proof.
  induction nodes as [|c nodes IH]; intros Hrec first theta0 theta1 even out w;
    [now exists w|].
  cbn [discv_assign_angles].
  destruct first; [|destruct even]; cbv beta iota zeta;
    (match goal with |- context [if NODE_IS_DIR t c then rec c ?a ?b else _] =>
       assert (H1 : exists w2, (if NODE_IS_DIR t c then rec c a b else Some b) = Some w2)
         by (destruct (NODE_IS_DIR t c); [apply Hrec; now left | now eexists]) end;
     destruct H1 as (w2 & E2); rewrite E2;
     apply IH; intros c' Hin; apply Hrec; now right).
Qed.

Lemma discv_init_recursive_returns (fuel : nat) :
  forall x th w, fits t fuel x = true ->
    exists w', discv_init_recursive t fuel x th w = Some w'.
Proof.
  induction fuel as [|fuel IH]; intros x th w Hf; [discriminate|].
  cbn [discv_init_recursive fits] in *. cbv zeta.
  destruct (children (t x)) as [|c0 cs] eqn:Ec; [eexists; reflexivity|].
  destruct (discv_assign_radii t _ (c0 :: cs) d0 _) as [w2 total].
  apply discv_assign_angles_returns.
  intros c Hin th' w1. apply IH. rewrite forallb_forall in Hf. apply Hf.
  apply g_list_sort_in in Hin. apply in_rev. exact Hin.
Qed.

(** *** TreeV *)

Lemma treev_init_children_visits (rec : nat -> World D -> option (World D))
    (nodes : list nat) :
  (forall c w w', queue_ok (morph_queue (anim w)) -> rec c w = Some w' -> visits t c w w') ->
  forall w w', queue_ok (morph_queue (anim w)) ->
    treev_init_children t rec nodes w = Some w' ->
    calm w w' /\ below_settled t nodes w'.
Proof.
  intros Hrec. induction nodes as [|c nodes IH]; intros w w' Hq E.
  - simpl in E. injection E as <-. split; [now apply calm_refl | apply below_settled_nil].
  - cbn [treev_init_children] in E. cbv zeta in E.
    destruct (NODE_IS_DIR t c) eqn:Hd.
    + match type of E with context [rec c ?b] => set (w1 := b) in * end.
      assert (C1 : calm w w1) by (apply quiet_calm; auto).
      destruct (rec c w1) as [w2|] eqn:E2; [|discriminate].
      pose proof (Hrec c w1 w2 ltac:(apply C1) E2) as V.
      match type of E with treev_init_children t rec nodes ?b = _ => set (w3 := b) in * end.
      assert (C3 : calm w2 w3) by (apply quiet_calm; auto; apply V).
      destruct (IH w3 w' ltac:(apply C3) E) as (C4 & B4).
      split.
      * exact (calm_trans _ _ _ C1 (calm_trans _ _ _ (proj1 V)
                 (calm_trans _ _ _ C3 C4))).
      * apply (below_settled_cons c _ w1 w2 w');
          [rewrite Hd; exact V | exact (calm_trans _ _ _ C3 C4) | exact B4].
    + match type of E with treev_init_children t rec nodes ?b = _ => set (w3 := b) in * end.
      assert (C3 : calm w w3) by (apply quiet_calm; auto).
      destruct (IH w3 w' ltac:(apply C3) E) as (C4 & B4).
      split; [exact (calm_trans _ _ _ C3 C4)|].
      apply (below_settled_cons c _ w w w'); [now rewrite Hd | | exact B4].
      exact (calm_trans _ _ _ C3 C4).
Qed.

Lemma treev_init_recursive_visits (fuel : nat) :
  forall x w w', queue_ok (morph_queue (anim w)) ->
    treev_init_recursive t fuel x w = Some w' -> visits t x w w'.
Proof.
  induction fuel as [|fuel IH]; intros x w w' Hq E; [discriminate|].
  cbn [treev_init_recursive] in E. cbv zeta in E.
  set (w1 := if NODE_IS_DIR t x then reset_deployment x w else w) in *.
  assert (C1 : calm w w1 /\ (NODE_IS_DIR t x = true -> settled w1 x)).
  { unfold w1. destruct (NODE_IS_DIR t x).
    - destruct (reset_deployment_calm x w Hq). auto.
    - split; [now apply calm_refl | discriminate]. }
  destruct C1 as (C1 & S1).
  match type of E with treev_init_children t _ _ ?b = _ => set (w2 := b) in * end.
  assert (C2 : calm w1 w2) by (apply quiet_calm; auto; apply C1).
  destruct (treev_init_children_visits _ _ IH w2 w' ltac:(apply C2) E) as (C3 & B3).
  apply (visits_intro x w w2 w');
    [exact (calm_trans _ _ _ C1 C2) | intros Hd; apply C2, S1, Hd | exact C3 | exact B3].
Qed.

Lemma treev_reshape_platform_calm (x : nat) (r0 : D) (w : World D) :
  queue_ok (morph_queue (anim w)) -> calm w (treev_reshape_platform t x r0 w).
Proof.
  intros Hq. unfold treev_reshape_platform. cbv zeta.
  match goal with |- calm w (geometry_queue_rebuild x ?b) => set (w1 := b) end.
  assert (C1 : calm w w1) by (apply quiet_calm; auto).
  apply (calm_trans _ _ _ C1). apply geometry_queue_rebuild_calm, C1.
Qed.

Lemma treev_arrange_subdirs_calm (rec : nat -> World D -> option (World D))
    (nodes : list nat) :
  (forall c w w', queue_ok (morph_queue (anim w)) -> rec c w = Some w' -> calm w w') ->
  forall acc w w' acc', queue_ok (morph_queue (anim w)) ->
    treev_arrange_subdirs t rec nodes acc w = Some (w', acc') -> calm w w'.
Proof.
  intros Hrec. induction nodes as [|c nodes IH]; intros acc w w' acc' Hq E.
  - simpl in E. injection E as <- _. now apply calm_refl.
  - cbn [treev_arrange_subdirs] in E. cbv zeta in E.
    destruct (negb (NODE_IS_DIR t c)); [injection E as <- _; now apply calm_refl|].
    destruct (rec c w) as [w1|] eqn:E1; [|discriminate].
    pose proof (Hrec c w w1 Hq E1) as C1.
    match type of E with treev_arrange_subdirs t rec nodes _ ?b = _ => set (w2 := b) in * end.
    assert (C2 : calm w1 w2) by (apply quiet_calm; auto; apply C1).
    exact (calm_trans _ _ _ C1 (calm_trans _ _ _ C2 (IH _ _ _ _ ltac:(apply C2) E))).
Qed.

Lemma treev_spread_subdirs_calm (nodes : list nat) :
  forall th w, queue_ok (morph_queue (anim w)) ->
    calm w (treev_spread_subdirs t nodes th w).
Proof.
  induction nodes as [|c nodes IH]; intros th w Hq; [now apply calm_refl|].
  cbn [treev_spread_subdirs]. cbv zeta.
  destruct (negb (NODE_IS_DIR t c)); [now apply calm_refl|].
  match goal with |- calm w (treev_spread_subdirs t nodes _ ?b) => set (w1 := b) end.
  assert (C1 : calm w w1) by (apply quiet_calm; auto).
  exact (calm_trans _ _ _ C1 (IH _ w1 ltac:(apply C1))).
Qed.

Lemma treev_arrange_recursive_calm (fuel : nat) :
  forall x r0 reshape w w', queue_ok (morph_queue (anim w)) ->
    treev_arrange_recursive t fuel x r0 reshape w = Some w' -> calm w w'.
Proof.
  induction fuel as [|fuel IH]; intros x r0 reshape w w' Hq E; [discriminate|].
  cbn [treev_arrange_recursive] in E. cbv zeta in E.
  destruct (negb reshape && (Z.land (node_flags w x) TREEV_NEED_REARRANGE =? 0)%Z);
    [injection E as <-; now apply calm_refl|].
  assert (Hshape : forall w1,
            match treev_arrange_subdirs t
                    (fun node w => treev_arrange_recursive t fuel node
                       (r0 + platform_depth (treev_geom w1 x)
                        + TREEV_PLATFORM_SPACING_DEPTH)%D reshape w)
                    (children (t x)) d0 w1 with
            | Some (w, subtree_arc_width) =>
                let w := upd_treev x (with_platform_subtree_arc_width subtree_arc_width) w in
                let w := treev_spread_subdirs t (children (t x))
                           (- d_lit 1 2 * subtree_arc_width)%D w in
                Some (set_node_flags
                        (upd (node_flags w) x
                           (Z.land (node_flags w x) (Z.lnot TREEV_NEED_REARRANGE))) w)
            | None => None
            end = Some w' ->
            queue_ok (morph_queue (anim w1)) -> calm w1 w').
  { intros w1 E1 Hq1.
    destruct (treev_arrange_subdirs t _ (children (t x)) d0 w1) as [[w2 acc]|] eqn:E2;
      [|discriminate].
    apply treev_arrange_subdirs_calm in E2; auto;
      [|intros c wa wb Hqa Ea; exact (IH _ _ _ _ _ Hqa Ea)].
    cbv zeta in E1. injection E1 as <-.
    apply (calm_trans _ _ _ E2).
    set (w3 := upd_treev x (with_platform_subtree_arc_width acc) w2).
    assert (C3 : calm w2 w3) by (apply quiet_calm; auto; apply E2).
    apply (calm_trans _ _ _ C3).
    pose proof (treev_spread_subdirs_calm (children (t x)) (- d_lit 1 2 * acc)%D w3
                  ltac:(apply C3)) as C4.
    apply (calm_trans _ _ _ C4). apply quiet_calm; auto. apply C4. }
  destruct (reshape && NODE_IS_DIR t x).
  - destruct (geometry_treev_is_leaf t w x).
    + injection E as <-. now apply geometry_queue_rebuild_calm.
    + pose proof (treev_reshape_platform_calm x r0 w Hq) as C1.
      apply (calm_trans _ _ _ C1). apply Hshape; [exact E | apply C1].
  - apply Hshape; assumption.
Qed.

(** What treev_arrange( ) needs of the camera: its two calls are calm (they
    break and queue morphs of the camera's own variables). *)
Variable fstree : nat.
Variable camera_pan_break : World D -> World D.
Variable camera_look_at_full : nat -> MorphType -> D -> World D -> World D.
Hypothesis camera_pan_break_calm :
  forall w, queue_ok (morph_queue (anim w)) -> calm w (camera_pan_break w).
Hypothesis camera_look_at_full_calm :
  forall n ty tm w, queue_ok (morph_queue (anim w)) ->
    calm w (camera_look_at_full n ty tm w).

Lemma treev_arrange_loop_calm (n fuel : nat) :
  forall resized w w' r, queue_ok (morph_queue (anim w)) ->
    treev_arrange_loop t fstree n fuel resized w = Some (w', r) -> calm w w'.
Proof.
  induction n as [|n IH]; intros resized w w' r Hq E; [discriminate|].
  cbn [treev_arrange_loop] in E. cbv zeta in E.
  assert (Hgo : forall x,
            match treev_arrange_recursive t fuel fstree
                    (treev_core_radius (set_treev_core_radius x w)) true
                    (set_treev_core_radius x w) with
            | Some w => treev_arrange_loop t fstree n fuel true w
            | None => None
            end = Some (w', r) -> calm w w').
  { intros x E1.
    assert (C1 : calm w (set_treev_core_radius x w)) by (apply quiet_calm; auto).
    destruct (treev_arrange_recursive t fuel fstree _ true (set_treev_core_radius x w))
      as [w2|] eqn:E2; [|discriminate].
    apply treev_arrange_recursive_calm in E2; [|apply C1].
    exact (calm_trans _ _ _ C1 (calm_trans _ _ _ E2 (IH _ _ _ _ ltac:(apply E2) E1))). }
  destruct (d_lt _ _).
  - exact (Hgo _ E).
  - destruct (d_lt _ _ && d_lt _ _).
    + exact (Hgo _ E).
    + injection E as <- _. now apply calm_refl.
Qed.

Lemma treev_arrange_calm (fuel : nat) (initial : bool) (w w' : World D) :
  queue_ok (morph_queue (anim w)) ->
  treev_arrange t fstree camera_pan_break camera_look_at_full fuel initial w = Some w' ->
  calm w w'.
Proof.
  intros Hq E. unfold treev_arrange in E.
  destruct (treev_arrange_recursive t fuel fstree _ initial w) as [w1|] eqn:E1;
    [|discriminate].
  apply treev_arrange_recursive_calm in E1; [|exact Hq].
  destruct (treev_arrange_loop t fstree fuel fuel false w1) as [[w2 r]|] eqn:E2;
    [|discriminate].
  apply treev_arrange_loop_calm in E2; [|apply E1].
  apply (calm_trans _ _ _ E1), (calm_trans _ _ _ E2).
  destruct (r && camera_currently_moving w2); injection E as <-.
  - pose proof (camera_pan_break_calm w2 ltac:(apply E2)) as C3.
    apply (calm_trans _ _ _ C3). apply camera_look_at_full_calm, C3.
  - apply calm_refl, E2.
Qed.

(** *** color.c *)

Lemma color_assign_children_calm (rec : nat -> World D -> option (World D))
    (nodes : list nat) :
  (forall c w w', queue_ok (morph_queue (anim w)) -> rec c w = Some w' -> calm w w') ->
  forall w w', queue_ok (morph_queue (anim w)) ->
    color_assign_children t rec nodes w = Some w' -> calm w w'.
Proof.
  intros Hrec. induction nodes as [|c nodes IH]; intros w w' Hq E.
  - simpl in E. injection E as <-. now apply calm_refl.
  - cbn [color_assign_children] in E.
    destruct (NODE_IS_DIR t c).
    + destruct (rec c w) as [w1|] eqn:E1; [|discriminate].
      pose proof (Hrec c w w1 Hq E1) as C1.
      exact (calm_trans _ _ _ C1 (IH _ _ ltac:(apply C1) E)).
    + exact (IH _ _ Hq E).
Qed.

Lemma color_assign_recursive_calm (fuel : nat) :
  forall x w w', queue_ok (morph_queue (anim w)) ->
    color_assign_recursive t fuel x w = Some w' -> calm w w'.
Proof.
  induction fuel as [|fuel IH]; intros x w w' Hq E; [discriminate|].
  cbn [color_assign_recursive] in E. cbv zeta in E.
  pose proof (geometry_queue_rebuild_calm x w Hq) as C1.
  apply (calm_trans _ _ _ C1).
  exact (color_assign_children_calm _ _ IH _ _ ltac:(apply C1) E).
Qed.

Lemma color_assign_children_returns (rec : nat -> World D -> option (World D))
    (nodes : list nat) :
  (forall c, In c nodes -> forall w, exists w', rec c w = Some w') ->
  forall w, exists w', color_assign_children t rec nodes w = Some w'.
Proof.
  induction nodes as [|c nodes IH]; intros Hrec w; [now exists w|].
  cbn [color_assign_children].
  apply loop_step_returns.
  - apply Hrec. now left.
  - apply IH. intros c' Hin. apply Hrec. now right.
Qed.

Lemma color_assign_recursive_returns (fuel : nat) :
  forall x (w : World D), fits t fuel x = true ->
    exists w', color_assign_recursive t fuel x w = Some w'.
Proof.
  induction fuel as [|fuel IH]; intros x w Hf; [discriminate|].
  cbn [color_assign_recursive fits] in *. cbv zeta.
  apply color_assign_children_returns.
  intros c Hin w1. apply IH. rewrite forallb_forall in Hf. now apply Hf.
Qed.

Lemma fits_S (n : nat) : forall x, fits t n x = true -> fits t (S n) x = true.
Proof.
  induction n as [|n IH]; intros x Hf; [discriminate|].
  cbn [fits] in *. rewrite forallb_forall in *. intros c Hin. apply IH, Hf, Hin.
Qed.

(** *** geometry_init( ) *)

Lemma mode_init_visits (fuel : nat) (mode : FsvMode) (root : nat) (w w' : World D) :
  queue_ok (morph_queue (anim w)) ->
  NODE_IS_DIR t fstree = false -> children (t fstree) = [root] ->
  match mode with
  | FSV_DISCV => discv_init t fstree fuel w
  | FSV_MAPV => mapv_init t fstree fuel w
  | FSV_TREEV => treev_init t fstree camera_pan_break camera_look_at_full fuel w
  | _ => None
  end = Some w' ->
  visits t fstree w w'.
Proof.
  intros Hq Hm Hc E. destruct mode; try discriminate.
  - (* DiscV *)
    unfold discv_init in E. cbv zeta in E.
    match type of E with context [discv_init_recursive t fuel fstree _ ?b] =>
      set (w1 := b) in * end.
    assert (C1 : calm w w1) by (apply quiet_calm; auto).
    destruct (discv_init_recursive t fuel fstree _ w1) as [w2|] eqn:E2; [|discriminate].
    apply discv_init_recursive_visits in E2; [|apply C1].
    rewrite Hc in E. injection E as <-. destruct E2 as (C2 & B2).
    match goal with |- visits t fstree w ?b => set (w3 := b) end.
    assert (C3 : calm w2 w3) by (apply quiet_calm; auto; apply C2).
    split; [exact (calm_trans _ _ _ C1 (calm_trans _ _ _ C2 C3))|].
    intros d Hd Hdir. apply C3, B2; assumption.
  - (* MapV *)
    unfold mapv_init in E. rewrite Hc in E. cbv zeta in E.
    match type of E with mapv_init_recursive t fuel root ?b = _ => set (w1 := b) in * end.
    assert (C1 : calm w w1).
    { unfold w1. eapply calm_trans; apply quiet_calm; auto. }
    apply mapv_init_recursive_visits in E; [|apply C1]. destruct E as (C2 & B2).
    split; [exact (calm_trans _ _ _ C1 C2)|].
    intros d Hd Hdir. inversion Hd as [|? c ? Hin Hcd Hb]; subst.
    + congruence.
    + rewrite Hc in Hin. destruct Hin as [<-|[]]. apply B2; assumption.
  - (* TreeV *)
    unfold treev_init in E. rewrite Hc in E. cbv zeta in E.
    match type of E with context [treev_init_recursive t fuel fstree ?b] =>
      set (w1 := b) in * end.
    assert (C1 : calm w w1).
    { unfold w1. eapply calm_trans; [eapply calm_trans|]; apply quiet_calm; auto. }
    destruct (treev_init_recursive t fuel fstree w1) as [w2|] eqn:E2; [|discriminate].
    apply treev_init_recursive_visits in E2; [|apply C1]. destruct E2 as (C2 & B2).
    apply treev_arrange_calm in E; [|apply C2].
    split; [exact (calm_trans _ _ _ C1 (calm_trans _ _ _ C2 E))|].
    intros d Hd Hdir. apply E, B2; assumption.
Qed.

(** Whenever geometry_init( ) returns, in any of the three modes, every
    directory of the tree is settled, and the directory tree itself is as
    it was.  In DiscV and MapV mode geometry_init( ) returns for every
    tree within the fuel. *)
Lemma geometry_init_run (fuel : nat) (mode : FsvMode) (root : nat) (w : World D) :
  queue_ok (morph_queue (anim w)) ->
  NODE_IS_DIR t fstree = false -> children (t fstree) = [root] ->
  (forall w',
     geometry_init t fstree camera_pan_break camera_look_at_full fuel mode w = Some w' ->
     ctree_expanded w' = ctree_expanded w /\
     forall d, dir_below t fstree d -> NODE_IS_DIR t d = true -> settled w' d) /\
  (fits t fuel fstree = true -> mode = FSV_DISCV \/ mode = FSV_MAPV ->
   exists w',
     geometry_init t fstree camera_pan_break camera_look_at_full fuel mode w = Some w').
Proof.
  intros Hq Hm Hc. unfold geometry_init. cbv zeta.
  set (w1 := geometry_queue_rebuild fstree (set_deployment fstree d1 w)).
  assert (Hq1 : queue_ok (morph_queue (anim w1))) by exact Hq.
  split.
  - intros w' E.
    match type of E with match ?m with _ => _ end = _ => destruct m as [w2|] eqn:E2 end;
      [|discriminate].
    apply (mode_init_visits fuel mode root w1 w2 Hq1 Hm Hc) in E2.
    destruct E2 as (C2 & B2).
    apply color_assign_recursive_calm in E; [|apply C2].
    split.
    + destruct E as (-> & _). destruct C2 as (-> & _). reflexivity.
    + intros d Hd Hdir. apply E, B2; assumption.
  - intros Hf Hmode.
    assert (Hroot : fits t fuel root = true).
    { destruct fuel as [|fuel]; [discriminate|]. apply fits_S.
      cbn [fits] in Hf. rewrite Hc in Hf. simpl in Hf.
      now rewrite andb_true_r in Hf. }
    assert (E2 : exists w2,
               match mode with
               | FSV_DISCV => discv_init t fstree fuel w1
               | FSV_MAPV => mapv_init t fstree fuel w1
               | FSV_TREEV =>
                   treev_init t fstree camera_pan_break camera_look_at_full fuel w1
               | _ => None
               end = Some w2).
    { destruct Hmode as [-> | ->].
      - unfold discv_init. cbv zeta.
        match goal with |- context [discv_init_recursive t fuel fstree ?a ?b] =>
          destruct (discv_init_recursive_returns fuel fstree a b Hf) as (w2 & ->) end.
        rewrite Hc. eexists; reflexivity.
      - unfold mapv_init. rewrite Hc. cbv zeta.
        apply mapv_init_recursive_returns, Hroot. }
    destruct E2 as (w2 & ->).
    apply color_assign_recursive_returns, Hf.
Qed.

End InitFacts.


(** ** TreeV: the shape of a platform, on the reals *)

Section TreeVShape.

Local Open Scope R_scope.

Ltac on_reals :=
  unfold d_lit, d0, d1, d2, SQR in *;
  cbn [d_of_Z d_add d_sub d_mul d_div d_opp d_sqrt d_lt d_le d_PI real
       d_cos d_sin d_asin d_atan2 d_cbrt d_hypot d_fmod d_ceil real_libm] in *.

(** *** The C math library *)

Lemma cos_3a (x : R) : cos (3 * x) = 4 * (cos x * cos x * cos x) - 3 * cos x.
Proof.
  replace (3 * x) with (2 * x + x) by ring.
  rewrite cos_plus, cos_2a_cos, sin_2a.
  pose proof (sin2_cos2 x) as E. unfold Rsqr in E.
  replace (2 * sin x * cos x * sin x) with (2 * cos x * (sin x * sin x)) by ring.
  replace (sin x * sin x) with (1 - cos x * cos x) by lra. ring.
Qed.

Lemma sqrt_sum_sqr (x y : R) :
  x <> 0 -> sqrt (x * x + y * y) = Rabs x * sqrt (1 + (y / x)²).
Proof.
  intros Hx.
  replace (x * x + y * y) with ((x * x) * (1 + (y / x)²)) by (unfold Rsqr; field; exact Hx).
  rewrite sqrt_mult_alt by nra.
  f_equal. replace (x * x) with (Rsqr x) by reflexivity. apply sqrt_Rsqr_abs.
Qed.

Lemma sqrt_1_sqr_pos (z : R) : 0 < sqrt (1 + z²).
Proof. apply sqrt_lt_R0. pose proof (Rle_0_sqr z). lra. Qed.

(** atan2( ) returns an angle whose cosine is [x / hypot(x, y)]. *)
Lemma cos_R_atan2 (y x : R) :
  0 < x * x + y * y -> cos (R_atan2 y x) = x / sqrt (x * x + y * y).
Proof.
  intros Hp. unfold R_atan2.
  pose proof (sqrt_1_sqr_pos (y / x)) as Hq.
  destruct (Rlt_dec 0 x) as [Hx|Hx].
  - rewrite cos_atan, sqrt_sum_sqr, Rabs_pos_eq by lra. field. lra.
  - destruct (Rlt_dec x 0) as [Hx'|Hx'].
    + rewrite sqrt_sum_sqr, Rabs_left by lra.
      destruct (Rle_dec 0 y).
      * rewrite neg_cos, cos_atan. field. lra.
      * rewrite cos_minus, cos_PI, sin_PI, cos_atan. field. lra.
    + assert (x = 0) by lra. subst x.
      destruct (Rlt_dec 0 y); [rewrite cos_PI2; lra|].
      destruct (Rlt_dec y 0); [|nra].
      replace (- PI / 2) with (- (PI / 2)) by lra. rewrite cos_neg, cos_PI2. lra.
Qed.

(** For [y >= 0] that angle lies between 0 and pi. *)
Lemma R_atan2_range (y x : R) :
  0 <= y -> 0 < x * x + y * y -> 0 <= R_atan2 y x <= PI.
Proof.
  intros Hy Hp. unfold R_atan2. pose proof PI_RGT_0 as Hpi.
  destruct (Rlt_dec 0 x) as [Hx|Hx].
  - pose proof (atan_bound (y / x)) as Hb.
    assert (0 <= atan (y / x)).
    { destruct (Req_dec y 0) as [->|Hne].
      - unfold Rdiv. rewrite Rmult_0_l, atan_0. lra.
      - rewrite <- atan_0. left. apply atan_increasing.
        apply Rdiv_lt_0_compat; lra. }
    lra.
  - destruct (Rlt_dec x 0) as [Hx'|Hx'].
    + destruct (Rle_dec 0 y); [|lra].
      pose proof (atan_bound (y / x)) as Hb.
      assert (atan (y / x) <= 0).
      { destruct (Req_dec y 0) as [->|Hne].
        - unfold Rdiv. rewrite Rmult_0_l, atan_0. lra.
        - rewrite <- atan_0. left. apply atan_increasing.
          assert (0 < y / - x) by (apply Rdiv_lt_0_compat; lra).
          replace (y / x) with (- (y / - x)) by (field; lra). lra. }
      lra.
    + assert (x = 0) by lra. subst x.
      destruct (Rlt_dec 0 y); [lra|]. nra.
Qed.

Lemma R_cbrt_cube (s : R) : 0 < s -> R_cbrt (s * s * s) = s.
Proof.
  intros Hs. unfold R_cbrt.
  assert (H3 : 0 < s * s * s) by (repeat apply Rmult_lt_0_compat; exact Hs).
  destruct (Rlt_dec 0 (s * s * s)); [|contradiction].
  rewrite <- !Rpower_mult_distr by (try apply Rmult_lt_0_compat; exact Hs).
  rewrite <- !Rpower_plus. replace (/ 3 + / 3 + / 3) with 1 by lra.
  apply Rpower_1, Hs.
Qed.

Lemma R_hypot_cube (ka kb s : R) :
  0 < s -> ka * ka + kb * kb = (s * s) * (s * s) * (s * s) -> R_hypot ka kb = s * s * s.
Proof.
  intros Hs E. unfold R_hypot. rewrite E.
  replace (s * s * (s * s) * (s * s)) with ((s * s * s) * (s * s * s)) by ring.
  apply sqrt_square. repeat apply Rmult_le_pos; lra.
Qed.

(** fmod( ) by a positive [y] stays below [y]. *)
Lemma R_fmod_lt (x y : R) : 0 < y -> R_fmod x y < y.
Proof.
  intros Hy. unfold R_fmod, R_trunc.
  set (q := x / y). assert (Ex : x = q * y) by (unfold q; field; lra).
  destruct (Rle_dec 0 q).
  - destruct (base_Int_part q) as (B1 & B2). rewrite Ex. nra.
  - destruct (base_Int_part (- q)) as (B1 & B2). rewrite opp_IZR, Ex. nra.
Qed.

Lemma R_ceil_ge (x : R) : x <= R_ceil x.
Proof.
  unfold R_ceil. destruct (base_Int_part (- x)) as (B1 & B2). rewrite opp_IZR. lra.
Qed.

(** *** The root of the cubic *)

(** The closed form is the positive root of the cubic: with
    [S = 16*r^2 - 8*w*r + 4*w^2 + 24*A + 12*w] the two constants [ka] and
    [kb] satisfy [ka^2 + kb^2 = S^3], so that [kd = sqrt S], and
    [y = 3*d + w + 2*r] is [sqrt S * cos (phi / 3)] with
    [cos phi = ka / sqrt S ^ 3]. *)
Lemma treev_cubic_solution_root (A r : R) :
  0 < A -> 8192 <= r ->
  let d := treev_cubic_solution A r in
  0 < d /\
  d * d * d + (2 * r + 512) * (d * d) + (2 * 512 * r - 2 * A - 512) * d - 2 * A * r = 0.
Proof.
  intros HA Hr. unfold treev_cubic_solution, TREEV_PLATFORM_SPACING_WIDTH.
  cbv zeta. on_reals.
  match goal with |- context [R_atan2 (12 * sqrt ?t) ?k] => set (T := t); set (ka := k) end.
  set (kb := 12 * sqrt T).
  set (kc := cos (R_atan2 kb ka / 3)).
  set (kd := R_cbrt (R_hypot ka kb)).
  set (u := r - 8192). assert (Hu : 0 <= u) by (unfold u; lra).
  assert (ET : T = 53175903716549314215936 + 26384267267058696192 * u
                   + 4908748190515200 * u * u + 405861826560 * u * u * u
                   + 12582912 * u * u * u * u + 799256985502482432 * A
                   + 397991029506048 * A * u + 74321104896 * A * u * u
                   + 6168576 * A * u * u * u + 192 * A * u * u * u * u
                   + 10371538944 * A * A + 2543616 * A * A * u + 156 * A * A * u * u
                   + 96 * A * A * A) by (unfold T, u; ring).
  assert (HT : 0 <= T).
  { rewrite ET. assert (HA' : 0 <= A) by lra.
    repeat apply Rplus_le_le_0_compat; repeat apply Rmult_le_pos; try assumption; lra. }
  assert (Hkb : 0 <= kb) by (unfold kb; pose proof (sqrt_pos T); lra).
  assert (Hkb2 : kb * kb = 144 * T).
  { unfold kb. replace (12 * sqrt T * (12 * sqrt T)) with (144 * (sqrt T * sqrt T)) by ring.
    now rewrite sqrt_sqrt. }
  set (S := 16 * (r * r) - 4096 * r + 1054720 + 24 * A).
  assert (HS : 0 < S) by (unfold S; nra).
  assert (Hsum : ka * ka + kb * kb = S * S * S) by (rewrite Hkb2; unfold ka, T, S; ring).
  set (s := sqrt S).
  assert (Hs : 0 < s) by (apply sqrt_lt_R0, HS).
  assert (Hss : s * s = S) by (apply sqrt_sqrt; lra).
  assert (Hhyp : R_hypot ka kb = s * s * s).
  { apply R_hypot_cube; [exact Hs|]. rewrite Hsum, Hss. ring. }
  assert (Hkd : kd = s) by (unfold kd; rewrite Hhyp; apply R_cbrt_cube, Hs).
  assert (Hpos : 0 < ka * ka + kb * kb).
  { rewrite Hsum. repeat apply Rmult_lt_0_compat; exact HS. }
  pose proof (cos_R_atan2 kb ka Hpos) as Hcos.
  destruct (R_atan2_range kb ka Hkb Hpos) as (Hphi0 & Hphi1).
  set (phi := R_atan2 kb ka) in *.
  assert (Hkc : 1 / 2 <= kc).
  { unfold kc. rewrite <- cos_PI3. pose proof PI_RGT_0.
    apply cos_decr_1; lra. }
  assert (H3 : 4 * (kc * kc * kc) - 3 * kc = ka / (s * s * s)).
  { unfold kc. rewrite <- cos_3a. replace (3 * (phi / 3)) with phi by lra.
    rewrite Hcos. unfold R_hypot in Hhyp. now rewrite Hhyp. }
  set (y := kc * s).
  assert (Hy : 4 * (y * y * y) - 3 * S * y = ka).
  { unfold y. rewrite <- Hss.
    replace (4 * (kc * s * (kc * s) * (kc * s)) - 3 * (s * s) * (kc * s))
      with ((4 * (kc * kc * kc) - 3 * kc) * (s * s * s)) by ring.
    rewrite H3. field. lra. }
  assert (Hd : (- (512) - 2 * r) / 3
               + ((8 * (r * r) - 4 * 512 * r + 2 * (512 * 512)) / 3 + 4 * A + 2 * 512)
                 * kc / kd
               + kc * kd / 6
               = (y - (512 + 2 * r)) / 3).
  { rewrite Hkd.
    replace ((8 * (r * r) - 4 * 512 * r + 2 * (512 * 512)) / 3 + 4 * A + 2 * 512)
      with (s * s / 6) by (rewrite Hss; unfold S; field).
    unfold y. field. lra. }
  rewrite Hd. clear Hd.
  assert (Hy_half : s / 2 <= y) by (unfold y; nra).
  assert (Hg0 : 4 * ((512 + 2 * r) * (512 + 2 * r) * (512 + 2 * r))
                - 3 * S * (512 + 2 * r) - ka = - 216 * A * r) by (unfold ka, S; ring).
  assert (Hgt : 512 + 2 * r < y).
  { destruct (Rlt_dec (512 + 2 * r) y) as [|Hn]; [assumption|exfalso].
    set (y0 := 512 + 2 * r) in *.
    assert (Hle : y <= y0) by lra.
    assert (Hq : 0 <= 4 * (y0 * y0 + y0 * y + y * y) - 3 * S).
    { rewrite <- Hss. nra. }
    assert (Hprod : 0 <= (y0 - y) * (4 * (y0 * y0 + y0 * y + y * y) - 3 * S))
      by (apply Rmult_le_pos; lra).
    assert (HAr : 0 < A * r) by (apply Rmult_lt_0_compat; lra).
    replace ((y0 - y) * (4 * (y0 * y0 + y0 * y + y * y) - 3 * S))
      with ((4 * (y0 * y0 * y0) - 3 * S * y0) - (4 * (y * y * y) - 3 * S * y))
      in Hprod by ring.
    lra. }
  split; [lra|].
  set (dd := (y - (512 + 2 * r)) / 3).
  assert (Ey : y = 3 * dd + 512 + 2 * r) by (unfold dd; field).
  assert (E108 : 108 * (dd * dd * dd + (2 * r + 512) * (dd * dd)
                        + (2 * 512 * r - 2 * A - 512) * dd - 2 * A * r)
                 = 4 * (y * y * y) - 3 * S * y - ka)
    by (rewrite Ey; unfold ka, S; ring).
  lra.
Qed.

(** *** The platform *)

Lemma MAX_ge_l (a b : R) : a <= MAX a b.
Proof.
  unfold MAX. on_reals. destruct (Rltb b a) eqn:E; [lra|].
  apply Rltb_false in E. exact E.
Qed.

Lemma treev_platform_shape_ok (n : Z) (r0 : R) :
  8192 <= r0 ->
  let sh := treev_platform_shape n r0 in
  0 < shape_area sh /\
  0 < shape_d sh /\
  shape_d sh * shape_d sh * shape_d sh + (2 * r0 + 512) * (shape_d sh * shape_d sh)
  + (2 * 512 * r0 - 2 * shape_area sh - 512) * shape_d sh - 2 * shape_area sh * r0 = 0 /\
  shape_d sh + 128 < shape_depth sh /\
  shape_min_arc_width sh = 180 * (2 * 256 + 512) / d_PI / r0 /\
  shape_min_arc_width sh <= shape_arc_width sh /\
  shape_theta sh = 180 * (shape_d sh + 512) / (d_PI * (r0 + shape_d sh)) /\
  d_PI * shape_theta sh * (r0 + shape_d sh) / 180 - 512 = shape_d sh.
Proof.
  intros Hr. unfold treev_platform_shape. cbv zeta.
  cbn [shape_area shape_d shape_theta shape_depth shape_min_arc_width shape_arc_width].
  set (k := (d_lit 3 2 * TREEV_LEAF_NODE_EDGE
             * d_ceil (d_sqrt (d_of_Z (Z.max 1 n))) + d_lit 1 2 * TREEV_LEAF_NODE_EDGE)%D).
  assert (Hk : 0 < k).
  { unfold k, TREEV_LEAF_NODE_EDGE. on_reals.
    pose proof (R_ceil_ge (sqrt (IZR (Z.max 1 n)))) as Hc.
    pose proof (sqrt_pos (IZR (Z.max 1 n))) as Hs. nra. }
  assert (HA : 0 < SQR k) by (unfold SQR; on_reals; nra).
  destruct (treev_cubic_solution_root (SQR k) r0 HA Hr) as (Hd & Hcubic).
  set (d := treev_cubic_solution (SQR k) r0) in *.
  unfold TREEV_LEAF_NODE_EDGE, TREEV_PLATFORM_SPACING_WIDTH.
  assert (Hpi : 0 < (d_PI : R)) by (on_reals; lra).
  splits.
  - exact HA.
  - exact Hd.
  - exact Hcubic.
  - on_reals.
    pose proof (R_fmod_lt (d - 1 / 2 * 256) (3 / 2 * 256) ltac:(lra)). lra.
  - on_reals. reflexivity.
  - apply MAX_ge_l.
  - on_reals. reflexivity.
  - on_reals. field. lra.
Qed.

(** C7.  In exact arithmetic, for an inner radius [r0 >= 8192],
    treev_reshape_platform( ) works from a positive estimated area [A];
    the depth [d] it computes is a positive root of
    [d^3 + (2*r0 + w)*d^2 + (2*w*r0 - 2*A - w)*d - 2*A*r0 = 0]; the arc
    width [theta] computed with it is [180*(d + w)/(PI*(r0 + d))], that is,
    the length of the outer edge less the spacing width equals [d]; the
    depth assigned is above [d + 128], hence positive; and the arc width
    assigned is at least
    [(180 * (2*TREEV_LEAF_NODE_EDGE + TREEV_PLATFORM_SPACING_WIDTH) / PI) / r0]. *)
Theorem treev_reshape_platform_shape (t : Tree) (dnode : nat) (r0 : R) (w : World R) :
  8192 <= r0 ->
  let sh := treev_platform_shape (Z.of_nat (List.length (children (t dnode)))) r0 in
  let g := treev_geom (treev_reshape_platform t dnode r0 w) dnode in
  let A := shape_area sh in
  let d := shape_d sh in
  0 < A /\ 0 < d /\
  d * d * d + (2 * r0 + 512) * (d * d) + (2 * 512 * r0 - 2 * A - 512) * d - 2 * A * r0 = 0 /\
  shape_theta sh = 180 * (d + 512) / (d_PI * (r0 + d)) /\
  d_PI * shape_theta sh * (r0 + d) / 180 - 512 = d /\
  platform_depth g = shape_depth sh /\ d + 128 < platform_depth g /\
  0 < platform_depth g /\
  platform_arc_width g = MAX (shape_min_arc_width sh) (shape_theta sh) /\
  shape_min_arc_width sh = 180 * (2 * 256 + 512) / d_PI / r0 /\
  shape_min_arc_width sh <= platform_arc_width g.
Proof.
  intros Hr sh g A d.
  destruct (treev_platform_shape_ok (Z.of_nat (List.length (children (t dnode)))) r0 Hr)
    as (P1 & P2 & P3 & P4 & P5 & P6 & P7 & P8).
  fold sh in P1, P2, P3, P4, P5, P6, P7, P8. fold A in P1, P3. fold d in P2, P3, P4, P7, P8.
  assert (Eg : platform_depth g = shape_depth sh /\ platform_arc_width g = shape_arc_width sh).
  { unfold g, treev_reshape_platform. cbv zeta. simpl. unfold upd.
    rewrite Nat.eqb_refl. simpl. split; reflexivity. }
  destruct Eg as (Eg1 & Eg2). rewrite Eg1, Eg2.
  splits; auto; lra.
Qed.

End TreeVShape.

Lemma treev_reshape_platform_shape_witness :
  let sh := treev_platform_shape (Z.of_nat (List.length (children (ex_tree 5)))) 8192%R in
  let g := treev_geom (treev_reshape_platform ex_tree 5 8192%R ex_worldR) 5 in
  let A := shape_area sh in
  let d := shape_d sh in
  (0 < A /\ 0 < d /\
   d * d * d + (2 * 8192 + 512) * (d * d) + (2 * 512 * 8192 - 2 * A - 512) * d
   - 2 * A * 8192 = 0 /\
   shape_theta sh = 180 * (d + 512) / (d_PI * (8192 + d)) /\
   d_PI * shape_theta sh * (8192 + d) / 180 - 512 = d /\
   platform_depth g = shape_depth sh /\ d + 128 < platform_depth g /\
   0 < platform_depth g /\
   platform_arc_width g = MAX (shape_min_arc_width sh) (shape_theta sh) /\
   shape_min_arc_width sh = 180 * (2 * 256 + 512) / d_PI / 8192 /\
   shape_min_arc_width sh <= platform_arc_width g)%R.
Proof.
  apply (treev_reshape_platform_shape ex_tree 5 8192%R ex_worldR). lra.
Defined.

(** ** animation.c: what the morph interface keeps *)

Section MorphQueueInvariant.
Variable D : Type.
Context `{Double D} `{Libm D}.
Variable C : Client D.

Lemma schedule_event_queue (cb : EventCb) (d : Data) (n : Z) (s : State D) :
  morph_queue (schedule_event cb d n s) = morph_queue s.
Proof. unfold schedule_event. cbv zeta. simpl. destruct (animation_active s); reflexivity. Qed.

Lemma run_morph_cb_queue (cb : MorphCb) (m : Morph D) (s : State D) :
  morph_queue (run_morph_cb C cb m s) = morph_queue s.
Proof. destruct (run_morph_cb_morph_view C cb m s) as (_ & A & _). exact A. Qed.

Lemma stage_end_queue (m : Morph D) (s : State D) :
  morph_queue (stage_end C m s) = morph_queue s.
Proof.
  unfold stage_end. cbv zeta. destruct (end_cb m); [rewrite run_morph_cb_queue|]; reflexivity.
Qed.

Lemma stage_step_queue (x : D) (m : Morph D) (s : State D) :
  morph_queue (stage_step C x m s) = morph_queue s.
Proof.
  unfold stage_step. cbv zeta. destruct (step_cb m); [rewrite run_morph_cb_queue|]; reflexivity.
Qed.

(** One link of the loop: the queue the callbacks see is not touched, and
    the record left in the link is a later stage of the same record. *)
Lemma morph_link_keeps (t_now : D) (m : Morph D) :
  chain_on (var m) m ->
  forall s s' r, morph_link C t_now m s = (s', r) ->
    morph_queue s' = morph_queue s /\
    match r with
    | Some m' => var m' = var m /\ chain_on (var m') m'
    | None => True
    end.
Proof.
  induction m as [m Hm | m m' Hm IH] using (@Morph_chain_ind D); intros Hc s s' r;
    rewrite (morph_link_stage C), Hm.
  - destruct (t_now >=? t_end m)%D; intros [= <- <-].
    + split; [apply stage_end_queue | exact I].
    + split; [apply stage_step_queue | split; [reflexivity | exact Hc]].
  - destruct (t_now >=? t_end m)%D.
    + intros E. pose proof (chain_on_next Hm Hc) as Hc'.
      pose proof (chain_on_head Hc') as Hv.
      rewrite <- Hv in Hc'. destruct (IH Hc' _ _ _ E) as (A & B).
      split; [rewrite A; apply stage_end_queue|].
      destruct r as [m2|]; [|exact I]. destruct B as (B1 & B2).
      split; [congruence | exact B2].
    + intros [= <- <-].
      split; [apply stage_step_queue | split; [reflexivity | exact Hc]].
Qed.

Lemma morph_loop_keeps (t_now : D) (l : list (Morph D)) :
  Forall (fun m => chain_on (var m) m) l ->
  forall s s' q, morph_loop C t_now l s = (s', q) ->
    morph_queue s' = morph_queue s /\
    Forall (fun m => chain_on (var m) m) q /\
    (forall v, In v (map (@var D) q) -> In v (map (@var D) l)) /\
    (NoDup (map (@var D) l) -> NoDup (map (@var D) q)).
Proof.
  induction 1 as [|m l Hm _ IH]; intros s s' q E.
  - simpl in E. injection E as <- <-. splits; auto.
  - rewrite (morph_loop_cons C) in E.
    destruct (morph_link C t_now m s) as [s1 r] eqn:E1.
    destruct (morph_loop C t_now l s1) as [s2 q2] eqn:E2.
    injection E as <- <-.
    destruct (morph_link_keeps t_now m Hm _ _ _ E1) as (A1 & A2).
    destruct (IH _ _ _ E2) as (B1 & B2 & B3 & B4).
    destruct r as [m'|].
    + destruct A2 as (A2 & A3). splits.
      * congruence.
      * constructor; assumption.
      * intros v [<-|Hin]; [left; symmetry; exact A2 | right; apply B3, Hin].
      * intros Hnd. simpl in *. inversion Hnd as [|? ? Hnotin Hnd']; subst.
        constructor; [|apply B4, Hnd'].
        rewrite A2. intros Hin. apply Hnotin, B3, Hin.
    + splits.
      * congruence.
      * exact B2.
      * intros v Hin. right. apply B3, Hin.
      * intros Hnd. simpl in Hnd. inversion Hnd; subst. apply B4. assumption.
Qed.

Lemma morph_iteration_keeps (s : State D) :
  queue_ok (morph_queue s) -> queue_ok (morph_queue (fst (morph_iteration C s))).
Proof.
  intros (Hnd & Hch). unfold morph_iteration.
  destruct (morph_loop C (xgettime s) (morph_queue s) s) as [s1 q] eqn:E.
  destruct (morph_loop_keeps _ _ Hch _ _ _ E) as (_ & B2 & _ & B4).
  simpl. split; [apply B4, Hnd | exact B2].
Qed.

Lemma chain_on_single (m : Morph D) : next m = None -> chain_on (var m) m.
Proof.
  intros Hn. unfold chain_on. rewrite stages_eq, Hn. repeat constructor.
Qed.

Lemma chain_on_set_last_next (v : Var) (m new_morph : Morph D) :
  chain_on v m -> var new_morph = v -> next new_morph = None ->
  chain_on v (set_last_next m new_morph).
Proof.
  intros Hc Hv Hn. unfold chain_on in *.
  assert (E : map (@var D) (stages (set_last_next m new_morph))
              = map (@var D) (stages m) ++ [var new_morph]).
  { pose proof (stages_set_last_next m new_morph Hn) as S.
    apply (f_equal (map (fun x : MorphType * Var * D * D * D * D * option MorphCb
                                 * option MorphCb * Data =>
                           let '(_, u, _, _, _, _, _, _, _) := x in u))) in S.
    rewrite map_app, !map_map in S. simpl in S. exact S. }
  apply Forall_forall. intros x Hx.
  assert (Hin : In (var x) (map (@var D) (stages (set_last_next m new_morph))))
    by (apply in_map; exact Hx).
  rewrite E in Hin. apply in_app_or in Hin. destruct Hin as [Hin|[<-|[]]]; [|exact Hv].
  apply in_map_iff in Hin. destruct Hin as (y & Ey & Hy).
  rewrite Forall_forall in Hc. rewrite <- Ey. apply Hc, Hy.
Qed.

Lemma morph_full_keeps (v : Var) (ty : MorphType) (tv du : D) (scb ecb : option MorphCb)
    (d : Data) (s : State D) :
  queue_ok (morph_queue s) -> queue_ok (morph_queue (morph_full v ty tv du scb ecb d s)).
Proof.
  intros Hok. unfold morph_full. cbv zeta.
  destruct (g_list_find_custom (morph_queue s) v) as [m|] eqn:Hf.
  - destruct (find_custom_split _ _ Hf) as (l1 & l2 & Hq & Hv & _ & Hup & _).
    simpl. rewrite Hup. rewrite Hq in Hok.
    destruct (queue_ok_split l1 l2 m Hok) as (_ & _ & Hcm).
    destruct Hok as (Hnd & Hch). split.
    + rewrite map_app in *. simpl in *. rewrite var_set_last_next. exact Hnd.
    + apply Forall_app in Hch. destruct Hch as (Hc1 & Hc2).
      inversion Hc2 as [|? ? _ Hc2']; subst.
      apply Forall_app. split; [exact Hc1|]. constructor; [|exact Hc2'].
      rewrite var_set_last_next. apply chain_on_set_last_next; auto.
  - apply find_custom_none in Hf. destruct Hok as (Hnd & Hch).
    assert (E : forall q (s0 : State D),
              morph_queue (set_morph_queue q (if animation_active s then s0 else redraw s0))
              = q) by (intros; reflexivity).
    simpl. split.
    + assert (Hq : morph_queue (if animation_active s then s else redraw s) = morph_queue s)
        by (destruct (animation_active s); reflexivity).
      rewrite Hq. simpl. constructor; [|exact Hnd].
      intros Hin. apply in_map_iff in Hin. destruct Hin as (x & Ex & Hx).
      rewrite Forall_forall in Hf. exact (Hf x Hx Ex).
    + assert (Hq : morph_queue (if animation_active s then s else redraw s) = morph_queue s)
        by (destruct (animation_active s); reflexivity).
      rewrite Hq. constructor; [|exact Hch]. apply chain_on_single. reflexivity.
Qed.

Lemma chain_on_set_t_end (v : Var) (te : D) (m : Morph D) :
  chain_on v m -> chain_on v (set_t_end te m).
Proof.
  unfold chain_on. rewrite (stages_eq m), (stages_eq (set_t_end te m)). simpl.
  intros Hc. apply Forall_cons_iff in Hc. destruct Hc as (Hv & Hrest).
  constructor; [exact Hv | exact Hrest].
Qed.

Lemma morph_finish_keeps (v : Var) (s : State D) :
  queue_ok (morph_queue s) -> queue_ok (morph_queue (morph_finish v s)).
Proof.
  intros Hok. unfold morph_finish.
  destruct (g_list_find_custom (morph_queue s) v) as [m|] eqn:Hf; [|exact Hok].
  destruct (find_custom_split _ _ Hf) as (l1 & l2 & Hq & Hv & _ & Hup & _).
  simpl. rewrite Hup. rewrite Hq in Hok. destruct Hok as (Hnd & Hch). split.
  - rewrite map_app in *. simpl in *. exact Hnd.
  - apply Forall_app in Hch. destruct Hch as (Hc1 & Hc2).
    inversion Hc2 as [|? ? Hcm Hc2']; subst.
    apply Forall_app. split; [exact Hc1|]. constructor; [|exact Hc2'].
    simpl. apply chain_on_set_t_end, Hcm.
Qed.

Lemma morph_break_keeps (v : Var) (s : State D) :
  queue_ok (morph_queue s) -> queue_ok (morph_queue (morph_break v s)).
Proof.
  intros Hok. rewrite (morph_break_queue D). simpl.
  apply (remove_found_spec D v _ Hok).
Qed.

Lemma api_call_keeps (c : ApiCall D) (s : State D) :
  queue_ok (morph_queue s) -> queue_ok (morph_queue (api_call c s)).
Proof.
  intros Hok. destruct c; cbn [api_call]; unfold morph.
  - now rewrite schedule_event_queue.
  - now apply morph_full_keeps.
  - now apply morph_full_keeps.
  - now apply morph_finish_keeps.
  - now apply morph_break_keeps.
Qed.

Lemma run_event_cb_keeps (p : nat) (cb : EventCb) (d : Data) (s : State D) :
  queue_ok (morph_queue s) -> queue_ok (morph_queue (run_event_cb C p cb d s)).
Proof.
  intros Hok. unfold run_event_cb.
  assert (H1 : queue_ok (morph_queue (log (FiredEvent D p cb d) s))) by exact Hok.
  revert H1. generalize (log (FiredEvent D p cb d) s) as s0.
  induction (event_code C cb d) as [|c l IH]; intros s0 Hs0; simpl; [exact Hs0|].
  apply IH, api_call_keeps, Hs0.
Qed.

Lemma sched_loop_queue_ok (fuel : nat) :
  forall c s b r, queue_ok (morph_queue s) ->
    sched_loop C fuel c s b = Some r ->
    queue_ok (morph_queue (fst r)).
Proof.
  induction fuel as [|fuel IH]; intros c s b r Hok E.
  - destruct c; [discriminate|]. injection E as <-. exact Hok.
  - destruct c as [p|]; [|injection E as <-; exact Hok].
    cbn [sched_loop] in E.
    destruct (link_data p (schevent_queue s)) as [e|]; [|discriminate].
    cbv zeta in E.
    destruct (int_wrap (nframes e - 1) <=? 0)%Z.
    + eapply IH; [|exact E].
      cbn [morph_queue set_schevent_queue]. apply run_event_cb_keeps. exact Hok.
    + eapply IH; [|exact E]. exact Hok.
Qed.

Lemma do_op_keeps (op : Op D) (s : State D) :
  queue_ok (morph_queue s) -> queue_ok (morph_queue (do_op C op s)).
Proof.
  intros Hok. destruct op; cbn [do_op].
  - unfold scheduled_event_iteration.
    destruct (sched_loop C (List.length (schevent_queue s))
                (first_link (schevent_queue s)) s false) as [[s' b]|] eqn:E;
      [|exact Hok].
    exact (sched_loop_queue_ok _ _ _ _ _ Hok E).
  - now apply morph_iteration_keeps.
  - now apply api_call_keeps.
  - exact Hok.
Qed.

(** X1.  Whatever is done through the interface of animation.c (morphs
    started, chained, finished or broken, events scheduled, by other
    modules or from the callbacks of events), and however often the
    scheduler ticks or the morphs are iterated, the morph queue keeps one
    record per variable, every stage of a record being on the record's
    variable. *)
Theorem morph_queue_invariant (ops : list (Op D)) (s : State D) :
  queue_ok (morph_queue s) -> queue_ok (morph_queue (run C ops s)).
Proof.
  revert s. induction ops as [|op ops IH]; intros s Hok; [exact Hok|].
  simpl. apply IH, do_op_keeps, Hok.
Qed.

End MorphQueueInvariant.

Section MorphStages.
Variable D : Type.
Context `{Double D} `{Libm D}.
Variable C : Client D.

Lemma stage_step_self (x : D) (m : Morph D) (s : State D) :
  let s' := stage_step C x m s in
  mem s' (var m) = x /\
  morph_queue s' = morph_queue s /\
  count_end (var m) (trace s') = count_end (var m) (trace s) /\
  count_step (var m) (trace s')
    = count_step (var m) (trace s) + (match step_cb m with Some _ => 1 | None => 0 end).
Proof.
  unfold stage_step. destruct (step_cb m) as [cb|]; cbv zeta.
  - destruct (run_morph_cb_morph_view C cb m (log (FiredStep cb m) (store (var m) x s)))
      as (A1 & A2 & _ & A4 & A5).
    rewrite A1, A2, A4, A5. simpl. rewrite !Var_eqb_refl. repeat split; lia.
  - simpl. rewrite Var_eqb_refl. repeat split; lia.
Qed.

Lemma stage_end_count (v : Var) (m : Morph D) (s : State D) :
  var m = v ->
  count_end v (trace (stage_end C m s))
  = count_end v (trace s) + (if with_end_cb m then 1 else 0).
Proof.
  intros <-. destruct (stage_end_self C m s) as (_ & _ & A & _).
  rewrite A. unfold with_end_cb. destruct (end_cb m); reflexivity.
Qed.

(** X3.  A record all of whose stages are due is completed by one pass of
    the loop: the stages are gone through first to last without waiting
    for another iteration, the variable ends at the end value of the last
    stage, every end callback there is runs once, in this pass, and the
    record leaves the queue. *)
Theorem morph_link_all_due (t_now : D) (v : Var) (m : Morph D) (s : State D) :
  chain_on v m ->
  Forall (fun x => (t_now >=? t_end x)%D = true) (stages m) ->
  snd (morph_link C t_now m s) = None /\
  mem (fst (morph_link C t_now m s)) v = end_value (last_morph_stage m) /\
  count_end v (trace (fst (morph_link C t_now m s)))
  = count_end v (trace s) + List.length (filter with_end_cb (stages m)) /\
  morph_queue (fst (morph_link C t_now m s)) = morph_queue s.
Proof.
  revert s. induction m as [m Hm | m m' Hm IH] using (@Morph_chain_ind D);
    intros s Hc Hdue; pose proof (chain_on_head Hc) as Hv;
    rewrite (stages_eq m), Hm in Hdue; rewrite (stages_eq m), Hm;
    apply Forall_cons_iff in Hdue; destruct Hdue as (Hd1 & Hd2);
    rewrite (morph_link_stage C), Hd1, Hm;
    destruct (stage_end_self C m s) as (S1 & S2 & _ & _);
    pose proof (stage_end_count v m s Hv) as S3.
  - cbn [fst snd filter List.length]. rewrite Hv in S1.
    replace (last_morph_stage m) with m by (destruct m; simpl in *; subst; reflexivity).
    splits; auto. rewrite S3. destruct (with_end_cb m); simpl; lia.
  - destruct (IH (stage_end C m s) (chain_on_next Hm Hc) Hd2) as (I1 & I2 & I3 & I4).
    replace (last_morph_stage m) with (last_morph_stage m')
      by (destruct m; simpl in *; subst; reflexivity).
    splits; auto.
    + rewrite I3, S3. cbn [filter]. destruct (with_end_cb m); simpl; lia.
    + rewrite I4. exact S2.
Qed.

(** X4.  morph_break( ) undoes a morph just requested on a variable that
    was not being morphed: the state is the one before the request, but
    for the two flags redraw( ) raised if the animation was not active. *)
Theorem morph_then_break (v : Var) (ty : MorphType) (tv du : D)
    (scb ecb : option MorphCb) (d : Data) (s : State D) :
  g_list_find_custom (morph_queue s) v = None ->
  morph_break v (morph_full v ty tv du scb ecb d s)
  = if animation_active s then s else redraw s.
Proof.
  intros Hf. unfold morph_full. rewrite Hf. cbv zeta.
  unfold morph_break. cbn [morph_queue set_morph_queue g_list_find_custom].
  unfold compare_var. cbn [var]. rewrite Var_eqb_refl. cbn [negb remove_found].
  unfold compare_var. cbn [var]. rewrite Var_eqb_refl. cbn [negb].
  destruct s as [me cl sq mq aa nr np tr]. destruct aa; reflexivity.
Qed.

(** X5.  morph_finish( ) ends the stage in progress only.  When the record
    on [v] has a further stage that is not due yet, the iteration that
    follows completes the first stage (its end callback runs once) and goes
    on with the next stage at once: the record stays in the queue with
    that stage at its head, and the variable is what that stage gives at
    the time of the iteration. *)
Theorem morph_finish_chained (v : Var) (s : State D) (t : D) (m m2 : Morph D) :
  queue_ok (morph_queue s) ->
  (d0 <=? t)%D = true ->
  g_list_find_custom (morph_queue s) v = Some m ->
  next m = Some m2 ->
  (t >=? t_end m2)%D = false ->
  let s2 := fst (morph_iteration C (set_clock t (morph_finish v s))) in
  g_list_find_custom (morph_queue s2) v = Some m2 /\
  mem s2 v
  = INTERPOLATE (remap (type m2) ((t - t_start m2) / (t_end m2 - t_start m2))%D)
      (start_value m2) (end_value m2) /\
  count_end v (trace s2)
  = count_end v (trace s) + (if with_end_cb m then 1 else 0).
Proof.
  intros Hok Ht Hf Hnext Hnot.
  destruct (find_custom_split _ _ Hf) as (l1 & l2 & Hq & Hv & _ & Hup & _).
  rewrite Hq in Hok. destruct (queue_ok_split l1 l2 m Hok) as (H1 & H2 & Hcm).
  rewrite Hv in H1, H2, Hcm.
  pose proof (chain_on_next Hnext Hcm) as Hc2.
  pose proof (chain_on_head Hc2) as Hv2.
  unfold morph_finish. rewrite Hf, Hup.
  unfold morph_iteration. simpl morph_queue. unfold xgettime. simpl clock.
  rewrite (morph_loop_app C).
  match goal with |- context [morph_loop C t l1 ?s0] =>
    destruct (morph_loop C t l1 s0) as [s1 q1] eqn:E1 end.
  pose proof E1 as E1'. eapply morph_loop_others in E1'; [|exact H1].
  destruct E1' as ((A1 & A2 & A3 & A4) & A5).
  rewrite (morph_loop_cons C), (morph_link_stage C).
  simpl t_end. rewrite Ht. simpl next. rewrite Hnext.
  rewrite (morph_link_stage C), Hnot.
  match goal with |- context [morph_loop C t l2 ?s0] =>
    destruct (morph_loop C t l2 s0) as [s2 q2] eqn:E2 end.
  pose proof E2 as E2'. eapply morph_loop_others in E2'; [|exact H2].
  destruct E2' as ((B1 & B2 & B3 & B4) & B5).
  pose proof (stage_end_count v (set_t_end d0 m) s1 Hv) as S3.
  match type of E2 with morph_loop C t l2 (stage_step C ?x m2 ?s0) = _ =>
    destruct (stage_step_self x m2 s0) as (T1 & _ & T3 & _) end.
  rewrite Hv2 in T1, T3.
  cbv zeta. simpl fst. simpl morph_queue.
  splits.
  - rewrite (find_custom_app (m2 :: q2) (Forall_var_weaken A5)).
    simpl. unfold compare_var. rewrite Hv2, Var_eqb_refl. reflexivity.
  - simpl mem. rewrite B1. exact T1.
  - simpl trace. rewrite B3, T3, S3, A3. reflexivity.
Qed.

End MorphStages.

Section MorphOnReals.
Variable C : Client R.

Local Open Scope R_scope.

Lemma remap_unit (ty : MorphType) (p : R) : 0 <= p <= 1 -> 0 <= remap ty p <= 1.
Proof.
  intros Hp. destruct ty; unfold remap, SQR, d_lit, d1;
    cbn [d_of_Z d_add d_sub d_mul d_div d_cos d_PI real real_libm].
  - exact Hp.
  - nra.
  - nra.
  - pose proof (COS_bound (3.14159265358979323846 * p)). lra.
  - pose proof (COS_bound (3.14159265358979323846 * (p * p))). lra.
Qed.

(** X2.  While a stage is in progress (its start time reached, its end
    time not yet), a step of the iteration leaves the variable between the
    start value and the end value of the stage, whatever the curve: no
    curve overshoots.  In exact arithmetic. *)
Theorem morph_step_between (t_now : R) (m : Morph R) (s : State R) :
  t_start m <= t_now -> t_now < t_end m ->
  snd (morph_link C t_now m s) = Some m /\
  Rmin (start_value m) (end_value m) <= mem (fst (morph_link C t_now m s)) (var m)
    <= Rmax (start_value m) (end_value m).
Proof.
  intros H1 H2. rewrite (morph_link_stage C).
  assert (E : (t_now >=? t_end m)%D = false).
  { cbn [d_le real]. apply Rleb_false. exact H2. }
  rewrite E. cbn [fst snd]. split; [reflexivity|].
  match goal with |- context [stage_step C ?x m s] =>
    destruct (stage_step_self R C x m s) as (T1 & _) end.
  rewrite T1. cbn [d_sub d_div real].
  set (p := (t_now - t_start m) / (t_end m - t_start m)).
  assert (Hp : 0 <= p <= 1).
  { unfold p. split.
    - apply Rmult_le_pos; [lra|]. left. apply Rinv_0_lt_compat. lra.
    - apply Rmult_le_reg_r with (t_end m - t_start m); [lra|].
      unfold Rdiv. rewrite Rmult_assoc, Rinv_l; lra. }
  pose proof (remap_unit (type m) p Hp) as Hk.
  unfold INTERPOLATE. cbn [d_add d_sub d_mul real].
  unfold Rmin, Rmax. destruct (Rle_dec (start_value m) (end_value m)); nra.
Qed.

End MorphOnReals.

(** *** The properties on concrete states *)

Lemma morph_queue_invariant_witness :
  queue_ok (morph_queue
    (run ex_quiet
       [OpCall (Call_morph ex_v MORPH_LINEAR 1%R 2%R); OpClock 1001%R;
        OpMorphIteration R; OpCall (Call_morph_finish R ex_v); OpTick R] ex_initR)).
Proof.
  apply (morph_queue_invariant R ex_quiet). split; constructor.
Defined.

Lemma ex_chainR_on : chain_on ex_v ex_chainR.
Proof. unfold chain_on. simpl. repeat constructor. Qed.

Lemma morph_link_all_due_witness :
  snd (morph_link ex_quiet 1010%R ex_chainR ex_initR) = None /\
  mem (fst (morph_link ex_quiet 1010%R ex_chainR ex_initR)) ex_v = 5%R /\
  count_end ex_v (trace (fst (morph_link ex_quiet 1010%R ex_chainR ex_initR))) = 2.
Proof.
  assert (Hdue : Forall (fun x => (1010%R >=? t_end x)%D = true) (stages ex_chainR)).
  { simpl. repeat constructor; apply Rleb_true; simpl; lra. }
  destruct (morph_link_all_due R ex_quiet 1010%R ex_v ex_chainR ex_initR ex_chainR_on Hdue)
    as (A & B & E & _).
  split; [exact A | split; [exact B | exact E]].
Defined.

Lemma morph_then_break_witness :
  morph_break ex_v (morph_full ex_v MORPH_LINEAR 1%float 2%float None None 0 ex_init)
  = redraw ex_init.
Proof.
  exact (morph_then_break float ex_v MORPH_LINEAR 1%float 2%float None None 0 ex_init eq_refl).
Defined.

Lemma morph_finish_chained_witness :
  let s2 := fst (morph_iteration ex_quiet (set_clock 1001%R (morph_finish ex_v ex_chainedR))) in
  g_list_find_custom (morph_queue s2) ex_v = Some ex_stage2R /\
  count_end ex_v (trace s2) = 1.
Proof.
  assert (Hok : queue_ok (morph_queue ex_chainedR)).
  { split; simpl.
    - constructor; [simpl; tauto | constructor].
    - constructor; [exact ex_chainR_on | constructor]. }
  assert (Ht : (d0 <=? 1001%R)%D = true).
  { apply Rleb_true. unfold d0; simpl. lra. }
  assert (Hn : (1001%R >=? t_end ex_stage2R)%D = false).
  { apply Rleb_false. simpl. lra. }
  destruct (morph_finish_chained R ex_quiet ex_v ex_chainedR 1001%R ex_chainR ex_stage2R
              Hok Ht eq_refl eq_refl Hn) as (A & _ & B).
  split; [exact A | exact B].
Defined.

Lemma morph_step_between_witness :
  (0 <= mem (fst (morph_link ex_quiet 1001%R ex_chainR ex_initR)) ex_v <= 1)%R.
Proof.
  assert (H1 : (t_start ex_chainR <= 1001)%R) by (simpl; lra).
  assert (H2 : (1001 < t_end ex_chainR)%R) by (simpl; lra).
  destruct (morph_step_between ex_quiet 1001%R ex_chainR ex_initR H1 H2) as (_ & A).
  simpl start_value in A. simpl end_value in A. simpl var in A.
  rewrite Rmin_left, Rmax_right in A by lra. exact A.
Defined.

(** * animation.c: the framerate buffer *)

Section FramerateFacts.
Variable D : Type.
Context `{Double D}.
Variable junk : D.

Local Open Scope Z_scope.

Lemma firstn_S_nth (k : nat) (a : list D) (d : D) :
  (k < List.length a)%nat -> firstn (S k) a = firstn k a ++ [nth k a d].
Proof.
  revert k. induction a as [|x a IH]; intros k Hk; simpl in Hk; [lia|].
  destruct k as [|k]; [reflexivity|].
  change (firstn (S (S k)) (x :: a)) with (x :: firstn (S k) a).
  rewrite (IH k) by lia. reflexivity.
Qed.

Lemma array_get_nth (a : list D) (i : Z) :
  0 <= i < Z.of_nat (List.length a) ->
  array_get a i = Some (nth (Z.to_nat i) a junk).
Proof.
  intros Hi. unfold array_get.
  destruct (Z.leb_spec 0 i); [|lia].
  apply nth_error_nth'. lia.
Qed.

Lemma array_set_overwrite (a : list D) (i : Z) (x : D) :
  0 <= i < Z.of_nat (List.length a) ->
  array_set a i x = Some (overwrite (Z.to_nat i) x a).
Proof.
  intros Hi. unfold array_set.
  destruct (Z.leb_spec 0 i); [|lia].
  destruct (Z.ltb_spec i (Z.of_nat (List.length a))); [|lia].
  reflexivity.
Qed.

Lemma overwrite_length (i : nat) (x : D) (a : list D) :
  (i < List.length a)%nat -> List.length (overwrite i x a) = List.length a.
Proof.
  intros Hi. unfold overwrite.
  rewrite length_app, length_firstn. cbn [List.length]. rewrite length_skipn. lia.
Qed.

Lemma insert_oldest_length (i : nat) (a : list D) :
  (i < List.length a)%nat -> List.length (insert_oldest junk i a) = S (List.length a).
Proof.
  intros Hi. unfold insert_oldest.
  rewrite length_app, length_firstn. cbn [List.length]. rewrite length_skipn. lia.
Qed.

Lemma remove_oldest_length (i : nat) (a : list D) :
  (i < List.length a)%nat -> (1 < List.length a)%nat ->
  S (List.length (remove_oldest i a)) = List.length a.
Proof.
  intros Hi Hn. unfold remove_oldest.
  destruct (Nat.ltb_spec (S i) (List.length a)).
  - rewrite length_app, length_firstn, length_skipn. lia.
  - rewrite length_skipn. lia.
Qed.

Lemma RESIZE_longer (a : list D) :
  Z.of_nat (List.length a) < INT_MAX ->
  RESIZE junk a (Z.of_nat (List.length a) + 1) = Some (a ++ [junk]).
Proof.
  intros Hn. unfold RESIZE.
  destruct (Z.ltb_spec 0 (Z.of_nat (List.length a) + 1)); [|lia].
  replace (Z.to_nat (Z.of_nat (List.length a) + 1)) with (S (List.length a)) by lia.
  rewrite firstn_all2 by lia.
  replace (S (List.length a) - List.length a)%nat with 1%nat by lia.
  reflexivity.
Qed.

Lemma RESIZE_shorter (a : list D) (x : D) :
  (0 < List.length a)%nat ->
  RESIZE junk (a ++ [x]) (Z.of_nat (List.length a)) = Some a.
Proof.
  intros Hn. unfold RESIZE.
  destruct (Z.ltb_spec 0 (Z.of_nat (List.length a))); [|lia].
  rewrite Nat2Z.id, length_app. cbn [List.length].
  replace (List.length a - (List.length a + 1))%nat with 0%nat by lia.
  rewrite firstn_app, firstn_all, Nat.sub_diag. rewrite firstn_O. cbn [repeat].
  rewrite !app_nil_r. reflexivity.
Qed.

Lemma int_wrap_id (z : Z) : INT_MIN <= z <= INT_MAX -> int_wrap z = z.
Proof.
  unfold int_wrap, INT_MIN, INT_MAX. intros Hz.
  rewrite Z.mod_small by lia. lia.
Qed.

(** The growth of the buffer, spelled out. *)
Lemma frametimes_grow_spec (fi : Z) (a : list D) (sum : D) :
  0 <= fi < Z.of_nat (List.length a) ->
  Z.of_nat (List.length a) < INT_MAX ->
  frametimes_grow junk fi (a, sum, Z.of_nat (List.length a))
  = Some (if (sum <? FRAMERATE_AVERAGE_TIME)%D
          then (insert_oldest junk (Z.to_nat fi) a,
                (sum + oldest junk (Z.to_nat fi) a)%D,
                Z.of_nat (List.length a) + 1)
          else (a, sum, Z.of_nat (List.length a))).
Proof.
  intros Hf Hn. unfold frametimes_grow.
  destruct (sum <? FRAMERATE_AVERAGE_TIME)%D; [|reflexivity].
  set (n := List.length a) in *.
  assert (Hmax : INT_MAX = 2147483647) by reflexivity.
  assert (Hmin : INT_MIN = -2147483648) by reflexivity.
  rewrite (int_wrap_id (Z.of_nat n + 1)) by lia.
  rewrite RESIZE_longer by (fold n; lia).
  rewrite (int_wrap_id (Z.of_nat n + 1 - 2)) by lia.
  rewrite (int_wrap_id (fi + 1)) by lia.
  assert (Ei : Z.to_nat (fi + 1) = S (Z.to_nat fi)) by lia.
  unfold insert_oldest, oldest. fold n.
  destruct (Z.ltb_spec fi (Z.of_nat n + 1 - 2)) as [Hlt | Hge].
  - (* the elements after the current one move up by one *)
    rewrite (int_wrap_id (fi + 2)) by lia.
    rewrite (int_wrap_id (Z.of_nat n + 1 - fi)) by lia.
    rewrite (int_wrap_id (Z.of_nat n + 1 - fi - 2)) by lia.
    destruct (Nat.ltb_spec (S (Z.to_nat fi)) n) as [Hlt' | ?]; [|lia].
    unfold memmove. rewrite length_app. cbn [List.length].
    repeat match goal with
           | |- context [Z.leb ?x ?y] => destruct (Z.leb_spec x y); [|lia]
           end.
    cbn [andb].
    replace (Z.to_nat (fi + 2)) with (S (S (Z.to_nat fi))) by lia.
    replace (Z.to_nat (fi + 2 + (Z.of_nat n + 1 - fi - 2))) with (n + 1)%nat by lia.
    rewrite Ei.
    rewrite (firstn_app (S (S (Z.to_nat fi)))).
    replace (S (S (Z.to_nat fi)) - List.length a)%nat with 0%nat by (fold n; lia).
    rewrite firstn_O. rewrite app_nil_r.
    rewrite skipn_app.
    replace (S (Z.to_nat fi) - List.length a)%nat with 0%nat by (fold n; lia).
    rewrite skipn_O.
    rewrite firstn_app.
    replace (Z.to_nat (Z.of_nat n + 1 - fi - 2))
      with (List.length (skipn (S (Z.to_nat fi)) a)) by (rewrite length_skipn; fold n; lia).
    rewrite firstn_all, Nat.sub_diag. rewrite firstn_O. rewrite app_nil_r.
    rewrite (skipn_all2 (a ++ [junk])) by (rewrite length_app; cbn [List.length]; fold n; lia).
    rewrite app_nil_r.
    rewrite (firstn_S_nth (S (Z.to_nat fi)) a junk) by (fold n; lia).
    rewrite <- app_assoc. cbn [app].
    set (a' := firstn (S (Z.to_nat fi)) a ++ _).
    rewrite (array_get_nth a' (fi + 1)).
    + rewrite Ei. unfold a'.
      rewrite app_nth2; rewrite length_firstn;
        replace (Nat.min (S (Z.to_nat fi)) (List.length a)) with (S (Z.to_nat fi))
          by (fold n; lia); [|lia].
      rewrite Nat.sub_diag. reflexivity.
    + unfold a'. rewrite length_app, length_firstn. cbn [List.length].
      rewrite length_skipn. fold n. lia.
  - (* the current element is the last one: the oldest is the first *)
    assert (Efi : Z.to_nat fi = (n - 1)%nat) by lia.
    destruct (Nat.ltb_spec (S (Z.to_nat fi)) n) as [? | _]; [lia|].
    rewrite (array_get_nth (a ++ [junk]) 0)
      by (rewrite length_app; cbn [List.length]; lia).
    change (Z.to_nat 0) with 0%nat.
    rewrite app_nth1 by (fold n; lia).
    rewrite array_set_overwrite by (rewrite length_app; cbn [List.length]; fold n; lia).
    unfold overwrite. rewrite Ei, Efi.
    replace (S (n - 1)) with n by lia.
    replace (firstn n (a ++ [junk])) with a
      by (unfold n; now rewrite firstn_app, firstn_all, Nat.sub_diag, firstn_O, app_nil_r).
    replace (firstn n a) with a by (unfold n; now rewrite firstn_all).
    rewrite (skipn_all2 (a ++ [junk])) by (rewrite length_app; cbn [List.length]; fold n; lia).
    rewrite (skipn_all2 a) by (fold n; lia).
    rewrite (array_get_nth (a ++ [nth 0 a junk]) (fi + 1))
      by (rewrite length_app; cbn [List.length]; fold n; lia).
    rewrite Ei, Efi. replace (S (n - 1)) with n by lia.
    rewrite app_nth2 by (fold n; lia). fold n. rewrite Nat.sub_diag. reflexivity.
Qed.

Lemma skipn_last (a : list D) :
  (0 < List.length a)%nat -> exists x, skipn (List.length a - 1) a = [x].
Proof.
  intros Hn. pose proof (length_skipn (List.length a - 1) a) as Hl.
  destruct (skipn (List.length a - 1) a) as [|x [|y l]]; simpl in Hl; try lia.
  now exists x.
Qed.

(** The shrinking of the buffer, spelled out. *)
Lemma frametimes_shrink_spec (fi : Z) (a : list D) (sum : D) :
  0 <= fi < Z.of_nat (List.length a) ->
  Z.of_nat (List.length a) <= INT_MAX ->
  frametimes_shrink junk fi (a, sum, Z.of_nat (List.length a))
  = Some (if (sum >? FRAMERATE_AVERAGE_TIME + d1)%D && (Z.of_nat (List.length a) >? 4)
          then (remove_oldest (Z.to_nat fi) a,
                (sum - oldest junk (Z.to_nat fi) a)%D,
                Z.of_nat (List.length a) - 1)
          else (a, sum, Z.of_nat (List.length a))).
Proof.
  intros Hf Hn. unfold frametimes_shrink.
  destruct (sum >? FRAMERATE_AVERAGE_TIME + d1)%D; [|reflexivity].
  destruct (Z.gtb_spec (Z.of_nat (List.length a)) 4) as [H4 | ?]; [|reflexivity].
  cbn [andb].
  set (n := List.length a) in *.
  assert (Hmax : INT_MAX = 2147483647) by reflexivity.
  assert (Hmin : INT_MIN = -2147483648) by reflexivity.
  rewrite !(int_wrap_id (Z.of_nat n - 1)) by lia.
  assert (Ei : Z.to_nat (fi + 1) = S (Z.to_nat fi)) by lia.
  destruct (skipn_last a) as (xl & Hl); [fold n; lia|]. fold n in Hl.
  unfold remove_oldest, oldest. fold n.
  destruct (Z.ltb_spec fi (Z.of_nat n - 1)) as [Hlt | Hge].
  - (* the elements after the oldest move down by one *)
    rewrite (int_wrap_id (fi + 1)) by lia.
    rewrite (int_wrap_id (fi + 2)) by lia.
    rewrite (int_wrap_id (Z.of_nat n - fi)) by lia.
    rewrite (int_wrap_id (Z.of_nat n - fi - 2)) by lia.
    destruct (Nat.ltb_spec (S (Z.to_nat fi)) n) as [Hlt' | ?]; [|lia].
    rewrite (array_get_nth a (fi + 1)) by (fold n; lia).
    rewrite Ei.
    unfold memmove. fold n.
    repeat match goal with
           | |- context [Z.leb ?x ?y] => destruct (Z.leb_spec x y); [|lia]
           end.
    cbn [andb].
    replace (Z.to_nat (fi + 2)) with (S (S (Z.to_nat fi))) by lia.
    replace (Z.to_nat (fi + 1 + (Z.of_nat n - fi - 2))) with (n - 1)%nat by lia.
    rewrite Ei, Hl.
    replace (Z.to_nat (Z.of_nat n - fi - 2))
      with (List.length (skipn (S (S (Z.to_nat fi))) a))
      by (rewrite length_skipn; fold n; lia).
    rewrite firstn_all, app_assoc.
    set (b := firstn (S (Z.to_nat fi)) a ++ skipn (S (S (Z.to_nat fi))) a).
    assert (Hb : List.length b = (n - 1)%nat).
    { unfold b. rewrite length_app, length_firstn, length_skipn. fold n. lia. }
    replace (Z.of_nat n - 1) with (Z.of_nat (List.length b)) by lia.
    rewrite RESIZE_shorter by lia. reflexivity.
  - (* the current element is the last one: the oldest is the first *)
    destruct (Nat.ltb_spec (S (Z.to_nat fi)) n) as [? | _]; [lia|].
    rewrite (array_get_nth a 0) by (fold n; lia).
    change (Z.to_nat 0) with 0%nat.
    unfold memmove. fold n.
    repeat match goal with
           | |- context [Z.leb ?x ?y] => destruct (Z.leb_spec x y); [|lia]
           end.
    cbn [andb].
    change (Z.to_nat 0) with 0%nat. change (Z.to_nat 1) with 1%nat.
    replace (Z.to_nat (0 + (Z.of_nat n - 1))) with (n - 1)%nat by lia.
    rewrite firstn_O, Hl. cbn [app].
    replace (Z.to_nat (Z.of_nat n - 1)) with (List.length (skipn 1 a))
      by (rewrite length_skipn; fold n; lia).
    rewrite firstn_all.
    assert (Hb : List.length (skipn 1 a) = (n - 1)%nat).
    { rewrite length_skipn. fold n. lia. }
    replace (Z.of_nat n - 1) with (Z.of_nat (List.length (skipn 1 a))) at 1 by lia.
    rewrite RESIZE_shorter by lia. reflexivity.
Qed.

(** One timed frame.  [P] is what is known of the buffer and the sum
    before, [Q] after the frame time is entered and the buffer has grown,
    [R'] at the end. *)
Lemma framerate_frame_step (P Q R' : list D -> D -> Prop) (t_now : D)
    (s : FramerateStatics D) :
  let i := Z.to_nat (f s) in
  let dt := (t_now - t_prev s)%D in
  (forall a sum, (i < List.length a)%nat -> P a sum ->
     Q (overwrite i dt a) (sum - nth i a junk + dt)%D) ->
  (forall a sum, (i < List.length a)%nat -> Q a sum ->
     Q (insert_oldest junk i a) (sum + oldest junk i a)%D) ->
  (forall a sum, (i < List.length a)%nat -> (4 < List.length a)%nat -> Q a sum ->
     R' (remove_oldest i a) (sum - oldest junk i a)%D) ->
  (forall a sum, Q a sum -> R' a sum) ->
  frametimes_ok s -> num_frametimes s < INT_MAX -> (t_prev s <? d0)%D = false ->
  P (frametimes s) (sum_frametimes s) ->
  exists s', framerate_iteration junk FRAME_RENDERED t_now s = Some s' /\
    frametimes_ok s' /\ num_frametimes s' <= num_frametimes s + 1 /\
    t_prev s' = t_prev s /\ R' (frametimes s') (sum_frametimes s').
Proof.
  intros i dt Hw Hg Hs Hq (Hlen & Hf) Hmax Ht HP.
  assert (Hmax' : INT_MAX = 2147483647) by reflexivity.
  unfold framerate_iteration. rewrite Ht.
  destruct (Z.eqb_spec (num_frametimes s) 0) as [? | _]; [lia|].
  rewrite (array_get_nth (frametimes s) (f s)) by lia.
  rewrite array_set_overwrite by lia.
  fold i. fold dt.
  set (a1 := overwrite i dt (frametimes s)).
  set (sum1 := (sum_frametimes s - nth i (frametimes s) junk + dt)%D).
  assert (Hl1 : List.length a1 = List.length (frametimes s))
    by (apply overwrite_length; lia).
  assert (Q1 : Q a1 sum1) by (apply Hw; [lia | exact HP]).
  replace (num_frametimes s) with (Z.of_nat (List.length a1)) by lia.
  rewrite frametimes_grow_spec by lia.
  fold i.
  match goal with |- context [if ?c then ?x else (a1, sum1, ?z)] =>
    set (st2 := if c then x else (a1, sum1, z)) end.
  assert (H2 : exists a2 sum2, st2 = (a2, sum2, Z.of_nat (List.length a2)) /\
                 (List.length a1 <= List.length a2 <= S (List.length a1))%nat /\
                 Q a2 sum2).
  { unfold st2. destruct (sum1 <? FRAMERATE_AVERAGE_TIME)%D.
    - exists (insert_oldest junk i a1), (sum1 + oldest junk i a1)%D.
      rewrite insert_oldest_length by lia.
      splits; [f_equal; lia | lia | lia | apply Hg; [lia | exact Q1]].
    - exists a1, sum1. splits; auto. }
  destruct H2 as (a2 & sum2 & -> & Hl2 & Q2).
  rewrite frametimes_shrink_spec by lia.
  fold i.
  match goal with |- context [if ?c then ?x else (a2, sum2, ?z)] =>
    set (st3 := if c then x else (a2, sum2, z)) end.
  assert (H3 : exists a3 sum3, st3 = (a3, sum3, Z.of_nat (List.length a3)) /\
                 (List.length a3 <= List.length a2)%nat /\
                 (Z.to_nat (f s) <= List.length a3)%nat /\
                 (0 < List.length a3)%nat /\
                 R' a3 sum3).
  { unfold st3. destruct (_ && _) eqn:E.
    - apply andb_prop in E. destruct E as (_ & E).
      apply Z.gtb_lt in E.
      exists (remove_oldest i a2), (sum2 - oldest junk i a2)%D.
      pose proof (remove_oldest_length i a2 ltac:(lia) ltac:(lia)) as Hr.
      splits; [f_equal; lia | lia | lia | lia | apply Hs; [lia | lia | exact Q2]].
    - exists a2, sum2. splits; auto; lia. }
  destruct H3 as (a3 & sum3 & -> & Hl3 & Hf3 & Hp3 & R3).
  destruct (Z.eqb_spec (Z.of_nat (List.length a3)) 0) as [? | _]; [lia|].
  eexists. split; [reflexivity|].
  unfold frametimes_ok. cbn [frametimes num_frametimes f t_prev sum_frametimes].
  rewrite (int_wrap_id (f s + 1)) by (unfold INT_MIN; lia).
  pose proof (Z.rem_bound_pos (f s + 1) (Z.of_nat (List.length a3)) ltac:(lia) ltac:(lia)).
  splits; auto; lia.
Qed.

(** A run of calls from a state that is the initial one or has a buffer
    in order.  [I] is what is known of the buffer and the sum. *)
Lemma framerate_run_keeps (I : list D -> D -> Prop) :
  I [d0] d0 ->
  (forall i x a sum, (i < List.length a)%nat -> I a sum ->
     I (overwrite i x a) (sum - nth i a junk + x)%D) ->
  (forall i a sum, (i < List.length a)%nat -> I a sum ->
     I (insert_oldest junk i a) (sum + oldest junk i a)%D) ->
  (forall i a sum, (i < List.length a)%nat -> (4 < List.length a)%nat -> I a sum ->
     I (remove_oldest i a) (sum - oldest junk i a)%D) ->
  forall (calls : list (FramerateMesg * D)) (s : FramerateStatics D) (k : Z),
  (s = framerate_statics_init \/
   (frametimes_ok s /\ num_frametimes s <= k /\ I (frametimes s) (sum_frametimes s))) ->
  0 <= k -> k + Z.of_nat (List.length calls) <= INT_MAX ->
  exists s', framerate_run junk calls s = Some s' /\
    ((calls = [] /\ s' = s) \/
     (frametimes_ok s' /\ I (frametimes s') (sum_frametimes s'))).
Proof.
  intros I0 Iw Ig Is calls.
  induction calls as [|[mesg t_now] calls IH]; intros s k Hs Hk Hmax.
  - exists s. split; [reflexivity | left; auto].
  - cbn [framerate_run]. cbn [List.length] in Hmax.
    assert (Hstep : exists s1, framerate_iteration junk mesg t_now s = Some s1 /\
              frametimes_ok s1 /\ num_frametimes s1 <= k + 1 /\
              I (frametimes s1) (sum_frametimes s1)).
    { destruct Hs as [-> | (Hok & Hn & HI)].
      - eexists. split; [reflexivity|].
        unfold frametimes_ok. cbn. splits; auto; lia.
      - pose proof Hok as (Hlen & Hf).
        destruct mesg.
        + destruct (t_prev s <? d0)%D eqn:Et.
          * unfold framerate_iteration. rewrite Et.
            destruct (Z.eqb_spec (num_frametimes s) 0) as [? | _]; [lia|].
            eexists. split; [reflexivity|].
            unfold frametimes_ok. cbn. splits; auto; lia.
          * destruct (framerate_frame_step I I I t_now s) as (s1 & E & A & B & _ & C);
              auto; [lia|].
            exists s1. splits; auto; lia.
        + unfold framerate_iteration.
          destruct (Z.eqb_spec (num_frametimes s) 0) as [? | _]; [lia|].
          eexists. split; [reflexivity|].
          unfold frametimes_ok. cbn. splits; auto; lia. }
    destruct Hstep as (s1 & -> & Hok1 & Hn1 & HI1).
    destruct (IH s1 (k + 1)) as (s' & E & Hs'); [right; auto | lia | lia |].
    exists s'. split; [exact E|]. right.
    destruct Hs' as [(_ & ->) | Hs']; auto.
Qed.

(** X6.  framerate_iteration( ) stays inside its buffer.  Called any number
    of times (fewer than 2^31) from its initial state, with any messages
    and any readings of the clock, it never reads or writes outside
    [frametimes] nor takes a remainder by zero, and it leaves the buffer
    [num_frametimes] long, with at least one element and [f] an index into
    it.  For any arithmetic. *)
Theorem framerate_run_in_bounds (calls : list (FramerateMesg * D)) :
  calls <> [] -> Z.of_nat (List.length calls) <= INT_MAX ->
  exists s', framerate_run junk calls framerate_statics_init = Some s' /\
    Z.of_nat (List.length (frametimes s')) = num_frametimes s' /\
    0 <= f s' < num_frametimes s'.
Proof.
  intros Hne Hmax.
  destruct (framerate_run_keeps (fun _ _ => True)) with
    (calls := calls) (s := @framerate_statics_init D _) (k := 0)
    as (s' & E & Hs'); auto; try lia.
  exists s'. split; [exact E|].
  destruct Hs' as [(-> & _) | (Hok & _)]; [contradiction | exact Hok].
Qed.

(** X8.  Once timing has begun, a rendered frame does not move [t_prev]:
    the frame time entered in the buffer is the time since the first frame
    after the steady state, not the time since the previous frame. *)
Theorem framerate_frame_times_from_first (t_now : D) (s : FramerateStatics D) :
  frametimes_ok s -> num_frametimes s < INT_MAX -> (t_prev s <? d0)%D = false ->
  exists s', framerate_iteration junk FRAME_RENDERED t_now s = Some s' /\
    t_prev s' = t_prev s /\
    In (t_now - t_prev s)%D (frametimes s').
Proof.
  intros Hok Hmax Ht.
  set (i := Z.to_nat (f s)). set (dt := (t_now - t_prev s)%D).
  destruct (framerate_frame_step
              (fun _ _ => True)
              (fun a _ => (i < List.length a)%nat /\ nth i a junk = dt)
              (fun a _ => In dt a) t_now s)
    as (s' & E & _ & _ & A & B); auto.
  - intros a sum Hi _. fold i dt. unfold overwrite. split.
    + rewrite length_app, length_firstn. cbn [List.length]. rewrite length_skipn. lia.
    + rewrite app_nth2; rewrite length_firstn;
        replace (Nat.min i (List.length a)) with i by lia; [|lia].
      rewrite Nat.sub_diag. reflexivity.
  - intros a sum Hi (_ & Hd). fold i. split.
    + rewrite insert_oldest_length; lia.
    + unfold insert_oldest. rewrite app_nth1 by (rewrite length_firstn; lia).
      rewrite nth_firstn. destruct (Nat.ltb_spec i (S i)); [exact Hd | lia].
  - intros a sum Hi H4 (_ & Hd). fold i. unfold remove_oldest.
    destruct (Nat.ltb_spec (S i) (List.length a)).
    + apply in_or_app. left. rewrite <- Hd.
      replace (nth i a junk) with (nth i (firstn (S i) a) junk)
        by (rewrite nth_firstn; destruct (Nat.ltb_spec i (S i)); [reflexivity | lia]).
      apply nth_In. rewrite length_firstn. lia.
    + rewrite <- Hd.
      replace (nth i a junk) with (nth (i - 1) (skipn 1 a) junk).
      * apply nth_In. rewrite length_skipn. lia.
      * rewrite nth_skipn. f_equal. lia.
  - intros a sum (Hi & Hd). rewrite <- Hd. apply nth_In. exact Hi.
  - exists s'. auto.
Qed.

End FramerateFacts.

Section FramerateOnReals.
Variable junk : R.

Local Open Scope R_scope.

Lemma sigma_sum_acc (a : list R) (x : R) :
  fold_left (fun acc y => (acc + y)%D) a x = x + sigma_sum a.
Proof.
  unfold sigma_sum. revert x. induction a as [|y a IH]; intros x; cbn [fold_left].
  - unfold d0; cbn. lra.
  - rewrite (IH (x + y)%D), (IH (d0 + y)%D). unfold d0; cbn. lra.
Qed.

Lemma sigma_sum_cons (x : R) (a : list R) : sigma_sum (x :: a) = x + sigma_sum a.
Proof.
  unfold sigma_sum at 1. cbn [fold_left]. rewrite sigma_sum_acc. unfold d0; cbn. lra.
Qed.

Lemma sigma_sum_app (a b : list R) : sigma_sum (a ++ b) = sigma_sum a + sigma_sum b.
Proof.
  induction a as [|x a IH]; cbn [app].
  - unfold sigma_sum at 2. cbn [fold_left]. unfold d0; cbn. lra.
  - rewrite !sigma_sum_cons, IH. lra.
Qed.

Lemma split_at (i : nat) (a : list R) :
  (i < List.length a)%nat -> a = firstn i a ++ nth i a junk :: skipn (S i) a.
Proof.
  intros Hi. rewrite <- (firstn_skipn (S i) a) at 1.
  rewrite (firstn_S_nth R i a junk Hi), <- app_assoc. reflexivity.
Qed.

Lemma sigma_sum_overwrite (i : nat) (x : R) (a : list R) :
  (i < List.length a)%nat ->
  sigma_sum (overwrite i x a) = sigma_sum a - nth i a junk + x.
Proof.
  intros Hi. rewrite (split_at i a Hi) at 2. unfold overwrite.
  rewrite !sigma_sum_app, !sigma_sum_cons. lra.
Qed.

Lemma sigma_sum_insert_oldest (i : nat) (a : list R) :
  sigma_sum (insert_oldest junk i a) = sigma_sum a + oldest junk i a.
Proof.
  rewrite <- (firstn_skipn (S i) a) at 2. unfold insert_oldest.
  rewrite !sigma_sum_app, !sigma_sum_cons. lra.
Qed.

Lemma sigma_sum_remove_oldest (i : nat) (a : list R) :
  (0 < List.length a)%nat ->
  sigma_sum (remove_oldest i a) = sigma_sum a - oldest junk i a.
Proof.
  intros Hn. unfold remove_oldest, oldest.
  destruct (Nat.ltb_spec (S i) (List.length a)) as [Hlt | Hge].
  - rewrite (split_at (S i) a Hlt) at 3.
    rewrite !sigma_sum_app, !sigma_sum_cons. lra.
  - rewrite (split_at 0 a Hn) at 2. rewrite firstn_O. cbn [app].
    rewrite sigma_sum_cons. lra.
Qed.

(** X7.  In exact arithmetic framerate_iteration( ) keeps its books: after
    any run of calls from the initial state, [sum_frametimes] is the sum of
    the elements of the buffer, which is what the DEBUG build asserts up to
    0.001. *)
Theorem framerate_sum_is_sigma (calls : list (FramerateMesg * R)) :
  (Z.of_nat (List.length calls) <= INT_MAX)%Z ->
  exists s', framerate_run junk calls framerate_statics_init = Some s' /\
    sum_frametimes s' = sigma_sum (frametimes s').
Proof.
  intros Hmax.
  destruct (framerate_run_keeps R junk (fun a sum => sum = sigma_sum a)) with
    (calls := calls) (s := @framerate_statics_init R _) (k := 0%Z)
    as (s' & E & Hs'); auto; try lia.
  - unfold sigma_sum, d0; cbn. lra.
  - intros i x a sum Hi ->. rewrite sigma_sum_overwrite by exact Hi. reflexivity.
  - intros i a sum Hi ->. rewrite sigma_sum_insert_oldest. reflexivity.
  - intros i a sum Hi H4 ->. rewrite sigma_sum_remove_oldest by lia. reflexivity.
  - exists s'. split; [exact E|].
    destruct Hs' as [(_ & ->) | (_ & Hs')]; [|exact Hs'].
    unfold sigma_sum, d0; cbn. reflexivity.
Qed.

End FramerateOnReals.

(** *** The properties on concrete runs *)

Lemma framerate_run_in_bounds_witness :
  exists s', framerate_run 0%float ex_frames framerate_statics_init = Some s' /\
    Z.of_nat (List.length (frametimes s')) = num_frametimes s' /\
    (0 <= f s' < num_frametimes s')%Z.
Proof.
  apply (framerate_run_in_bounds float 0%float ex_frames).
  - discriminate.
  - vm_compute. discriminate.
Defined.

Lemma framerate_sum_is_sigma_witness :
  exists s', framerate_run 0%R ex_framesR framerate_statics_init = Some s' /\
    sum_frametimes s' = sigma_sum (frametimes s').
Proof.
  apply (framerate_sum_is_sigma 0%R ex_framesR).
  vm_compute. discriminate.
Defined.

Lemma framerate_frame_times_from_first_witness :
  exists s', framerate_iteration 0%float FRAME_RENDERED 3%float ex_timing = Some s' /\
    t_prev s' = 1%float /\
    In (3%float - t_prev ex_timing)%D (frametimes s').
Proof.
  apply (framerate_frame_times_from_first float 0%float 3%float ex_timing).
  - split; simpl; lia.
  - reflexivity.
  - reflexivity.
Defined.
(** * animation.c: one tick of the scheduler, on the whole queue *)

Section TickFacts.
Variable D : Type.
Context `{Double D} `{Libm D}.
Variable C : Client D.

Lemma registered_app (l1 l2 : list (EventCb * Data * Z)) :
  forall n0,
    registered n0 (l1 ++ l2) = registered (n0 + List.length l1) l2 ++ registered n0 l1.
Proof.
  induction l1 as [|[[cb d] n] l1 IH]; intros n0; cbn [registered app List.length].
  - now rewrite Nat.add_0_r, app_nil_r.
  - rewrite IH, <- app_assoc. now rewrite Nat.add_succ_r.
Qed.

Lemma registered_ptrs (l : list (EventCb * Data * Z)) :
  forall n0, Forall (fun e => n0 <= ev_ptr e) (registered n0 l).
Proof.
  induction l as [|[[cb d] n] l IH]; intros n0; cbn [registered]; [constructor|].
  apply Forall_app. split.
  - eapply Forall_impl; [|apply (IH (S n0))]. cbv beta. intros e He. lia.
  - constructor; [cbn; lia | constructor].
Qed.

(** What a call of the interface does to the scheduler's queue: what it
    registers goes in front. *)
Lemma api_call_registers (c : ApiCall D) (s : State D) :
  schevent_queue (api_call c s)
  = registered (next_ptr s) (scheduled_by [c]) ++ schevent_queue s /\
  next_ptr (api_call c s) = next_ptr s + List.length (scheduled_by [c]) /\
  fired_events (trace (api_call c s)) = fired_events (trace s).
Proof.
  destruct c as [cb d n | v ty tg du scb ecb d | v ty tg du | v | v]; cbn [api_call].
  - destruct (schedule_event_view cb d n s) as (A1 & A2 & A3).
    rewrite A1, A2, A3. cbn. splits; auto. lia.
  - unfold morph_full.
    destruct (g_list_find_custom (morph_queue s) v); [|destruct (animation_active s)];
      cbn; splits; auto.
  - unfold morph, morph_full.
    destruct (g_list_find_custom (morph_queue s) v); [|destruct (animation_active s)];
      cbn; splits; auto.
  - unfold morph_finish.
    destruct (g_list_find_custom (morph_queue s) v); cbn; splits; auto.
  - unfold morph_break.
    destruct (g_list_find_custom (morph_queue s) v); cbn; splits; auto.
Qed.

Lemma api_calls_register (l : list (ApiCall D)) :
  forall s : State D,
    schevent_queue (fold_left (fun s c => api_call c s) l s)
    = registered (next_ptr s) (scheduled_by l) ++ schevent_queue s /\
    next_ptr (fold_left (fun s c => api_call c s) l s)
    = next_ptr s + List.length (scheduled_by l) /\
    fired_events (trace (fold_left (fun s c => api_call c s) l s))
    = fired_events (trace s).
Proof.
  induction l as [|c l IH]; intros s; cbn [fold_left].
  - cbn. splits; auto.
  - destruct (api_call_registers c s) as (A1 & A2 & A3).
    destruct (IH (api_call c s)) as (B1 & B2 & B3).
    rewrite B1, B2, B3, A1, A2, A3.
    replace (scheduled_by (c :: l)) with (scheduled_by [c] ++ scheduled_by l)
      by (unfold scheduled_by; cbn [flat_map]; now rewrite app_nil_r).
    rewrite registered_app, length_app, app_assoc. splits; auto. lia.
Qed.

(** The loop of the tick, from the link of the first event of [rest] on:
    [reqs] is what was registered so far during this tick, [done] are the
    links gone through that stay. *)
Lemma sched_pass_spec (n0 : nat) (rest : list ScheduledEvent) :
  forall (reqs : list (EventCb * Data * Z)) (done : list ScheduledEvent)
         (s : State D) (ex : bool),
    schevent_queue s = registered n0 reqs ++ done ++ rest ->
    next_ptr s = n0 + List.length reqs ->
    NoDup (map ev_ptr (done ++ rest)) ->
    Forall (fun e => ev_ptr e < n0) (done ++ rest) ->
    schevent_queue (fst (sched_pass C rest s ex))
    = registered n0 (reqs ++ tick_requests C rest)
        ++ done ++ map tick_down (filter (fun e => negb (due e)) rest) /\
    next_ptr (fst (sched_pass C rest s ex))
    = n0 + List.length (reqs ++ tick_requests C rest) /\
    fired_events (trace (fst (sched_pass C rest s ex)))
    = rev (map ev_call (filter due rest)) ++ fired_events (trace s) /\
    snd (sched_pass C rest s ex) = (ex || existsb due rest).
Proof.
  induction rest as [|e rest IH]; intros reqs done s ex Hq Hn Hnd Hlt.
  - cbn. rewrite Hq, Hn, orb_false_r, !app_nil_r. splits; auto.
  - rewrite (sched_pass_cons C). unfold sched_step. cbv zeta.
    assert (Hp : ~ In (ev_ptr e) (map ev_ptr (registered n0 reqs ++ done))).
    { rewrite map_app, in_app_iff. intros [Hin | Hin].
      - apply in_map_iff in Hin. destruct Hin as (x & Hx & Hin).
        pose proof (registered_ptrs reqs n0) as Hnew.
        rewrite Forall_forall in Hnew, Hlt.
        specialize (Hnew x Hin). specialize (Hlt e ltac:(apply in_or_app; right; now left)).
        lia.
      - rewrite map_app in Hnd. apply NoDup_remove_2 in Hnd.
        apply Hnd. apply in_or_app. now left. }
    assert (Hnd' : NoDup (map ev_ptr ((done ++ [tick_down e]) ++ rest))).
    { rewrite <- app_assoc. cbn [app]. rewrite map_app in *. exact Hnd. }
    assert (Hnd'' : NoDup (map ev_ptr (done ++ rest))).
    { rewrite map_app in *. cbn [map] in Hnd. eapply NoDup_remove_1; eauto. }
    assert (Hlt' : Forall (fun x => ev_ptr x < n0) ((done ++ [tick_down e]) ++ rest)).
    { rewrite <- app_assoc. cbn [app].
      apply Forall_app in Hlt. destruct Hlt as (L1 & L2).
      apply Forall_app. split; [exact L1|].
      inversion L2; subst. constructor; auto. }
    assert (Hlt'' : Forall (fun x => ev_ptr x < n0) (done ++ rest)).
    { apply Forall_app in Hlt. destruct Hlt as (L1 & L2).
      apply Forall_app. split; [exact L1|]. now inversion L2. }
    rewrite Hq, app_assoc, (write_nframes_app _ _ _ _ e Hp eq_refl).
    fold (tick_down e).
    pose proof (eq_refl : due e = (int_wrap (nframes e - 1) <=? 0)%Z) as Ed.
    unfold tick_requests. cbn [filter existsb]. rewrite !Ed.
    destruct (int_wrap (nframes e - 1) <=? 0)%Z eqn:Edue; cbn [negb map flat_map].
    + (* the event fires and its link is removed *)
      unfold run_event_cb.
      set (calls := event_code C (event_cb e) (ev_data e)).
      set (s0 := log (FiredEvent D (ev_ptr e) (event_cb e) (ev_data e))
                   (set_schevent_queue ((registered n0 reqs ++ done) ++ tick_down e :: rest) s)).
      destruct (api_calls_register calls s0) as (A1 & A2 & A3).
      assert (En : next_ptr s0 = n0 + List.length reqs) by exact Hn.
      assert (Eq0 : schevent_queue s0 = (registered n0 reqs ++ done) ++ tick_down e :: rest)
        by reflexivity.
      assert (Et0 : fired_events (trace s0) = ev_call e :: fired_events (trace s))
        by reflexivity.
      rewrite En, Eq0 in A1. rewrite En in A2. rewrite Et0 in A3.
      assert (Enew : registered (n0 + List.length reqs) (scheduled_by calls)
                       ++ registered n0 reqs
                     = registered n0 (reqs ++ scheduled_by calls))
        by (now rewrite registered_app).
      assert (Hp2 : ~ In (ev_ptr e)
                      (map ev_ptr (registered n0 (reqs ++ scheduled_by calls) ++ done))).
      { rewrite map_app, in_app_iff. intros [Hin | Hin].
        - apply in_map_iff in Hin. destruct Hin as (x & Hx & Hin).
          pose proof (registered_ptrs (reqs ++ scheduled_by calls) n0) as Hnew.
          rewrite Forall_forall in Hnew, Hlt.
          specialize (Hnew x Hin).
          specialize (Hlt e ltac:(apply in_or_app; right; now left)). lia.
        - apply Hp. rewrite map_app. apply in_or_app. now right. }
      assert (Erm : remove_ptr (ev_ptr e)
                      (schevent_queue (fold_left (fun s c => api_call c s) calls s0))
                    = registered n0 (reqs ++ scheduled_by calls) ++ done ++ rest).
      { rewrite A1, <- (app_assoc (registered n0 reqs)), app_assoc, Enew, app_assoc.
        rewrite (remove_ptr_app (ev_ptr e) _ rest (tick_down e) Hp2 eq_refl).
        now rewrite <- app_assoc. }
      rewrite Erm.
      destruct (IH (reqs ++ scheduled_by calls) done
                  (set_schevent_queue
                     (registered n0 (reqs ++ scheduled_by calls) ++ done ++ rest)
                     (fold_left (fun s c => api_call c s) calls s0))
                  true)
        as (B1 & B2 & B3 & B4); auto.
      * cbn [next_ptr set_schevent_queue]. rewrite A2, length_app. lia.
      * fold (tick_requests C rest) in *.
        rewrite B1, B2, B3, B4.
        cbn [set_schevent_queue trace]. rewrite A3.
        cbn [rev map]. rewrite <- !app_assoc. cbn [app orb].
        rewrite orb_true_r. splits; auto.
    + (* the event stays, with its counter decremented *)
      destruct (IH reqs (done ++ [tick_down e])
                  (set_schevent_queue ((registered n0 reqs ++ done) ++ tick_down e :: rest) s) ex)
        as (B1 & B2 & B3 & B4); auto.
      * simpl. rewrite <- !app_assoc. reflexivity.
      * fold (tick_requests C rest) in *.
        rewrite B1, B2, B3, B4. rewrite <- !app_assoc. cbn [app].
        splits; auto.
Qed.

(** X9.  What one tick does to the whole queue.  The loop returns once it
    has been given a round for every event of the queue it starts on, and
    then: the events whose counter runs out have fired in the order of the
    queue, that is, the one scheduled last first; every other event of
    that queue stays, in its place, with its counter one lower; what the
    callbacks registered during the tick stands in front, each event at
    the next free address and with the counter it was registered with, the
    one registered last in front: none of them has fired or counted down.
    The tick reports TRUE exactly when it found the queue not empty. *)
Theorem tick_on_queue (s : State D) (fuel : nat) :
  ev_ok s ->
  List.length (schevent_queue s) <= fuel ->
  exists s',
    sched_loop C fuel (first_link (schevent_queue s)) s false
    = Some (s', existsb due (schevent_queue s)) /\
    scheduled_event_iteration C s
    = (s', match schevent_queue s with [] => false | _ => true end) /\
    schevent_queue s'
    = registered (next_ptr s) (tick_requests C (schevent_queue s))
        ++ map tick_down (filter (fun e => negb (due e)) (schevent_queue s)) /\
    next_ptr s' = next_ptr s + List.length (tick_requests C (schevent_queue s)) /\
    fired_events (trace s')
    = rev (map ev_call (filter due (schevent_queue s))) ++ fired_events (trace s).
Proof.
  intros Hok Hf. pose proof Hok as (Hnd & Hlt & _).
  rewrite (scheduled_event_iteration_pass D C s Hok).
  rewrite (sched_loop_returns D C s fuel Hok Hf).
  destruct (sched_pass_spec (next_ptr s) (schevent_queue s) [] [] s false)
    as (A1 & A2 & A3 & A4); auto.
  destruct (sched_pass C (schevent_queue s) s false) as [s' ex].
  cbn [fst snd app orb] in *.
  exists s'. subst ex. splits; auto.
  f_equal. rewrite A1.
  destruct (schevent_queue s) as [|e q]; [reflexivity|].
  cbn [existsb filter].
  destruct (due e); cbn [negb orb map]; [reflexivity|].
  destruct (registered _ _); cbn [app]; apply orb_true_r.
Qed.

End TickFacts.

(** *** The tick on a concrete queue *)

Lemma ex_ticking_ev_ok : ev_ok ex_ticking.
Proof.
  unfold ev_ok. simpl. splits.
  - repeat constructor; simpl; intuition discriminate.
  - repeat constructor.
  - constructor.
Qed.

Lemma tick_on_queue_witness :
  exists s',
    sched_loop ex_nesting 3 (Some 2) ex_ticking false = Some (s', true) /\
    schevent_queue s'
    = [mkScheduledEvent 3 1 1 10; mkScheduledEvent 1 2 5 11] /\
    fired_events (trace s') = [(0, 0, 10); (2, 6, 12)].
Proof.
  destruct (tick_on_queue float ex_nesting ex_ticking 3 ex_ticking_ev_ok (le_n 3))
    as (s' & A & _ & B & _ & E).
  exists s'. split; [exact A|]. split; [exact B | exact E].
Defined.

(** * geometry.c: the MapV layout tiles the top face of the directory *)

Section MapVTiling.
Variable t : Tree.

Local Open Scope R_scope.

Ltac on_reals :=
  unfold d_lit, d0, d1, d2, SQR in *;
  cbn [d_of_Z d_add d_sub d_mul d_div d_opp d_sqrt d_lt d_le real] in *.

Lemma FOP_app {A : Type} (Q : A -> A -> Prop) (l1 l2 : list A) :
  ForallOrdPairs Q l1 -> ForallOrdPairs Q l2 ->
  (forall x y, In x l1 -> In y l2 -> Q x y) ->
  ForallOrdPairs Q (l1 ++ l2).
Proof.
  intros H1 H2 H12. induction H1 as [|a l Ha Hl IH]; cbn [app]; [exact H2|].
  constructor.
  - apply Forall_app. split; [exact Ha|].
    apply Forall_forall. intros y Hy. apply H12; [now left | exact Hy].
  - apply IH. intros x y Hx Hy. apply H12; [now right | exact Hy].
Qed.

Lemma block_sum_app (l1 l2 : list (MapVBlock R)) :
  block_sum (l1 ++ l2) = block_sum l1 + block_sum l2.
Proof.
  induction l1 as [|b l1 IH]; cbn [app block_sum].
  - lra.
  - rewrite IH. lra.
Qed.

Lemma block_sum_pos (sf : R) (l : list (MapVBlock R)) :
  Forall (block_fits t sf) l -> 0 <= block_sum l.
Proof.
  induction 1 as [|b l Hb _ IH]; cbn [block_sum]; [lra|].
  unfold block_fits in Hb. lra.
Qed.

(** The border is not negative when the block has room for the node. *)
Lemma mapv_border_range (ba bdy area : R) :
  0 < bdy -> 0 < area <= ba ->
  let bdx := ba / bdy in
  let k := bdx + bdy in
  let border := 1 / 4 * (k - sqrt (k * k - 4 * (ba - area))) in
  0 < bdx /\ 0 <= border /\ 2 * border < bdx /\ 2 * border < bdy.
Proof.
  intros Hy Ha bdx k border.
  destruct (mapv_border_exact ba bdy area Hy (proj1 Ha)) as (_ & E2 & E3).
  fold bdx in E2, E3. fold k in E2, E3. fold border in E2, E3.
  assert (Hx : 0 < bdx) by (unfold bdx; apply Rdiv_lt_0_compat; lra).
  assert (Hk : 0 < k) by (unfold k; lra).
  assert (Hs : sqrt (k * k - 4 * (ba - area)) <= k).
  { apply Rle_trans with (sqrt (k * k)); [apply sqrt_le_1_alt; lra|].
    rewrite sqrt_square; lra. }
  unfold border in *. splits; lra.
Qed.

(** First pass: the total is the sum of the areas, and each block is at
    least as large as its node. *)
Lemma mapv_first_pass_areas (nb : R) (nodes : list nat) :
  0 <= nb -> sizes_ok t nodes ->
  forall total,
    snd (mapv_first_pass t nb nodes total)
    = total + block_sum (fst (mapv_first_pass t nb nodes total)) /\
    Forall (block_fits t 1) (fst (mapv_first_pass t nb nodes total)).
Proof.
  intros Hnb. induction nodes as [|n nodes IH]; intros Hok total.
  - cbn. split; [lra | constructor].
  - cbn [mapv_first_pass]. cbv zeta.
    destruct (IH (fun m Hm => Hok m (or_intror Hm))
                (total + SQR (d_sqrt (d_of_Z (mapv_block_size t n)) + nb))%D) as (I1 & I2).
    destruct (mapv_first_pass t nb nodes
                (total + SQR (d_sqrt (d_of_Z (mapv_block_size t n)) + nb))%D) as [bl tot].
    cbn [fst snd] in *. cbn [block_sum]. cbn [blk_area].
    assert (Hs : 0 < IZR (mapv_block_size t n)).
    { apply mapv_block_size_pos. apply Hok. now left. }
    pose proof (sqrt_pos (IZR (mapv_block_size t n))) as Hq.
    pose proof (sqrt_sqrt (IZR (mapv_block_size t n)) ltac:(lra)) as Hqq.
    on_reals. split; [rewrite I1; lra|].
    constructor; [|exact I2].
    unfold block_fits. cbn [blk_node blk_area]. nra.
Qed.

(** Second pass: every row holds the sum of its blocks, and the rows hold
    the scaled blocks between them. *)
Lemma mapv_second_pass_rows (dir_x sf : R) (blocks : list (MapVBlock R)) :
  0 < sf -> Forall (block_fits t 1) blocks ->
  forall row, row_acc_fits t sf row ->
    Forall (row_fits t sf) (mapv_second_pass dir_x sf blocks row) /\
    rows_sum (mapv_second_pass dir_x sf blocks row)
    = row_acc_area row + sf * block_sum blocks.
Proof.
  intros Hsf. induction blocks as [|b blocks IH]; intros Hb row Hrow.
  - destruct row as [r|]; cbn in *.
    + split; [repeat constructor; apply Hrow | lra].
    + split; [constructor | lra].
  - inversion Hb as [|? ? Hb1 Hb2]; subst.
    cbn [mapv_second_pass]. cbv zeta. cbn [blk_area blk_node row_area row_blocks].
    set (r0 := match row with Some r => r | None => mkMapVRow [] d0 end).
    assert (Hr0 : row_area r0 = block_sum (row_blocks r0) /\
                  Forall (block_fits t sf) (row_blocks r0) /\ 0 <= row_area r0 /\
                  row_area r0 = row_acc_area row).
    { unfold r0. destruct row as [r|]; cbn in *.
      - destruct Hrow as (A & B & E). splits; auto; lra.
      - on_reals. splits; auto; lra. }
    destruct Hr0 as (R1 & R2 & R3 & R4).
    set (b' := mkMapVBlock (blk_node b) (blk_area b * sf)%D).
    assert (Hb' : block_fits t sf b').
    { unfold block_fits in *. unfold b'. cbn [blk_node blk_area]. on_reals. nra. }
    set (r1 := mkMapVRow (row_blocks r0 ++ [b']) (row_area r0 + blk_area b * sf)%D).
    assert (Hr1 : row_fits t sf r1).
    { unfold row_fits, r1. cbn [row_area row_blocks]. splits.
      - rewrite block_sum_app. cbn [block_sum]. unfold b'. cbn [blk_area].
        on_reals. lra.
      - apply Forall_app. split; [exact R2 | constructor; [exact Hb' | constructor]].
      - unfold block_fits in Hb'. unfold b' in Hb'. cbn [blk_node blk_area] in Hb'.
        on_reals. lra. }
    cbn [block_sum].
    match goal with |- context [if ?c then _ else _] => destruct c end.
    + destruct (IH Hb2 None I) as (I1 & I2). split.
      * constructor; [exact Hr1 | exact I1].
      * cbn [rows_sum].
        rewrite I2. unfold r1. cbn [row_area row_acc_area]. on_reals. lra.
    + destruct (IH Hb2 (Some r1) Hr1) as (I1 & I2). split; [exact I1|].
      rewrite I2. unfold r1. cbn [row_area row_acc_area]. on_reals. lra.
Qed.

(** Fourth pass, one row: the rectangles lie side by side, from [px]
    leftwards, within the depth of the row. *)
Lemma mapv_output_row_tiles (sf bdy : R) (blocks : list (MapVBlock R)) :
  0 < bdy -> Forall (block_fits t sf) blocks ->
  forall px py,
    Forall (fun p => inside_rect (px - block_sum blocks / bdy) (py - bdy) px py (snd p))
      (mapv_output_row t sf bdy px py blocks) /\
    ForallOrdPairs apart (mapv_output_row t sf bdy px py blocks).
Proof.
  intros Hy. induction blocks as [|b blocks IH]; intros Hb px py.
  - cbn. split; constructor.
  - inversion Hb as [|? ? Hb1 Hb2]; subst.
    cbn [mapv_output_row]. cbv zeta.
    destruct (IH Hb2 (px - blk_area b / bdy)%D py) as (I1 & I2).
    destruct (mapv_border_range (blk_area b) bdy
                (sf * IZR (mapv_block_size t (blk_node b))) Hy Hb1) as (Hx & B0 & B1 & B2).
    cbv zeta in Hx, B0, B1, B2.
    pose proof (block_sum_pos sf blocks Hb2) as Hrest.
    assert (Hrest' : 0 <= block_sum blocks / bdy).
    { apply Rmult_le_pos; [exact Hrest|]. left. now apply Rinv_0_lt_compat. }
    cbn [block_sum].
    replace ((blk_area b + block_sum blocks) / bdy)
      with (blk_area b / bdy + block_sum blocks / bdy) by (field; lra).
    on_reals.
    set (border := 1 / 4 * (blk_area b / bdy + bdy
                            - sqrt ((blk_area b / bdy + bdy) * (blk_area b / bdy + bdy)
                                    - 4 * (blk_area b
                                           - sf * IZR (mapv_block_size t (blk_node b)))))) in *.
    split.
    + constructor.
      * unfold inside_rect. cbn [snd c0_x c0_y c1_x c1_y]. splits; lra.
      * eapply Forall_impl; [|exact I1]. cbv beta. intros p Hp.
        unfold inside_rect in *. destruct Hp as (P1 & P2 & P3 & P4). splits; lra.
    + constructor; [|exact I2].
      eapply Forall_impl; [|exact I1]. cbv beta. intros p Hp.
      unfold inside_rect in Hp. destruct Hp as (_ & P2 & _).
      unfold apart. cbn [snd c0_x]. left. lra.
Qed.

(** Fourth pass: the rows lie one in front of the other, each as wide as
    the directory's face. *)
Lemma mapv_output_tiles (sf dir_x start_x : R) (rows : list (MapVRow R)) :
  0 < dir_x -> Forall (row_fits t sf) rows ->
  forall py,
    Forall (fun p => inside_rect (start_x - dir_x) (py - rows_sum rows / dir_x)
                       start_x py (snd p))
      (mapv_output t sf dir_x start_x py rows) /\
    ForallOrdPairs apart (mapv_output t sf dir_x start_x py rows).
Proof.
  intros Hx. induction rows as [|r rows IH]; intros Hr py.
  - cbn. split; constructor.
  - inversion Hr as [|? ? Hr1 Hr2]; subst. destruct Hr1 as (E1 & E2 & E3).
    cbn [mapv_output]. cbv zeta.
    assert (Hy : 0 < row_area r / dir_x) by (apply Rdiv_lt_0_compat; assumption).
    destruct (mapv_output_row_tiles sf (row_area r / dir_x) (row_blocks r) Hy E2 start_x py)
      as (A1 & A2).
    destruct (IH Hr2 (py - row_area r / dir_x)%D) as (B1 & B2).
    assert (Hw : block_sum (row_blocks r) / (row_area r / dir_x) = dir_x)
      by (rewrite <- E1; field; lra).
    rewrite Hw in A1.
    assert (Hrest : 0 <= rows_sum rows / dir_x).
    { apply Rmult_le_pos; [|left; now apply Rinv_0_lt_compat].
      clear - Hr2. induction Hr2 as [|x l (_ & _ & Hx) _ IH]; cbn [rows_sum];
        lra. }
    cbn [rows_sum].
    replace ((row_area r + rows_sum rows) / dir_x)
      with (row_area r / dir_x + rows_sum rows / dir_x) by (field; lra).
    on_reals. split.
    + apply Forall_app. split.
      * eapply Forall_impl; [|exact A1]. cbv beta. intros p Hp.
        unfold inside_rect in *. destruct Hp as (P1 & P2 & P3 & P4). splits; lra.
      * eapply Forall_impl; [|exact B1]. cbv beta. intros p Hp.
        unfold inside_rect in *. destruct Hp as (P1 & P2 & P3 & P4). splits; lra.
    + apply FOP_app; [exact A2 | exact B2 |].
      intros p q Hp Hq. rewrite Forall_forall in A1, B1.
      specialize (A1 p Hp). specialize (B1 q Hq).
      unfold inside_rect in A1, B1. unfold apart. right. lra.
Qed.

(** The layout as a whole: inside the top face trimmed by the slant and
    half a border, and no two rectangles overlapping. *)
Lemma mapv_layout_tiles (g : MapVGeomParams R) (nodes : list nat) :
  0 < MAPV_NODE_WIDTH g -> 0 < MAPV_NODE_DEPTH g -> sizes_ok t nodes ->
  let dims := mapv_dir_dims g in
  Forall (fun p => inside_rect
                     (MAPV_NODE_CENTER_X g - dir_dims_x dims / 2)
                     (MAPV_NODE_CENTER_Y g - dir_dims_y dims / 2)
                     (MAPV_NODE_CENTER_X g + dir_dims_x dims / 2)
                     (MAPV_NODE_CENTER_Y g + dir_dims_y dims / 2) (snd p))
    (mapv_layout t g nodes) /\
  ForallOrdPairs apart (mapv_layout t g nodes).
Proof.
  intros Hw Hd Hok dims.
  destruct nodes as [|n0 nodes0] eqn:En; [split; constructor|]. rewrite <- En in *.
  destruct (mapv_dir_dims_pos g Hw Hd) as (Hx & Hy & Hnb). fold dims in Hx, Hy, Hnb.
  destruct (mapv_first_pass_spec t (nominal_border dims) nodes Hnb Hok d0)
    as (_ & _ & _ & F4); [on_reals; lra|].
  specialize (F4 ltac:(rewrite En; congruence)).
  destruct (mapv_first_pass_areas (nominal_border dims) nodes Hnb Hok d0) as (G1 & G2).
  unfold mapv_layout. cbv zeta. fold dims.
  assert (Esf : mapv_scale_factor t g nodes
                = dir_dims_x dims * dir_dims_y dims
                  / snd (mapv_first_pass t (nominal_border dims) nodes d0)).
  { unfold mapv_scale_factor. cbv zeta. fold dims.
    destruct (mapv_first_pass t (nominal_border dims) nodes d0). reflexivity. }
  destruct (mapv_first_pass t (nominal_border dims) nodes d0) as [bl tot] eqn:Efp.
  cbn [fst snd] in *.
  set (sf := mapv_scale_factor t g nodes) in *.
  assert (Htot : 0 < tot) by (on_reals; lra).
  assert (Hsf : 0 < sf) by (rewrite Esf; apply Rdiv_lt_0_compat; nra).
  destruct (mapv_second_pass_rows (dir_dims_x dims) sf bl Hsf G2 None I) as (S1 & S2).
  cbn [row_acc_area] in S2.
  destruct (mapv_output_tiles sf (dir_dims_x dims)
              (MAPV_NODE_CENTER_X g + d_lit 1 2 * dir_dims_x dims)%D _ Hx S1
              (MAPV_NODE_CENTER_Y g + d_lit 1 2 * dir_dims_y dims)%D) as (O1 & O2).
  split; [|exact O2].
  eapply Forall_impl; [|exact O1]. cbv beta. intros p Hp.
  assert (Ey : rows_sum (mapv_second_pass (dir_dims_x dims) sf bl None) / dir_dims_x dims
               = dir_dims_y dims).
  { rewrite S2. replace (block_sum bl) with tot by (on_reals; lra).
    rewrite Esf. field. lra. }
  rewrite Ey in Hp. unfold inside_rect in *. on_reals.
  destruct Hp as (P1 & P2 & P3 & P4). splits; lra.
Qed.

(** X10.  In exact arithmetic, and when for no child that is a directory
    the sum of its own size (counted as 256 at least) and the size of its
    subtree leaves the range of int64, the MapV layout puts every child of
    a directory inside the directory's top face, trimmed by the slant of the
    sides and half a border width; when the directory's height is not
    negative that face lies inside the directory's own rectangle, and so
    does every child. *)
Theorem mapv_children_inside (g : MapVGeomParams R) (nodes : list nat) :
  0 < MAPV_NODE_WIDTH g -> 0 < MAPV_NODE_DEPTH g -> sizes_ok t nodes ->
  forall n gp, In (n, gp) (mapv_layout t g nodes) ->
    inside_rect
      (MAPV_NODE_CENTER_X g - dir_dims_x (mapv_dir_dims g) / 2)
      (MAPV_NODE_CENTER_Y g - dir_dims_y (mapv_dir_dims g) / 2)
      (MAPV_NODE_CENTER_X g + dir_dims_x (mapv_dir_dims g) / 2)
      (MAPV_NODE_CENTER_Y g + dir_dims_y (mapv_dir_dims g) / 2) gp /\
    (0 <= height g -> inside_rect (c0_x g) (c0_y g) (c1_x g) (c1_y g) gp).
Proof.
  intros Hw Hd Hok n gp Hin.
  destruct (mapv_layout_tiles g nodes Hw Hd Hok) as (L & _).
  rewrite Forall_forall in L. specialize (L (n, gp) Hin). cbn [snd] in L.
  split; [exact L|]. intros Hh.
  assert (Hdims : dir_dims_x (mapv_dir_dims g) <= MAPV_NODE_WIDTH g /\
                  dir_dims_y (mapv_dir_dims g) <= MAPV_NODE_DEPTH g).
  { destruct (mapv_dir_dims_pos g Hw Hd) as (_ & _ & Hnb). revert Hnb.
    unfold mapv_dir_dims. cbn [dir_dims_x dir_dims_y nominal_border].
    unfold mapv_side_slant_ratio_directory.
    set (nb := MIN _ _). intros Hnb.
    set (W := MAPV_NODE_WIDTH g) in *. set (Dp := MAPV_NODE_DEPTH g) in *.
    on_reals. rewrite !MIN_real.
    assert (0 <= Rmin (height g) (8589935 / 268435456 * W))
      by (apply Rmin_glb; [exact Hh | nra]).
    assert (0 <= Rmin (height g) (8589935 / 268435456 * Dp))
      by (apply Rmin_glb; [exact Hh | nra]).
    split; lra. }
  destruct Hdims as (Hdx & Hdy).
  unfold inside_rect, MAPV_NODE_CENTER_X, MAPV_NODE_CENTER_Y, MAPV_NODE_WIDTH,
    MAPV_NODE_DEPTH in *.
  on_reals. destruct L as (P1 & P2 & P3 & P4). splits; lra.
Qed.

(** X11.  In exact arithmetic, and when for no child that is a directory
    the sum of its own size (counted as 256 at least) and the size of its
    subtree leaves the range of int64, the rectangles the MapV layout gives
    the children of a directory do not overlap: of any two, the one placed
    later lies wholly to the left of the other (same row) or wholly in
    front of it (a later row). *)
Theorem mapv_children_apart (g : MapVGeomParams R) (nodes : list nat) :
  0 < MAPV_NODE_WIDTH g -> 0 < MAPV_NODE_DEPTH g -> sizes_ok t nodes ->
  ForallOrdPairs
    (fun p q => c1_x (snd q) <= c0_x (snd p) \/ c1_y (snd q) <= c0_y (snd p))
    (mapv_layout t g nodes).
Proof.
  intros Hw Hd Hok.
  destruct (mapv_layout_tiles g nodes Hw Hd Hok) as (_ & L). exact L.
Qed.

End MapVTiling.

(** *** The layout of a concrete directory *)

Lemma ex_dir_geomR_dims :
  (0 < MAPV_NODE_WIDTH ex_dir_geomR)%R /\ (0 < MAPV_NODE_DEPTH ex_dir_geomR)%R /\
  sizes_ok ex_tree [5%nat; 6%nat; 7%nat].
Proof.
  unfold MAPV_NODE_WIDTH, MAPV_NODE_DEPTH, ex_dir_geomR. cbn. splits; try lra.
  exact ex_mixed_sizes_ok.
Qed.

Lemma mapv_children_inside_witness :
  (0 < MAPV_NODE_WIDTH ex_dir_geomR)%R /\ (0 < MAPV_NODE_DEPTH ex_dir_geomR)%R /\
  forall n gp, In (n, gp) (mapv_layout ex_tree ex_dir_geomR [5%nat; 6%nat; 7%nat]) ->
    inside_rect (c0_x ex_dir_geomR) (c0_y ex_dir_geomR)
      (c1_x ex_dir_geomR) (c1_y ex_dir_geomR) gp.
Proof.
  destruct ex_dir_geomR_dims as (Hw & Hd & Hok).
  split; [exact Hw | split; [exact Hd|]].
  intros n gp Hin.
  apply (mapv_children_inside ex_tree ex_dir_geomR [5%nat; 6%nat; 7%nat] Hw Hd Hok n gp Hin).
  cbn. lra.
Defined.

Lemma mapv_children_apart_witness :
  ForallOrdPairs
    (fun p q => (c1_x (snd q) <= c0_x (snd p) \/ c1_y (snd q) <= c0_y (snd p))%R)
    (mapv_layout ex_tree ex_dir_geomR [5%nat; 6%nat; 7%nat]).
Proof.
  destruct ex_dir_geomR_dims as (Hw & Hd & Hok).
  exact (mapv_children_apart ex_tree ex_dir_geomR [5%nat; 6%nat; 7%nat] Hw Hd Hok).
Defined.

(** * geometry.c, dirtree.c: further facts about the layouts *)

Section DiscVOrder.
Variable t : Tree.

(** An insertion puts the node among those of its size, after the larger
    and before the smaller. *)
Lemma g_list_insert_sorted_perm (cmp : nat -> nat -> comparison) (x : nat) (l : list nat) :
  Permutation (g_list_insert_sorted cmp x l) (x :: l).
Proof.
  induction l as [|y l IH]; cbn [g_list_insert_sorted]; [reflexivity|].
  destruct (cmp x y); try reflexivity.
  rewrite IH. apply perm_swap.
Qed.

Lemma discv_node_compare_size (a b : nat) :
  discv_node_compare t a b <> Gt -> (discv_sort_size t b <= discv_sort_size t a)%Z.
Proof.
  unfold discv_node_compare. cbv zeta.
  destruct (Z.ltb_spec (discv_sort_size t a) (discv_sort_size t b)); [congruence|].
  intros _. lia.
Qed.

Lemma discv_node_compare_Gt (a b : nat) :
  discv_node_compare t a b = Gt -> (discv_sort_size t a <= discv_sort_size t b)%Z.
Proof.
  unfold discv_node_compare. cbv zeta.
  destruct (Z.ltb_spec (discv_sort_size t a) (discv_sort_size t b)); [lia|].
  destruct (Z.gtb_spec (discv_sort_size t a) (discv_sort_size t b)); [discriminate|].
  intros _. lia.
Qed.

(** discv_node_compare( ) never puts each of two nodes after the other. *)
Lemma discv_node_compare_antisym (a b : nat) :
  discv_node_compare t a b = Gt -> discv_node_compare t b a <> Gt.
Proof.
  unfold discv_node_compare. cbv zeta.
  destruct (Z.ltb_spec (discv_sort_size t a) (discv_sort_size t b)) as [L | L].
  - intros _.
    destruct (Z.ltb_spec (discv_sort_size t b) (discv_sort_size t a)); [lia|].
    destruct (Z.gtb_spec (discv_sort_size t b) (discv_sort_size t a)); [discriminate | lia].
  - destruct (Z.gtb_spec (discv_sort_size t a) (discv_sort_size t b)) as [G | G];
      [discriminate|].
    intros E.
    destruct (Z.ltb_spec (discv_sort_size t b) (discv_sort_size t a)); [lia|].
    destruct (Z.gtb_spec (discv_sort_size t b) (discv_sort_size t a)); [discriminate|].
    rewrite String.compare_antisym, E. discriminate.
Qed.

Lemma g_list_insert_sorted_head (x y : nat) (l : list nat) :
  discv_node_compare t y x <> Gt ->
  HdRel (fun a b => discv_node_compare t a b <> Gt) y l ->
  HdRel (fun a b => discv_node_compare t a b <> Gt) y
    (g_list_insert_sorted (discv_node_compare t) x l).
Proof.
  intros Hyx Hl. destruct l as [|z l]; cbn [g_list_insert_sorted].
  - now constructor.
  - inversion Hl; subst. destruct (discv_node_compare t x z); now constructor.
Qed.

(** An insertion keeps the list in the order of discv_node_compare( ). *)
Lemma g_list_insert_sorted_order (x : nat) (l : list nat) :
  Sorted (fun a b => discv_node_compare t a b <> Gt) l ->
  Sorted (fun a b => discv_node_compare t a b <> Gt)
    (g_list_insert_sorted (discv_node_compare t) x l).
Proof.
  induction 1 as [|y l Hl IH Hy]; cbn [g_list_insert_sorted].
  - repeat constructor.
  - destruct (discv_node_compare t x y) eqn:E.
    + constructor; [now constructor|]. constructor. congruence.
    + constructor; [now constructor|]. constructor. congruence.
    + constructor; [exact IH|].
      apply g_list_insert_sorted_head; [|exact Hy].
      now apply discv_node_compare_antisym.
Qed.

(** X12.  The order in which DiscV lays the children of a directory around
    it.  discv_node_compare( ) puts a node of larger size (a directory
    counting with its subtree, the sum taken in int64) before one of
    smaller size.  So whatever rearrangement of the children g_list_sort( )
    returns, in which no node is directly followed by one that
    discv_node_compare( ) puts before it, is in order of decreasing size,
    and its first node, which is put opposite the stem, is a largest one.
    The list the stable insertion sort returns is such a rearrangement. *)
Theorem discv_children_order (nodes node_list : list nat) :
  Permutation node_list nodes ->
  Sorted (fun a b => discv_node_compare t a b <> Gt) node_list ->
  StronglySorted (fun a b => (discv_sort_size t b <= discv_sort_size t a)%Z) node_list /\
  (forall first rest, node_list = first :: rest ->
     forall n, In n nodes -> (discv_sort_size t n <= discv_sort_size t first)%Z) /\
  (forall n, INT64_MIN <= size (t n) ->
             (NODE_IS_DIR t n = true ->
              0 <= subtree_size (t n) /\ size (t n) + subtree_size (t n) <= INT64_MAX) ->
     discv_sort_size t n
     = size (t n) + if NODE_IS_DIR t n then subtree_size (t n) else 0)%Z /\
  Permutation (g_list_sort (rev nodes) (discv_node_compare t)) nodes /\
  Sorted (fun a b => discv_node_compare t a b <> Gt)
    (g_list_sort (rev nodes) (discv_node_compare t)).
Proof.
  intros Hperm Hsorted.
  assert (Hs : StronglySorted (fun a b => (discv_sort_size t b <= discv_sort_size t a)%Z)
                 node_list).
  { apply Sorted_StronglySorted; [intros a b c Hab Hbc; lia|].
    clear Hperm. induction Hsorted as [|y l Hl IH Hy]; constructor; [exact IH|].
    destruct Hy as [|z l' Hyz]; constructor.
    now apply discv_node_compare_size. }
  splits.
  - exact Hs.
  - intros first rest E n Hn. rewrite E in Hs.
    assert (Hin : In n (first :: rest)).
    { rewrite <- E. exact (Permutation_in n (Permutation_sym Hperm) Hn). }
    inversion Hs as [|? ? _ Hall]; subst.
    destruct Hin as [<- | Hin]; [lia|].
    rewrite Forall_forall in Hall. exact (Hall n Hin).
  - intros n Hmin Hn. unfold discv_sort_size.
    destruct (NODE_IS_DIR t n); [|lia].
    specialize (Hn eq_refl).
    apply int64_wrap_small. unfold INT64_MIN, INT64_MAX in *. lia.
  - assert (Hp : forall l, Permutation (g_list_sort l (discv_node_compare t)) l).
    { induction l as [|x l IH]; cbn; [constructor|].
      rewrite g_list_insert_sorted_perm. now constructor. }
    rewrite Hp. symmetry. apply Permutation_rev.
  - generalize (rev nodes). induction l as [|x l IH]; cbn; [constructor|].
    apply g_list_insert_sorted_order. exact IH.
Qed.

End DiscVOrder.

Section TreeVRows.

Local Open Scope R_scope.

Ltac on_reals :=
  unfold d_lit, d0, d1, d2, SQR in *;
  cbn [d_of_Z d_add d_sub d_mul d_div d_opp d_sqrt d_lt d_le d_PI real
       d_cos d_sin d_asin d_atan2 d_cbrt d_hypot d_fmod d_ceil real_libm] in *.

Lemma R_trunc_nonneg (x : R) : -1 < x -> (0 <= R_trunc x)%Z.
Proof.
  intros Hx. unfold R_trunc. destruct (Rle_dec 0 x) as [H0 | H0].
  - destruct (base_Int_part x) as (B1 & B2).
    assert (L : (-1 < Int_part x)%Z) by (apply lt_IZR; lra). lia.
  - destruct (base_Int_part (- x)) as (B1 & B2).
    assert (E : Int_part (- x) = 0%Z).
    { assert (L1 : (Int_part (- x) < 1)%Z) by (apply lt_IZR; lra).
      assert (L2 : (-1 < Int_part (- x))%Z) by (apply lt_IZR; lra).
      lia. }
    rewrite E. reflexivity.
Qed.

(** X13.  In exact arithmetic, the depth treev_reshape_platform( ) assigns
    to a platform (for an inner radius of at least 8192) accommodates a
    whole number of rows of leaves: it is 256 plus a positive multiple of
    384, one and a half leaf edges; and when the depth [d] solved from the
    cubic is at least 128, the adjustment adds no more than 512 to it. *)
Theorem treev_platform_depth_rows (t : Tree) (dnode : nat) (r0 : R) (w : World R) :
  8192 <= r0 ->
  let d := shape_d (treev_platform_shape (Z.of_nat (List.length (children (t dnode)))) r0) in
  let depth := platform_depth (treev_geom (treev_reshape_platform t dnode r0 w) dnode) in
  (exists rows : Z, (1 <= rows)%Z /\ depth = 384 * IZR rows + 256) /\
  (128 <= d -> depth <= d + 512).
Proof.
  intros Hr d depth.
  destruct (treev_platform_shape_ok (Z.of_nat (List.length (children (t dnode)))) r0 Hr)
    as (_ & Hd & _).
  fold d in Hd.
  assert (Edepth : depth = d + (384 - R_fmod (d - 128) 384 + 128)).
  { unfold depth, treev_reshape_platform. cbv zeta. cbn. unfold upd.
    rewrite Nat.eqb_refl. cbn [platform_depth].
    unfold treev_platform_shape. cbv zeta. cbn [shape_depth].
    fold d. unfold d, treev_platform_shape. cbv zeta. cbn [shape_d].
    unfold TREEV_LEAF_NODE_EDGE. on_reals.
    replace (3 / 2 * 256) with 384 by lra. replace (1 / 2 * 256) with 128 by lra.
    reflexivity. }
  rewrite Edepth. unfold R_fmod.
  pose proof (R_trunc_nonneg ((d - 128) / 384) ltac:(lra)) as Hq.
  split.
  - exists (R_trunc ((d - 128) / 384) + 1)%Z. split; [lia|]. rewrite plus_IZR. lra.
  - intros H128. unfold R_trunc.
    destruct (Rle_dec 0 ((d - 128) / 384)) as [H0 | H0]; [|lra].
    destruct (base_Int_part ((d - 128) / 384)) as (B1 & B2). lra.
Qed.

(** X14.  In exact arithmetic, the inner radius treev_arrange_recursive( )
    hands down to a subdirectory, [r0 + platform.depth +
    TREEV_PLATFORM_SPACING_DEPTH], is the inner radius
    geometry_treev_platform_r0( ) computes for it by walking up the tree,
    given that [r0] is what it computes for the directory itself. *)
Theorem treev_platform_r0_step (t : Tree) (fuel : nat) (w : World R) (dnode up : nat)
    (r0 : R) :
  parent (t dnode) = Some up ->
  NODE_IS_METANODE t dnode = false ->
  (NODE_IS_METANODE t up = true -> parent (t up) = None) ->
  geometry_treev_platform_r0 t fuel w up = Some r0 ->
  geometry_treev_platform_r0 t (S fuel) w dnode
  = Some (r0 + platform_depth (treev_geom w up) + TREEV_PLATFORM_SPACING_DEPTH)%D.
Proof.
  intros Hp Hm Hroot Hup.
  assert (Hacc : forall n up_node b c r,
            platform_r0_loop t n w up_node b = Some r ->
            platform_r0_loop t n w up_node c = Some (r + (c - b))).
  { induction n as [|n IH]; intros up_node b c r; destruct up_node as [u|];
      cbn [platform_r0_loop]; try discriminate.
    - intros [= <-]. f_equal. lra.
    - intros E. rewrite (IH _ _ (c + TREEV_PLATFORM_SPACING_DEPTH
                                 + platform_depth (treev_geom w u))%D _ E).
      f_equal. on_reals. lra.
    - intros [= <-]. f_equal. lra. }
  unfold geometry_treev_platform_r0 in *. rewrite Hm, Hp.
  cbn [platform_r0_loop]. unfold TREEV_PLATFORM_SPACING_DEPTH in *. on_reals.
  destruct (NODE_IS_METANODE t up) eqn:Emeta.
  - injection Hup as <-. rewrite (Hroot eq_refl).
    destruct fuel; cbn [platform_r0_loop]; f_equal; lra.
  - destruct (platform_r0_loop t fuel w (parent (t up)) 0) as [r|] eqn:E; [|discriminate].
    injection Hup as <-.
    rewrite (Hacc _ _ _ (0 + 2048 + platform_depth (treev_geom w up)) _ E). f_equal. lra.
Qed.

End TreeVRows.

Section DirtreeExpand.
Variable D : Type.
Context `{Double D} `{Libm D}.
Variable t : Tree.

(** X15.  dirtree_entry_expand( ) expands the entry of the directory and
    the entries of all the directories above it, leaves every other entry
    as it was, and touches nothing else. *)
Theorem dirtree_entry_expand_spec (dnode : nat) (chain : list nat) (fuel : nat)
    (w : World D) :
  under_root t dnode chain -> NODE_IS_DIR t dnode = true ->
  List.length chain + 2 <= fuel ->
  exists f,
    dirtree_entry_expand t fuel dnode w = Some (set_ctree_expanded f w) /\
    (forall x, In x (dnode :: chain) -> f x = true) /\
    (forall x, ~ In x (dnode :: chain) -> f x = ctree_expanded w x).
Proof.
  intros Hu. unfold dirtree_entry_expand. revert fuel w.
  induction Hu as [n top Hp Hd Ht | n up l Hp Hd Hu IH]; intros fuel w Hn Hf.
  - destruct fuel as [|[|fuel]]; cbn [List.length] in Hf; try lia.
    cbn [dirtree_entry_expand_loop]. rewrite Hn, Hp, Hd.
    unfold dirtree_entry_expanded.
    destruct (ctree_expanded w n) eqn:E; cbn [negb].
    + exists (ctree_expanded w). splits.
      * destruct w; reflexivity.
      * intros x [<- | []]. exact E.
      * reflexivity.
    + exists (upd (ctree_expanded w) n true). splits.
      * reflexivity.
      * intros x [<- | []]. unfold upd. now rewrite Nat.eqb_refl.
      * intros x Hx. unfold upd.
        destruct (Nat.eqb_spec x n) as [-> | _]; [exfalso; apply Hx; now left | reflexivity].
  - destruct fuel as [|fuel]; cbn [List.length] in Hf; try lia.
    cbn [dirtree_entry_expand_loop]. rewrite Hn, Hp.
    set (w1 := if negb (dirtree_entry_expanded w n)
               then set_ctree_expanded (upd (ctree_expanded w) n true) w else w).
    assert (H1 : w1 = set_ctree_expanded (ctree_expanded w1) w /\
                 ctree_expanded w1 n = true /\
                 forall x, x <> n -> ctree_expanded w1 x = ctree_expanded w x).
    { unfold w1, dirtree_entry_expanded.
      destruct (ctree_expanded w n) eqn:E; cbn [negb].
      - splits; auto. destruct w; reflexivity.
      - cbn. unfold upd. rewrite Nat.eqb_refl. splits; auto.
        intros x Hx. now destruct (Nat.eqb_spec x n). }
    destruct H1 as (E1 & T1 & O1).
    destruct (IH fuel w1 Hd ltac:(lia)) as (f & Ef & Tf & Of).
    exists f. splits.
    + rewrite Ef, E1. destruct w; reflexivity.
    + intros x [<- | Hx]; [|now apply Tf].
      rewrite Of; [exact T1|].
      apply (under_root_not_in t n (up :: l)). econstructor 2; eauto.
    + intros x Hx. rewrite Of by (intros Hin; apply Hx; now right).
      apply O1. intros ->. apply Hx. now left.
Qed.

End DirtreeExpand.

(** *** The facts on the concrete tree *)

Lemma treev_platform_depth_rows_witness :
  let d := shape_d (treev_platform_shape
                      (Z.of_nat (List.length (children (ex_tree 5)))) 8192%R) in
  let depth := platform_depth (treev_geom (treev_reshape_platform ex_tree 5 8192%R ex_worldR) 5) in
  (exists rows : Z, (1 <= rows)%Z /\ depth = (384 * IZR rows + 256)%R) /\
  ((128 <= d)%R -> (depth <= d + 512)%R).
Proof.
  apply (treev_platform_depth_rows ex_tree 5 8192%R ex_worldR). lra.
Defined.

Lemma treev_platform_r0_step_witness :
  geometry_treev_platform_r0 ex_tree 3 ex_worldR 2
  = Some (2048%R + platform_depth (treev_geom ex_worldR 1) + TREEV_PLATFORM_SPACING_DEPTH)%D.
Proof.
  assert (Hup : geometry_treev_platform_r0 ex_tree 2 ex_worldR 1 = Some 2048%R).
  { cbn. f_equal. lra. }
  apply (treev_platform_r0_step ex_tree 2 ex_worldR 2 1 2048%R eq_refl eq_refl).
  - discriminate.
  - exact Hup.
Defined.

Lemma dirtree_entry_expand_spec_witness :
  exists f,
    dirtree_entry_expand ex_tree 7 5 ex_world = Some (set_ctree_expanded f ex_world) /\
    (forall x, In x [5; 4; 3; 2; 1] -> f x = true) /\
    (forall x, ~ In x [5; 4; 3; 2; 1] -> f x = ctree_expanded ex_world x).
Proof.
  apply (dirtree_entry_expand_spec float ex_tree 5 [4; 3; 2; 1] 7 ex_world
           ex_tree_under_root eq_refl).
  simpl. lia.
Defined.

(** The directory 5 of the example tree beside the files 6 and 7, in order
    of decreasing size. *)
Lemma discv_children_order_witness :
  StronglySorted (fun a b => (discv_sort_size ex_tree b <= discv_sort_size ex_tree a)%Z)
    [5%nat; 6%nat; 7%nat] /\
  discv_sort_size ex_tree 5 = 1000%Z /\
  g_list_sort (rev [7%nat; 5%nat; 6%nat]) (discv_node_compare ex_tree) = [5%nat; 6%nat; 7%nat].
Proof.
  assert (Hp : Permutation [5%nat; 6%nat; 7%nat] [7%nat; 5%nat; 6%nat])
    by (symmetry; exact (Permutation_cons_append [5%nat; 6%nat] 7%nat)).
  assert (Hs : Sorted (fun a b => discv_node_compare ex_tree a b <> Gt)
                 [5%nat; 6%nat; 7%nat])
    by (repeat constructor; vm_compute; discriminate).
  destruct (discv_children_order ex_tree [7%nat; 5%nat; 6%nat] [5%nat; 6%nat; 7%nat] Hp Hs)
    as (A & _ & C & _).
  split; [exact A|]. split; [|reflexivity].
  apply (C 5%nat); [unfold INT64_MIN; cbn; lia|].
  intros _. unfold INT64_MAX. cbn. lia.
Defined.

(** * colexp.c: the cascade of a recursive collapse or expansion *)

Section ColexpRecursive.
Variable D : Type.
Context `{Double D} `{Libm D}.
Variable t : Tree.
Variable camera_look_at_full : nat -> MorphType -> D -> World D -> World D.

(** *** The pieces of colexp( ) *)

Lemma platform_r0_loop_rises (w : World D) (r : nat) :
  forall x fuel a, rises t r x = true -> r <= S fuel ->
    exists v, platform_r0_loop t fuel w (parent (t x)) a = Some v.
Proof.
  induction r as [|r IH]; intros x fuel a Hr Hf; [discriminate|].
  cbn [rises] in Hr. destruct (parent (t x)) as [up|] eqn:Hp.
  - destruct fuel as [|fuel]; [|cbn [platform_r0_loop]; apply IH; [exact Hr | lia]].
    destruct r; [discriminate | lia].
  - destruct fuel; eexists; reflexivity.
Qed.

Lemma geometry_colexp_initiated_frame (r fuel n : nat) (w : World D) :
  (fsv_mode w = FSV_TREEV -> rises t r n = true) -> r <= S fuel ->
  exists w', geometry_colexp_initiated t fuel n w = Some w' /\
    anim w' = anim w /\ fsv_mode w' = fsv_mode w /\
    colexp_time w' = colexp_time w /\ depth w' = depth w /\
    max_depth w' = max_depth w.
Proof.
  intros Hr Hf. unfold geometry_colexp_initiated.
  destruct (DIR_COLLAPSED w n); [|exists w; auto 10].
  destruct (fsv_mode w) eqn:Hm; try solve [exists w; auto 10].
  unfold geometry_treev_platform_r0.
  destruct (NODE_IS_METANODE t n).
  - eexists. split; [reflexivity|]. simpl. rewrite Hm. auto 10.
  - destruct (platform_r0_loop_rises w r n fuel d0 (Hr eq_refl) Hf) as (v & E). rewrite E.
    eexists. split; [reflexivity|]. simpl. rewrite Hm. auto 10.
Qed.

(** The wait, if any, and the collapse or expansion proper, requested on a
    variable that is not being morphed. *)
Lemma morph_wait_then (n : nat) (s : State D) (wc : Z) (ct : D) (ty : MorphType) (tg : D) :
  g_list_find_custom (morph_queue s) (VarDeployment n) = None ->
  let v := VarDeployment n in
  let s1 := if (wc >? 0)%Z
            then morph v MORPH_LINEAR (mem s v) (d_of_Z wc * ct)%D s else s in
  let s2 := morph_full v ty tg ct (Some colexp_progress_cb) (Some colexp_progress_cb) n s1 in
  mem s2 = mem s /\ clock s2 = clock s /\
  morph_queue s2
  = (if (wc >? 0)%Z then
       mkMorph MORPH_LINEAR v (mem s v) (mem s v) (clock s) (clock s + d_of_Z wc * ct)%D
         None None 0
         (Some (mkMorph ty v (mem s v) tg (clock s + d_of_Z wc * ct)%D
                  (clock s + d_of_Z wc * ct + ct)%D
                  (Some colexp_progress_cb) (Some colexp_progress_cb) n None))
     else
       mkMorph ty v (mem s v) tg (clock s) (clock s + ct)%D
         (Some colexp_progress_cb) (Some colexp_progress_cb) n None)
    :: morph_queue s.
Proof.
  intros Hnone v s1 s2. unfold s2, s1, v. clear s1 s2 v.
  destruct (wc >? 0)%Z.
  - assert (E1 : morph (VarDeployment n) MORPH_LINEAR (mem s (VarDeployment n))
                   (d_of_Z wc * ct)%D s
                 = set_morph_queue
                     (mkMorph MORPH_LINEAR (VarDeployment n) (mem s (VarDeployment n))
                        (mem s (VarDeployment n)) (clock s) (clock s + d_of_Z wc * ct)%D
                        None None 0 None :: morph_queue s)
                     (if animation_active s then s else redraw s)).
    { unfold morph, morph_full. rewrite Hnone. cbv zeta. unfold xgettime.
      destruct (animation_active s); reflexivity. }
    rewrite E1. unfold morph_full.
    cbn [morph_queue set_morph_queue g_list_find_custom].
    unfold compare_var. cbn [var]. rewrite Var_eqb_refl.
    cbn [negb update_found]. unfold compare_var. cbn [var]. rewrite Var_eqb_refl.
    cbn [negb]. destruct (animation_active s); cbn; splits; reflexivity.
  - unfold morph_full. rewrite Hnone. cbv zeta. unfold xgettime.
    destruct (animation_active s); cbn; splits; reflexivity.
Qed.

(** What colexp( ) does to one directory: whatever was animating its
    deployment is dropped, and the record of the collapse or expansion is
    put at the head of the queue. *)
Lemma colexp_animate_record (mesg : ColExpMesg) (n : nat) (w : World D) :
  queue_ok (morph_queue (anim w)) ->
  colexp_time w = mode_colexp_time (fsv_mode w) ->
  exists a,
    colexp_animate n mesg w = set_anim a w /\
    mem a = mem (anim w) /\ clock a = clock (anim w) /\
    morph_queue a
      = colexp_record mesg w n (colexp_wait_count mesg (max_depth w) (depth w))
          :: remove_found (VarDeployment n) (morph_queue (anim w)).
Proof.
  intros Hok Hct.
  destruct (remove_found_spec D (VarDeployment n) _ Hok) as (Hnone & _ & _).
  set (q0 := remove_found (VarDeployment n) (morph_queue (anim w))) in *.
  set (s0 := set_morph_queue q0 (anim w)).
  assert (Hn0 : g_list_find_custom (morph_queue s0) (VarDeployment n) = None) by exact Hnone.
  unfold colexp_animate, on_anim. rewrite morph_break_queue. fold q0. fold s0.
  unfold colexp_record, colexp_wait_count, deployment. rewrite <- Hct.
  cbv zeta. cbn [anim set_anim max_depth depth colexp_time].
  destruct mesg; cbn [colexp_stage]; unfold collapse_stage, expand_stage.
  - destruct (morph_wait_then n s0 (max_depth w - depth w) (colexp_time w)
                MORPH_QUADRATIC d0 Hn0) as (A & B & E).
    cbv zeta in A, B, E.
    destruct (max_depth w - depth w >? 0)%Z;
      (eexists; split; [reflexivity|]; cbn [anim set_anim]; splits; [exact A | exact B | exact E]).
  - destruct (morph_wait_then n s0 (depth w) (colexp_time w)
                MORPH_INV_QUADRATIC d1 Hn0) as (A & B & E).
    cbv zeta in A, B, E.
    destruct (depth w >? 0)%Z;
      (eexists; split; [reflexivity|]; cbn [anim set_anim]; splits; [exact A | exact B | exact E]).
  - destruct (morph_wait_then n s0 (max_depth w - depth w) (colexp_time w)
                MORPH_INV_QUADRATIC d1 Hn0) as (A & B & E).
    cbv zeta in A, B, E.
    destruct (max_depth w - depth w >? 0)%Z;
      (eexists; split; [reflexivity|]; cbn [anim set_anim]; splits; [exact A | exact B | exact E]).
  - destruct (morph_wait_then n s0 (depth w) (colexp_time w)
                MORPH_INV_QUADRATIC d1 Hn0) as (A & B & E).
    cbv zeta in A, B, E.
    destruct (depth w >? 0)%Z;
      (eexists; split; [reflexivity|]; cbn [anim set_anim]; splits; [exact A | exact B | exact E]).
Qed.

(** gtk_ctree_collapse_recursive( ) and gtk_ctree_expand_recursive( )
    return, having touched the entries only. *)
Lemma ctree_set_recursive_returns (b : bool) (h : nat) :
  forall fuel x (w : World D), fits t h x = true -> h <= fuel ->
    exists f, ctree_set_recursive t fuel b x w = Some (set_ctree_expanded f w).
Proof.
  induction h as [|h IH]; intros fuel x w Hfit Hf; [discriminate|].
  destruct fuel as [|fuel]; [lia|].
  cbn [fits] in Hfit. rewrite forallb_forall in Hfit.
  cbn [ctree_set_recursive].
  set (w1 := set_ctree_expanded (upd (ctree_expanded w) x b) w).
  assert (Hloop : forall nodes (w2 : World D),
            (forall c, In c nodes -> fits t h c = true) ->
            (exists f, w2 = set_ctree_expanded f w) ->
            exists f,
              (fix loop (nodes : list nat) (w : World D) : option (World D) :=
                 match nodes with
                 | [] => Some w
                 | node :: rest =>
                     if NODE_IS_DIR t node then
                       match ctree_set_recursive t fuel b node w with
                       | Some w' => loop rest w'
                       | None => None
                       end
                     else loop rest w
                 end) nodes w2 = Some (set_ctree_expanded f w)).
  { induction nodes as [|c nodes IHn]; intros w2 Hc (f2 & E2).
    - exists f2. now rewrite E2.
    - destruct (NODE_IS_DIR t c).
      + destruct (IH fuel c w2 (Hc c (or_introl eq_refl)) ltac:(lia)) as (f3 & E3).
        rewrite E3. apply IHn; [intros c' Hc'; apply Hc; now right|].
        exists f3. rewrite E2. reflexivity.
      + apply IHn; [intros c' Hc'; apply Hc; now right|]. exists f2. exact E2. }
  apply Hloop; [exact Hfit|]. eexists. reflexivity.
Qed.

(** max_expanded_depth( ) returns, and looks at the deployments only. *)
Lemma max_expanded_depth_returns (h : nat) :
  forall fuel x (w : World D), fits t h x = true -> h <= fuel ->
    exists M, max_expanded_depth t fuel w x = Some M /\
      forall w2 : World D, mem (anim w2) = mem (anim w) ->
        max_expanded_depth t fuel w2 x = Some M.
Proof.
  induction h as [|h IH]; intros fuel x w Hfit Hf; [discriminate|].
  destruct fuel as [|fuel]; [lia|].
  cbn [fits] in Hfit. rewrite forallb_forall in Hfit.
  cbn [max_expanded_depth].
  assert (Hloop : forall nodes (z : Z),
            (forall c, In c nodes -> fits t h c = true) ->
            exists M,
              (forall w2 : World D, mem (anim w2) = mem (anim w) ->
                 (fix loop (nodes : list nat) (max_depth : Z) : option Z :=
                    match nodes with
                    | [] => Some max_depth
                    | node :: rest =>
                        if NODE_IS_DIR t node then
                          match (if DIR_EXPANDED w2 node
                                 then match max_expanded_depth t fuel w2 node with
                                      | Some m => Some (1 + m)%Z
                                      | None => None
                                      end
                                 else Some 0%Z) with
                          | Some subtree_depth => loop rest (Z.max max_depth subtree_depth)
                          | None => None
                          end
                        else Some max_depth
                    end) nodes z = Some M)).
  { induction nodes as [|c nodes IHn]; intros z Hc.
    - exists z. intros; reflexivity.
    - destruct (NODE_IS_DIR t c) eqn:Hd.
      + destruct (IH fuel c w (Hc c (or_introl eq_refl)) ltac:(lia)) as (m & E & Eext).
        destruct (IHn (Z.max z (if DIR_EXPANDED w c then (1 + m)%Z else 0%Z))
                    (fun c' Hc' => Hc c' (or_intror Hc'))) as (M & EM).
        exists M. intros w2 Hm. specialize (EM w2 Hm). lazy beta iota.
        assert (Ex : DIR_EXPANDED w2 c = DIR_EXPANDED w c)
          by (unfold DIR_EXPANDED, deployment; now rewrite Hm).
        rewrite Ex, (Eext w2 Hm).
        destruct (DIR_EXPANDED w c); exact EM.
      + exists z. intros w2 Hm. reflexivity. }
  destruct (Hloop (children (t x)) 0%Z Hfit) as (M & EM).
  exists M. split; [apply (EM w eq_refl) | exact EM].
Qed.

(** The part of colexp( ) run at the top of a recursive request. *)
Lemma colexp_begin_recursive (mesg : ColExpMesg) (h fuel x : nat) (w : World D) :
  mesg = COLEXP_COLLAPSE_RECURSIVE \/ mesg = COLEXP_EXPAND_RECURSIVE ->
  fits t h x = true -> h <= fuel ->
  fsv_mode w = FSV_DISCV \/ fsv_mode w = FSV_MAPV \/ fsv_mode w = FSV_TREEV ->
  exists f M,
    max_expanded_depth t fuel w x = Some M /\
    colexp_begin t fuel x mesg w
    = Some (set_colexp_time (mode_colexp_time (fsv_mode w))
              (set_max_depth (match mesg with
                              | COLEXP_COLLAPSE_RECURSIVE => M
                              | _ => 0%Z
                              end) (set_ctree_expanded f w))).
Proof.
  intros Hmesg Hfit Hf Hmode.
  destruct (max_expanded_depth_returns h fuel x w Hfit Hf) as (M & EM & EMext).
  unfold colexp_begin, dirtree_entry_collapse_recursive, dirtree_entry_expand_recursive.
  destruct Hmesg as [-> | ->].
  - destruct (ctree_set_recursive_returns false h fuel x w Hfit Hf) as (f & Ef).
    exists f, M. split; [exact EM|]. rewrite Ef.
    rewrite (EMext (set_ctree_expanded f w) eq_refl).
    cbn [fsv_mode set_max_depth set_ctree_expanded].
    destruct Hmode as [E | [E | E]]; rewrite E; reflexivity.
  - destruct (ctree_set_recursive_returns true h fuel x w Hfit Hf) as (f & Ef).
    exists f, M. split; [exact EM|]. rewrite Ef.
    cbn [fsv_mode set_max_depth set_ctree_expanded].
    destruct Hmode as [E | [E | E]]; rewrite E; reflexivity.
Qed.

(** *** The records *)

Lemma colexp_record_var (mesg : ColExpMesg) (w : World D) (n : nat) (z : Z) :
  var (colexp_record mesg w n z) = VarDeployment n /\
  chain_on (VarDeployment n) (colexp_record mesg w n z).
Proof.
  unfold colexp_record, chain_on, colexp_stage, collapse_stage, expand_stage.
  destruct (z >? 0)%Z; destruct mesg; simpl; repeat constructor.
Qed.

Lemma colexp_record_ext (mesg : ColExpMesg) (w1 w2 : World D) (x : nat) (z : Z) :
  mem (anim w1) = mem (anim w2) -> clock (anim w1) = clock (anim w2) ->
  fsv_mode w1 = fsv_mode w2 ->
  colexp_record mesg w1 x z = colexp_record mesg w2 x z.
Proof.
  intros A B Cc. unfold colexp_record, deployment. now rewrite A, B, Cc.
Qed.

Lemma walked_nil (mesg : ColExpMesg) (w0 : World D) (M : Z) (w : World D) :
  queue_ok (morph_queue (anim w)) -> walked mesg w0 M w w [].
Proof. intros Hok. unfold walked. splits; auto. intros x k []. Qed.

Lemma walked_app (mesg : ColExpMesg) (w0 : World D) (M : Z) (wa wb wc : World D)
    (l1 l2 : list (nat * Z)) :
  walked mesg w0 M wa wb l1 -> walked mesg w0 M wb wc l2 ->
  (forall x k x' k', In (x, k) l1 -> In (x', k') l2 -> x <> x') ->
  walked mesg w0 M wa wc (l1 ++ l2).
Proof.
  intros (A1 & A2 & A3 & A4 & A5 & A6 & A7) (B1 & B2 & B3 & B4 & B5 & B6 & B7) Hdis.
  unfold walked. splits; try congruence.
  - intros x k Hin. apply in_app_or in Hin. destruct Hin as [Hin | Hin].
    + rewrite B7; [now apply A6|].
      intros x' k' Hin' E. injection E as E. exact (Hdis x k x' k' Hin Hin' E).
    + now apply B6.
  - intros v Hv. rewrite B7, A7; [reflexivity | |].
    + intros x k Hin. apply (Hv x k). apply in_or_app. now left.
    + intros x k Hin. apply (Hv x k). apply in_or_app. now right.
Qed.

(** A step that leaves the animation, the mode and the duration alone. *)
Lemma walked_shift (mesg : ColExpMesg) (w0 : World D) (M : Z) (wa wa' w' w'' : World D)
    (l : list (nat * Z)) :
  walked mesg w0 M wa w' l ->
  anim wa = anim wa' -> fsv_mode wa = fsv_mode wa' -> colexp_time wa = colexp_time wa' ->
  anim w'' = anim w' -> fsv_mode w'' = fsv_mode w' -> colexp_time w'' = colexp_time w' ->
  walked mesg w0 M wa' w'' l.
Proof.
  intros (A1 & A2 & A3 & A4 & A5 & A6 & A7) E1 E2 E3 F1 F2 F3.
  unfold walked. rewrite F1, F2, F3, <- E1, <- E2, <- E3. splits; auto.
Qed.

Lemma walked_frame (mesg : ColExpMesg) (w0 : World D) (M : Z) (wa w' : World D)
    (l : list (nat * Z)) :
  colexp_frame mesg w0 M wa -> walked mesg w0 M wa w' l ->
  (mesg = COLEXP_COLLAPSE_RECURSIVE -> max_depth w' = M) ->
  colexp_frame mesg w0 M w'.
Proof.
  intros (F1 & F2 & F3 & F4 & F5 & F6) (A1 & A2 & A3 & A4 & A5 & _) Hmax.
  unfold colexp_frame. splits; try congruence; auto.
Qed.

(** One directory: its record is queued, and nothing else of the animation
    changes. *)
Lemma colexp_animate_walked (mesg : ColExpMesg) (w0 : World D) (M : Z) (x : nat)
    (wb : World D) (k : Z) :
  mesg <> COLEXP_EXPAND_ANY ->
  colexp_frame mesg w0 M wb -> depth wb = k ->
  walked mesg w0 M wb (colexp_animate x mesg wb) [(x, k)] /\
  depth (colexp_animate x mesg wb) = k /\
  max_depth (colexp_animate x mesg wb) = max_depth wb.
Proof.
  intros Hmesg (F1 & F2 & F3 & F4 & F5 & Hok) Hk.
  assert (Hct : colexp_time wb = mode_colexp_time (fsv_mode wb)) by congruence.
  destruct (colexp_animate_record mesg x wb Hok Hct) as (a & Ea & Am & Ac & Aq).
  rewrite Ea. cbn [depth max_depth set_anim]. split; [|auto].
  destruct (remove_found_spec D (VarDeployment x) _ Hok) as (R1 & R2 & R3).
  destruct (colexp_record_var mesg wb x (colexp_wait_count mesg (max_depth wb) (depth wb)))
    as (Cv & Cc).
  assert (Erec : colexp_record mesg wb x (colexp_wait_count mesg (max_depth wb) (depth wb))
                 = colexp_record mesg w0 x (colexp_wait_count mesg M k)).
  { rewrite (colexp_record_ext mesg wb w0 x _ F1 F2 F3). f_equal.
    unfold colexp_wait_count. rewrite Hk.
    destruct mesg; [rewrite (F5 eq_refl) | | congruence |]; reflexivity. }
  unfold walked. cbn [anim set_anim fsv_mode colexp_time]. rewrite Am, Ac, Aq.
  splits; auto.
  - split.
    + cbn [map]. constructor.
      * rewrite Cv. intros Hin. apply in_map_iff in Hin.
        destruct Hin as (m & Hm & Hin).
        apply find_custom_none in R1. rewrite Forall_forall in R1.
        exact (R1 m Hin Hm).
      * apply R2.
    + constructor; [rewrite Cv; exact Cc | apply R2].
  - intros y j [E | []]. injection E as <- <-.
    cbn [g_list_find_custom]. unfold compare_var. rewrite Cv, Var_eqb_refl. cbn [negb].
    now rewrite Erec.
  - intros v Hv. cbn [g_list_find_custom]. unfold compare_var. rewrite Cv.
    assert (Hne : v <> VarDeployment x) by (apply (Hv x k); now left).
    assert (E : Var_eqb (VarDeployment x) v = false) by (apply Var_eqb_neq; congruence).
    rewrite E. cbn [negb]. now apply R3.
Qed.

(** *** The recursion *)

Lemma colexp_rec_eq (mesg : ColExpMesg) (F x : nat) (w : World D) :
  mesg = COLEXP_COLLAPSE_RECURSIVE \/ mesg = COLEXP_EXPAND_RECURSIVE ->
  colexp t camera_look_at_full (S F) x mesg w =
  match (if (depth w =? 0)%Z then colexp_begin t F x mesg w else Some w) with
  | None => None
  | Some w =>
      match geometry_colexp_initiated t F x (colexp_animate x mesg w) with
      | None => None
      | Some w =>
          match subdirs_loop t (fun node => colexp t camera_look_at_full F node mesg)
                  (children (t x)) (set_depth (depth w + 1) w) with
          | None => None
          | Some w =>
              let w := set_depth (depth w - 1) w in
              let w := match mesg with
                       | COLEXP_EXPAND_RECURSIVE =>
                           set_max_depth (Z.max (max_depth w) (depth w)) w
                       | _ => w
                       end in
              if (depth w =? 0)%Z
              then Some (colexp_end t camera_look_at_full F x mesg w) else Some w
          end
      end
  end.
Proof.
  intros [-> | ->]; cbn [colexp];
    (destruct (if (depth w =? 0)%Z then colexp_begin t F x _ w else Some w) as [wb|];
     [|reflexivity]);
    cbv zeta;
    (destruct (geometry_colexp_initiated t F x _) as [w2|]; [|reflexivity]);
    (destruct (subdirs_loop t _ (children (t x)) _) as [w4|]; reflexivity).
Qed.

Lemma NoDup_fst_app_disjoint (l1 l2 : list (nat * Z)) :
  NoDup (map fst (l1 ++ l2)) ->
  NoDup (map fst l1) /\ NoDup (map fst l2) /\
  forall x k x' k', In (x, k) l1 -> In (x', k') l2 -> x <> x'.
Proof.
  rewrite map_app. intros Hnd. splits.
  - eapply NoDup_app_remove_r; eauto.
  - eapply NoDup_app_remove_l; eauto.
  - intros x k x' k' H1 H2 E. subst x'.
    induction l1 as [|[y j] l1 IH]; [destruct H1|].
    cbn [map app fst] in Hnd. inversion Hnd as [|? ? Hnotin Hnd']; subst.
    destruct H1 as [E | H1].
    + injection E as -> ->. apply Hnotin. apply in_or_app. right.
      apply (in_map fst l2 (x, k')), H2.
    + exact (IH Hnd' H1).
Qed.

Section Walk.
Variable mesg : ColExpMesg.
Hypothesis Hmesg : mesg = COLEXP_COLLAPSE_RECURSIVE \/ mesg = COLEXP_EXPAND_RECURSIVE.
Variable w0 : World D.
Variable M : Z.
Variable r : nat.
Hypothesis Hrises : fsv_mode w0 = FSV_TREEV -> forall x, rises t r x = true.

Lemma mesg_not_any : mesg <> COLEXP_EXPAND_ANY.
Proof. destruct Hmesg; congruence. Qed.

(** The request on [x], met at depth [k], [wb] being the state after the
    part run at the top of a request, if this is the top. *)
Lemma colexp_rec_core (h : nat) :
  forall x F (w wb : World D) (k : Z),
    fits t h x = true -> h + r <= F ->
    (if (depth w =? 0)%Z then colexp_begin t F x mesg w else Some w) = Some wb ->
    depth wb = k -> (0 <= k)%Z ->
    colexp_frame mesg w0 M wb ->
    NoDup (map fst (colexp_walk t h x k)) ->
    exists w',
      walked mesg w0 M wb w' (colexp_walk t h x k) /\
      depth w' = k /\
      (mesg = COLEXP_COLLAPSE_RECURSIVE -> max_depth w' = M) /\
      colexp t camera_look_at_full (S F) x mesg w
      = Some (if (k =? 0)%Z then colexp_end t camera_look_at_full F x mesg w' else w').
Proof.
  induction h as [|h IH]; intros x F w wb k Hfit HF Hb Hk Hk0 Hfr Hnd; [discriminate|].
  destruct F as [|F]; [lia|].
  cbn [fits] in Hfit. rewrite forallb_forall in Hfit.
  rewrite (colexp_rec_eq mesg (S F) x w Hmesg), Hb.
  destruct (colexp_animate_walked mesg w0 M x wb k mesg_not_any Hfr Hk)
    as (W1 & D1 & X1).
  set (w1 := colexp_animate x mesg wb) in *.
  assert (Hfr1 : colexp_frame mesg w0 M w1).
  { apply (walked_frame mesg w0 M wb w1 _ Hfr W1).
    intros E. rewrite X1. now apply Hfr. }
  destruct (geometry_colexp_initiated_frame r (S F) x w1) as (w2 & E2 & G1 & G2 & G3 & G4 & G5).
  { intros Hm. apply Hrises. destruct Hfr1 as (_ & _ & Em & _). congruence. }
  { lia. }
  rewrite E2.
  set (w3 := set_depth (depth w2 + 1) w2).
  assert (Hfr3 : colexp_frame mesg w0 M w3).
  { destruct Hfr1 as (F1 & F2 & F3 & F4 & F5 & F6).
    unfold colexp_frame, w3. cbn [anim fsv_mode colexp_time max_depth set_depth].
    rewrite G1, G2, G3, G5. splits; auto. }
  (* the loop over the subdirectories *)
  assert (Hloop : forall cs (wa : World D),
            (forall c, In c cs -> fits t h c = true) ->
            depth wa = (k + 1)%Z -> colexp_frame mesg w0 M wa ->
            NoDup (map fst (flat_map (fun c => colexp_walk t h c (k + 1))
                              (leading_dirs t cs))) ->
            exists w',
              subdirs_loop t (fun node => colexp t camera_look_at_full (S F) node mesg) cs wa
              = Some w' /\
              walked mesg w0 M wa w'
                (flat_map (fun c => colexp_walk t h c (k + 1)) (leading_dirs t cs)) /\
              depth w' = (k + 1)%Z /\
              (mesg = COLEXP_COLLAPSE_RECURSIVE -> max_depth w' = M)).
  { induction cs as [|c cs IHcs]; intros wa Hc Hda Hfra Hnda.
    - exists wa. cbn. splits; auto; [apply walked_nil, Hfra | apply Hfra].
    - cbn [subdirs_loop leading_dirs] in *. destruct (NODE_IS_DIR t c).
      + cbn [flat_map] in *.
        destruct (NoDup_fst_app_disjoint _ _ Hnda) as (N1 & N2 & N3).
        destruct (IH c F wa wa (k + 1)%Z (Hc c (or_introl eq_refl)) ltac:(lia))
          as (wc & Wc & Dc & Xc & Ec); auto; try lia.
        { rewrite Hda. destruct (Z.eqb_spec (k + 1) 0); [lia | reflexivity]. }
        rewrite Ec. destruct (Z.eqb_spec (k + 1) 0) as [? | _]; [lia|].
        destruct (IHcs wc (fun c' Hc' => Hc c' (or_intror Hc')) Dc
                    (walked_frame mesg w0 M wa wc _ Hfra Wc Xc) N2)
          as (w' & E' & W' & D' & X').
        exists w'. splits; auto.
        apply (walked_app mesg w0 M wa wc w' _ _ Wc W' N3).
      + exists wa. cbn. splits; auto; [apply walked_nil, Hfra | apply Hfra]. }
  cbn [colexp_walk map fst] in Hnd.
  inversion Hnd as [|? ? Hnotin Hnd']; subst.
  destruct (Hloop (children (t x)) w3 Hfit) as (w4 & E4 & W4 & D4 & X4); auto.
  { unfold w3. cbn [depth set_depth]. rewrite G4, D1. reflexivity. }
  rewrite E4. cbv zeta.
  set (w5 := set_depth (depth w4 - 1) w4).
  set (w6 := match mesg with
             | COLEXP_EXPAND_RECURSIVE => set_max_depth (Z.max (max_depth w5) (depth w5)) w5
             | _ => w5
             end).
  assert (H6 : anim w6 = anim w4 /\ fsv_mode w6 = fsv_mode w4 /\
               colexp_time w6 = colexp_time w4 /\ depth w6 = depth wb /\
               (mesg = COLEXP_COLLAPSE_RECURSIVE -> max_depth w6 = M)).
  { unfold w6, w5. destruct mesg; cbn; splits; auto; try lia; try discriminate. }
  destruct H6 as (A6 & M6 & T6 & D6 & X6).
  exists w6. rewrite D6. splits; auto.
  - cbn [colexp_walk].
    apply (walked_app mesg w0 M wb w1 w6 [(x, depth wb)] _ W1).
    + apply (walked_shift mesg w0 M w3 w1 w4 w6 _ W4); auto.
    + intros y j y' j' [E | []] Hin' Ey. injection E as <- <-. subst y'.
      apply Hnotin. apply (in_map fst _ (x, j')), Hin'.
  - destruct (depth wb =? 0)%Z; reflexivity.
Qed.

End Walk.

(** *** The whole request *)

(** camera_look_at_full( ) animates the camera; it does not touch the
    morph of a deployment. *)
Hypothesis camera_keeps_deployments :
  forall n ty tm (w : World D) x,
    g_list_find_custom (morph_queue (anim (camera_look_at_full n ty tm w))) (VarDeployment x)
    = g_list_find_custom (morph_queue (anim w)) (VarDeployment x).

Lemma colexp_end_deployments (fuel n : nat) (mesg : ColExpMesg) (w : World D) (x : nat) :
  g_list_find_custom
    (morph_queue (anim (colexp_end t camera_look_at_full fuel n mesg w))) (VarDeployment x)
  = g_list_find_custom (morph_queue (anim w)) (VarDeployment x).
Proof.
  unfold colexp_end. cbv zeta. cbn [anim set_scrollbars_colexp_adjust].
  destruct (negb (camera_manual_control w)); [|reflexivity].
  destruct mesg;
    repeat match goal with
           | |- context [if ?c then _ else _] => destruct c
           end;
    rewrite ?camera_keeps_deployments; reflexivity.
Qed.

(** X16.  A recursive collapse or expansion requested on [dnode], with
    nothing of the kind in progress ([depth] is 0), acts on [dnode] and,
    level by level, on the subdirectories below it.  Each directory met
    at depth [k] gets one record in the morph queue, replacing what was
    animating its deployment: its deployment is held for [k] times the
    duration of one level in an expansion, for [M - k] times in a collapse,
    [M] being what max_expanded_depth( ) returns for [dnode], and then
    taken to 1.0 (expansion) or 0.0 (collapse) in one duration.  So an
    expansion opens the tree from [dnode] down and a collapse closes it
    from the deepest expanded level up.  The record of no other directory
    is touched. *)
Theorem colexp_recursive_cascade (mesg : ColExpMesg) (h r F dnode : nat) (w : World D) :
  mesg = COLEXP_COLLAPSE_RECURSIVE \/ mesg = COLEXP_EXPAND_RECURSIVE ->
  fits t h dnode = true ->
  (fsv_mode w = FSV_TREEV -> forall x, rises t r x = true) ->
  h + r <= F ->
  depth w = 0%Z ->
  fsv_mode w = FSV_DISCV \/ fsv_mode w = FSV_MAPV \/ fsv_mode w = FSV_TREEV ->
  queue_ok (morph_queue (anim w)) ->
  NoDup (map fst (colexp_walk t h dnode 0)) ->
  exists M w',
    max_expanded_depth t F w dnode = Some M /\
    colexp t camera_look_at_full (S F) dnode mesg w = Some w' /\
    (forall x k, In (x, k) (colexp_walk t h dnode 0) ->
       g_list_find_custom (morph_queue (anim w')) (VarDeployment x)
       = Some (colexp_record mesg w x (colexp_wait_count mesg M k))) /\
    (forall y, ~ In y (map fst (colexp_walk t h dnode 0)) ->
       g_list_find_custom (morph_queue (anim w')) (VarDeployment y)
       = g_list_find_custom (morph_queue (anim w)) (VarDeployment y)).
Proof.
  intros Hmesg Hfit Hr HF Hdep Hmode Hok Hnd.
  destruct (colexp_begin_recursive mesg h F dnode w Hmesg Hfit ltac:(lia) Hmode)
    as (f & M & EM & Eb).
  set (wb := set_colexp_time (mode_colexp_time (fsv_mode w))
               (set_max_depth (match mesg with
                               | COLEXP_COLLAPSE_RECURSIVE => M
                               | _ => 0%Z
                               end) (set_ctree_expanded f w))) in *.
  assert (Hfr : colexp_frame mesg w M wb).
  { unfold colexp_frame, wb. cbn. splits; auto. intros ->. reflexivity. }
  destruct (colexp_rec_core mesg Hmesg w M r Hr h dnode F w wb 0%Z Hfit HF)
    as (w' & W & _ & _ & E); auto; try lia.
  { rewrite Hdep. exact Eb. }
  exists M. eexists. split; [exact EM|]. split; [exact E|].
  cbn [Z.eqb]. destruct W as (_ & _ & _ & _ & _ & W6 & W7).
  split.
  - intros x k Hin. rewrite colexp_end_deployments. now apply W6.
  - intros y Hy. rewrite colexp_end_deployments. rewrite W7; [reflexivity|].
    intros x k Hin E'. injection E' as ->. apply Hy.
    apply (in_map fst _ (x, k)), Hin.
Qed.

(** X17.  A plain expansion does not walk the tree and does not wait: the
    request, made with nothing of the kind in progress, replaces whatever
    was animating the deployment of [dnode] by a single stage that takes it
    from its present value to 1.0 in one duration, starting now, and
    touches the record of no other directory. *)
Theorem colexp_expand_single (F dnode : nat) (chain : list nat) (w : World D) :
  under_root t dnode chain -> NODE_IS_DIR t dnode = true ->
  List.length chain + 2 <= F ->
  depth w = 0%Z ->
  fsv_mode w = FSV_DISCV \/ fsv_mode w = FSV_MAPV \/ fsv_mode w = FSV_TREEV ->
  queue_ok (morph_queue (anim w)) ->
  exists w',
    colexp t camera_look_at_full (S F) dnode COLEXP_EXPAND w = Some w' /\
    g_list_find_custom (morph_queue (anim w')) (VarDeployment dnode)
    = Some (expand_stage dnode (deployment w dnode) (clock (anim w))
              (mode_colexp_time (fsv_mode w))) /\
    (forall y, y <> dnode ->
       g_list_find_custom (morph_queue (anim w')) (VarDeployment y)
       = g_list_find_custom (morph_queue (anim w)) (VarDeployment y)).
Proof.
  intros Hu Hn HF Hdep Hmode Hok.
  destruct (dirtree_entry_expand_loop_returns D t dnode chain Hu Hn F w HF) as (f & Ef).
  set (wb := set_colexp_time (mode_colexp_time (fsv_mode w))
               (set_max_depth 0%Z (set_ctree_expanded f w))).
  assert (Eb : colexp_begin t F dnode COLEXP_EXPAND w = Some wb).
  { unfold colexp_begin, dirtree_entry_expand, wb. rewrite Ef.
    cbn [fsv_mode set_max_depth set_ctree_expanded].
    destruct Hmode as [E | [E | E]]; rewrite E; reflexivity. }
  assert (Hfr : colexp_frame COLEXP_EXPAND w 0%Z wb).
  { unfold colexp_frame, wb. cbn. splits; auto; discriminate. }
  destruct (colexp_animate_walked COLEXP_EXPAND w 0%Z dnode wb 0%Z ltac:(discriminate)
              Hfr ltac:(unfold wb; cbn; exact Hdep))
    as ((_ & _ & _ & _ & _ & W6 & W7) & D1 & _).
  set (w1 := colexp_animate dnode COLEXP_EXPAND wb) in *.
  destruct (geometry_colexp_initiated_returns D t dnode chain Hu Hn F w1 ltac:(lia))
    as (w2 & E2 & G1 & _ & _ & G4 & _).
  cbn [colexp]. rewrite Hdep. cbn [Z.eqb]. rewrite Eb. cbv zeta. fold w1. rewrite E2.
  rewrite G4, D1. cbn [Z.eqb].
  eexists. split; [reflexivity|]. split.
  - rewrite colexp_end_deployments, G1.
    rewrite (W6 dnode 0%Z (or_introl eq_refl)).
    unfold colexp_record, colexp_wait_count. reflexivity.
  - intros y Hy. rewrite colexp_end_deployments, G1. rewrite W7; [reflexivity|].
    intros x k [E | []] E'. injection E as <- <-. injection E' as ->. now apply Hy.
Qed.

End ColexpRecursive.

(** *** A collapse and an expansion of the example tree *)

Lemma ex_camera_keeps_deployments :
  forall n ty tm (w : World R) x,
    g_list_find_custom (morph_queue (anim (ex_camera n ty tm w))) (VarDeployment x)
    = g_list_find_custom (morph_queue (anim w)) (VarDeployment x).
Proof. reflexivity. Qed.

Lemma colexp_recursive_cascade_witness :
  exists M w',
    max_expanded_depth ex_tree 10 ex_worldR 3 = Some M /\
    colexp ex_tree ex_camera 11 3 COLEXP_EXPAND_RECURSIVE ex_worldR = Some w' /\
    (forall x k, In (x, k) [(3, 0%Z); (4, 1%Z); (5, 2%Z)] ->
       g_list_find_custom (morph_queue (anim w')) (VarDeployment x)
       = Some (colexp_record COLEXP_EXPAND_RECURSIVE ex_worldR x k)) /\
    (forall y, ~ In y [3; 4; 5] ->
       g_list_find_custom (morph_queue (anim w')) (VarDeployment y)
       = g_list_find_custom (morph_queue (anim ex_worldR)) (VarDeployment y)).
Proof.
  apply (colexp_recursive_cascade R ex_tree ex_camera ex_camera_keeps_deployments
           COLEXP_EXPAND_RECURSIVE 4 0 10 3 ex_worldR).
  - right; reflexivity.
  - reflexivity.
  - discriminate.
  - lia.
  - reflexivity.
  - right; left; reflexivity.
  - split; constructor.
  - cbn. repeat constructor; cbn; intuition discriminate.
Defined.

Lemma colexp_expand_single_witness :
  exists w',
    colexp ex_tree ex_camera 11 5 COLEXP_EXPAND ex_worldR = Some w' /\
    g_list_find_custom (morph_queue (anim w')) (VarDeployment 5)
    = Some (expand_stage 5 (deployment ex_worldR 5) (clock (anim ex_worldR))
              (mode_colexp_time (fsv_mode ex_worldR))) /\
    (forall y, y <> 5 ->
       g_list_find_custom (morph_queue (anim w')) (VarDeployment y)
       = g_list_find_custom (morph_queue (anim ex_worldR)) (VarDeployment y)).
Proof.
  apply (colexp_expand_single R ex_tree ex_camera ex_camera_keeps_deployments
           10 5 [4; 3; 2; 1] ex_worldR).
  - exact ex_tree_under_root.
  - reflexivity.
  - simpl; lia.
  - reflexivity.
  - right; left; reflexivity.
  - split; constructor.
Defined.

(** * geometry.c: the MapV geometry of a whole tree *)

Section TreeWalkFacts.
Variable t : Tree.

Lemma nodes_below_S (n x : nat) :
  nodes_below t (S n) x = flat_map (node_and_below t n) (children (t x)).
Proof. reflexivity. Qed.

Lemma dir_below_child_in (d : nat) :
  forall x, dir_below t x d ->
  forall n e, fits t n x = true -> In e (children (t d)) -> In e (nodes_below t n x).
Proof.
  induction 1 as [x | x c d Hc Hdir Hb IH]; intros n e Hf He.
  - destruct n as [|n]; [discriminate|]. rewrite nodes_below_S.
    apply in_flat_map. exists e. split; [exact He | now left].
  - destruct n as [|n]; [discriminate|]. rewrite nodes_below_S.
    cbn [fits] in Hf. rewrite forallb_forall in Hf.
    apply in_flat_map. exists c. split; [exact Hc|].
    unfold node_and_below. rewrite Hdir. right. apply IH; auto.
Qed.

Lemma dir_below_in (d : nat) :
  forall x, dir_below t x d ->
  forall n, fits t n x = true -> d = x \/ In d (nodes_below t n x).
Proof.
  induction 1 as [x | x c d Hc Hdir Hb IH]; intros n Hf; [now left|].
  right. destruct n as [|n]; [discriminate|]. rewrite nodes_below_S.
  cbn [fits] in Hf. rewrite forallb_forall in Hf.
  apply in_flat_map. exists c. split; [exact Hc|].
  unfold node_and_below. rewrite Hdir.
  destruct (IH n (Hf c Hc)) as [-> | Hin]; [now left | now right].
Qed.

Lemma NoDup_app_parts {A : Type} (l1 l2 : list A) :
  NoDup (l1 ++ l2) ->
  NoDup l1 /\ NoDup l2 /\ forall x, In x l1 -> ~ In x l2.
Proof.
  induction l1 as [|a l1 IH]; cbn [app]; intros Hn.
  - splits; [constructor | exact Hn | intros x []].
  - inversion Hn as [|a' l' Ha Hn']; subst.
    destruct (IH Hn') as (N1 & N2 & N3). splits.
    + constructor; [|exact N1]. intros Hin. apply Ha, in_or_app. now left.
    + exact N2.
    + intros x [<- | Hx] Hin; [apply Ha, in_or_app; now right | exact (N3 x Hx Hin)].
Qed.

End TreeWalkFacts.

Section MapVFrame.
Variable D : Type.
Context `{Double D} `{Libm D}.
Variable t : Tree.

Lemma reset_deployment_mapv_geom (x : nat) (w : World D) :
  mapv_geom (reset_deployment x w) = mapv_geom w.
Proof. reflexivity. Qed.

(** mapv_init_recursive( ) on [x] stores the geometry of the nodes below
    [x] and of no other. *)
Lemma mapv_assign_frame (n : nat) (pl : list (nat * MapVGeomParams D)) :
  (forall c w w', mapv_init_recursive t n c w = Some w' ->
     forall y, ~ In y (nodes_below t n c) -> mapv_geom w' y = mapv_geom w y) ->
  forall w w', mapv_assign t (mapv_init_recursive t n) pl w = Some w' ->
  forall y, ~ In y (flat_map (node_and_below t n) (map fst pl)) ->
    mapv_geom w' y = mapv_geom w y.
Proof.
  intros IHn. induction pl as [|[c gp] pl IH]; intros w w' E y Hy.
  - cbn in E. now injection E as <-.
  - cbn [mapv_assign] in E. cbv zeta in E.
    cbn [map fst flat_map] in Hy.
    assert (Hy1 : ~ In y (node_and_below t n c)) by (intros Hin; apply Hy, in_or_app; now left).
    assert (Hy2 : ~ In y (flat_map (node_and_below t n) (map fst pl)))
      by (intros Hin; apply Hy, in_or_app; now right).
    assert (Hyc : y <> c) by (intros ->; apply Hy1; now left).
    set (w1 := set_mapv_geom (upd (mapv_geom w) c gp) w) in *.
    assert (E1 : mapv_geom w1 y = mapv_geom w y).
    { unfold w1. cbn. unfold upd. destruct (Nat.eqb y c) eqn:Eq; [|reflexivity].
      apply Nat.eqb_eq in Eq. contradiction. }
    unfold node_and_below in Hy1.
    destruct (NODE_IS_DIR t c) eqn:Hd.
    + destruct (mapv_init_recursive t n c w1) as [w2|] eqn:E2; [|discriminate].
      rewrite (IH w2 w' E y Hy2).
      rewrite (IHn c w1 w2 E2 y); [exact E1|].
      intros Hin. apply Hy1. now right.
    + rewrite (IH w1 w' E y Hy2). exact E1.
Qed.

Lemma mapv_init_recursive_frame (n : nat) :
  forall x w w', mapv_init_recursive t n x w = Some w' ->
  forall y, ~ In y (nodes_below t n x) -> mapv_geom w' y = mapv_geom w y.
Proof.
  induction n as [|n IH]; intros x w w' E y Hy; [discriminate|].
  cbn [mapv_init_recursive] in E. cbv zeta in E.
  destruct (children (t x)) as [|c0 cs] eqn:Ec.
  - injection E as <-. reflexivity.
  - rewrite (mapv_assign_frame n _ IH _ _ E y).
    + reflexivity.
    + rewrite mapv_layout_nodes. rewrite nodes_below_S, Ec in Hy. exact Hy.
Qed.

End MapVFrame.

Section MapVHeights.
Variable D : Type.
Context `{Double D}.
Variable t : Tree.

Lemma mapv_output_row_heights (scale_factor block_dims_y : D) (blocks : list (MapVBlock D)) :
  forall px py,
  Forall (fun p => height (snd p) = d_of_Z (if NODE_IS_DIR t (fst p) then 384 else 128))
    (mapv_output_row t scale_factor block_dims_y px py blocks).
Proof.
  induction blocks as [|b blocks IH]; intros px py; cbn [mapv_output_row]; [constructor|].
  cbv zeta. constructor; [cbn [fst snd height]; now destruct (NODE_IS_DIR t (blk_node b)) | apply IH].
Qed.

Lemma mapv_output_heights (scale_factor dir_x start_x : D) (rows : list (MapVRow D)) :
  forall py,
  Forall (fun p => height (snd p) = d_of_Z (if NODE_IS_DIR t (fst p) then 384 else 128))
    (mapv_output t scale_factor dir_x start_x py rows).
Proof.
  induction rows as [|r rows IH]; intros py; cbn [mapv_output]; [constructor|].
  cbv zeta. apply Forall_app. split; [apply mapv_output_row_heights | apply IH].
Qed.

Lemma mapv_layout_heights (g : MapVGeomParams D) (nodes : list nat) :
  Forall (fun p => height (snd p) = d_of_Z (if NODE_IS_DIR t (fst p) then 384 else 128)) (mapv_layout t g nodes).
Proof.
  unfold mapv_layout. cbv zeta.
  destruct (mapv_first_pass t (nominal_border (mapv_dir_dims g)) nodes d0) as [bl tot].
  apply mapv_output_heights.
Qed.

End MapVHeights.

Section MapVLaidOut.
Variable t : Tree.
Variable good : MapVGeomParams R -> Prop.
Hypothesis good_layout : forall g nodes,
  good g -> Forall (fun p => good (snd p)) (mapv_layout t g nodes).

Lemma mapv_laid_out_ext (w w' : World R) (d : nat) :
  mapv_geom w' d = mapv_geom w d ->
  (forall e, In e (children (t d)) -> mapv_geom w' e = mapv_geom w e) ->
  mapv_laid_out t w d -> mapv_laid_out t w' d.
Proof.
  unfold mapv_laid_out. intros E He L. rewrite E, <- L.
  apply map_ext_in. intros e Hin. now rewrite He.
Qed.

Lemma map_pair_fst {A : Type} (f : nat -> A) (pl : list (nat * A)) :
  (forall c gp, In (c, gp) pl -> f c = gp) ->
  map (fun c => (c, f c)) (map fst pl) = pl.
Proof.
  induction pl as [|[c gp] pl IH]; intros Hf; [reflexivity|].
  cbn [map fst]. rewrite (Hf c gp) by now left.
  f_equal. apply IH. intros c' gp' Hin. apply Hf. now right.
Qed.

Lemma mapv_assign_nested (n : nat) (pl : list (nat * MapVGeomParams R)) :
  (forall x w w', fits t n x = true -> NoDup (x :: nodes_below t n x) ->
     good (mapv_geom w x) -> mapv_init_recursive t n x w = Some w' ->
     laid_below t good w' x) ->
  forall w w',
    Forall (fun p => good (snd p)) pl ->
    (forall c, In c (map fst pl) -> fits t n c = true) ->
    NoDup (flat_map (node_and_below t n) (map fst pl)) ->
    mapv_assign t (mapv_init_recursive t n) pl w = Some w' ->
    (forall c gp, In (c, gp) pl -> mapv_geom w' c = gp) /\
    (forall c, In c (map fst pl) -> NODE_IS_DIR t c = true -> laid_below t good w' c).
Proof.
  intros IHn. induction pl as [|[c gp] pl IH]; intros w w' Hg Hf Hnd E.
  - split; [intros c gp [] | intros c []].
  - cbn [mapv_assign] in E. cbv zeta in E.
    cbn [map fst flat_map] in Hnd, Hf.
    destruct (NoDup_app_parts _ _ Hnd) as (N1 & N2 & N3).
    inversion Hg as [|p pl' Hgp Hg']; subst. cbn [snd] in Hgp.
    set (w1 := set_mapv_geom (upd (mapv_geom w) c gp) w) in *.
    assert (E1 : mapv_geom w1 c = gp) by (unfold w1; cbn; unfold upd; now rewrite Nat.eqb_refl).
    assert (Hrec : exists w2,
      (if NODE_IS_DIR t c then mapv_init_recursive t n c w1 else Some w1) = Some w2 /\
      mapv_assign t (mapv_init_recursive t n) pl w2 = Some w' /\
      (forall y, ~ In y (if NODE_IS_DIR t c then nodes_below t n c else []) ->
         mapv_geom w2 y = mapv_geom w1 y) /\
      (NODE_IS_DIR t c = true -> laid_below t good w2 c)).
    { destruct (NODE_IS_DIR t c) eqn:Hd.
      - destruct (mapv_init_recursive t n c w1) as [w2|] eqn:E2; [|discriminate].
        exists w2. splits; auto.
        + intros y Hy. exact (mapv_init_recursive_frame R t n c w1 w2 E2 y Hy).
        + intros _. apply (IHn c w1 w2); auto.
          * apply Hf. now left.
          * unfold node_and_below in N1. now rewrite Hd in N1.
          * now rewrite E1.
      - exists w1. splits; auto. discriminate. }
    destruct Hrec as (w2 & _ & E3 & F2 & B2).
    destruct (IH w2 w' Hg' (fun c' Hc' => Hf c' (or_intror Hc')) N2 E3) as (P1 & P2).
    pose proof (mapv_assign_frame R t n pl (mapv_init_recursive_frame R t n) w2 w' E3) as F3.
    assert (Hkeep : forall y, In y (node_and_below t n c) -> mapv_geom w' y = mapv_geom w2 y).
    { intros y Hy. apply F3. intros Hin. exact (N3 y Hy Hin). }
    assert (Hc2 : mapv_geom w2 c = gp).
    { rewrite F2; [exact E1|]. intros Hin.
      unfold node_and_below in N1. apply NoDup_cons_iff in N1. now apply N1. }
    split.
    + intros c' gp' [Heq | Hin]; [|exact (P1 c' gp' Hin)].
      injection Heq as <- <-. rewrite Hkeep by now left. exact Hc2.
    + cbn [map fst]. intros c' [<- | Hin] Hd'; [|exact (P2 c' Hin Hd')].
      intros d Hb. destruct (B2 Hd' d Hb) as (L & G).
      assert (Hfc : fits t n c = true) by (apply Hf; now left).
      assert (Hdin : In d (node_and_below t n c)).
      { unfold node_and_below. rewrite Hd'.
        destruct (dir_below_in t d c Hb n Hfc) as [-> | Hin]; [now left | now right]. }
      assert (Hein : forall e, In e (children (t d)) -> In e (node_and_below t n c)).
      { intros e He. unfold node_and_below. rewrite Hd'. right.
        exact (dir_below_child_in t d c Hb n e Hfc He). }
      split.
      * apply (mapv_laid_out_ext w2 w' d); auto.
      * rewrite Hkeep; auto.
Qed.

Lemma mapv_init_recursive_nested (n : nat) :
  forall x w w', fits t n x = true -> NoDup (x :: nodes_below t n x) ->
    good (mapv_geom w x) -> mapv_init_recursive t n x w = Some w' ->
    laid_below t good w' x.
Proof.
  induction n as [|n IH]; intros x w w' Hf Hnd Hg E; [discriminate|].
  pose proof (mapv_init_recursive_frame R t (S n) x w w' E) as F.
  inversion Hnd as [|x' l' Hx Hnd']; subst.
  assert (Ex : mapv_geom w' x = mapv_geom w x) by (apply F; exact Hx).
  cbn [mapv_init_recursive] in E. cbv zeta in E.
  assert (Hnd2 : NoDup (flat_map (node_and_below t n) (children (t x)))) by exact Hnd'.
  cbn [fits] in Hf. rewrite forallb_forall in Hf.
  destruct (children (t x)) as [|c0 cs] eqn:Ec.
  - injection E as <-. intros d Hb.
    assert (d = x) as ->.
    { inversion Hb as [|x' c d' Hc]; subst; [reflexivity|]. rewrite Ec in Hc. destruct Hc. }
    split; [|exact Hg]. unfold mapv_laid_out. rewrite Ec. reflexivity.
  - rewrite <- Ec in *. rewrite reset_deployment_mapv_geom in E.
    set (pl := mapv_layout t (mapv_geom w x) (children (t x))) in *.
    assert (Hpl : map fst pl = children (t x)) by apply mapv_layout_nodes.
    destruct (mapv_assign_nested n pl IH (reset_deployment x w) w'
                (good_layout _ _ Hg)
                ltac:(rewrite Hpl; exact Hf) ltac:(rewrite Hpl; exact Hnd2) E) as (P1 & P2).
    intros d Hb. inversion Hb as [|x' c d' Hc Hd Hb']; subst.
    + split; [|rewrite Ex; exact Hg].
      unfold mapv_laid_out. rewrite Ex. fold pl. rewrite <- Hpl.
      apply map_pair_fst. exact P1.
    + apply (P2 c); auto. rewrite Hpl. exact Hc.
Qed.

End MapVLaidOut.

Section MapVNesting.
Variable t : Tree.
Hypothesis sizes : forall n, dir_size_ok t 256 n.

Local Open Scope R_scope.

Ltac on_reals :=
  unfold d_lit, d0, d1, d2, SQR in *;
  cbn [d_of_Z d_add d_sub d_mul d_div d_opp d_sqrt d_lt d_le real] in *.

Lemma sizes_all (nodes : list nat) : sizes_ok t nodes.
Proof. intros n _. apply sizes. Qed.

Lemma mapv_layout_good (g : MapVGeomParams R) (nodes : list nat) :
  mapv_good g -> Forall (fun p => mapv_good (snd p)) (mapv_layout t g nodes).
Proof.
  intros (Hw & Hd & _).
  destruct (mapv_layout_spec t g nodes Hw Hd (sizes_all nodes)) as (_ & L).
  pose proof (mapv_layout_heights R t g nodes) as Hh.
  rewrite Forall_forall in *. intros p Hp.
  destruct (L p Hp) as (_ & P1 & P2). unfold mapv_good. splits; auto.
  rewrite (Hh p Hp). destruct (NODE_IS_DIR t (fst p)); on_reals; lra.
Qed.

(** The top face of a directory of height 0 or more, trimmed, lies inside
    the directory's rectangle. *)
Lemma mapv_face_inside (g gp : MapVGeomParams R) :
  mapv_good g ->
  inside_rect
    (MAPV_NODE_CENTER_X g - dir_dims_x (mapv_dir_dims g) / 2)
    (MAPV_NODE_CENTER_Y g - dir_dims_y (mapv_dir_dims g) / 2)
    (MAPV_NODE_CENTER_X g + dir_dims_x (mapv_dir_dims g) / 2)
    (MAPV_NODE_CENTER_Y g + dir_dims_y (mapv_dir_dims g) / 2) gp ->
  inside_rect (c0_x g) (c0_y g) (c1_x g) (c1_y g) gp.
Proof.
  intros (Hw & Hd & Hh) L.
  assert (Hdims : dir_dims_x (mapv_dir_dims g) <= MAPV_NODE_WIDTH g /\
                  dir_dims_y (mapv_dir_dims g) <= MAPV_NODE_DEPTH g).
  { destruct (mapv_dir_dims_pos g Hw Hd) as (_ & _ & Hnb). revert Hnb.
    unfold mapv_dir_dims. cbn [dir_dims_x dir_dims_y nominal_border].
    unfold mapv_side_slant_ratio_directory.
    set (nb := MIN _ _). intros Hnb.
    set (W := MAPV_NODE_WIDTH g) in *. set (Dp := MAPV_NODE_DEPTH g) in *.
    on_reals. rewrite !MIN_real.
    assert (0 <= Rmin (height g) (8589935 / 268435456 * W))
      by (apply Rmin_glb; [exact Hh | nra]).
    assert (0 <= Rmin (height g) (8589935 / 268435456 * Dp))
      by (apply Rmin_glb; [exact Hh | nra]).
    split; lra. }
  destruct Hdims as (Hdx & Hdy).
  unfold inside_rect, MAPV_NODE_CENTER_X, MAPV_NODE_CENTER_Y, MAPV_NODE_WIDTH,
    MAPV_NODE_DEPTH in *.
  on_reals. destruct L as (P1 & P2 & P3 & P4). splits; lra.
Qed.

Variable fstree : nat.

Lemma mapv_init_root (fuel root : nat) (rest : list nat) (w : World R) :
  children (t fstree) = root :: rest ->
  fits t fuel root = true ->
  NoDup (root :: nodes_below t fuel root) ->
  (0 < subtree_size (t fstree))%Z ->
  exists w0 w',
    mapv_init_recursive t fuel root w0 = Some w' /\
    mapv_init t fstree fuel w = Some w' /\
    mapv_geom w' root = mapv_geom w0 root /\
    (fstree <> root -> height (mapv_geom w0 fstree) = 0) /\
    mapv_good (mapv_geom w0 root) /\
    let g := mapv_geom w0 root in
    c0_x g = - c1_x g /\ c0_y g = - c1_y g /\
    MAPV_NODE_WIDTH g = 12 / 10 * MAPV_NODE_DEPTH g /\
    mapv_footprint g = IZR (subtree_size (t fstree)) /\ height g = 384.
Proof.
  intros Hc Hf Hnd Hs.
  unfold mapv_init. rewrite Hc. cbv zeta.
  match goal with |- context [mapv_init_recursive t fuel root ?w0] => set (w1 := w0) end.
  destruct (mapv_init_recursive_returns R t fuel root w1 Hf) as (w' & E).
  exists w1, w'. split; [exact E|]. split; [exact E|].
  split.
  { apply (mapv_init_recursive_frame R t fuel root w1 w' E).
    now apply NoDup_cons_iff in Hnd. }
  split.
  { intros Hne. unfold w1. cbn [mapv_geom set_mapv_geom].
    unfold upd at 1. destruct (Nat.eqb fstree root) eqn:Eq;
      [apply Nat.eqb_eq in Eq; contradiction|].
    unfold upd. rewrite Nat.eqb_refl. reflexivity. }
  assert (Eg : mapv_geom w1 root
               = let y := sqrt (IZR (subtree_size (t fstree)) / (12 / 10)) in
                 let x := 12 / 10 * y in
                 mkMapVGeomParams (- (1 / 2) * x) (- (1 / 2) * y) (1 / 2 * x) (1 / 2 * y) 384).
  { unfold w1. cbn [mapv_geom set_mapv_geom]. unfold upd at 1. rewrite Nat.eqb_refl.
    reflexivity. }
  rewrite Eg. cbv zeta.
  assert (Hy : 0 < sqrt (IZR (subtree_size (t fstree)) / (12 / 10))).
  { apply sqrt_lt_R0. apply IZR_lt in Hs. apply Rdiv_lt_0_compat; lra. }
  assert (Hyy : sqrt (IZR (subtree_size (t fstree)) / (12 / 10))
                * sqrt (IZR (subtree_size (t fstree)) / (12 / 10))
                = IZR (subtree_size (t fstree)) / (12 / 10)).
  { apply sqrt_sqrt. apply IZR_lt in Hs. apply Rlt_le, Rdiv_lt_0_compat; lra. }
  set (y := sqrt _) in *.
  unfold mapv_good, mapv_footprint, MAPV_NODE_WIDTH, MAPV_NODE_DEPTH.
  cbn [c0_x c0_y c1_x c1_y height]. on_reals.
  splits; lra.
Qed.

(** X18.  In exact arithmetic, mapv_init( ) on a tree (no node is met
    twice below the root directory) whose total size is positive returns
    with the root directory's rectangle centred on the origin, 1.2 times
    as wide as it is deep, 384 high, and of an area equal to the total
    size in bytes. *)
Theorem mapv_init_root_footprint (fuel root : nat) (rest : list nat) (w : World R) :
  children (t fstree) = root :: rest ->
  fits t fuel root = true ->
  NoDup (root :: nodes_below t fuel root) ->
  (0 < subtree_size (t fstree))%Z ->
  exists w', mapv_init t fstree fuel w = Some w' /\
    let g := mapv_geom w' root in
    c0_x g = - c1_x g /\ c0_y g = - c1_y g /\
    MAPV_NODE_WIDTH g = 12 / 10 * MAPV_NODE_DEPTH g /\
    mapv_footprint g = IZR (subtree_size (t fstree)) /\ height g = 384.
Proof.
  intros Hc Hf Hnd Hs.
  destruct (mapv_init_root fuel root rest w Hc Hf Hnd Hs) as (w0 & w' & _ & E & Eg & _ & _ & P).
  exists w'. split; [exact E|]. cbv zeta in *. rewrite Eg. exact P.
Qed.

(** X19.  In exact arithmetic, after mapv_init( ) on a tree in which no
    sum of a directory's own size (counted as 256 at least) and the size
    of its subtree leaves the range of int64, every directory at or below the root directory has a rectangle of positive
    width and depth, its children have exactly the geometry the layout of
    that rectangle gives them (nothing stored later overwrites it), and
    each child's rectangle, of positive width and depth, lies inside the
    directory's. *)
Theorem mapv_init_nested (fuel root : nat) (rest : list nat) (w : World R) :
  children (t fstree) = root :: rest ->
  fits t fuel root = true ->
  NoDup (root :: nodes_below t fuel root) ->
  (0 < subtree_size (t fstree))%Z ->
  exists w', mapv_init t fstree fuel w = Some w' /\
    forall d, dir_below t root d ->
      let g := mapv_geom w' d in
      0 < MAPV_NODE_WIDTH g /\ 0 < MAPV_NODE_DEPTH g /\
      map (fun c => (c, mapv_geom w' c)) (children (t d)) = mapv_layout t g (children (t d)) /\
      forall c, In c (children (t d)) ->
        inside_rect (c0_x g) (c0_y g) (c1_x g) (c1_y g) (mapv_geom w' c) /\
        0 < MAPV_NODE_WIDTH (mapv_geom w' c) /\ 0 < MAPV_NODE_DEPTH (mapv_geom w' c).
Proof.
  intros Hc Hf Hnd Hs.
  destruct (mapv_init_root fuel root rest w Hc Hf Hnd Hs) as (w0 & w' & E0 & E & _ & _ & G & _).
  exists w'. split; [exact E|]. intros d Hb. cbv zeta.
  destruct (mapv_init_recursive_nested t mapv_good mapv_layout_good fuel root w0 w' Hf Hnd
              G E0 d Hb) as (L & Hw & Hd & Hh).
  splits; auto.
  intros c Hin.
  assert (Hp : In (c, mapv_geom w' c) (mapv_layout t (mapv_geom w' d) (children (t d)))).
  { rewrite <- L. apply in_map_iff. exists c. split; [reflexivity | exact Hin]. }
  destruct (mapv_layout_tiles t (mapv_geom w' d) (children (t d)) Hw Hd (sizes_all _)) as (T & _).
  destruct (mapv_layout_spec t (mapv_geom w' d) (children (t d)) Hw Hd (sizes_all _)) as (_ & S).
  rewrite Forall_forall in T, S.
  destruct (S _ Hp) as (_ & S1 & S2). cbn [snd] in S1, S2.
  split; [|split; assumption].
  apply (mapv_face_inside (mapv_geom w' d)); [exact (conj Hw (conj Hd Hh))|].
  exact (T _ Hp).
Qed.

End MapVNesting.

(** *** The small filesystem laid out as a map *)

Lemma ex_tree_sizes : forall n, dir_size_ok ex_tree 256 n.
Proof.
  intros n _. unfold ex_tree, INT64_MAX.
  do 7 (destruct n as [|n]; [cbn; lia|]). cbn; lia.
Qed.

Lemma ex_tree_sizes64 : forall n, dir_size_ok ex_tree 64 n.
Proof.
  intros n Hd. destruct (ex_tree_sizes n Hd) as (A & B). split; [exact A | lia].
Qed.

Lemma ex_tree_is_tree : NoDup (1%nat :: nodes_below ex_tree 7 1).
Proof.
  cbn. repeat (constructor; [cbn; intuition discriminate|]). constructor.
Qed.

Lemma mapv_init_root_footprint_witness :
  exists w', mapv_init ex_tree 0 7 ex_worldR = Some w' /\
    mapv_footprint (mapv_geom w' 1%nat) = 1000%R.
Proof.
  destruct (mapv_init_root_footprint ex_tree 0 7 1 [] ex_worldR
              eq_refl eq_refl ex_tree_is_tree eq_refl) as (w' & E & P).
  exists w'. split; [exact E | apply P].
Defined.

Lemma mapv_init_nested_witness :
  exists w', mapv_init ex_tree 0 7 ex_worldR = Some w' /\
    inside_rect (c0_x (mapv_geom w' 5%nat)) (c0_y (mapv_geom w' 5%nat))
      (c1_x (mapv_geom w' 5%nat)) (c1_y (mapv_geom w' 5%nat)) (mapv_geom w' 7%nat).
Proof.
  destruct (mapv_init_nested ex_tree ex_tree_sizes 0 7 1 [] ex_worldR
              eq_refl eq_refl ex_tree_is_tree eq_refl) as (w' & E & P).
  exists w'. split; [exact E|].
  assert (Hb : dir_below ex_tree 1 5).
  { apply dir_below_child with (c := 2%nat); [now left | reflexivity|].
    apply dir_below_child with (c := 3%nat); [now left | reflexivity|].
    apply dir_below_child with (c := 4%nat); [now left | reflexivity|].
    apply dir_below_child with (c := 5%nat); [now left | reflexivity|].
    apply dir_below_here. }
  apply (P 5%nat Hb). cbn. auto.
Defined.

(** * geometry.c: the DiscV geometry of a whole tree *)

Section DiscVTrace.
Variable D : Type.
Context `{Double D} `{Libm D}.
Variable t : Tree.

Local Open Scope double_scope.

Lemma discv_assign_angles_cons (rec : nat -> D -> World D -> option (World D))
    (k : D) (stagger : bool) (c : nat) (rest : list nat) (first : bool)
    (theta0 theta1 : D) (even out : bool) (w : World D) :
  discv_assign_angles t rec k stagger (c :: rest) first theta0 theta1 even out w
  = let '(gp, theta0', theta1', out') :=
      discv_angle_step k stagger (discv_geom w c) first theta0 theta1 even out in
    let w1 := set_discv_geom (upd (discv_geom w) c gp) w in
    match (if NODE_IS_DIR t c then rec c (theta gp + d_of_Z 180) w1 else Some w1) with
    | Some w => discv_assign_angles t rec k stagger rest false theta0' theta1' (negb even) out' w
    | None => None
    end.
Proof.
  cbn [discv_assign_angles]. unfold discv_angle_step.
  destruct first; [|destruct even]; reflexivity.
Qed.

Lemma upd_other {A : Type} (f : nat -> A) (x y : nat) (v : A) :
  y <> x -> upd f x v y = f y.
Proof.
  intros Hn. unfold upd. destruct (Nat.eqb y x) eqn:E; [|reflexivity].
  apply Nat.eqb_eq in E. contradiction.
Qed.

(** The first loop. *)
Lemma discv_assign_radii_spec (dir_radius : D) (nodes : list nat) :
  forall total w,
    let r := discv_assign_radii t dir_radius nodes total w in
    snd r = fold_left (fun a c => a + discv_arc t dir_radius c) nodes total /\
    (forall y, ~ In y nodes -> discv_geom (fst r) y = discv_geom w y) /\
    (forall c, In c nodes ->
       radius (discv_geom (fst r) c) = discv_radius t c /\
       theta (discv_geom (fst r) c) = discv_arc t dir_radius c /\
       pos_x (discv_geom (fst r) c) = discv_dist t dir_radius c).
Proof.
  induction nodes as [|n nodes IH]; intros total w r.
  - subst r. cbn. splits; auto. intros c [].
  - subst r. cbn [discv_assign_radii]. cbv zeta.
    match goal with |- context [discv_assign_radii t dir_radius nodes ?a ?b] =>
      destruct (IH a b) as (A1 & A2 & A3); set (r := discv_assign_radii t dir_radius nodes a b) in * end.
    splits.
    + rewrite A1. reflexivity.
    + intros y Hy. rewrite A2 by (intros Hin; apply Hy; now right).
      unfold upd_discv. cbn. apply upd_other. intros ->. apply Hy. now left.
    + intros c Hc. destruct (in_dec Nat.eq_dec c nodes) as [Hin | Hnin]; [exact (A3 c Hin)|].
      destruct Hc as [<- | Hc]; [|contradiction].
      rewrite A2 by exact Hnin. unfold upd_discv. cbn. unfold upd. rewrite Nat.eqb_refl.
      cbn. splits; reflexivity.
Qed.

(** The second loop uses the radius, the arc width and the distance the
    first loop left, and nothing else of the geometry. *)
Lemma discv_place_ext (k : D) (stagger : bool) (g g' : nat -> DiscVGeomParams D)
    (nodes : list nat) :
  (forall c, In c nodes ->
     radius (g c) = radius (g' c) /\ theta (g c) = theta (g' c) /\ pos_x (g c) = pos_x (g' c)) ->
  forall first theta0 theta1 even out,
    discv_place k stagger g nodes first theta0 theta1 even out
    = discv_place k stagger g' nodes first theta0 theta1 even out.
Proof.
  induction nodes as [|c nodes IH]; intros Hg first theta0 theta1 even out; [reflexivity|].
  cbn [discv_place].
  assert (E : discv_angle_step k stagger (g c) first theta0 theta1 even out
              = discv_angle_step k stagger (g' c) first theta0 theta1 even out).
  { unfold discv_angle_step. destruct (Hg c (or_introl eq_refl)) as (-> & -> & ->). reflexivity. }
  rewrite E. destruct (discv_angle_step k stagger (g' c) first theta0 theta1 even out)
    as [[[gp th0] th1] o].
  f_equal. apply IH. intros c' Hin. apply Hg. now right.
Qed.

Lemma discv_angle_step_radius (k : D) (stagger : bool) (gparams : DiscVGeomParams D)
    (first : bool) (theta0 theta1 : D) (even out : bool) :
  radius (fst (fst (fst (discv_angle_step k stagger gparams first theta0 theta1 even out))))
  = radius gparams.
Proof. unfold discv_angle_step. destruct first; [|destruct even]; reflexivity. Qed.

(** discv_init_recursive( ) on [x] stores the geometry of the nodes below
    [x] and of no other. *)
Lemma discv_assign_angles_frame (n : nat) (k : D) (stagger : bool) (nodes : list nat) :
  (forall c th w w', discv_init_recursive t n c th w = Some w' ->
     forall y, ~ In y (nodes_below t n c) -> discv_geom w' y = discv_geom w y) ->
  forall first theta0 theta1 even out w w',
    discv_assign_angles t (discv_init_recursive t n) k stagger nodes first theta0 theta1
      even out w = Some w' ->
    forall y, ~ In y (flat_map (node_and_below t n) nodes) ->
      discv_geom w' y = discv_geom w y.
Proof.
  intros IHn. induction nodes as [|c nodes IH];
    intros first theta0 theta1 even out w w' E y Hy.
  - cbn in E. now injection E as <-.
  - rewrite discv_assign_angles_cons in E.
    destruct (discv_angle_step k stagger (discv_geom w c) first theta0 theta1 even out)
      as [[[gp th0] th1] o].
    cbv zeta in E. cbn [flat_map] in Hy.
    assert (Hy1 : ~ In y (node_and_below t n c)) by (intros Hin; apply Hy, in_or_app; now left).
    assert (Hy2 : ~ In y (flat_map (node_and_below t n) nodes))
      by (intros Hin; apply Hy, in_or_app; now right).
    assert (Hyc : y <> c) by (intros ->; apply Hy1; now left).
    set (w1 := set_discv_geom (upd (discv_geom w) c gp) w) in *.
    assert (E1 : discv_geom w1 y = discv_geom w y) by (unfold w1; cbn; now apply upd_other).
    unfold node_and_below in Hy1.
    destruct (NODE_IS_DIR t c) eqn:Hd.
    + destruct (discv_init_recursive t n c (theta gp + d_of_Z 180) w1) as [w2|] eqn:E2;
        [|discriminate].
      rewrite (IH _ _ _ _ _ w2 w' E y Hy2).
      rewrite (IHn c _ w1 w2 E2 y); [exact E1|].
      intros Hin. apply Hy1. now right.
    + rewrite (IH _ _ _ _ _ w1 w' E y Hy2). exact E1.
Qed.

Lemma discv_init_recursive_frame (n : nat) :
  forall x th w w', discv_init_recursive t n x th w = Some w' ->
  forall y, ~ In y (nodes_below t n x) -> discv_geom w' y = discv_geom w y.
Proof.
  induction n as [|n IH]; intros x th w w' E y Hy; [discriminate|].
  cbn [discv_init_recursive] in E. cbv zeta in E.
  set (w0 := if NODE_IS_DIR t x then reset_deployment x w else w) in *.
  assert (E0 : discv_geom w0 = discv_geom w) by (unfold w0; now destruct (NODE_IS_DIR t x)).
  destruct (children (t x)) as [|c0 cs] eqn:Ec.
  - injection E as <-. now rewrite E0.
  - rewrite <- Ec in *.
    pose proof (discv_assign_radii_spec (radius (discv_geom w0 x)) (children (t x)) d0 w0) as R.
    destruct (discv_assign_radii t (radius (discv_geom w0 x)) (children (t x)) d0 w0)
      as [w1 total].
    cbv zeta in R. cbn [fst snd] in R. destruct R as (_ & R2 & _).
    assert (Hyc : ~ In y (children (t x))).
    { intros Hin. apply Hy. rewrite nodes_below_S. apply in_flat_map.
      exists y. split; [exact Hin | now left]. }
    rewrite (discv_assign_angles_frame n _ _ _ IH _ _ _ _ _ _ _ E y).
    + rewrite R2 by exact Hyc. now rewrite E0.
    + intros Hin. apply Hy. rewrite nodes_below_S.
      apply in_flat_map in Hin. destruct Hin as (c & Hc & Hin).
      apply in_flat_map. exists c. split; [|exact Hin].
      apply g_list_sort_in in Hc. apply in_rev. exact Hc.
Qed.

Lemma discv_place_radius (k : D) (stagger : bool) (g : nat -> DiscVGeomParams D)
    (nodes : list nat) :
  forall first theta0 theta1 even out,
    Forall (fun p => radius (snd p) = radius (g (fst p)))
      (discv_place k stagger g nodes first theta0 theta1 even out).
Proof.
  induction nodes as [|c nodes IH]; intros first theta0 theta1 even out; [constructor|].
  cbn [discv_place].
  pose proof (discv_angle_step_radius k stagger (g c) first theta0 theta1 even out) as E.
  destruct (discv_angle_step k stagger (g c) first theta0 theta1 even out)
    as [[[gp th0] th1] o].
  constructor; [exact E | apply IH].
Qed.

Lemma g_list_sort_perm (cmp : nat -> nat -> comparison) (l : list nat) :
  Permutation (g_list_sort l cmp) l.
Proof.
  unfold g_list_sort. induction l as [|x l IH]; cbn [fold_right]; [constructor|].
  rewrite g_list_insert_sorted_perm. now constructor.
Qed.

Lemma discv_order_in (d c : nat) : In c (discv_order t d) <-> In c (children (t d)).
Proof.
  unfold discv_order. rewrite g_list_sort_in, <- in_rev. tauto.
Qed.

Lemma discv_order_perm (d : nat) : Permutation (discv_order t d) (children (t d)).
Proof.
  unfold discv_order. rewrite g_list_sort_perm. symmetry. apply Permutation_rev.
Qed.

Lemma discv_laid_out_ext (w w' : World D) (d : nat) :
  radius (discv_geom w' d) = radius (discv_geom w d) ->
  (forall e, In e (children (t d)) -> discv_geom w' e = discv_geom w e) ->
  discv_laid_out t w d -> discv_laid_out t w' d.
Proof.
  unfold discv_laid_out. intros E He (stem & L). exists stem. cbv zeta in *.
  rewrite E, <- L. apply map_ext_in. intros e Hin.
  apply discv_order_in in Hin. now rewrite He.
Qed.

Lemma discv_assign_angles_trace (n : nat) (k : D) (stagger : bool) (nodes : list nat) :
  (forall x th w w', fits t n x = true -> NoDup (x :: nodes_below t n x) ->
     discv_init_recursive t n x th w = Some w' -> discv_below t w' x) ->
  forall first theta0 theta1 even out w w',
    (forall c, In c nodes -> fits t n c = true) ->
    NoDup (flat_map (node_and_below t n) nodes) ->
    discv_assign_angles t (discv_init_recursive t n) k stagger nodes first theta0 theta1
      even out w = Some w' ->
    map (fun c => (c, discv_geom w' c)) nodes
    = discv_place k stagger (discv_geom w) nodes first theta0 theta1 even out /\
    (forall c, In c nodes -> NODE_IS_DIR t c = true -> discv_below t w' c).
Proof.
  intros IHn. induction nodes as [|c nodes IH];
    intros first theta0 theta1 even out w w' Hf Hnd E.
  - split; [reflexivity | intros c []].
  - rewrite discv_assign_angles_cons in E. cbn [discv_place].
    pose proof (discv_angle_step_radius k stagger (discv_geom w c) first theta0 theta1 even out)
      as Er.
    destruct (discv_angle_step k stagger (discv_geom w c) first theta0 theta1 even out)
      as [[[gp th0] th1] o].
    cbn [fst] in Er. cbv zeta in E. cbn [flat_map] in Hnd.
    destruct (NoDup_app_parts _ _ Hnd) as (N1 & N2 & N3).
    set (w1 := set_discv_geom (upd (discv_geom w) c gp) w) in *.
    assert (E1 : discv_geom w1 c = gp) by (unfold w1; cbn; unfold upd; now rewrite Nat.eqb_refl).
    assert (Hrec : exists w2,
      discv_assign_angles t (discv_init_recursive t n) k stagger nodes false th0 th1
        (negb even) o w2 = Some w' /\
      (forall y, ~ In y (if NODE_IS_DIR t c then nodes_below t n c else []) ->
         discv_geom w2 y = discv_geom w1 y) /\
      (NODE_IS_DIR t c = true -> discv_below t w2 c)).
    { destruct (NODE_IS_DIR t c) eqn:Hd.
      - destruct (discv_init_recursive t n c (theta gp + d_of_Z 180) w1) as [w2|] eqn:E2;
          [|discriminate].
        exists w2. splits; auto.
        + intros y Hy. exact (discv_init_recursive_frame n c _ w1 w2 E2 y Hy).
        + intros _. apply (IHn c (theta gp + d_of_Z 180) w1 w2); auto.
          * apply Hf. now left.
          * unfold node_and_below in N1. now rewrite Hd in N1.
      - exists w1. splits; auto. discriminate. }
    destruct Hrec as (w2 & E3 & F2 & B2).
    destruct (IH _ _ _ _ _ w2 w' (fun c' Hc' => Hf c' (or_intror Hc')) N2 E3) as (T & P2).
    pose proof (discv_assign_angles_frame n k stagger nodes (discv_init_recursive_frame n)
                  _ _ _ _ _ w2 w' E3) as F3.
    assert (Hkeep : forall y, In y (node_and_below t n c) -> discv_geom w' y = discv_geom w2 y).
    { intros y Hy. apply F3. intros Hin. exact (N3 y Hy Hin). }
    assert (Hc2 : discv_geom w2 c = gp).
    { rewrite F2; [exact E1|]. intros Hin.
      unfold node_and_below in N1. apply NoDup_cons_iff in N1. now apply N1. }
    split.
    + cbn [map]. rewrite Hkeep by now left. rewrite Hc2. f_equal.
      rewrite T. apply discv_place_ext. intros c' Hc'.
      assert (Hn : ~ In c' (node_and_below t n c)).
      { intros Hin. apply (N3 c' Hin). apply in_flat_map. exists c'. split; [exact Hc' | now left]. }
      assert (E' : discv_geom w2 c' = discv_geom w c').
      { rewrite F2 by (intros Hin; apply Hn; now right).
        unfold w1. cbn. apply upd_other. intros ->. apply Hn. now left. }
      rewrite E'. auto.
    + intros c' [<- | Hin] Hd'; [|exact (P2 c' Hin Hd')].
      intros d Hb. destruct (B2 Hd' d Hb) as (L & Hr).
      assert (Hfc : fits t n c = true) by (apply Hf; now left).
      assert (Hdin : In d (node_and_below t n c)).
      { unfold node_and_below. rewrite Hd'.
        destruct (dir_below_in t d c Hb n Hfc) as [-> | Hin]; [now left | now right]. }
      assert (Hein : forall e, In e (children (t d)) -> In e (node_and_below t n c)).
      { intros e He. unfold node_and_below. rewrite Hd'. right.
        exact (dir_below_child_in t d c Hb n e Hfc He). }
      split.
      * apply (discv_laid_out_ext w2 w' d); auto. now rewrite Hkeep.
      * destruct Hr as [-> | Hr]; [now left | right]. rewrite Hkeep; auto.
Qed.

Lemma discv_init_recursive_below (n : nat) :
  forall x th w w', fits t n x = true -> NoDup (x :: nodes_below t n x) ->
    discv_init_recursive t n x th w = Some w' -> discv_below t w' x.
Proof.
  induction n as [|n IH]; intros x th w w' Hf Hnd E; [discriminate|].
  pose proof (discv_init_recursive_frame (S n) x th w w' E) as F.
  apply NoDup_cons_iff in Hnd. destruct Hnd as (Hx & Hnd).
  assert (Ex : discv_geom w' x = discv_geom w x) by (apply F; exact Hx).
  assert (Hnd2 : NoDup (flat_map (node_and_below t n) (children (t x)))) by exact Hnd.
  cbn [discv_init_recursive] in E. cbv zeta in E.
  cbn [fits] in Hf. rewrite forallb_forall in Hf.
  set (w0 := if NODE_IS_DIR t x then reset_deployment x w else w) in *.
  assert (E0 : discv_geom w0 = discv_geom w) by (unfold w0; now destruct (NODE_IS_DIR t x)).
  destruct (children (t x)) as [|c0 cs] eqn:Ec.
  - injection E as <-. intros d Hb.
    assert (d = x) as ->.
    { inversion Hb as [|x' c d' Hc]; subst; [reflexivity|]. rewrite Ec in Hc. destruct Hc. }
    split; [|now left]. exists th. unfold discv_order. rewrite Ec. reflexivity.
  - rewrite <- Ec in *.
    pose proof (discv_assign_radii_spec (radius (discv_geom w0 x)) (children (t x)) d0 w0) as R.
    destruct (discv_assign_radii t (radius (discv_geom w0 x)) (children (t x)) d0 w0)
      as [w1 total].
    cbv zeta in R. cbn [fst snd] in R. destruct R as (R1 & R2 & R3).
    fold (discv_order t x) in E.
    assert (Hnd3 : NoDup (flat_map (node_and_below t n) (discv_order t x))).
    { apply (Permutation_NoDup (l := flat_map (node_and_below t n) (children (t x))));
        [|exact Hnd2].
      apply Permutation_flat_map. symmetry. apply discv_order_perm. }
    destruct (discv_assign_angles_trace n _ _ _ IH _ _ _ _ _ w1 w'
                (fun c Hc => Hf c (proj1 (discv_order_in x c) Hc)) Hnd3 E) as (T & P).
    assert (Hg1 : forall c, In c (discv_order t x) ->
              radius (discv_geom w1 c) = radius (discv_radii t (radius (discv_geom w0 x)) c) /\
              theta (discv_geom w1 c) = theta (discv_radii t (radius (discv_geom w0 x)) c) /\
              pos_x (discv_geom w1 c) = pos_x (discv_radii t (radius (discv_geom w0 x)) c)).
    { intros c Hc. apply discv_order_in in Hc. exact (R3 c Hc). }
    intros d Hb. inversion Hb as [|x' c d' Hc Hd Hb']; subst.
    + split; [|now left]. exists th. cbv zeta. rewrite Ex, <- E0.
      rewrite T. unfold discv_k, discv_total.
      apply discv_place_ext. exact Hg1.
    + assert (Hc' : In c (discv_order t x)) by (apply discv_order_in; exact Hc).
      destruct (P c Hc' Hd d Hb') as (L & Hr). split; [exact L|]. right.
      destruct Hr as [-> | Hr]; [|exact Hr].
      match type of T with _ = discv_place ?k ?s ?g ?l ?f ?a ?b ?e ?o =>
        pose proof (discv_place_radius k s g l f a b e o) as Pr end.
      rewrite <- T in Pr. rewrite Forall_forall in Pr.
      specialize (Pr (c, discv_geom w' c)
                    ltac:(apply in_map_iff; exists c; split; [reflexivity | exact Hc'])).
      cbn [fst snd] in Pr. rewrite Pr. apply (R3 c Hc).
Qed.

End DiscVTrace.

Section DiscVFacts.
Variable t : Tree.
Hypothesis sizes : forall n, dir_size_ok t 64 n.

Local Open Scope R_scope.

Ltac on_reals :=
  unfold d_lit, d0, d1, d2, SQR in *;
  cbn [d_of_Z d_add d_sub d_mul d_div d_opp d_sqrt d_lt d_le d_PI real
       d_cos d_sin d_asin real_libm] in *.

Lemma asin_pos (x : R) : 0 < x <= 1 -> 0 < asin x.
Proof.
  intros (H0 & H1).
  assert (Hs : sin (asin x) = x) by (apply sin_asin; lra).
  destruct (Rlt_le_dec 0 (asin x)) as [Hp | Hn]; [exact Hp | exfalso].
  destruct (Req_dec (asin x) 0) as [E | Hne].
  - rewrite E, sin_0 in Hs. lra.
  - pose proof (asin_bound x) as (Hb & _). pose proof PI_RGT_0.
    assert (sin (asin x) < 0) by (apply sin_lt_0_var; lra). lra.
Qed.

(** Without overflow the size of a disc is the sum itself, and it is 64
    at least. *)
Lemma discv_node_size_sum (c : nat) :
  discv_node_size t c
  = (Z.max 64 (size (t c)) + if NODE_IS_DIR t c then subtree_size (t c) else 0)%Z.
Proof.
  pose proof (sizes c) as Hn. unfold dir_size_ok, discv_node_size in *. cbv zeta.
  replace (if (64 >? size (t c))%Z then 64%Z else size (t c))
    with (Z.max 64 (size (t c))) by (destruct (Z.gtb_spec 64 (size (t c))); lia).
  destruct (NODE_IS_DIR t c).
  - specialize (Hn eq_refl).
    rewrite int64_wrap_small by (unfold INT64_MIN, INT64_MAX in *; lia). reflexivity.
  - lia.
Qed.

Lemma discv_node_size_min (c : nat) : (64 <= discv_node_size t c)%Z.
Proof.
  rewrite discv_node_size_sum. pose proof (sizes c) as Hn. unfold dir_size_ok in Hn.
  destruct (NODE_IS_DIR t c); [specialize (Hn eq_refl)|]; lia.
Qed.

Lemma real_PI_pos : 0 < d_PI (D := R).
Proof. cbn. lra. Qed.

Lemma discv_radius_pos (c : nat) :
  0 < discv_radius t c /\
  d_PI (D := R) * (discv_radius t c * discv_radius t c) = IZR (discv_node_size t c).
Proof.
  pose proof (discv_node_size_min c) as Hn. apply IZR_le in Hn.
  pose proof real_PI_pos as Hpi.
  unfold discv_radius. on_reals.
  set (P := 3.14159265358979323846) in *.
  assert (Hq : 0 < IZR (discv_node_size t c) / P) by (apply Rdiv_lt_0_compat; lra).
  split; [now apply sqrt_lt_R0|].
  rewrite sqrt_sqrt by lra. field. lra.
Qed.

Lemma discv_arc_pos (dir_radius : R) (c : nat) :
  0 <= dir_radius -> 0 < discv_arc t dir_radius c.
Proof.
  intros HR. destruct (discv_radius_pos c) as (Hr & _).
  unfold discv_arc, discv_dist, DEG, DISCV_LEAF_STEM_PROPORTION.
  set (r := discv_radius t c) in *. on_reals.
  assert (Hx : 0 < r / (dir_radius + r * (1 + 1 / 2)) <= 1).
  { split; [apply Rdiv_lt_0_compat; lra|].
    apply Rmult_le_reg_r with (dir_radius + r * (1 + 1 / 2)); [lra|].
    unfold Rdiv. rewrite Rmult_assoc, Rinv_l; lra. }
  pose proof (asin_pos _ Hx) as Ha.
  assert (0 < 180 / 3.14159265358979323846) by (apply Rdiv_lt_0_compat; lra).
  nra.
Qed.

Lemma fold_left_sum_of (f : nat -> R) (l : list nat) :
  forall a, fold_left (fun a c => a + f c) l a = a + sum_of f l.
Proof.
  induction l as [|x l IH]; intros a; cbn [fold_left sum_of fold_right]; [lra|].
  rewrite IH. unfold sum_of. lra.
Qed.

Lemma sum_of_perm (f : nat -> R) (l l' : list nat) :
  Permutation l l' -> sum_of f l = sum_of f l'.
Proof.
  induction 1; unfold sum_of in *; cbn [fold_right]; lra.
Qed.

Lemma sum_of_scale (k : R) (f : nat -> R) (l : list nat) :
  sum_of (fun c => k * f c) l = k * sum_of f l.
Proof.
  induction l as [|x l IH]; unfold sum_of in *; cbn [fold_right]; [lra|].
  rewrite IH. lra.
Qed.

Lemma sum_of_nonneg (f : nat -> R) (l : list nat) :
  (forall c, In c l -> 0 <= f c) -> 0 <= sum_of f l.
Proof.
  induction l as [|x l IH]; intros Hf; unfold sum_of in *; cbn [fold_right]; [lra|].
  pose proof (Hf x (or_introl eq_refl)). pose proof (IH (fun c Hc => Hf c (or_intror Hc))). lra.
Qed.

Lemma sum_of_pos (f : nat -> R) (l : list nat) :
  l <> [] -> (forall c, In c l -> 0 < f c) -> 0 < sum_of f l.
Proof.
  destruct l as [|x l]; [congruence|]. intros _ Hf.
  unfold sum_of. cbn [fold_right].
  pose proof (Hf x (or_introl eq_refl)).
  pose proof (sum_of_nonneg f l (fun c Hc => Rlt_le _ _ (Hf c (or_intror Hc)))).
  unfold sum_of in *. lra.
Qed.

(** The sectors the second loop hands out: the first is centred on
    [theta0], the others are cut alternately from the low and the high
    end of what is left between [theta0] and [theta1]. *)
Lemma discv_place_sectors (k : R) (stagger : bool) (g : nat -> DiscVGeomParams R)
    (nodes : list nat) :
  0 <= k -> (forall c, In c nodes -> 0 <= theta (g c)) ->
  forall first theta0 theta1 even out,
    sum_of (fun c => k * theta (g c)) nodes <= theta1 - theta0 ->
    let pl := discv_place k stagger g nodes first theta0 theta1 even out in
    let off := if first then match nodes with
                             | c :: _ => k * theta (g c) / 2
                             | [] => 0
                             end
               else 0 in
    Forall (fun p => theta0 - off <= theta (snd p) - k * theta (g (fst p)) / 2 /\
                     theta (snd p) + k * theta (g (fst p)) / 2 <= theta1 - off) pl /\
    ForallOrdPairs
      (fun p q => theta (snd p) + k * theta (g (fst p)) / 2
                  <= theta (snd q) - k * theta (g (fst q)) / 2 \/
                  theta (snd q) + k * theta (g (fst q)) / 2
                  <= theta (snd p) - k * theta (g (fst p)) / 2) pl.
Proof.
  intros Hk. induction nodes as [|c nodes IH]; intros Hg first theta0 theta1 even out Hsum pl off.
  - subst pl. split; constructor.
  - assert (Hc : 0 <= k * theta (g c)) by (apply Rmult_le_pos; [exact Hk | apply Hg; now left]).
    assert (Hrest : 0 <= sum_of (fun c => k * theta (g c)) nodes).
    { apply sum_of_nonneg. intros c' Hc'. apply Rmult_le_pos; [exact Hk | apply Hg; now right]. }
    unfold sum_of in Hsum. cbn [fold_right] in Hsum. fold (sum_of (fun c => k * theta (g c)) nodes) in Hsum.
    subst pl off. cbn [discv_place]. unfold discv_angle_step.
    set (aw := k * theta (g c)) in *.
    destruct first; [|destruct even]; cbv beta iota zeta; on_reals.
    + destruct (IH (fun c' Hc' => Hg c' (or_intror Hc')) false
                  (theta0 + 1 / 2 * aw) (theta1 - 1 / 2 * aw) (negb even) (negb out))
        as (W & P); [lra|].
      cbv zeta in W, P. split.
      * constructor; [cbn [fst snd theta]; fold aw; lra|].
        revert W. apply Forall_impl. intros p (A & B). lra.
      * constructor; [|exact P].
        revert W. apply Forall_impl. intros p (A & B). cbn [fst snd theta]. fold aw. left. lra.
    + destruct (IH (fun c' Hc' => Hg c' (or_intror Hc')) false
                  (theta0 + aw) theta1 (negb true) (negb out))
        as (W & P); [lra|].
      cbv zeta in W, P. split.
      * constructor; [cbn [fst snd theta]; fold aw; lra|].
        revert W. apply Forall_impl. intros p (A & B). lra.
      * constructor; [|exact P].
        revert W. apply Forall_impl. intros p (A & B). cbn [fst snd theta]. fold aw. left. lra.
    + destruct (IH (fun c' Hc' => Hg c' (or_intror Hc')) false
                  theta0 (theta1 - aw) (negb false) out)
        as (W & P); [lra|].
      cbv zeta in W, P. split.
      * constructor; [cbn [fst snd theta]; fold aw; lra|].
        revert W. apply Forall_impl. intros p (A & B). lra.
      * constructor; [|exact P].
        revert W. apply Forall_impl. intros p (A & B). cbn [fst snd theta]. fold aw. right. lra.
Qed.

(** Each node is put at its angle, at the distance the first loop left or,
    staggered outwards, one diameter further. *)
Lemma discv_place_each (k : R) (stagger : bool) (g : nat -> DiscVGeomParams R)
    (nodes : list nat) :
  forall first theta0 theta1 even out,
    Forall (fun p => exists dist,
              (dist = pos_x (g (fst p)) \/ dist = pos_x (g (fst p)) + 2 * radius (g (fst p))) /\
              radius (snd p) = radius (g (fst p)) /\
              pos_x (snd p) = dist * cos (RAD (theta (snd p))) /\
              pos_y (snd p) = dist * sin (RAD (theta (snd p))))
      (discv_place k stagger g nodes first theta0 theta1 even out).
Proof.
  induction nodes as [|c nodes IH]; intros first theta0 theta1 even out; [constructor|].
  cbn [discv_place]. unfold discv_angle_step.
  destruct first; [|destruct even]; cbv beta iota zeta;
    (constructor; [|apply IH]); cbn [fst snd radius theta pos_x pos_y];
    (destruct (stagger && out);
     [exists (pos_x (g c) + 2 * radius (g c)) | exists (pos_x (g c))]; on_reals; auto).
Qed.

Variable fstree : nat.

Lemma discv_init_laid (fuel root : nat) (rest : list nat) (w : World R) :
  children (t fstree) = root :: rest ->
  fits t fuel fstree = true ->
  NoDup (fstree :: nodes_below t fuel fstree) ->
  exists w', discv_init t fstree fuel w = Some w' /\
    forall d, dir_below t fstree d ->
      discv_laid_out t w' d /\ 0 <= radius (discv_geom w' d).
Proof.
  intros Hc Hf Hnd. unfold discv_init.
  set (w0 := upd_discv fstree _ w).
  destruct (discv_init_recursive_returns R t fuel fstree (d_of_Z 270) w0 Hf) as (w1 & E).
  rewrite E, Hc.
  pose proof (discv_init_recursive_below R t fuel fstree _ w0 w1 Hf Hnd E) as B.
  pose proof (discv_init_recursive_frame R t fuel fstree _ w0 w1 E) as F.
  apply NoDup_cons_iff in Hnd. destruct Hnd as (Hx & Hnd).
  eexists. split; [reflexivity|].
  set (w' := upd_discv fstree _ w1).
  assert (Hrad : forall y, radius (discv_geom w' y) = radius (discv_geom w1 y)).
  { intros y. unfold w', upd_discv. cbn. unfold upd.
    destruct (Nat.eqb y fstree) eqn:Ey; [|reflexivity].
    apply Nat.eqb_eq in Ey. subst y. reflexivity. }
  assert (Hoth : forall y, y <> fstree -> discv_geom w' y = discv_geom w1 y).
  { intros y Hy. unfold w', upd_discv. cbn. now apply upd_other. }
  intros d Hb. destruct (B d Hb) as (L & Hr). split.
  - apply (discv_laid_out_ext R t w1 w' d); [apply Hrad | | exact L].
    intros e He. apply Hoth. intros ->. apply Hx.
    exact (dir_below_child_in t d fstree Hb fuel fstree Hf He).
  - rewrite Hrad. destruct Hr as [-> | ->].
    + rewrite F by exact Hx. unfold w0, upd_discv. cbn. unfold upd. rewrite Nat.eqb_refl.
      cbn. on_reals. lra.
    + apply Rlt_le, discv_radius_pos.
Qed.

Lemma discv_laid_out_in (w' : World R) (d c : nat) (stem : R) :
  let dir_radius := radius (discv_geom w' d) in
  let k := discv_k t dir_radius d in
  map (fun c => (c, discv_geom w' c)) (discv_order t d)
  = discv_place k (k <=? d1)%D (discv_radii t dir_radius) (discv_order t d) true
      (stem - d_of_Z 180)%D (stem + d_of_Z 180)%D true true ->
  In c (children (t d)) ->
  In (c, discv_geom w' c)
     (discv_place k (k <=? d1)%D (discv_radii t dir_radius) (discv_order t d) true
        (stem - d_of_Z 180)%D (stem + d_of_Z 180)%D true true).
Proof.
  intros dir_radius k L Hc. rewrite <- L. apply in_map_iff.
  exists c. split; [reflexivity | now apply discv_order_in].
Qed.

(** X20.  In exact arithmetic, after discv_init( ) on a tree in which no
    sum of a directory's own size (counted as 64 at least) and the size
    of its subtree leaves the range of int64, every child of a directory
    at or below the metanode is a disc whose area is its size in bytes
    (at least 64, plus the subtree's for a directory) with the constant
    M_PI for pi, and whose centre is put, at the angle stored
    in [theta], at a distance from the directory's centre of the
    directory's radius plus one and a half times its own radius, or that
    plus one diameter when staggered outwards; so the disc clears the
    directory's by at least half its own radius. *)
Theorem discv_init_discs (fuel root : nat) (rest : list nat) (w : World R) :
  children (t fstree) = root :: rest ->
  fits t fuel fstree = true ->
  NoDup (fstree :: nodes_below t fuel fstree) ->
  exists w', discv_init t fstree fuel w = Some w' /\
    forall d c, dir_below t fstree d -> In c (children (t d)) ->
      let gd := discv_geom w' d in
      let gc := discv_geom w' c in
      0 < radius gc /\
      d_PI (D := R) * (radius gc * radius gc)
      = IZR (Z.max 64 (size (t c))
             + if NODE_IS_DIR t c then subtree_size (t c) else 0) /\
      exists dist,
        (dist = radius gd + radius gc * (3 / 2) \/ dist = radius gd + radius gc * (7 / 2)) /\
        pos_x gc = dist * cos (RAD (theta gc)) /\
        pos_y gc = dist * sin (RAD (theta gc)) /\
        pos_x gc * pos_x gc + pos_y gc * pos_y gc = dist * dist /\
        radius gd + radius gc + radius gc / 2 <= dist.
Proof.
  intros Hc Hf Hnd.
  destruct (discv_init_laid fuel root rest w Hc Hf Hnd) as (w' & E & B).
  exists w'. split; [exact E|]. intros d c Hb Hin. cbv zeta.
  rewrite <- (discv_node_size_sum c).
  destruct (B d Hb) as ((stem & L) & HR). cbv zeta in L.
  pose proof (discv_laid_out_in w' d c stem L Hin) as Hp.
  match type of Hp with In _ (discv_place ?k ?s ?g ?l ?f ?a ?b ?e ?o) =>
    pose proof (discv_place_each k s g l f a b e o) as Pe end.
  rewrite Forall_forall in Pe. destruct (Pe _ Hp) as (dist & Hd & Er & Ex & Ey).
  cbn [fst snd discv_radii radius pos_x] in Hd, Er. cbn [fst snd] in Ex, Ey.
  destruct (discv_radius_pos c) as (Hr & Ha).
  rewrite Er. splits; auto.
  exists dist.
  assert (Hd' : dist = radius (discv_geom w' d) + discv_radius t c * (3 / 2) \/
                dist = radius (discv_geom w' d) + discv_radius t c * (7 / 2)).
  { unfold discv_dist, DISCV_LEAF_STEM_PROPORTION in Hd. on_reals.
    destruct Hd as [-> | ->]; [left | right]; lra. }
  splits; auto.
  - rewrite Ex, Ey. pose proof (sin2_cos2 (RAD (theta (discv_geom w' c)))) as S.
    unfold Rsqr in S.
    replace (dist * cos (RAD (theta (discv_geom w' c))) * (dist * cos (RAD (theta (discv_geom w' c))))
             + dist * sin (RAD (theta (discv_geom w' c))) * (dist * sin (RAD (theta (discv_geom w' c)))))
      with (dist * dist * (sin (RAD (theta (discv_geom w' c))) * sin (RAD (theta (discv_geom w' c)))
                           + cos (RAD (theta (discv_geom w' c))) * cos (RAD (theta (discv_geom w' c)))))
      by ring.
    rewrite S. ring.
  - destruct Hd' as [-> | ->]; lra.
Qed.

(** X21.  In exact arithmetic, after discv_init( ) on a tree in which no
    sum of a directory's own size (counted as 64 at least) and the size
    of its subtree leaves the range of int64, the children of every
    directory at or below the metanode are given sectors of
    positive angle (the angle the child's disc subtends, scaled by [k])
    that add up to 315 degrees, and the sectors of two different children,
    each centred on the child's [theta], do not overlap on the circle. *)
Theorem discv_init_sectors (fuel root : nat) (rest : list nat) (w : World R) :
  children (t fstree) = root :: rest ->
  fits t fuel fstree = true ->
  NoDup (fstree :: nodes_below t fuel fstree) ->
  exists w', discv_init t fstree fuel w = Some w' /\
    forall d, dir_below t fstree d -> children (t d) <> [] ->
      sum_of (discv_sector t w' d) (children (t d)) = 315 /\
      forall a b, In a (children (t d)) -> In b (children (t d)) -> a <> b ->
        let ha := discv_sector t w' d a / 2 in
        let hb := discv_sector t w' d b / 2 in
        0 < ha /\
        ha + hb <= Rabs (theta (discv_geom w' a) - theta (discv_geom w' b))
                <= 360 - (ha + hb).
Proof.
  intros Hc Hf Hnd.
  destruct (discv_init_laid fuel root rest w Hc Hf Hnd) as (w' & E & B).
  exists w'. split; [exact E|]. intros d Hb Hne.
  destruct (B d Hb) as ((stem & L) & HR). cbv zeta in L.
  unfold discv_sector.
  set (Rd := radius (discv_geom w' d)) in *.
  assert (Harc : forall c, 0 < discv_arc t Rd c) by (intros c; now apply discv_arc_pos).
  assert (Htot : discv_total t Rd (children (t d)) = sum_of (discv_arc t Rd) (children (t d))).
  { unfold discv_total. rewrite fold_left_sum_of. on_reals. lra. }
  assert (Hpos : 0 < sum_of (discv_arc t Rd) (children (t d)))
    by (apply sum_of_pos; auto).
  assert (Hk : discv_k t Rd d = 315 / sum_of (discv_arc t Rd) (children (t d))).
  { unfold discv_k, DISCV_LEAF_RANGE_ARC_WIDTH. rewrite Htot. reflexivity. }
  assert (Hk0 : 0 < discv_k t Rd d) by (rewrite Hk; apply Rdiv_lt_0_compat; lra).
  assert (Hsum : sum_of (fun c => discv_k t Rd d * discv_arc t Rd c) (children (t d)) = 315).
  { rewrite sum_of_scale, Hk. field. lra. }
  split; [exact Hsum|].
  intros a b Ha Hb' Hab. cbv zeta.
  pose proof (discv_laid_out_in w' d a stem L Ha) as Pa.
  pose proof (discv_laid_out_in w' d b stem L Hb') as Pb.
  match type of Pa with In _ (discv_place ?k ?s ?g ?l ?f ?th0 ?th1 ?e ?o) =>
    destruct (discv_place_sectors k s g l (Rlt_le _ _ Hk0)
                (fun c _ => Rlt_le _ _ (Harc c)) f th0 th1 e o) as (W & P) end.
  { replace (sum_of _ (discv_order t d))
      with (sum_of (fun c => discv_k t Rd d * discv_arc t Rd c) (discv_order t d))
      by reflexivity.
    rewrite (sum_of_perm _ _ _ (discv_order_perm t d)), Hsum. on_reals. lra. }
  cbv zeta in W, P. rewrite Forall_forall in W.
  pose proof (W _ Pa) as (A1 & A2). pose proof (W _ Pb) as (B1 & B2).
  cbn [fst snd discv_radii theta] in A1, A2, B1, B2.
  destruct (ForallOrdPairs_In P _ _ Pa Pb) as [Heq | [Hd | Hd]];
    [injection Heq as Heq _; contradiction | |];
    cbn [fst snd discv_radii theta] in Hd;
    (split; [pose proof (Harc a); nra|]);
    unfold Rd in *; on_reals;
    set (ha := discv_k t _ d * discv_arc t _ a / 2) in *;
    set (hb := discv_k t _ d * discv_arc t _ b / 2) in *;
    set (off := match discv_order t d with [] => _ | _ => _ end) in *;
    unfold Rabs; destruct (Rcase_abs _); destruct Hd; lra.
Qed.

End DiscVFacts.

(** *** The small filesystem laid out as discs *)

Lemma ex_tree_is_tree_from_metanode : NoDup (0%nat :: nodes_below ex_tree 8 0).
Proof.
  cbn. repeat (constructor; [cbn; intuition discriminate|]). constructor.
Qed.

Lemma ex_dir_5_below_metanode : dir_below ex_tree 0 5.
Proof.
  apply dir_below_child with (c := 1%nat); [now left | reflexivity|].
  apply dir_below_child with (c := 2%nat); [now left | reflexivity|].
  apply dir_below_child with (c := 3%nat); [now left | reflexivity|].
  apply dir_below_child with (c := 4%nat); [now left | reflexivity|].
  apply dir_below_child with (c := 5%nat); [now left | reflexivity|].
  apply dir_below_here.
Qed.

Lemma ex_dir_4_below_metanode : dir_below ex_tree 0 4.
Proof.
  apply dir_below_child with (c := 1%nat); [now left | reflexivity|].
  apply dir_below_child with (c := 2%nat); [now left | reflexivity|].
  apply dir_below_child with (c := 3%nat); [now left | reflexivity|].
  apply dir_below_child with (c := 4%nat); [now left | reflexivity|].
  apply dir_below_here.
Qed.

Lemma discv_init_discs_witness :
  exists w', discv_init ex_tree 0 8 ex_worldR = Some w' /\
    (d_PI (D := R) * (radius (discv_geom w' 6%nat) * radius (discv_geom w' 6%nat)) = 900)%R /\
    (d_PI (D := R) * (radius (discv_geom w' 5%nat) * radius (discv_geom w' 5%nat)) = 1064)%R.
Proof.
  destruct (discv_init_discs ex_tree ex_tree_sizes64 0 8 1 [] ex_worldR
              eq_refl eq_refl ex_tree_is_tree_from_metanode) as (w' & E & P).
  exists w'. split; [exact E|].
  destruct (P 5%nat 6%nat ex_dir_5_below_metanode (or_introl eq_refl)) as (_ & A & _).
  destruct (P 4%nat 5%nat ex_dir_4_below_metanode (or_introl eq_refl)) as (_ & A' & _).
  split; [exact A | exact A'].
Defined.

Lemma discv_init_sectors_witness :
  exists w', discv_init ex_tree 0 8 ex_worldR = Some w' /\
    sum_of (discv_sector ex_tree w' 5) [6%nat; 7%nat] = 315%R.
Proof.
  destruct (discv_init_sectors ex_tree ex_tree_sizes64 0 8 1 [] ex_worldR
              eq_refl eq_refl ex_tree_is_tree_from_metanode) as (w' & E & P).
  exists w'. split; [exact E|].
  apply (P 5%nat ex_dir_5_below_metanode). discriminate.
Defined.

(** * geometry.c: the fan of subdirectories in TreeV mode *)

Section TreeVFanFacts.
Variable D : Type.
Context `{Double D} `{Libm D}.
Variable t : Tree.

Local Open Scope double_scope.

Lemma leading_dirs_in (nodes : list nat) (c : nat) :
  In c (leading_dirs t nodes) -> In c nodes /\ NODE_IS_DIR t c = true.
Proof.
  induction nodes as [|x nodes IH]; cbn [leading_dirs]; [intros []|].
  destruct (NODE_IS_DIR t x) eqn:Hd; [|intros []].
  intros [<- | Hin]; [split; [now left | exact Hd]|].
  destruct (IH Hin). split; [now right | assumption].
Qed.

Lemma leading_dirs_prefix (nodes : list nat) :
  exists rest, nodes = leading_dirs t nodes ++ rest.
Proof.
  induction nodes as [|x nodes (rest & IH)]; cbn [leading_dirs]; [now exists []|].
  destruct (NODE_IS_DIR t x); [|now exists (x :: nodes)].
  exists rest. cbn [app]. now rewrite <- IH.
Qed.

Lemma leading_dirs_NoDup (n : nat) (nodes : list nat) :
  NoDup (flat_map (node_and_below t n) nodes) ->
  NoDup (flat_map (node_and_below t n) (leading_dirs t nodes)).
Proof.
  destruct (leading_dirs_prefix nodes) as (rest & E). intros Hn.
  rewrite E, flat_map_app in Hn. now apply NoDup_app_parts in Hn.
Qed.

Lemma treev_arranged_dir_below (w : World D) (x d : nat) :
  treev_arranged t w x d -> dir_below t x d.
Proof.
  induction 1 as [x Ho | x c d Ho Hc Ha IH]; [constructor|].
  apply leading_dirs_in in Hc. destruct Hc as (Hc & Hd).
  exact (dir_below_child x Hc Hd IH).
Qed.

Lemma treev_arranged_ext (w w1 : World D) (x d : nat) :
  ctree_expanded w1 = ctree_expanded w ->
  treev_arranged t w x d -> treev_arranged t w1 x d.
Proof.
  intros E. assert (Ho : forall y, treev_open t w1 y = treev_open t w y).
  { intros y. unfold treev_open, geometry_treev_is_leaf, dirtree_entry_expanded.
    now rewrite E. }
  induction 1 as [x Hx | x c d Hx Hc Ha IH].
  - constructor. now rewrite Ho.
  - apply treev_arranged_child with (c := c); auto. now rewrite Ho.
Qed.

Lemma NoDup_flat_map_apart {A : Type} (f : nat -> list A) (l : list nat) :
  NoDup (flat_map f l) ->
  forall c c', In c l -> In c' l -> c <> c' -> forall y, In y (f c) -> ~ In y (f c').
Proof.
  induction l as [|x l IH]; intros Hn c c' Hc Hc' Hne y Hy Hy'; [destruct Hc|].
  cbn [flat_map] in Hn. destruct (NoDup_app_parts _ _ Hn) as (N1 & N2 & N3).
  destruct Hc as [<- | Hc], Hc' as [<- | Hc'].
  - contradiction.
  - apply (N3 y Hy). apply in_flat_map. now exists c'.
  - apply (N3 y Hy'). apply in_flat_map. now exists c.
  - exact (IH N2 c c' Hc Hc' Hne y Hy Hy').
Qed.

Lemma fold_left_ext_in {A B : Type} (f g : A -> B -> A) (l : list B) :
  (forall b, In b l -> forall a, f a b = g a b) ->
  forall a, fold_left f l a = fold_left g l a.
Proof.
  induction l as [|b l IH]; intros Hfg a; [reflexivity|].
  cbn [fold_left]. rewrite (Hfg b (or_introl eq_refl)).
  apply IH. intros b' Hb'. apply Hfg. now right.
Qed.

Lemma In_firstn {A : Type} (x : A) (l : list A) :
  forall n, In x (firstn n l) -> In x l.
Proof.
  induction l as [|a l IH]; intros [|n]; cbn [firstn]; try (intros []; fail).
  intros [<- | Hin]; [now left | right; exact (IH n Hin)].
Qed.

Lemma treev_arc_ext (w w' : World D) (c : nat) :
  anim w' = anim w -> treev_geom w' c = treev_geom w c -> treev_arc w' c = treev_arc w c.
Proof. unfold treev_arc, deployment. now intros -> ->. Qed.

(** What the subdirectories of [d] and [d]'s subtree arc width keep, the
    fan of [d] keeps. *)
Lemma treev_fanned_ext (w w' : World D) (d : nat) :
  anim w' = anim w ->
  platform_subtree_arc_width (treev_geom w' d) = platform_subtree_arc_width (treev_geom w d) ->
  (forall e, In e (leading_dirs t (children (t d))) -> treev_geom w' e = treev_geom w e) ->
  treev_fanned t w d -> treev_fanned t w' d.
Proof.
  intros Ea Es He (F1 & F2). unfold treev_fanned. cbv zeta.
  assert (Harc : forall e, In e (leading_dirs t (children (t d))) ->
                           treev_arc w' e = treev_arc w e).
  { intros e Hin. apply treev_arc_ext; auto. }
  rewrite Es. split.
  - rewrite F1. apply fold_left_ext_in. intros e Hin a. now rewrite Harc.
  - intros i c Hi. assert (Hc : In c (leading_dirs t (children (t d))))
      by (eapply nth_error_In; eauto).
    rewrite (He c Hc), (F2 i c Hi), (Harc c Hc). f_equal.
    apply fold_left_ext_in. intros e Hin a. rewrite Harc; [reflexivity|].
    eapply In_firstn; eauto.
Qed.

Lemma treev_fanned_keep (n c d : nat) (w w' : World D) :
  fits t n c = true -> dir_below t c d ->
  anim w' = anim w ->
  (forall y, In y (nodes_below t n c) -> treev_geom w' y = treev_geom w y) ->
  platform_subtree_arc_width (treev_geom w' c) = platform_subtree_arc_width (treev_geom w c) ->
  treev_fanned t w d -> treev_fanned t w' d.
Proof.
  intros Hf Hb Ea Hg Hs. apply treev_fanned_ext; [exact Ea | |].
  - destruct (dir_below_in t d c Hb n Hf) as [-> | Hin]; [exact Hs | now rewrite Hg].
  - intros e He. apply Hg. apply leading_dirs_in in He.
    exact (dir_below_child_in t d c Hb n e Hf (proj1 He)).
Qed.

(** *** What treev_arrange_recursive( ) leaves alone *)

Lemma treev_arrange_subdirs_frame (n : nat) (r : D) (rs : bool) (nodes : list nat) :
  (forall c w w', treev_arrange_recursive t n c r rs w = Some w' ->
     anim w' = anim w /\ ctree_expanded w' = ctree_expanded w /\
     forall y, y <> c -> ~ In y (nodes_below t n c) -> treev_geom w' y = treev_geom w y) ->
  forall acc w w2 tot,
    treev_arrange_subdirs t (fun node w => treev_arrange_recursive t n node r rs w)
      nodes acc w = Some (w2, tot) ->
    anim w2 = anim w /\ ctree_expanded w2 = ctree_expanded w /\
    forall y, ~ In y (flat_map (node_and_below t n) (leading_dirs t nodes)) ->
      treev_geom w2 y = treev_geom w y.
Proof.
  intros IHn. induction nodes as [|c nodes IH]; intros acc w w2 tot E.
  - cbn in E. injection E as <- _. auto.
  - cbn [treev_arrange_subdirs leading_dirs] in *.
    destruct (NODE_IS_DIR t c) eqn:Hd; cbn [negb] in E; [|injection E as <- _; auto].
    destruct (treev_arrange_recursive t n c r rs w) as [w1|] eqn:E1; [|discriminate].
    cbv zeta in E. destruct (IHn c w w1 E1) as (A1 & A2 & A3).
    destruct (IH _ _ _ _ E) as (B1 & B2 & B3).
    splits.
    + rewrite B1. exact A1.
    + rewrite B2. exact A2.
    + intros y Hy. cbn [flat_map] in Hy. unfold node_and_below at 1 in Hy. rewrite Hd in Hy.
      rewrite B3 by (intros Hin; apply Hy, in_or_app; now right).
      unfold upd_treev. cbn. rewrite upd_other by (intros ->; apply Hy; now left).
      apply A3; [intros ->; apply Hy; now left|].
      intros Hin. apply Hy. right. apply in_or_app. now left.
Qed.

Lemma treev_spread_subdirs_frame (nodes : list nat) :
  forall th w,
    anim (treev_spread_subdirs t nodes th w) = anim w /\
    ctree_expanded (treev_spread_subdirs t nodes th w) = ctree_expanded w /\
    forall y, ~ In y (leading_dirs t nodes) ->
      treev_geom (treev_spread_subdirs t nodes th w) y = treev_geom w y.
Proof.
  induction nodes as [|c nodes IH]; intros th w; [cbn; auto|].
  cbn [treev_spread_subdirs leading_dirs].
  destruct (NODE_IS_DIR t c); cbn [negb]; [|auto].
  cbv zeta. match goal with |- context [treev_spread_subdirs t nodes ?a ?b] =>
    destruct (IH a b) as (B1 & B2 & B3) end.
  splits.
  - rewrite B1. reflexivity.
  - rewrite B2. reflexivity.
  - intros y Hy. rewrite B3 by (intros Hin; apply Hy; now right).
    unfold upd_treev. cbn. apply upd_other. intros ->. apply Hy. now left.
Qed.

Lemma treev_arrange_recursive_frame (n : nat) :
  forall x r0 rs w w', treev_arrange_recursive t n x r0 rs w = Some w' ->
    anim w' = anim w /\ ctree_expanded w' = ctree_expanded w /\
    forall y, y <> x -> ~ In y (nodes_below t n x) -> treev_geom w' y = treev_geom w y.
Proof.
  induction n as [|n IH]; intros x r0 rs w w' E; [discriminate|].
  cbn [treev_arrange_recursive] in E. cbv zeta in E.
  destruct (negb rs && (Z.land (node_flags w x) TREEV_NEED_REARRANGE =? 0)%Z);
    [injection E as <-; auto|].
  assert (Hshape : forall w1,
            match treev_arrange_subdirs t
                    (fun node w => treev_arrange_recursive t n node
                       (r0 + platform_depth (treev_geom w1 x)
                        + TREEV_PLATFORM_SPACING_DEPTH)%D rs w)
                    (children (t x)) d0 w1 with
            | Some (w, subtree_arc_width) =>
                let w := upd_treev x (with_platform_subtree_arc_width subtree_arc_width) w in
                let w := treev_spread_subdirs t (children (t x))
                           (- d_lit 1 2 * subtree_arc_width)%D w in
                Some (set_node_flags
                        (upd (node_flags w) x
                           (Z.land (node_flags w x) (Z.lnot TREEV_NEED_REARRANGE))) w)
            | None => None
            end = Some w' ->
            anim w' = anim w1 /\ ctree_expanded w' = ctree_expanded w1 /\
            forall y, y <> x -> ~ In y (nodes_below t (S n) x) ->
                      treev_geom w' y = treev_geom w1 y).
  { intros w1 E1.
    destruct (treev_arrange_subdirs t _ (children (t x)) d0 w1) as [[w2 acc]|] eqn:E2;
      [|discriminate].
    apply treev_arrange_subdirs_frame in E2; [|intros c wa wb Ea; exact (IH _ _ _ _ _ Ea)].
    destruct E2 as (A1 & A2 & A3).
    cbv zeta in E1. injection E1 as <-.
    match goal with |- context [treev_spread_subdirs t ?l ?a ?b] =>
      destruct (treev_spread_subdirs_frame l a b) as (B1 & B2 & B3);
      set (w4 := treev_spread_subdirs t l a b) in * end.
    cbn [anim ctree_expanded treev_geom set_node_flags].
    splits.
    - rewrite B1. exact A1.
    - rewrite B2. exact A2.
    - intros y Hyx Hy. rewrite nodes_below_S in Hy.
      rewrite B3.
      + unfold upd_treev. cbn. rewrite upd_other by exact Hyx.
        apply A3. intros Hin. apply Hy.
        destruct (leading_dirs_prefix (children (t x))) as (rest & Er).
        rewrite Er, flat_map_app. apply in_or_app. now left.
      + intros Hin. apply leading_dirs_in in Hin. apply Hy.
        apply in_flat_map. exists y. split; [apply Hin | now left]. }
  destruct (rs && NODE_IS_DIR t x).
  - destruct (geometry_treev_is_leaf t w x).
    + injection E as <-. auto.
    + destruct (Hshape _ E) as (A1 & A2 & A3). splits; auto.
      intros y Hyx Hy. rewrite A3 by assumption.
      unfold treev_reshape_platform. cbn. now apply upd_other.
  - apply Hshape; assumption.
Qed.

(** *** The two loops over the subdirectories *)

Lemma NoDup_flat_map_each {A : Type} (f : nat -> list A) (l : list nat) (c : nat) :
  NoDup (flat_map f l) -> In c l -> NoDup (f c).
Proof.
  induction l as [|x l IH]; intros Hn Hc; [destruct Hc|].
  cbn [flat_map] in Hn. destruct (NoDup_app_parts _ _ Hn) as (N1 & N2 & _).
  destruct Hc as [<- | Hc]; [exact N1 | exact (IH N2 Hc)].
Qed.

Lemma treev_arrange_subdirs_spec (n : nat) (r : D) (nodes : list nat) :
  (forall c w w', fits t n c = true -> NoDup (c :: nodes_below t n c) ->
     treev_arrange_recursive t n c r true w = Some w' ->
     forall d, treev_arranged t w c d -> treev_fanned t w' d) ->
  forall acc w w2 tot,
    (forall c, In c (leading_dirs t nodes) -> fits t n c = true) ->
    NoDup (flat_map (node_and_below t n) (leading_dirs t nodes)) ->
    treev_arrange_subdirs t (fun node w => treev_arrange_recursive t n node r true w)
      nodes acc w = Some (w2, tot) ->
    tot = fold_left (fun a c => a + treev_arc w2 c) (leading_dirs t nodes) acc /\
    (forall c, In c (leading_dirs t nodes) ->
       platform_theta (treev_geom w2 c) = treev_arc w2 c) /\
    (forall c d, In c (leading_dirs t nodes) -> treev_arranged t w c d ->
       treev_fanned t w2 d).
Proof.
  intros IHn. induction nodes as [|c nodes IH]; intros acc w w2 tot Hf Hnd E.
  - cbn in E. injection E as <- <-. cbn. splits; auto; intros c; intros; contradiction.
  - cbn [treev_arrange_subdirs leading_dirs] in *.
    destruct (NODE_IS_DIR t c) eqn:Hd; cbn [negb] in E;
      [|injection E as <- <-; cbn; splits; auto; intros c'; intros; contradiction].
    destruct (treev_arrange_recursive t n c r true w) as [w1|] eqn:E1; [|discriminate].
    cbv zeta in E.
    change (deployment w1 c * MAX (platform_arc_width (treev_geom w1 c))
                               (platform_subtree_arc_width (treev_geom w1 c)))
      with (treev_arc w1 c) in E.
    set (a := treev_arc w1 c) in *.
    set (w1' := upd_treev c (with_platform_theta a) w1) in *.
    cbn [flat_map] in Hnd. destruct (NoDup_app_parts _ _ Hnd) as (N1 & N2 & N3).
    assert (N1' : NoDup (c :: nodes_below t n c))
      by (unfold node_and_below in N1; now rewrite Hd in N1).
    assert (Hcb : forall y, In y (nodes_below t n c) -> In y (node_and_below t n c))
      by (intros y Hy; unfold node_and_below; rewrite Hd; now right).
    destruct (treev_arrange_recursive_frame n c r true w w1 E1) as (A1 & A2 & A3).
    destruct (treev_arrange_subdirs_frame n r true nodes
                (fun c0 wa wb Ea => treev_arrange_recursive_frame n c0 r true wa wb Ea)
                _ _ _ _ E) as (B1 & B2 & B3).
    destruct (IH _ _ _ _ (fun c' Hc' => Hf c' (or_intror Hc')) N2 E) as (T & Th & Bf).
    assert (Hc2 : treev_geom w2 c = with_platform_theta a (treev_geom w1 c)).
    { rewrite B3 by (apply N3; now left).
      unfold w1', upd_treev. cbn. unfold upd. now rewrite Nat.eqb_refl. }
    assert (Ha2 : anim w2 = anim w1) by (rewrite B1; reflexivity).
    assert (Harc : treev_arc w2 c = a).
    { unfold a, treev_arc, deployment. rewrite Ha2, Hc2. reflexivity. }
    splits.
    + cbn [fold_left]. rewrite Harc. exact T.
    + intros c' [<- | Hin]; [|exact (Th c' Hin)].
      rewrite Harc, Hc2. reflexivity.
    + intros c' d [<- | Hin] Ha.
      * pose proof (IHn c w w1 (Hf c (or_introl eq_refl)) N1' E1 d Ha) as F1.
        apply (treev_fanned_keep n c d w1 w2); auto.
        -- apply Hf. now left.
        -- exact (treev_arranged_dir_below w c d Ha).
        -- intros y Hy. rewrite B3 by (apply N3, Hcb, Hy).
           unfold w1', upd_treev. cbn. apply upd_other. intros ->.
           apply NoDup_cons_iff in N1'. now apply N1'.
        -- rewrite Hc2. reflexivity.
      * apply (Bf c' d Hin). apply (treev_arranged_ext w w1' c' d); [|exact Ha].
        unfold w1', upd_treev. cbn. exact A2.
Qed.

Lemma treev_spread_subdirs_spec (nodes : list nat) :
  NoDup (leading_dirs t nodes) ->
  forall th w i c, nth_error (leading_dirs t nodes) i = Some c ->
    treev_geom (treev_spread_subdirs t nodes th w) c
    = with_platform_theta
        (fold_left (fun th c => th + platform_theta (treev_geom w c))
           (firstn i (leading_dirs t nodes)) th
         + d_lit 1 2 * platform_theta (treev_geom w c))
        (treev_geom w c).
Proof.
  induction nodes as [|c0 nodes IH]; intros Hnd th w i c Hi.
  - cbn in Hi. destruct i; discriminate.
  - cbn [treev_spread_subdirs leading_dirs] in *.
    destruct (NODE_IS_DIR t c0) eqn:Hd; cbn [negb]; [|destruct i; discriminate].
    cbv zeta. apply NoDup_cons_iff in Hnd. destruct Hnd as (Hc0 & Hnd).
    set (w1 := upd_treev c0 _ w).
    assert (Hg1 : forall y, y <> c0 -> treev_geom w1 y = treev_geom w y)
      by (intros y Hy; unfold w1, upd_treev; cbn; now apply upd_other).
    destruct i as [|j].
    + cbn in Hi. injection Hi as <-. rewrite firstn_O. cbn [fold_left].
      destruct (treev_spread_subdirs_frame nodes
                  (th + platform_theta (treev_geom w c0)) w1) as (_ & _ & F).
      rewrite F by exact Hc0. unfold w1, upd_treev. cbn. unfold upd.
      now rewrite Nat.eqb_refl.
    + cbn [nth_error] in Hi. rewrite (IH Hnd _ w1 j c Hi).
      assert (Hc : In c (leading_dirs t nodes)) by (eapply nth_error_In; eauto).
      assert (Hne : forall y, In y (leading_dirs t nodes) -> y <> c0)
        by (intros y Hy ->; contradiction).
      rewrite (Hg1 c (Hne c Hc)). cbn [firstn fold_left]. f_equal. f_equal.
      apply fold_left_ext_in. intros y Hy a0. rewrite Hg1; [reflexivity|].
      apply Hne. eapply In_firstn; eauto.
Qed.

Lemma treev_arranged_open (w : World D) (x d : nat) :
  treev_arranged t w x d -> treev_open t w x = true.
Proof. now destruct 1. Qed.

Lemma treev_arrange_recursive_fanned (n : nat) :
  forall x r0 w w', fits t n x = true -> NoDup (x :: nodes_below t n x) ->
    treev_arrange_recursive t n x r0 true w = Some w' ->
    forall d, treev_arranged t w x d -> treev_fanned t w' d.
Proof.
  induction n as [|n IH]; intros x r0 w w' Hf Hnd E d Harr; [discriminate|].
  pose proof (treev_arranged_open w x d Harr) as Hopen.
  cbn [treev_arrange_recursive] in E. cbv zeta in E. cbn [negb andb] in E.
  set (w1 := if NODE_IS_DIR t x then treev_reshape_platform t x r0 w else w).
  assert (E' : match treev_arrange_subdirs t
                   (fun node w => treev_arrange_recursive t n node
                      (r0 + platform_depth (treev_geom w1 x)
                       + TREEV_PLATFORM_SPACING_DEPTH)%D true w)
                   (children (t x)) d0 w1 with
               | Some (w, subtree_arc_width) =>
                   let w := upd_treev x (with_platform_subtree_arc_width subtree_arc_width) w in
                   let w := treev_spread_subdirs t (children (t x))
                              (- d_lit 1 2 * subtree_arc_width)%D w in
                   Some (set_node_flags
                           (upd (node_flags w) x
                              (Z.land (node_flags w x) (Z.lnot TREEV_NEED_REARRANGE))) w)
               | None => None
               end = Some w').
  { unfold w1. unfold treev_open in Hopen. destruct (NODE_IS_DIR t x); [|exact E].
    cbn [andb] in Hopen. destruct (geometry_treev_is_leaf t w x); [discriminate | exact E]. }
  clear E.
  assert (Hw1 : ctree_expanded w1 = ctree_expanded w)
    by (unfold w1; destruct (NODE_IS_DIR t x); reflexivity).
  apply NoDup_cons_iff in Hnd. destruct Hnd as (Hx & Hnd).
  assert (Hnd2 : NoDup (flat_map (node_and_below t n) (children (t x)))) by exact Hnd.
  assert (Hx2 : ~ In x (flat_map (node_and_below t n) (children (t x)))) by exact Hx.
  cbn [fits] in Hf. rewrite forallb_forall in Hf.
  set (subdirs := leading_dirs t (children (t x))) in *.
  assert (Hsub : forall c, In c subdirs -> In c (children (t x)) /\ NODE_IS_DIR t c = true)
    by (intros c; apply leading_dirs_in).
  assert (Hnd3 : NoDup (flat_map (node_and_below t n) subdirs))
    by (apply leading_dirs_NoDup; exact Hnd2).
  assert (Hin2 : forall c y, In c subdirs -> In y (node_and_below t n c) ->
                             In y (flat_map (node_and_below t n) (children (t x)))).
  { intros c y Hc Hy. apply in_flat_map. exists c. split; [apply Hsub, Hc | exact Hy]. }
  assert (Hself : forall c, In c subdirs -> In c (node_and_below t n c))
    by (intros c _; now left).
  assert (Hxs : ~ In x subdirs).
  { intros Hin. apply Hx2. exact (Hin2 x x Hin (Hself x Hin)). }
  destruct (treev_arrange_subdirs t _ (children (t x)) d0 w1) as [[w2 tot]|] eqn:E2;
    [|discriminate].
  cbv zeta in E'. injection E' as <-.
  destruct (treev_arrange_subdirs_spec n _ (children (t x)) (fun c wa wb => IH c _ wa wb)
              d0 w1 w2 tot (fun c Hc => Hf c (proj1 (Hsub c Hc))) Hnd3 E2) as (T & Th & Bf).
  destruct (treev_arrange_subdirs_frame n _ true (children (t x))
              (fun c0 wa wb Ea => treev_arrange_recursive_frame n c0 _ true wa wb Ea)
              _ _ _ _ E2) as (A1 & A2 & A3).
  set (w3 := upd_treev x (with_platform_subtree_arc_width tot) w2) in *.
  assert (Hg3 : forall y, y <> x -> treev_geom w3 y = treev_geom w2 y)
    by (intros y Hy; unfold w3, upd_treev; cbn; now apply upd_other).
  assert (Hx3 : platform_subtree_arc_width (treev_geom w3 x) = tot)
    by (unfold w3, upd_treev; cbn; unfold upd; now rewrite Nat.eqb_refl).
  destruct (treev_spread_subdirs_frame (children (t x)) (- d_lit 1 2 * tot)%D w3)
    as (S1 & _ & S3).
  pose proof (treev_spread_subdirs_spec (children (t x))) as Sp.
  fold subdirs in S3, Sp.
  assert (Hnds : NoDup subdirs).
  { clear - Hnd3. induction subdirs as [|c l IHl]; [constructor|].
    cbn [flat_map] in Hnd3. destruct (NoDup_app_parts _ _ Hnd3) as (_ & N2 & N3).
    constructor; [|exact (IHl N2)].
    intros Hin. apply (N3 c); [now left|]. apply in_flat_map. exists c. split; [exact Hin | now left]. }
  specialize (Sp Hnds (- d_lit 1 2 * tot)%D w3).
  set (w4 := treev_spread_subdirs t (children (t x)) (- d_lit 1 2 * tot)%D w3) in *.
  match goal with |- treev_fanned t ?w d => set (w' := w) end.
  assert (Hg' : treev_geom w' = treev_geom w4) by reflexivity.
  assert (Ha' : anim w' = anim w2) by (unfold w'; cbn; rewrite S1; reflexivity).
  assert (Hth3 : forall c, In c subdirs -> platform_theta (treev_geom w3 c) = treev_arc w2 c).
  { intros c Hc. rewrite Hg3 by (intros ->; contradiction). exact (Th c Hc). }
  assert (Hc4 : forall c, In c subdirs ->
            platform_arc_width (treev_geom w' c) = platform_arc_width (treev_geom w2 c) /\
            platform_subtree_arc_width (treev_geom w' c)
            = platform_subtree_arc_width (treev_geom w2 c)).
  { intros c Hc. destruct (In_nth_error _ _ Hc) as (i & Hi).
    rewrite Hg', (Sp i c Hi), Hg3 by (intros ->; contradiction). split; reflexivity. }
  assert (Harc : forall c, In c subdirs -> treev_arc w' c = treev_arc w2 c).
  { intros c Hc. unfold treev_arc, deployment. rewrite Ha'.
    destruct (Hc4 c Hc) as (-> & ->). reflexivity. }
  inversion Harr as [x' Ho | x' c d' Ho Hc Hcd]; subst x'; try subst d; try subst d'.
  - unfold treev_fanned. cbv zeta. fold subdirs.
    assert (Hs : platform_subtree_arc_width (treev_geom w' x) = tot).
    { rewrite Hg'. unfold w4. rewrite S3 by exact Hxs. exact Hx3. }
    rewrite Hs. split.
    + rewrite T. apply fold_left_ext_in. intros c Hc a. now rewrite Harc.
    + intros i c Hi. assert (Hc : In c subdirs) by (eapply nth_error_In; eauto).
      rewrite Hg', (Sp i c Hi). cbn [platform_theta with_platform_theta].
      rewrite (Hth3 c Hc), (Harc c Hc). f_equal.
      apply fold_left_ext_in. intros y Hy a.
      assert (Hy' : In y subdirs) by (eapply In_firstn; eauto).
      now rewrite (Hth3 y Hy'), (Harc y Hy').
  - fold subdirs in Hc.
    pose proof (Bf c d' Hc (treev_arranged_ext w w1 c d' Hw1 Hcd)) as F2.
    destruct (Hsub c Hc) as (Hcc & Hcd').
    apply (treev_fanned_keep n c d' w2 w'); auto.
    + exact (treev_arranged_dir_below w c d' Hcd).
    + intros y Hy.
      assert (Hyb : In y (node_and_below t n c))
        by (unfold node_and_below; rewrite Hcd'; now right).
      assert (Hyx : y <> x) by (intros ->; apply Hx2; exact (Hin2 c x Hc Hyb)).
      assert (Hys : ~ In y subdirs).
      { intros Hin. destruct (Nat.eq_dec y c) as [-> | Hne].
        - pose proof (NoDup_flat_map_each _ _ c Hnd3 Hc) as Nc.
          unfold node_and_below in Nc. rewrite Hcd' in Nc.
          apply NoDup_cons_iff in Nc. now apply Nc.
        - exact (NoDup_flat_map_apart _ _ Hnd3 y c Hin Hc Hne y (Hself y Hin) Hyb). }
      rewrite Hg'. unfold w4. rewrite S3 by exact Hys. now apply Hg3.
    + apply (Hc4 c Hc).
Qed.

Lemma treev_arrange_subdirs_returns (rec : nat -> World D -> option (World D))
    (nodes : list nat) :
  (forall c, In c nodes -> forall w, exists w', rec c w = Some w') ->
  forall acc w, exists r, treev_arrange_subdirs t rec nodes acc w = Some r.
Proof.
  induction nodes as [|c nodes IH]; intros Hrec acc w; [now eexists|].
  cbn [treev_arrange_subdirs].
  destruct (negb (NODE_IS_DIR t c)); [now eexists|].
  destruct (Hrec c (or_introl eq_refl) w) as (w1 & ->). cbv zeta.
  apply IH. intros c' Hc'. apply Hrec. now right.
Qed.

Lemma treev_arrange_recursive_returns (n : nat) :
  forall x r0 rs w, fits t n x = true ->
    exists w', treev_arrange_recursive t n x r0 rs w = Some w'.
Proof.
  induction n as [|n IH]; intros x r0 rs w Hf; [discriminate|].
  cbn [treev_arrange_recursive fits] in *. cbv zeta.
  rewrite forallb_forall in Hf.
  destruct (negb rs && (Z.land (node_flags w x) TREEV_NEED_REARRANGE =? 0)%Z);
    [now eexists|].
  assert (Hshape : forall w1 r,
            exists w', match treev_arrange_subdirs t
                    (fun node w => treev_arrange_recursive t n node r rs w)
                    (children (t x)) d0 w1 with
            | Some (w, subtree_arc_width) =>
                let w := upd_treev x (with_platform_subtree_arc_width subtree_arc_width) w in
                let w := treev_spread_subdirs t (children (t x))
                           (- d_lit 1 2 * subtree_arc_width)%D w in
                Some (set_node_flags
                        (upd (node_flags w) x
                           (Z.land (node_flags w x) (Z.lnot TREEV_NEED_REARRANGE))) w)
            | None => None
            end = Some w').
  { intros w1 r.
    destruct (treev_arrange_subdirs_returns
                (fun node w => treev_arrange_recursive t n node r rs w) (children (t x))
                (fun c Hc w0 => IH c r rs w0 (Hf c Hc)) d0 w1) as ([w2 tot] & ->).
    now eexists. }
  destruct (rs && NODE_IS_DIR t x); [|apply Hshape].
  destruct (geometry_treev_is_leaf t w x); [now eexists | apply Hshape].
Qed.

(** X22.  treev_arrange_recursive( x, r0, TRUE ) on a tree returns and
    leaves every directory it arranges (the metanode and the expanded
    directories, reached through the subdirectories ahead of the first
    non-directory child) fanned out, in whatever arithmetic: the
    directory's subtree arc width is the running sum, in order, of the
    arcs of its subdirectories, an arc being the deployment times the
    larger of the platform's own and its subtree's arc width, and each
    subdirectory's platform is centred half its arc past the running
    angle, which starts at -0.5 times the subtree arc width.  The arc
    widths parked in [platform.theta] by the first loop are the ones the
    second loop reads, and nothing arranged later disturbs a fan. *)
Theorem treev_arrange_fans (n x : nat) (r0 : D) (w : World D) :
  fits t n x = true -> NoDup (x :: nodes_below t n x) ->
  exists w', treev_arrange_recursive t n x r0 true w = Some w' /\
    forall d, treev_arranged t w x d ->
      let subdirs := leading_dirs t (children (t d)) in
      let subtree_arc_width := platform_subtree_arc_width (treev_geom w' d) in
      subtree_arc_width = fold_left (fun a c => a + treev_arc w' c) subdirs d0 /\
      forall i c, nth_error subdirs i = Some c ->
        platform_theta (treev_geom w' c)
        = fold_left (fun th c => th + treev_arc w' c) (firstn i subdirs)
            (- d_lit 1 2 * subtree_arc_width)
          + d_lit 1 2 * treev_arc w' c.
Proof.
  intros Hf Hnd.
  destruct (treev_arrange_recursive_returns n x r0 true w Hf) as (w' & E).
  exists w'. split; [exact E|]. intros d Ha.
  exact (treev_arrange_recursive_fanned n x r0 w w' Hf Hnd E d Ha).
Qed.

End TreeVFanFacts.

Section TreeVFanOnReals.
Variable t : Tree.

Local Open Scope R_scope.

Ltac on_reals :=
  unfold d_lit, d0, d1, d2, SQR in *;
  cbn [d_of_Z d_add d_sub d_mul d_div d_opp d_sqrt d_lt d_le real] in *.

Lemma sum_of_nth (f : nat -> R) (l : list nat) :
  forall i c, nth_error l i = Some c ->
    sum_of f l = sum_of f (firstn i l) + f c + sum_of f (skipn (S i) l).
Proof.
  induction l as [|x l IH]; intros [|i] c Hi; try discriminate.
  - cbn in Hi. injection Hi as <-. rewrite firstn_O. unfold sum_of. cbn. lra.
  - cbn [nth_error] in Hi.
    change (firstn (S i) (x :: l)) with (x :: firstn i l).
    change (skipn (S (S i)) (x :: l)) with (skipn (S i) l).
    unfold sum_of in *. cbn [fold_right]. rewrite (IH i c Hi). lra.
Qed.

(** X23.  In exact arithmetic, after treev_arrange_recursive( x, r0, TRUE )
    on a tree the arcs of the subdirectories of every arranged directory
    tile its subtree arc width symmetrically about its axis: the subtree
    arc width S is the sum of the arcs, and the arc of each subdirectory,
    centred on its [platform.theta], begins where the arcs before it end,
    counted from -S/2, and ends where the arcs after it begin, counted
    back from +S/2. *)
Theorem treev_arcs_tile (n x : nat) (r0 : R) (w : World R) :
  fits t n x = true -> NoDup (x :: nodes_below t n x) ->
  exists w', treev_arrange_recursive t n x r0 true w = Some w' /\
    forall d, treev_arranged t w x d ->
      let subdirs := leading_dirs t (children (t d)) in
      let span := platform_subtree_arc_width (treev_geom w' d) in
      span = sum_of (treev_arc w') subdirs /\
      forall i c, nth_error subdirs i = Some c ->
        platform_theta (treev_geom w' c) - treev_arc w' c / 2
        = - span / 2 + sum_of (treev_arc w') (firstn i subdirs) /\
        platform_theta (treev_geom w' c) + treev_arc w' c / 2
        = span / 2 - sum_of (treev_arc w') (skipn (S i) subdirs).
Proof.
  intros Hf Hnd.
  destruct (treev_arrange_recursive_returns R t n x r0 true w Hf) as (w' & E).
  exists w'. split; [exact E|]. intros d Ha.
  destruct (treev_arrange_recursive_fanned R t n x r0 w w' Hf Hnd E d Ha) as (F1 & F2).
  cbv zeta in *.
  set (subdirs := leading_dirs t (children (t d))) in *.
  set (span := platform_subtree_arc_width (treev_geom w' d)) in *.
  assert (HS : span = sum_of (treev_arc w') subdirs).
  { rewrite F1. rewrite (fold_left_sum_of (treev_arc w')). on_reals. lra. }
  split; [exact HS|]. intros i c Hi.
  rewrite (F2 i c Hi), (fold_left_sum_of (treev_arc w')).
  pose proof (sum_of_nth (treev_arc w') subdirs i c Hi) as Hn.
  on_reals. split; lra.
Qed.

End TreeVFanOnReals.

(** *** The small filesystem, with the root directory expanded *)

Lemma ex_root_arranged : treev_arranged ex_tree ex_worldR 0 1.
Proof.
  apply treev_arranged_child with (c := 1%nat); [reflexivity | now left|].
  apply treev_arranged_here. reflexivity.
Qed.

Lemma treev_arrange_fans_witness :
  exists w', treev_arrange_recursive ex_tree 8 0 8192%R true ex_worldR = Some w' /\
    platform_theta (treev_geom w' 2%nat)
    = (- d_lit 1 2 * platform_subtree_arc_width (treev_geom w' 1%nat)
       + d_lit 1 2 * treev_arc w' 2)%D.
Proof.
  destruct (treev_arrange_fans R ex_tree 8 0 8192%R ex_worldR
              eq_refl ex_tree_is_tree_from_metanode) as (w' & E & P).
  exists w'. split; [exact E|].
  exact (proj2 (P 1%nat ex_root_arranged) 0%nat 2%nat eq_refl).
Defined.

Lemma treev_arcs_tile_witness :
  exists w', treev_arrange_recursive ex_tree 8 0 8192%R true ex_worldR = Some w' /\
    platform_subtree_arc_width (treev_geom w' 1%nat) = sum_of (treev_arc w') [2%nat].
Proof.
  destruct (treev_arcs_tile ex_tree 8 0 8192%R ex_worldR
              eq_refl ex_tree_is_tree_from_metanode) as (w' & E & P).
  exists w'. split; [exact E|].
  exact (proj1 (P 1%nat ex_root_arranged)).
Defined.

(** * geometry.c: the TREEV_NEED_REARRANGE flag *)

Section TreeVRearrangeFacts.
Variable D : Type.
Context `{Double D} `{Libm D}.
Variable t : Tree.

Local Open Scope double_scope.

Lemma flag_set (f : Z) :
  Z.land (Z.land (Z.lor f TREEV_NEED_REARRANGE) 3) TREEV_NEED_REARRANGE = 1%Z.
Proof.
  unfold TREEV_NEED_REARRANGE. rewrite <- Z.land_assoc.
  change (Z.land 3 1) with 1%Z. rewrite Z.land_lor_distr_l.
  change (Z.land 1 1) with 1%Z.
  change 1%Z with (Z.ones 1) at 1 2. rewrite Z.land_ones by lia.
  change (2 ^ 1)%Z with 2%Z. change (Z.ones 1) with 1%Z.
  destruct (Z.mod_pos_bound f 2 ltac:(lia)) as (A & B).
  assert (E : (f mod 2 = 0 \/ f mod 2 = 1)%Z) by lia.
  destruct E as [-> | ->]; reflexivity.
Qed.

Lemma flag_cleared (f : Z) :
  Z.land (Z.land f (Z.lnot TREEV_NEED_REARRANGE)) TREEV_NEED_REARRANGE = 0%Z.
Proof.
  rewrite <- Z.land_assoc. change (Z.land (Z.lnot TREEV_NEED_REARRANGE) TREEV_NEED_REARRANGE) with 0%Z.
  apply Z.land_0_r.
Qed.

(** *** treev_queue_rearrange( ) *)

Lemma descends_child (Hc : forall p c, In c (children (t p)) -> parent (t c) = Some p)
    (x p : nat) :
  In p (leading_dirs t (children (t x))) -> parent (t p) = Some x.
Proof. intros Hin. apply Hc. now apply leading_dirs_in in Hin. Qed.

Lemma treev_queue_rearrange_loop_top (fuel : nat) (w : World D) :
  treev_queue_rearrange_loop t fuel None w = Some w.
Proof. destruct fuel; reflexivity. Qed.

Lemma last_cons_default {A : Type} (l : list A) :
  forall a d, last (a :: l) d = last l a.
Proof.
  induction l as [|b l IH]; intros a d; [reflexivity|].
  change (last (a :: b :: l) d) with (last (b :: l) d). now rewrite !IH.
Qed.

Lemma treev_queue_rearrange_loop_up
    (Hc : forall p c, In c (children (t p)) -> parent (t c) = Some p) (path : list nat) :
  forall x k (w : World D), descends t x path ->
    exists w1,
      treev_queue_rearrange_loop t (List.length path + k) (Some (last path x)) w
      = treev_queue_rearrange_loop t k (Some x) w1 /\
      (forall y, In y path -> need_rearrange w1 y = true /\ b_dlist_stale w1 y = true) /\
      (forall y, ~ In y path -> node_flags w1 y = node_flags w y).
Proof.
  induction path as [|p1 path IH]; intros x k w Hd.
  - exists w. splits; auto; intros y [].
  - destruct Hd as (Hp1 & Hd).
    destruct (IH p1 (S k) w Hd) as (w1 & E & F1 & F2).
    rewrite last_cons_default.
    eexists. split; [|split].
    + cbn [List.length]. rewrite <- plus_n_Sm in E. cbn [Nat.add]. rewrite E.
      cbn [treev_queue_rearrange_loop]. cbv zeta.
      rewrite (descends_child Hc x p1 Hp1). reflexivity.
    + intros y Hy. cbn [b_dlist_stale set_b_dlist_stale node_flags set_node_flags].
      unfold need_rearrange. cbn [node_flags set_node_flags set_b_dlist_stale].
      unfold upd. destruct (Nat.eqb y p1) eqn:Ey.
      * rewrite flag_set. split; reflexivity.
      * apply Nat.eqb_neq in Ey. destruct Hy as [-> | Hy]; [congruence|].
        exact (F1 y Hy).
    + intros y Hy. cbn [node_flags set_node_flags set_b_dlist_stale].
      rewrite upd_other by (intros ->; apply Hy; now left).
      apply F2. intros Hin. apply Hy. now right.
Qed.

(** *** treev_arrange_recursive( ) without reshaping *)

Section Chain.
Hypothesis Hc : forall p c, In c (children (t p)) -> parent (t c) = Some p.

Lemma descends_parent (path : list nat) :
  forall u c, descends t u path -> In c path ->
    exists q, In q (u :: path) /\ parent (t c) = Some q.
Proof.
  induction path as [|p1 path IH]; intros u c Hd Hin; [destruct Hin|].
  destruct Hd as (Hp1 & Hd). destruct Hin as [<- | Hin].
  - exists u. split; [now left | exact (descends_child Hc u p1 Hp1)].
  - destruct (IH p1 c Hd Hin) as (q & Hq & E). exists q. split; [now right | exact E].
Qed.

Lemma descends_first (path : list nat) (x c : nat) :
  descends t x path -> In c path -> parent (t c) = Some x -> ~ In x path ->
  exists rest, path = c :: rest.
Proof.
  destruct path as [|p1 rest]; intros Hd Hin Hp Hx; [destruct Hin|].
  destruct Hin as [<- | Hin]; [now exists rest|].
  destruct Hd as (_ & Hd).
  destruct (descends_parent rest p1 c Hd Hin) as (q & Hq & E).
  exfalso. apply Hx. rewrite Hp in E. injection E as <-. exact Hq.
Qed.

Lemma need_rearrange_ext (w w' : World D) (y : nat) :
  node_flags w' y = node_flags w y -> need_rearrange w' y = need_rearrange w y.
Proof. unfold need_rearrange. now intros ->. Qed.

Lemma treev_arrange_unflagged (n x : nat) (r : D) (w w' : World D) :
  need_rearrange w x = false ->
  treev_arrange_recursive t n x r false w = Some w' -> w' = w.
Proof.
  destruct n as [|n]; [discriminate|]. intros Hf E.
  cbn [treev_arrange_recursive] in E. cbn [negb andb] in E.
  unfold need_rearrange in Hf. apply Bool.negb_false_iff in Hf. rewrite Hf in E.
  now injection E as <-.
Qed.

Lemma treev_spread_subdirs_flags (nodes : list nat) :
  forall th (w : World D), node_flags (treev_spread_subdirs t nodes th w) = node_flags w.
Proof.
  induction nodes as [|c nodes IH]; intros th w; [reflexivity|].
  cbn [treev_spread_subdirs]. destruct (negb (NODE_IS_DIR t c)); [reflexivity|].
  cbv zeta. now rewrite IH.
Qed.

(** The first loop at [x], whose path below is [path]: the subdirectory
    that heads the path is arranged and has the flags of the path
    cleared; the others, not flagged, are left at once. *)
Lemma treev_arrange_subdirs_clears (n x : nat) (path : list nat) (r : D) (w : World D) :
  (forall p1 rest (wa wb : World D),
     NoDup (p1 :: rest) -> descends t p1 rest ->
     (forall p, In p (p1 :: rest) -> parent (t p1) <> Some p) ->
     (forall y, In y (p1 :: rest) -> need_rearrange wa y = true) ->
     (forall p c, In p (p1 :: rest) -> In c (leading_dirs t (children (t p))) ->
        ~ In c (p1 :: rest) -> need_rearrange wa c = false) ->
     treev_arrange_recursive t n p1 r false wa = Some wb ->
     (forall y, In y (p1 :: rest) -> need_rearrange wb y = false) /\
     (forall y, ~ In y (p1 :: rest) -> node_flags wb y = node_flags wa y)) ->
  NoDup (x :: path) -> descends t x path ->
  (forall p, In p (x :: path) -> parent (t x) <> Some p) ->
  (forall y, In y (x :: path) -> need_rearrange w y = true) ->
  (forall p c, In p (x :: path) -> In c (leading_dirs t (children (t p))) ->
     ~ In c (x :: path) -> need_rearrange w c = false) ->
  forall nodes acc (wc w2 : World D) tot,
    (forall c, In c (leading_dirs t nodes) -> In c (leading_dirs t (children (t x)))) ->
    (forall y, ~ In y path -> node_flags wc y = node_flags w y) ->
    ((forall y, In y path -> need_rearrange wc y = false) \/
     (forall y, In y path -> node_flags wc y = node_flags w y)) ->
    treev_arrange_subdirs t (fun node w => treev_arrange_recursive t n node r false w)
      nodes acc wc = Some (w2, tot) ->
    (forall y, ~ In y path -> node_flags w2 y = node_flags w y) /\
    ((forall y, In y path -> need_rearrange wc y = false) ->
     forall y, In y path -> need_rearrange w2 y = false) /\
    ((forall y, In y path -> node_flags wc y = node_flags w y) ->
     (forall y, In y path -> need_rearrange w2 y = false) \/
     forall p1 rest, path = p1 :: rest -> ~ In p1 (leading_dirs t nodes)).
Proof.
  intros IHn Hnd Hd Hpar Hfl Hun.
  assert (Hxp : ~ In x path) by (now apply NoDup_cons_iff in Hnd).
  induction nodes as [|c nodes IH]; intros acc wc w2 tot Hsub Hkeep Hstate E.
  - cbn in E. injection E as <- _. splits; auto.
  - cbn [treev_arrange_subdirs leading_dirs] in *.
    destruct (NODE_IS_DIR t c) eqn:Hdir; cbn [negb] in E;
      [|injection E as <- _; splits; auto].
    destruct (treev_arrange_recursive t n c r false wc) as [w1|] eqn:E1; [|discriminate].
    cbv zeta in E.
    assert (Hcx : In c (leading_dirs t (children (t x)))) by (apply Hsub; now left).
    assert (Hpc : parent (t c) = Some x) by exact (descends_child Hc x c Hcx).
    assert (Hne : c <> x).
    { intros ->. exact (Hpar x (or_introl eq_refl) Hpc). }
    match type of E with treev_arrange_subdirs t _ nodes ?a ?b = _ =>
      set (acc1 := a) in *; set (w1' := b) in * end.
    assert (Hf1 : node_flags w1' = node_flags w1) by reflexivity.
    destruct (need_rearrange wc c) eqn:Hflc.
    + (* the subdirectory is flagged: it heads the path *)
      assert (Hcp : In c path).
      { destruct (in_dec Nat.eq_dec c path) as [Hin | Hnin]; [exact Hin | exfalso].
        assert (Hn : ~ In c (x :: path)) by (intros [Hx | Hin]; [now apply Hne | contradiction]).
        rewrite (need_rearrange_ext w wc c (Hkeep c Hnin)) in Hflc.
        rewrite (Hun x c (or_introl eq_refl) Hcx Hn) in Hflc. discriminate. }
      destruct Hstate as [Hdone | Hfresh];
        [rewrite (Hdone c Hcp) in Hflc; discriminate|].
      destruct (descends_first path x c Hd Hcp Hpc Hxp) as (rest & Epath).
      subst path. destruct Hd as (_ & Hd').
      apply NoDup_cons_iff in Hnd. destruct Hnd as (_ & Hnd').
      assert (Hrec :
                (forall y, In y (c :: rest) -> need_rearrange w1 y = false) /\
                (forall y, ~ In y (c :: rest) -> node_flags w1 y = node_flags wc y)).
      { apply (IHn c rest wc w1); auto.
        - intros p Hp. rewrite Hpc. intros Heq. injection Heq as <-. contradiction.
        - intros y Hy. rewrite (need_rearrange_ext w wc y (Hfresh y Hy)).
          apply Hfl. now right.
        - intros p c' Hp Hc' Hn.
          assert (Hpc' : parent (t c') = Some p) by exact (descends_child Hc p c' Hc').
          assert (Hn' : ~ In c' (x :: c :: rest)).
          { intros [Hx | Hin]; [|contradiction]. subst c'.
            exact (Hpar p (or_intror Hp) Hpc'). }
          rewrite (need_rearrange_ext w wc c' (Hkeep c' Hn)).
          exact (Hun p c' (or_intror Hp) Hc' Hn'). }
      destruct Hrec as (R1 & R2).
      assert (Hdone1 : forall y, In y (c :: rest) -> need_rearrange w1' y = false).
      { intros y Hy. rewrite (need_rearrange_ext w1 w1' y (f_equal (fun f => f y) Hf1)).
        exact (R1 y Hy). }
      destruct (IH acc1 w1' w2 tot (fun c' Hc' => Hsub c' (or_intror Hc'))) as (K & Dn & _);
        [| left; exact Hdone1 | exact E |].
      { intros y Hy. rewrite Hf1, (R2 y Hy). now apply Hkeep. }
      splits.
      * exact K.
      * intros _. exact (Dn Hdone1).
      * intros _. left. exact (Dn Hdone1).
    + (* not flagged: left at once *)
      pose proof (treev_arrange_unflagged n c r wc w1 Hflc E1) as ->.
      destruct (IH acc1 w1' w2 tot (fun c' Hc' => Hsub c' (or_intror Hc'))) as (K & Dn & Fr);
        [| | exact E |].
      { intros y Hy. rewrite Hf1. now apply Hkeep. }
      { destruct Hstate as [Hdone | Hfresh]; [left | right]; intros y Hy.
        - rewrite (need_rearrange_ext wc w1' y (f_equal (fun f => f y) Hf1)). now apply Hdone.
        - rewrite Hf1. now apply Hfresh. }
      splits.
      * exact K.
      * intros Hdone. apply Dn. intros y Hy.
        rewrite (need_rearrange_ext wc w1' y (f_equal (fun f => f y) Hf1)). now apply Hdone.
      * intros Hfresh. destruct Fr as [Fr | Fr].
        -- intros y Hy. rewrite Hf1. now apply Hfresh.
        -- now left.
        -- right. intros p1 rest Ep [<- | Hin]; [|exact (Fr p1 rest Ep Hin)].
           subst path.
           rewrite (need_rearrange_ext w wc c (Hfresh c (or_introl eq_refl))) in Hflc.
           rewrite (Hfl c (or_intror (or_introl eq_refl))) in Hflc. discriminate.
Qed.

Lemma treev_arrange_clears (n : nat) :
  forall x path r (w w' : World D),
    NoDup (x :: path) -> descends t x path ->
    (forall p, In p (x :: path) -> parent (t x) <> Some p) ->
    (forall y, In y (x :: path) -> need_rearrange w y = true) ->
    (forall p c, In p (x :: path) -> In c (leading_dirs t (children (t p))) ->
       ~ In c (x :: path) -> need_rearrange w c = false) ->
    treev_arrange_recursive t n x r false w = Some w' ->
    (forall y, In y (x :: path) -> need_rearrange w' y = false) /\
    (forall y, ~ In y (x :: path) -> node_flags w' y = node_flags w y).
Proof.
  induction n as [|n IH]; intros x path r w w' Hnd Hd Hpar Hfl Hun E; [discriminate|].
  cbn [treev_arrange_recursive] in E. cbv zeta in E. cbn [negb andb] in E.
  pose proof (Hfl x (or_introl eq_refl)) as Hx. unfold need_rearrange in Hx.
  apply Bool.negb_true_iff in Hx. rewrite Hx in E.
  destruct (treev_arrange_subdirs t _ (children (t x)) d0 w) as [[w2 tot]|] eqn:E2;
    [|discriminate].
  injection E as <-.
  destruct (treev_arrange_subdirs_clears n x path _ w
              (fun p1 rest wa wb => IH p1 rest _ wa wb) Hnd Hd Hpar Hfl Hun
              (children (t x)) d0 w w2 tot (fun c Hc => Hc) (fun y _ => eq_refl)
              (or_intror (fun y _ => eq_refl)) E2)
    as (K & _ & Fr).
  assert (Hdone : forall y, In y path -> need_rearrange w2 y = false).
  { destruct (Fr (fun y _ => eq_refl)) as [Dn | Nf]; [exact Dn|].
    destruct path as [|p1 rest]; [intros y []|].
    destruct Hd as (Hp1 & _). exfalso. exact (Nf p1 rest eq_refl Hp1). }
  match goal with |- context [treev_spread_subdirs t ?l ?a ?b] =>
    pose proof (treev_spread_subdirs_flags l a b) as Hs;
    set (w4 := treev_spread_subdirs t l a b) in * end.
  cbn [node_flags set_node_flags upd_treev set_treev_geom] in Hs.
  assert (Hxp : ~ In x path) by (now apply NoDup_cons_iff in Hnd).
  split.
  - intros y [<- | Hy]; unfold need_rearrange; cbn [node_flags set_node_flags].
    + unfold upd. rewrite Nat.eqb_refl, flag_cleared. reflexivity.
    + rewrite upd_other by (intros ->; contradiction). rewrite Hs.
      exact (Hdone y Hy).
  - intros y Hy. cbn [node_flags set_node_flags].
    rewrite upd_other by (intros ->; apply Hy; now left). rewrite Hs.
    apply K. intros Hin. apply Hy. now right.
Qed.

Variable fstree : nat.

(** X24.  The protocol of the flag TREEV_NEED_REARRANGE.  On a tree whose
    children point back at their parents and where no node is flagged, in
    TreeV mode, geometry_colexp_in_progress( d ) flags exactly [d] and its
    ancestors up to the metanode and marks their display list B stale;
    treev_arrange_recursive( fstree, r0, FALSE ) then returns with no node
    flagged any more, provided every directory of the path down to [d] is
    among the subdirectories ahead of the first non-directory child of
    its parent; and a second call finds nothing to do. *)
Theorem treev_rearrange_protocol (n fuel : nat) (path : list nat) (r0 : D) (w : World D) :
  parent (t fstree) = None ->
  NoDup (fstree :: path) -> descends t fstree path ->
  fits t n fstree = true -> (List.length path < fuel)%nat ->
  fsv_mode w = FSV_TREEV ->
  (forall y, need_rearrange w y = false) ->
  exists w1 w2,
    geometry_colexp_in_progress t fuel (last path fstree) w = Some w1 /\
    (forall y, need_rearrange w1 y = true <-> In y (fstree :: path)) /\
    (forall y, In y (fstree :: path) -> b_dlist_stale w1 y = true) /\
    treev_arrange_recursive t n fstree r0 false w1 = Some w2 /\
    (forall y, need_rearrange w2 y = false) /\
    treev_arrange_recursive t n fstree r0 false w2 = Some w2.
Proof.
  intros Htop Hnd Hd Hf Hfuel Hmode Hclean.
  unfold geometry_colexp_in_progress. cbv zeta.
  set (w0 := if negb _ then _ else _).
  assert (Hm0 : fsv_mode w0 = FSV_TREEV)
    by (unfold w0; destruct (negb _); exact Hmode).
  assert (Hf0 : node_flags w0 = node_flags w)
    by (unfold w0; destruct (negb _); reflexivity).
  rewrite Hm0. unfold treev_queue_rearrange.
  replace fuel with (List.length path + S (fuel - S (List.length path)))%nat by lia.
  destruct (treev_queue_rearrange_loop_up Hc path fstree (S (fuel - S (List.length path))) w0 Hd)
    as (wA & E & F1 & F2).
  rewrite E. cbn [treev_queue_rearrange_loop]. cbv zeta.
  rewrite Htop, treev_queue_rearrange_loop_top.
  match goal with |- exists w1 w2, Some ?a = Some w1 /\ _ => set (w1 := a) end.
  assert (Hfl1 : forall y, In y (fstree :: path) ->
                   need_rearrange w1 y = true /\ b_dlist_stale w1 y = true).
  { intros y Hy. unfold w1, need_rearrange, queue_uncached_draw.
    cbn [node_flags b_dlist_stale set_fstree_high_draw_stage set_fstree_low_draw_stage
         set_b_dlist_stale set_node_flags].
    unfold upd. destruct (Nat.eqb y fstree) eqn:Ey.
    - rewrite flag_set. split; reflexivity.
    - apply Nat.eqb_neq in Ey. destruct Hy as [-> | Hy]; [congruence | exact (F1 y Hy)]. }
  assert (Hun1 : forall y, ~ In y (fstree :: path) -> need_rearrange w1 y = false).
  { intros y Hy. rewrite <- (Hclean y). apply need_rearrange_ext.
    unfold w1, queue_uncached_draw.
    cbn [node_flags set_fstree_high_draw_stage set_fstree_low_draw_stage
         set_b_dlist_stale set_node_flags].
    rewrite upd_other by (intros ->; apply Hy; now left).
    rewrite F2 by (intros Hin; apply Hy; now right). now rewrite Hf0. }
  destruct (treev_arrange_recursive_returns D t n fstree r0 false w1 Hf) as (w2 & E2).
  destruct (treev_arrange_clears n fstree path r0 w1 w2 Hnd Hd
              ltac:(intros p _; rewrite Htop; discriminate)
              (fun y Hy => proj1 (Hfl1 y Hy))
              (fun p c _ _ Hn => Hun1 c Hn) E2) as (C1 & C2).
  assert (Hclean2 : forall y, need_rearrange w2 y = false).
  { intros y. destruct (in_dec Nat.eq_dec y (fstree :: path)) as [Hin | Hnin].
    - exact (C1 y Hin).
    - rewrite (need_rearrange_ext w1 w2 y (C2 y Hnin)). exact (Hun1 y Hnin). }
  exists w1, w2. splits; auto.
  - intros y. split.
    + intros Hy. destruct (in_dec Nat.eq_dec y (fstree :: path)) as [Hin | Hnin];
        [exact Hin | rewrite (Hun1 y Hnin) in Hy; discriminate].
    + intros Hy. exact (proj1 (Hfl1 y Hy)).
  - intros y Hy. exact (proj2 (Hfl1 y Hy)).
  - destruct (treev_arrange_recursive_returns D t n fstree r0 false w2 Hf) as (w3 & E3).
    rewrite E3. f_equal.
    exact (treev_arrange_unflagged n fstree r0 w2 w3 (Hclean2 fstree) E3).
Qed.

End Chain.

End TreeVRearrangeFacts.

(** *** A directory of the small filesystem collapses or expands *)

Lemma ex_tree_parents :
  forall p c, In c (children (ex_tree p)) -> parent (ex_tree c) = Some p.
Proof.
  intros p c. unfold ex_tree at 1.
  do 7 (destruct p as [|p]; [cbn; intuition (subst; reflexivity)|]).
  cbn. intros [].
Qed.

Lemma treev_rearrange_protocol_witness :
  exists w1 w2,
    geometry_colexp_in_progress ex_tree 3 2 ex_treevR = Some w1 /\
    need_rearrange w1 1 = true /\
    treev_arrange_recursive ex_tree 8 0 8192%R false w1 = Some w2 /\
    need_rearrange w2 1 = false.
Proof.
  destruct (treev_rearrange_protocol R ex_tree ex_tree_parents 0 8 3 [1%nat; 2%nat] 8192%R
              ex_treevR eq_refl
              ltac:(repeat (constructor; [cbn; intuition discriminate|]); constructor)
              ltac:(cbn; auto) eq_refl ltac:(cbn; lia) eq_refl (fun _ => eq_refl))
    as (w1 & w2 & E1 & F & _ & E2 & C & _).
  exists w1, w2. splits; auto.
  apply F. right. now left.
Defined.

(** * geometry.c: the levels of the map *)

Section MapVLevelFacts.
Variable t : Tree.
Hypothesis Hc : forall p c, In c (children (t p)) -> parent (t c) = Some p.

Local Open Scope R_scope.

Ltac on_reals :=
  unfold d_lit, d0, d1, d2, SQR in *;
  cbn [d_of_Z d_add d_sub d_mul d_div d_opp d_sqrt d_lt d_le real] in *.

Lemma dir_path_below (path : list nat) :
  forall x, dir_path t x path -> dir_below t x (last path x).
Proof.
  induction path as [|p rest IH]; intros x Hp; [constructor|].
  destruct Hp as (Hin & Hd & Hp). rewrite last_cons_default.
  exact (dir_below_child x Hin Hd (IH p Hp)).
Qed.

Lemma dir_path_parents (path : list nat) :
  forall x, dir_path t x path ->
  forall p, In p path ->
    exists d, dir_below t x d /\ In p (children (t d)) /\ NODE_IS_DIR t p = true.
Proof.
  induction path as [|p1 rest IH]; intros x Hp p Hin; [destruct Hin|].
  destruct Hp as (Hin1 & Hd1 & Hp). destruct Hin as [<- | Hin].
  - exists x. splits; auto. constructor.
  - destruct (IH p1 Hp p Hin) as (d & Hb & Hcd & Hdir).
    exists d. splits; auto. exact (dir_below_child x Hin1 Hd1 Hb).
Qed.

Lemma mapv_node_z0_loop_top (fuel : nat) (w : World R) (z : R) :
  mapv_node_z0_loop t fuel w None z = Some z.
Proof. destruct fuel; reflexivity. Qed.

(** Up a path of directories that are all 384 high. *)
Lemma mapv_node_z0_loop_up (w : World R) (path : list nat) :
  forall x k z, dir_path t x path ->
    (forall p, In p path -> height (mapv_geom w p) = 384) ->
    mapv_node_z0_loop t (List.length path + k) w (Some (last path x)) z
    = mapv_node_z0_loop t k w (Some x) (z + 384 * IZR (Z.of_nat (List.length path))).
Proof.
  induction path as [|p1 rest IH]; intros x k z Hp Hh.
  - cbn [List.length last Nat.add]. f_equal. cbn. lra.
  - destruct Hp as (Hin & Hd & Hp). rewrite last_cons_default.
    cbn [List.length]. rewrite Nat.add_succ_comm.
    rewrite (IH p1 (S k) z Hp (fun p Hp' => Hh p (or_intror Hp'))).
    cbn [mapv_node_z0_loop]. rewrite (Hc x p1 Hin), (Hh p1 (or_introl eq_refl)).
    f_equal. rewrite Nat2Z.inj_succ, succ_IZR. on_reals. lra.
Qed.

Variable fstree : nat.

(** X25.  In exact arithmetic, after mapv_init( ) on a tree whose children
    point back at their parents, geometry_mapv_node_z0( ) puts the root
    directory at height 0 and every node whose directory is reached from
    the root directory by a path of [k] further directories at height
    384 * (k + 1): each level of the map stands one directory height
    above the level below it. *)
Theorem mapv_levels (fuel zfuel root : nat) (rest path : list nat) (c : nat) (w : World R) :
  children (t fstree) = root :: rest ->
  parent (t fstree) = None ->
  fits t fuel root = true ->
  NoDup (root :: nodes_below t fuel root) ->
  (0 < subtree_size (t fstree))%Z ->
  dir_path t root path -> In c (children (t (last path root))) ->
  (List.length path + 2 <= zfuel)%nat ->
  exists w', mapv_init t fstree fuel w = Some w' /\
    geometry_mapv_node_z0 t zfuel w' root = Some 0 /\
    geometry_mapv_node_z0 t zfuel w' c
    = Some (384 * IZR (Z.of_nat (S (List.length path)))).
Proof.
  intros Hch Htop Hf Hnd Hs Hp Hin Hz.
  destruct (mapv_init_root t fstree fuel root rest w Hch Hf Hnd Hs)
    as (w0 & w' & E0 & E & Eg & Hf0 & G & (_ & _ & _ & _ & Hh0)).
  exists w'. split; [exact E|].
  pose proof (mapv_init_recursive_nested t (fun _ => True)
                (fun _ _ _ => proj2 (Forall_forall _ _) (fun _ _ => I))
                fuel root w0 w' Hf Hnd I E0) as B.
  pose proof (mapv_init_recursive_frame R t fuel root w0 w' E0) as F.
  assert (Hroot : parent (t root) = Some fstree)
    by (apply Hc; rewrite Hch; now left).
  assert (Hhr : height (mapv_geom w' root) = 384) by (rewrite Eg; exact Hh0).
  assert (Hhf : height (mapv_geom w' fstree) = 0).
  { assert (Hne : fstree <> root).
    { intros Heq. rewrite <- Heq, Htop in Hroot. discriminate. }
    rewrite F; [exact (Hf0 Hne)|].
    clear - Hc Htop. generalize root. induction fuel as [|n IH]; intros x Hb; [destruct Hb|].
    rewrite nodes_below_S in Hb. apply in_flat_map in Hb.
    destruct Hb as (c & Hcx & Hb). unfold node_and_below in Hb.
    destruct Hb as [<- | Hb].
    - rewrite (Hc x c Hcx) in Htop. discriminate.
    - destruct (NODE_IS_DIR t c); [exact (IH c Hb) | destruct Hb]. }
  assert (Hhp : forall p, In p path -> height (mapv_geom w' p) = 384).
  { intros p Hp'. destruct (dir_path_parents path root Hp p Hp') as (d & Hb & Hcd & Hdir).
    destruct (B d Hb) as (L & _). unfold mapv_laid_out in L.
    pose proof (mapv_layout_heights R t (mapv_geom w' d) (children (t d))) as Hh.
    rewrite <- L, Forall_forall in Hh.
    specialize (Hh (p, mapv_geom w' p)
                  ltac:(apply in_map_iff; exists p; split; [reflexivity | exact Hcd])).
    cbn [fst snd] in Hh. rewrite Hdir in Hh. exact Hh. }
  assert (Htail : forall k z, mapv_node_z0_loop t (S (S k)) w' (Some root) z = Some (z + 384)).
  { intros k z. cbn [mapv_node_z0_loop].
    rewrite Hroot, Hhr, Htop, Hhf, mapv_node_z0_loop_top. f_equal. on_reals. lra. }
  replace zfuel with (List.length path + S (S (zfuel - List.length path - 2)))%nat by lia.
  split.
  - unfold geometry_mapv_node_z0. rewrite Hroot.
    rewrite <- Nat.add_succ_comm. cbn [Nat.add mapv_node_z0_loop].
    rewrite Htop, Hhf, mapv_node_z0_loop_top. f_equal. on_reals. lra.
  - unfold geometry_mapv_node_z0. rewrite (Hc _ c Hin).
    rewrite (mapv_node_z0_loop_up w' path root _ d0 Hp Hhp), Htail.
    f_equal. rewrite Nat2Z.inj_succ, succ_IZR. on_reals. lra.
Qed.

End MapVLevelFacts.

(** *** The levels of the small filesystem *)

Lemma mapv_levels_witness :
  exists w', mapv_init ex_tree 0 7 ex_worldR = Some w' /\
    geometry_mapv_node_z0 ex_tree 4 w' 4 = Some (384 * 3)%R.
Proof.
  destruct (mapv_levels ex_tree ex_tree_parents 0 7 4 1 [] [2%nat; 3%nat] 4
              ex_worldR eq_refl eq_refl eq_refl ex_tree_is_tree eq_refl
              ltac:(cbn; auto 10) ltac:(cbn; auto) ltac:(cbn; lia))
    as (w' & E & _ & Z).
  exists w'. split; [exact E | exact Z].
Defined.

(** * geometry.c: the heights of the TreeV leaves and platforms *)

Section TreeVHeightFacts.
Variable D : Type.
Context `{Double D} `{Libm D}.
Variable t : Tree.

Local Open Scope double_scope.

Lemma treev_init_children_cons (rec : nat -> World D -> option (World D))
    (c : nat) (nodes : list nat) (w : World D) :
  treev_init_children t rec (c :: nodes) w
  = match (if NODE_IS_DIR t c then
             rec c (upd_treev c (with_platform_height (@TREEV_PLATFORM_HEIGHT D _)) w)
           else Some w) with
    | Some w1 =>
        treev_init_children t rec nodes
          (upd_treev c (with_leaf_height
                          (d_sqrt (d_of_Z (treev_leaf_size t c))
                           * @TREEV_LEAF_HEIGHT_MULTIPLIER D _)) w1)
    | None => None
    end.
Proof.
  cbn [treev_init_children]. cbv zeta. unfold treev_leaf_size.
  destruct (NODE_IS_DIR t c); [|reflexivity].
  destruct (rec c _); reflexivity.
Qed.

(** treev_init_recursive( ) on [x] writes the geometry of the nodes below
    [x] and the flags of [x] and of the nodes below it, and of no
    other. *)
Lemma treev_init_children_frame (n : nat) (nodes : list nat) :
  (forall c w w', treev_init_recursive t n c w = Some w' ->
     (forall y, ~ In y (nodes_below t n c) -> treev_geom w' y = treev_geom w y) /\
     (forall y, y <> c -> ~ In y (nodes_below t n c) -> node_flags w' y = node_flags w y)) ->
  forall w w', treev_init_children t (treev_init_recursive t n) nodes w = Some w' ->
    (forall y, ~ In y (flat_map (node_and_below t n) nodes) ->
       treev_geom w' y = treev_geom w y) /\
    (forall y, ~ In y (flat_map (node_and_below t n) nodes) ->
       node_flags w' y = node_flags w y).
Proof.
  intros IHn. induction nodes as [|c nodes IH]; intros w w' E.
  - cbn in E. injection E as <-. auto.
  - rewrite treev_init_children_cons in E. cbn [flat_map]. unfold node_and_below at 1 3.
    destruct (NODE_IS_DIR t c) eqn:Hd.
    + destruct (treev_init_recursive t n c _) as [w1|] eqn:E1; [|discriminate].
      destruct (IHn _ _ _ E1) as (A1 & A2). destruct (IH _ _ E) as (B1 & B2).
      split; intros y Hy.
      * rewrite B1 by (intros Hin; apply Hy; right; apply in_or_app; now right).
        unfold upd_treev. cbn [treev_geom set_treev_geom].
        rewrite upd_other by (intros ->; apply Hy; now left).
        rewrite A1 by (intros Hin; apply Hy; right; apply in_or_app; now left).
        unfold upd_treev. cbn [treev_geom set_treev_geom].
        apply upd_other. intros ->. apply Hy. now left.
      * rewrite B2 by (intros Hin; apply Hy; right; apply in_or_app; now right).
        cbn [node_flags upd_treev set_treev_geom].
        rewrite A2; [reflexivity | intros ->; apply Hy; now left |].
        intros Hin. apply Hy. right. apply in_or_app. now left.
    + destruct (IH _ _ E) as (B1 & B2).
      split; intros y Hy.
      * rewrite B1 by (intros Hin; apply Hy; now right).
        unfold upd_treev. cbn [treev_geom set_treev_geom].
        apply upd_other. intros ->. apply Hy. now left.
      * rewrite B2 by (intros Hin; apply Hy; now right). reflexivity.
Qed.

Lemma treev_init_recursive_frame (n : nat) :
  forall x w w', treev_init_recursive t n x w = Some w' ->
    (forall y, ~ In y (nodes_below t n x) -> treev_geom w' y = treev_geom w y) /\
    (forall y, y <> x -> ~ In y (nodes_below t n x) -> node_flags w' y = node_flags w y).
Proof.
  induction n as [|n IH]; intros x w w' E; [discriminate|].
  cbn [treev_init_recursive] in E. cbv zeta in E.
  destruct (treev_init_children_frame n _ IH _ _ E) as (A1 & A2).
  rewrite nodes_below_S. split; intros y Hy.
  - rewrite A1 by exact Hy. cbn [treev_geom set_node_flags].
    destruct (NODE_IS_DIR t x); reflexivity.
  - intros Hy'. rewrite A2 by exact Hy'. cbn [node_flags set_node_flags].
    rewrite upd_other by exact Hy. destruct (NODE_IS_DIR t x); reflexivity.
Qed.

Lemma treev_heights_ok_ext (w w' : World D) (c : nat) :
  treev_geom w' c = treev_geom w c -> treev_heights_ok t w c -> treev_heights_ok t w' c.
Proof. unfold treev_heights_ok. now intros ->. Qed.

Lemma treev_init_children_heights (n : nat) (nodes : list nat) :
  (forall x w w', fits t n x = true -> NoDup (x :: nodes_below t n x) ->
     treev_init_recursive t n x w = Some w' -> treev_initialised t w' x) ->
  forall w w',
    (forall c, In c nodes -> fits t n c = true) ->
    NoDup (flat_map (node_and_below t n) nodes) ->
    treev_init_children t (treev_init_recursive t n) nodes w = Some w' ->
    (forall c, In c nodes -> treev_heights_ok t w' c) /\
    (forall c, In c nodes -> NODE_IS_DIR t c = true -> treev_initialised t w' c).
Proof.
  intros IHn. induction nodes as [|c nodes IH]; intros w w' Hf Hnd E.
  - split; intros c [].
  - rewrite treev_init_children_cons in E. cbn [flat_map] in Hnd.
    destruct (NoDup_app_parts _ _ Hnd) as (N1 & N2 & N3).
    set (lh := d_sqrt (d_of_Z (treev_leaf_size t c)) * @TREEV_LEAF_HEIGHT_MULTIPLIER D _) in *.
    assert (Hrec : exists w1,
      treev_init_children t (treev_init_recursive t n) nodes
        (upd_treev c (with_leaf_height lh) w1) = Some w' /\
      (NODE_IS_DIR t c = true ->
         platform_height (treev_geom w1 c) = @TREEV_PLATFORM_HEIGHT D _ /\
         treev_initialised t w1 c)).
    { destruct (NODE_IS_DIR t c) eqn:Hd.
      - destruct (treev_init_recursive t n c _) as [w1|] eqn:E1; [|discriminate].
        exists w1. split; [exact E|]. intros _.
        assert (N1' : NoDup (c :: nodes_below t n c))
          by (unfold node_and_below in N1; now rewrite Hd in N1).
        split.
        + destruct (treev_init_recursive_frame n _ _ _ E1) as (A1 & _).
          rewrite A1 by (apply NoDup_cons_iff in N1'; apply N1').
          unfold upd_treev. cbn [treev_geom set_treev_geom]. unfold upd.
          rewrite Nat.eqb_refl. reflexivity.
        + apply (IHn c (upd_treev c (with_platform_height (@TREEV_PLATFORM_HEIGHT D _)) w) w1);
            auto. apply Hf. now left.
      - exists w. split; [exact E | discriminate]. }
    destruct Hrec as (w1 & E3 & B2).
    set (w1' := upd_treev c (with_leaf_height lh) w1) in *.
    destruct (IH w1' w' (fun c' Hc' => Hf c' (or_intror Hc')) N2 E3) as (P1 & P2).
    destruct (treev_init_children_frame n nodes (treev_init_recursive_frame n) w1' w' E3)
      as (F1 & F2).
    assert (Hkeep : forall y, In y (node_and_below t n c) ->
              treev_geom w' y = treev_geom w1' y /\ node_flags w' y = node_flags w1 y).
    { intros y Hy. split; [apply F1 | rewrite F2; [reflexivity|]]; apply N3, Hy. }
    assert (Hc1 : treev_geom w1' c = with_leaf_height lh (treev_geom w1 c)).
    { unfold w1', upd_treev. cbn [treev_geom set_treev_geom]. unfold upd.
      now rewrite Nat.eqb_refl. }
    split.
    + intros c' [<- | Hin]; [|exact (P1 c' Hin)].
      unfold treev_heights_ok.
      rewrite (proj1 (Hkeep c (or_introl eq_refl))), Hc1. split; [reflexivity|].
      intros Hd. exact (proj1 (B2 Hd)).
    + intros c' [<- | Hin] Hd; [|exact (P2 c' Hin Hd)].
      destruct (B2 Hd) as (_ & B). intros d Hb. destruct (B d Hb) as (Fl & Hh).
      assert (Hfc : fits t n c = true) by (apply Hf; now left).
      assert (Hdin : In d (node_and_below t n c)).
      { unfold node_and_below. rewrite Hd.
        destruct (dir_below_in t d c Hb n Hfc) as [-> | Hin]; [now left | now right]. }
      split.
      * rewrite (proj2 (Hkeep d Hdin)). exact Fl.
      * intros e He. apply (treev_heights_ok_ext w1 w' e); [|exact (Hh e He)].
        assert (Hein : In e (nodes_below t n c))
          by exact (dir_below_child_in t d c Hb n e Hfc He).
        assert (Hein' : In e (node_and_below t n c))
          by (unfold node_and_below; rewrite Hd; now right).
        rewrite (proj1 (Hkeep e Hein')).
        unfold w1', upd_treev. cbn [treev_geom set_treev_geom].
        apply upd_other. intros ->.
        unfold node_and_below in N1. rewrite Hd in N1.
        apply NoDup_cons_iff in N1. now apply N1.
Qed.

Lemma treev_init_recursive_initialised (n : nat) :
  forall x w w', fits t n x = true -> NoDup (x :: nodes_below t n x) ->
    treev_init_recursive t n x w = Some w' -> treev_initialised t w' x.
Proof.
  induction n as [|n IH]; intros x w w' Hf Hnd E; [discriminate|].
  cbn [treev_init_recursive] in E. cbv zeta in E.
  apply NoDup_cons_iff in Hnd. destruct Hnd as (Hx & Hnd).
  assert (Hnd2 : NoDup (flat_map (node_and_below t n) (children (t x)))) by exact Hnd.
  assert (Hx2 : ~ In x (flat_map (node_and_below t n) (children (t x)))) by exact Hx.
  cbn [fits] in Hf. rewrite forallb_forall in Hf.
  destruct (treev_init_children_heights n _ IH _ _ Hf Hnd2 E) as (P1 & P2).
  destruct (treev_init_children_frame n _ (treev_init_recursive_frame n) _ _ E) as (_ & F2).
  intros d Hb. inversion Hb as [|x' c d' Hc Hd Hb']; subst.
  - split; [|exact P1]. rewrite F2 by exact Hx2.
    cbn [node_flags set_node_flags]. unfold upd. now rewrite Nat.eqb_refl.
  - exact (P2 c Hc Hd d Hb').
Qed.

Lemma treev_init_children_returns (rec : nat -> World D -> option (World D))
    (nodes : list nat) :
  (forall c, In c nodes -> forall w, exists w', rec c w = Some w') ->
  forall w, exists w', treev_init_children t rec nodes w = Some w'.
Proof.
  induction nodes as [|c nodes IH]; intros Hrec w; [now exists w|].
  rewrite treev_init_children_cons.
  destruct (NODE_IS_DIR t c).
  - destruct (Hrec c (or_introl eq_refl)
                (upd_treev c (with_platform_height (@TREEV_PLATFORM_HEIGHT D _)) w))
      as (w1 & ->).
    apply IH. intros c' Hc'. apply Hrec. now right.
  - apply IH. intros c' Hc'. apply Hrec. now right.
Qed.

Lemma treev_init_recursive_returns (n : nat) :
  forall x w, fits t n x = true -> exists w', treev_init_recursive t n x w = Some w'.
Proof.
  induction n as [|n IH]; intros x w Hf; [discriminate|].
  cbn [treev_init_recursive fits] in *. cbv zeta. rewrite forallb_forall in Hf.
  apply treev_init_children_returns. intros c Hc w1. apply IH, Hf, Hc.
Qed.

(** *** The arrangement keeps the heights *)

Lemma treev_arrange_subdirs_heights (rec : nat -> World D -> option (World D))
    (nodes : list nat) :
  (forall c w w', rec c w = Some w' ->
     forall y, leaf_height (treev_geom w' y) = leaf_height (treev_geom w y) /\
               platform_height (treev_geom w' y) = platform_height (treev_geom w y)) ->
  forall acc w w2 tot, treev_arrange_subdirs t rec nodes acc w = Some (w2, tot) ->
    forall y, leaf_height (treev_geom w2 y) = leaf_height (treev_geom w y) /\
              platform_height (treev_geom w2 y) = platform_height (treev_geom w y).
Proof.
  intros Hrec. induction nodes as [|c nodes IH]; intros acc w w2 tot E y.
  - cbn in E. injection E as <- _. auto.
  - cbn [treev_arrange_subdirs] in E.
    destruct (negb (NODE_IS_DIR t c)); [injection E as <- _; auto|].
    destruct (rec c w) as [w1|] eqn:E1; [|discriminate]. cbv zeta in E.
    destruct (IH _ _ _ _ E y) as (A1 & A2). destruct (Hrec c w w1 E1 y) as (B1 & B2).
    rewrite A1, A2, <- B1, <- B2. unfold upd_treev. cbn [treev_geom set_treev_geom].
    unfold upd. destruct (Nat.eqb y c) eqn:Ey; [|auto].
    apply Nat.eqb_eq in Ey. subst y. auto.
Qed.

Lemma treev_spread_subdirs_heights (nodes : list nat) :
  forall th (w : World D) y,
    leaf_height (treev_geom (treev_spread_subdirs t nodes th w) y)
    = leaf_height (treev_geom w y) /\
    platform_height (treev_geom (treev_spread_subdirs t nodes th w) y)
    = platform_height (treev_geom w y).
Proof.
  induction nodes as [|c nodes IH]; intros th w y; [auto|].
  cbn [treev_spread_subdirs]. destruct (negb (NODE_IS_DIR t c)); [auto|].
  cbv zeta. match goal with |- context [treev_spread_subdirs t nodes ?a ?b] =>
    destruct (IH a b y) as (A1 & A2) end.
  rewrite A1, A2. unfold upd_treev. cbn [treev_geom set_treev_geom].
  unfold upd. destruct (Nat.eqb y c) eqn:Ey; [|auto].
  apply Nat.eqb_eq in Ey. subst y. auto.
Qed.

Lemma treev_arrange_recursive_heights (n : nat) :
  forall x r0 rs (w w' : World D), treev_arrange_recursive t n x r0 rs w = Some w' ->
    forall y, leaf_height (treev_geom w' y) = leaf_height (treev_geom w y) /\
              platform_height (treev_geom w' y) = platform_height (treev_geom w y).
Proof.
  induction n as [|n IH]; intros x r0 rs w w' E y; [discriminate|].
  cbn [treev_arrange_recursive] in E. cbv zeta in E.
  destruct (negb rs && (Z.land (node_flags w x) TREEV_NEED_REARRANGE =? 0)%Z);
    [injection E as <-; auto|].
  assert (Hshape : forall w1,
            match treev_arrange_subdirs t
                    (fun node w => treev_arrange_recursive t n node
                       (r0 + platform_depth (treev_geom w1 x)
                        + TREEV_PLATFORM_SPACING_DEPTH)%D rs w)
                    (children (t x)) d0 w1 with
            | Some (w, subtree_arc_width) =>
                let w := upd_treev x (with_platform_subtree_arc_width subtree_arc_width) w in
                let w := treev_spread_subdirs t (children (t x))
                           (- d_lit 1 2 * subtree_arc_width)%D w in
                Some (set_node_flags
                        (upd (node_flags w) x
                           (Z.land (node_flags w x) (Z.lnot TREEV_NEED_REARRANGE))) w)
            | None => None
            end = Some w' ->
            leaf_height (treev_geom w' y) = leaf_height (treev_geom w1 y) /\
            platform_height (treev_geom w' y) = platform_height (treev_geom w1 y)).
  { intros w1 E1.
    destruct (treev_arrange_subdirs t _ (children (t x)) d0 w1) as [[w2 acc]|] eqn:E2;
      [|discriminate].
    pose proof (treev_arrange_subdirs_heights _ _
                  (fun c wa wb Ea => IH c _ rs wa wb Ea) _ _ _ _ E2 y) as (A1 & A2).
    cbv zeta in E1. injection E1 as <-. cbn [treev_geom set_node_flags].
    match goal with |- context [treev_spread_subdirs t ?l ?a ?b] =>
      destruct (treev_spread_subdirs_heights l a b y) as (B1 & B2) end.
    rewrite B1, B2, <- A1, <- A2. unfold upd_treev. cbn [treev_geom set_treev_geom].
    unfold upd. destruct (Nat.eqb y x) eqn:Ey; [|auto].
    apply Nat.eqb_eq in Ey. subst y. auto. }
  destruct (rs && NODE_IS_DIR t x).
  - destruct (geometry_treev_is_leaf t w x).
    + injection E as <-. auto.
    + destruct (Hshape _ E) as (A1 & A2). rewrite A1, A2.
      unfold treev_reshape_platform. cbn [treev_geom set_treev_geom geometry_queue_rebuild
        queue_uncached_draw set_a_dlist_stale set_b_dlist_stale set_c_dlist_stale
        set_fstree_high_draw_stage set_fstree_low_draw_stage].
      unfold upd. destruct (Nat.eqb y x) eqn:Ey; [|auto].
      apply Nat.eqb_eq in Ey. subst y. auto.
  - apply Hshape; assumption.
Qed.

(** Without overflow the size a leaf height is taken from is the sum
    itself. *)
Lemma treev_leaf_size_sum (c : nat) :
  dir_size_ok t 64 c ->
  treev_leaf_size t c
  = (Z.max 64 (size (t c)) + if NODE_IS_DIR t c then subtree_size (t c) else 0)%Z.
Proof.
  unfold dir_size_ok, treev_leaf_size. cbv zeta. intros Hn.
  replace (if (64 >? size (t c))%Z then 64%Z else size (t c))
    with (Z.max 64 (size (t c))) by (destruct (Z.gtb_spec 64 (size (t c))); lia).
  destruct (NODE_IS_DIR t c).
  - specialize (Hn eq_refl).
    rewrite int64_wrap_small by (unfold INT64_MIN, INT64_MAX in *; lia). reflexivity.
  - lia.
Qed.

(** X26.  On a tree, treev_init_recursive( ) returns, and after it and
    after a treev_arrange_recursive( ) of the same tree, in whatever
    arithmetic, every child of a directory at or below the starting node
    has as leaf height TREEV_LEAF_HEIGHT_MULTIPLIER times the square root
    of its size as the loop computes it in int64, which is its size in
    bytes (at least 64, plus the subtree's for a directory) when that sum
    does not leave the range of int64; every such directory has the
    platform height TREEV_PLATFORM_HEIGHT, and treev_init_recursive( )
    leaves the flags of every directory it visits at 0: the heights are
    set once, for every node, and arranging the tree does not touch
    them. *)
Theorem treev_init_heights (fuel x : nat) (r0 : D) (rs : bool) (w : World D) :
  fits t fuel x = true -> NoDup (x :: nodes_below t fuel x) ->
  exists w1 w2,
    treev_init_recursive t fuel x w = Some w1 /\
    treev_arrange_recursive t fuel x r0 rs w1 = Some w2 /\
    forall d, dir_below t x d ->
      node_flags w1 d = 0%Z /\
      forall c, In c (children (t d)) ->
        leaf_height (treev_geom w2 c)
        = d_sqrt (d_of_Z (treev_leaf_size t c)) * @TREEV_LEAF_HEIGHT_MULTIPLIER D _ /\
        (dir_size_ok t 64 c ->
         treev_leaf_size t c
         = (Z.max 64 (size (t c))
            + if NODE_IS_DIR t c then subtree_size (t c) else 0)%Z) /\
        (NODE_IS_DIR t c = true ->
         platform_height (treev_geom w2 c) = @TREEV_PLATFORM_HEIGHT D _).
Proof.
  intros Hf Hnd.
  destruct (treev_init_recursive_returns fuel x w Hf) as (w1 & E1).
  destruct (treev_arrange_recursive_returns D t fuel x r0 rs w1 Hf) as (w2 & E2).
  exists w1, w2. splits; auto. intros d Hb.
  destruct (treev_init_recursive_initialised fuel x w w1 Hf Hnd E1 d Hb) as (Fl & Hh).
  split; [exact Fl|]. intros c Hc.
  destruct (treev_arrange_recursive_heights fuel x r0 rs w1 w2 E2 c) as (A1 & A2).
  destruct (Hh c Hc) as (L & P). rewrite A1, A2.
  split; [exact L | split; [apply treev_leaf_size_sum | exact P]].
Qed.

End TreeVHeightFacts.

(** *** The heights in the small filesystem *)

Lemma treev_init_heights_witness :
  exists w1 w2,
    treev_init_recursive ex_tree 8 0 ex_worldR = Some w1 /\
    treev_arrange_recursive ex_tree 8 0 8192%R true w1 = Some w2 /\
    leaf_height (treev_geom w2 6%nat) = (sqrt 900 * 1)%R /\
    leaf_height (treev_geom w2 5%nat) = (sqrt 1064 * 1)%R.
Proof.
  destruct (treev_init_heights R ex_tree 8 0 8192%R true ex_worldR
              eq_refl ex_tree_is_tree_from_metanode) as (w1 & w2 & E1 & E2 & P).
  exists w1, w2. split; [exact E1|]. split; [exact E2|]. split.
  - exact (proj1 (proj2 (P 5%nat ex_dir_5_below_metanode) 6%nat (or_introl eq_refl))).
  - exact (proj1 (proj2 (P 4%nat ex_dir_4_below_metanode) 5%nat (or_introl eq_refl))).
Defined.

(** * geometry.c: the core radius of the tree *)

Section TreeVCoreFacts.
Variable D : Type.
Context `{Double D} `{Libm D}.
Variable t : Tree.

Local Open Scope double_scope.

(** treev_arrange_recursive( ) reshapes directories only, and leaves the
    core radius alone. *)
Lemma treev_arrange_subdirs_core (rec : nat -> World D -> option (World D))
    (nodes : list nat) :
  (forall c w w', rec c w = Some w' ->
     treev_core_radius w' = treev_core_radius w /\
     forall y, NODE_IS_DIR t y = false ->
       platform_depth (treev_geom w' y) = platform_depth (treev_geom w y)) ->
  forall acc w w2 tot, treev_arrange_subdirs t rec nodes acc w = Some (w2, tot) ->
    treev_core_radius w2 = treev_core_radius w /\
    forall y, NODE_IS_DIR t y = false ->
      platform_depth (treev_geom w2 y) = platform_depth (treev_geom w y).
Proof.
  intros Hrec. induction nodes as [|c nodes IH]; intros acc w w2 tot E.
  - cbn in E. injection E as <- _. auto.
  - cbn [treev_arrange_subdirs] in E.
    destruct (negb (NODE_IS_DIR t c)); [injection E as <- _; auto|].
    destruct (rec c w) as [w1|] eqn:E1; [|discriminate]. cbv zeta in E.
    destruct (IH _ _ _ _ E) as (A1 & A2). destruct (Hrec c w w1 E1) as (B1 & B2).
    split; [rewrite A1; exact B1|].
    intros y Hy. rewrite (A2 y Hy), <- (B2 y Hy).
    unfold upd_treev. cbn [treev_geom set_treev_geom].
    unfold upd. destruct (Nat.eqb y c) eqn:Ey; [|reflexivity].
    apply Nat.eqb_eq in Ey. subst y. reflexivity.
Qed.

Lemma treev_spread_subdirs_core (nodes : list nat) :
  forall th (w : World D),
    treev_core_radius (treev_spread_subdirs t nodes th w) = treev_core_radius w /\
    forall y, platform_depth (treev_geom (treev_spread_subdirs t nodes th w) y)
              = platform_depth (treev_geom w y).
Proof.
  induction nodes as [|c nodes IH]; intros th w; [auto|].
  cbn [treev_spread_subdirs]. destruct (negb (NODE_IS_DIR t c)); [auto|].
  cbv zeta. match goal with |- context [treev_spread_subdirs t nodes ?a ?b] =>
    destruct (IH a b) as (A1 & A2) end.
  split; [rewrite A1; reflexivity|].
  intros y. rewrite A2. unfold upd_treev. cbn [treev_geom set_treev_geom].
  unfold upd. destruct (Nat.eqb y c) eqn:Ey; [|reflexivity].
  apply Nat.eqb_eq in Ey. subst y. reflexivity.
Qed.

Lemma treev_arrange_recursive_core (n : nat) :
  forall x r0 rs (w w' : World D), treev_arrange_recursive t n x r0 rs w = Some w' ->
    treev_core_radius w' = treev_core_radius w /\
    forall y, NODE_IS_DIR t y = false ->
      platform_depth (treev_geom w' y) = platform_depth (treev_geom w y).
Proof.
  induction n as [|n IH]; intros x r0 rs w w' E; [discriminate|].
  cbn [treev_arrange_recursive] in E. cbv zeta in E.
  destruct (negb rs && (Z.land (node_flags w x) TREEV_NEED_REARRANGE =? 0)%Z);
    [injection E as <-; auto|].
  assert (Hshape : forall w1,
            match treev_arrange_subdirs t
                    (fun node w => treev_arrange_recursive t n node
                       (r0 + platform_depth (treev_geom w1 x)
                        + TREEV_PLATFORM_SPACING_DEPTH)%D rs w)
                    (children (t x)) d0 w1 with
            | Some (w, subtree_arc_width) =>
                let w := upd_treev x (with_platform_subtree_arc_width subtree_arc_width) w in
                let w := treev_spread_subdirs t (children (t x))
                           (- d_lit 1 2 * subtree_arc_width)%D w in
                Some (set_node_flags
                        (upd (node_flags w) x
                           (Z.land (node_flags w x) (Z.lnot TREEV_NEED_REARRANGE))) w)
            | None => None
            end = Some w' ->
            treev_core_radius w' = treev_core_radius w1 /\
            forall y, NODE_IS_DIR t y = false ->
              platform_depth (treev_geom w' y) = platform_depth (treev_geom w1 y)).
  { intros w1 E1.
    destruct (treev_arrange_subdirs t _ (children (t x)) d0 w1) as [[w2 acc]|] eqn:E2;
      [|discriminate].
    destruct (treev_arrange_subdirs_core _ _
                (fun c wa wb Ea => IH c _ rs wa wb Ea) _ _ _ _ E2) as (A1 & A2).
    cbv zeta in E1. injection E1 as <-.
    cbn [treev_geom treev_core_radius set_node_flags].
    match goal with |- context [treev_spread_subdirs t ?l ?a ?b] =>
      destruct (treev_spread_subdirs_core l a b) as (B1 & B2) end.
    split; [rewrite B1; exact A1|].
    intros y Hy. rewrite B2, <- (A2 y Hy).
    unfold upd_treev. cbn [treev_geom set_treev_geom].
    unfold upd. destruct (Nat.eqb y x) eqn:Ey; [|reflexivity].
    apply Nat.eqb_eq in Ey. subst y. reflexivity. }
  destruct (NODE_IS_DIR t x) eqn:Hd; rewrite ?Bool.andb_false_r, ?Bool.andb_true_r in E.
  - destruct rs.
    + destruct (geometry_treev_is_leaf t w x).
      * injection E as <-. auto.
      * destruct (Hshape _ E) as (A1 & A2). split; [rewrite A1; reflexivity|].
        intros y Hy. rewrite (A2 y Hy).
        unfold treev_reshape_platform.
        cbn [treev_geom set_treev_geom geometry_queue_rebuild queue_uncached_draw
             set_a_dlist_stale set_b_dlist_stale set_c_dlist_stale
             set_fstree_high_draw_stage set_fstree_low_draw_stage].
        rewrite upd_other by (intros ->; congruence). reflexivity.
    + apply Hshape; assumption.
  - apply Hshape; assumption.
Qed.

Variable fstree : nat.

(** X27.  The [for (;;)] of treev_arrange( ) does not shrink the core
    radius while the platform depth of the metanode is not above
    TREEV_MIN_CORE_RADIUS, in whatever arithmetic: the test for shrinking
    reads that depth, which no reshaping changes, the metanode not being
    a directory.  Whenever the loop is left, the core radius is
    the one it began with, multiplied [k] times by TREEV_CORE_GROW_FACTOR,
    [resized] tells whether [k] is not 0, and the arc width of the whole
    tree is not above TREEV_MAX_ARC_WIDTH. *)
Theorem treev_core_radius_only_grows (n fuel : nat) (resized resized' : bool)
    (w w' : World D) :
  NODE_IS_DIR t fstree = false ->
  (platform_depth (treev_geom w fstree) >? @TREEV_MIN_CORE_RADIUS D _) = false ->
  treev_arrange_loop t fstree n fuel resized w = Some (w', resized') ->
  exists k,
    treev_core_radius w'
    = Nat.iter k (fun r => r * @TREEV_CORE_GROW_FACTOR D _) (treev_core_radius w) /\
    resized' = (resized || negb (k =? 0)%nat)%bool /\
    (platform_subtree_arc_width (treev_geom w' fstree) >? @TREEV_MAX_ARC_WIDTH D _) = false /\
    platform_depth (treev_geom w' fstree) = platform_depth (treev_geom w fstree).
Proof.
  intros Hmeta. revert resized w.
  induction n as [|n IH]; intros resized w Hdepth E; [discriminate|].
  cbn [treev_arrange_loop] in E. cbv zeta in E.
  destruct (platform_subtree_arc_width (treev_geom w fstree) >? @TREEV_MAX_ARC_WIDTH D _)
    eqn:Hwide.
  - set (w1 := set_treev_core_radius _ w) in *.
    destruct (treev_arrange_recursive t fuel fstree (treev_core_radius w1) true w1)
      as [w2|] eqn:E2; [|discriminate].
    destruct (treev_arrange_recursive_core fuel fstree _ true w1 w2 E2) as (A1 & A2).
    assert (Hd2 : platform_depth (treev_geom w2 fstree) = platform_depth (treev_geom w fstree))
      by (rewrite (A2 fstree Hmeta); reflexivity).
    destruct (IH true w2 ltac:(rewrite Hd2; exact Hdepth) E) as (k & K1 & K2 & K3 & K4).
    exists (S k). splits.
    + rewrite K1, A1, Nat.iter_succ_r. reflexivity.
    + rewrite K2. cbn. now rewrite Bool.orb_true_r.
    + exact K3.
    + rewrite K4. exact Hd2.
  - rewrite Hdepth, Bool.andb_false_r in E. injection E as <- <-.
    exists 0%nat. splits; auto. cbn. now rewrite Bool.orb_false_r.
Qed.

End TreeVCoreFacts.

(** *** A tree that fits its core *)

Lemma ex_metanode_depth :
  (platform_depth (treev_geom ex_worldR 0) >? @TREEV_MIN_CORE_RADIUS R _)%D = false.
Proof.
  cbn. unfold Rltb. destruct (Rlt_dec _ _) as [Hlt | _]; [|reflexivity].
  unfold TREEV_MIN_CORE_RADIUS in Hlt. cbn in Hlt. lra.
Qed.

Lemma ex_arrange_loop_returns :
  treev_arrange_loop ex_tree 0 1 8 false ex_worldR = Some (ex_worldR, false).
Proof.
  cbn [treev_arrange_loop]. cbv zeta.
  assert (E1 : (platform_subtree_arc_width (treev_geom ex_worldR 0)
                >? @TREEV_MAX_ARC_WIDTH R _)%D = false).
  { cbn. unfold Rltb. destruct (Rlt_dec _ _) as [Hlt | _]; [|reflexivity].
    unfold TREEV_MAX_ARC_WIDTH in Hlt. cbn in Hlt. lra. }
  rewrite E1, ex_metanode_depth, Bool.andb_false_r. reflexivity.
Qed.

Lemma treev_core_radius_only_grows_witness :
  exists k,
    treev_core_radius ex_worldR
    = Nat.iter k (fun r => (r * @TREEV_CORE_GROW_FACTOR R _)%D) (treev_core_radius ex_worldR).
Proof.
  destruct (treev_core_radius_only_grows R ex_tree 0 1 8 false false ex_worldR ex_worldR
              eq_refl ex_metanode_depth ex_arrange_loop_returns) as (k & K & _).
  exists k. exact K.
Defined.

(** * geometry.c: treev_arrange( ) comes to rest, in exact arithmetic *)

Section TreeVReturns.
Variable t : Tree.

Local Open Scope R_scope.

Ltac on_reals :=
  unfold d_lit, d0, d1, d2, SQR in *;
  cbn [d_of_Z d_add d_sub d_mul d_div d_opp d_sqrt d_lt d_le d_PI real
       d_cos d_sin d_asin d_atan2 d_cbrt d_hypot d_fmod d_ceil real_libm] in *.

(** *** The arc width of a platform *)

Lemma Rdiv_le_cross (a b c d : R) :
  0 < b -> 0 < d -> a * d <= c * b -> a / b <= c / d.
Proof.
  intros Hb Hd Hc.
  apply (Rmult_le_reg_r (b * d)); [nra|].
  replace (a / b * (b * d)) with (a * d) by (field; lra).
  replace (c / d * (b * d)) with (c * b) by (field; lra).
  exact Hc.
Qed.

Lemma MAX_le (a b x : R) : a <= x -> b <= x -> MAX a b <= x.
Proof. intros Ha Hb. unfold MAX. on_reals. destruct (Rltb b a); assumption. Qed.

Lemma MAX_ge_r (a b : R) : b <= MAX a b.
Proof.
  unfold MAX. on_reals. destruct (Rltb b a) eqn:E; [|lra].
  apply Rltb_true in E. lra.
Qed.

Lemma treev_shape_area_any (n : Z) (r0 : R) :
  shape_area (treev_platform_shape n r0) = shape_area (treev_platform_shape n 8192).
Proof. reflexivity. Qed.

Lemma treev_shape_area_min (n : Z) :
  262144 <= shape_area (treev_platform_shape n 8192).
Proof.
  unfold treev_platform_shape. cbv zeta. cbn [shape_area].
  unfold TREEV_LEAF_NODE_EDGE. on_reals.
  pose proof (R_ceil_ge (sqrt (IZR (Z.max 1 n)))) as Hc.
  assert (Hs : 1 <= sqrt (IZR (Z.max 1 n))).
  { rewrite <- sqrt_1 at 1. apply sqrt_le_1; [lra | | ].
    - apply IZR_le. lia.
    - apply IZR_le. lia. }
  nra.
Qed.

Lemma treev_arc_bound_pos (n : Z) : 0 < treev_arc_bound n.
Proof.
  unfold treev_arc_bound. on_reals.
  pose proof (sqrt_pos (2 * shape_area (treev_platform_shape n 8192) + 512)).
  apply Rdiv_lt_0_compat; lra.
Qed.

(** The arc width and the depth a platform gets at the inner radius
    [r0]. *)
Lemma treev_shape_arc_bound (n : Z) (r0 : R) :
  8192 <= r0 ->
  let sh := treev_platform_shape n r0 in
  0 < shape_depth sh /\
  0 < shape_arc_width sh <= treev_arc_bound n / r0.
Proof.
  intros Hr sh.
  destruct (treev_platform_shape_ok n r0 Hr) as (HA & Hd & Hcub & Hdep & Hmin & Hle & Hth & _).
  fold sh in HA, Hd, Hcub, Hdep, Hmin, Hle, Hth.
  pose proof (treev_shape_area_min n) as HAmin.
  rewrite <- (treev_shape_area_any n r0) in HAmin. fold sh in HAmin.
  set (A := shape_area sh) in *. set (d := shape_d sh) in *.
  assert (Hpi : 0 < (d_PI : R)) by (on_reals; lra).
  assert (Hdd : d * d < 2 * A + 512).
  { destruct (Rlt_le_dec (d * d) (2 * A + 512)) as [L | G]; [exact L | exfalso].
    assert (0 <= d * (d * d - (2 * A + 512))) by nra.
    assert (0 < 2 * r0 * (d * d + 512 * d - A) + 512 * (d * d)) by nra.
    nra. }
  set (s := sqrt (2 * A + 512)).
  assert (Hs : d < s).
  { unfold s. rewrite <- (sqrt_square d) by lra. apply sqrt_lt_1; nra. }
  assert (Hs512 : 512 <= s).
  { unfold s. replace 512 with (sqrt (512 * 512)) at 1 by (apply sqrt_square; lra).
    apply sqrt_le_1; nra. }
  assert (Eb : treev_arc_bound n = 180 * (s + 512) / d_PI).
  { unfold treev_arc_bound, s, A, sh. now rewrite (treev_shape_area_any n r0). }
  assert (Harc : shape_arc_width sh = MAX (shape_min_arc_width sh) (shape_theta sh))
    by reflexivity.
  assert (Hminpos : 0 < shape_min_arc_width sh).
  { rewrite Hmin. apply Rdiv_lt_0_compat; [|lra]. apply Rdiv_lt_0_compat; lra. }
  split; [lra|]. split; [lra|].
  rewrite Harc, Eb. apply MAX_le.
  - rewrite Hmin. unfold Rdiv. apply Rmult_le_compat_r; [left; apply Rinv_0_lt_compat; lra|].
    apply Rmult_le_compat_r; [left; apply Rinv_0_lt_compat; lra|]. lra.
  - rewrite Hth.
    replace (180 * (s + 512) / d_PI / r0) with (180 * (s + 512) / (d_PI * r0))
      by (field; lra).
    assert (Hx : (d + 512) * r0 <= (s + 512) * (r0 + d)) by nra.
    remember (d_PI (D := R)) as p eqn:Ep. clear Ep.
    apply Rdiv_le_cross; [nra | nra |].
    replace (180 * (d + 512) * (p * r0)) with (180 * p * ((d + 512) * r0)) by ring.
    replace (180 * (s + 512) * (p * (r0 + d))) with (180 * p * ((s + 512) * (r0 + d))) by ring.
    apply Rmult_le_compat_l; [nra | exact Hx].
Qed.

(** *** What the span of a tree is made of *)

Lemma treev_span_nonneg (n : nat) : forall x, 0 <= treev_span t n x.
Proof.
  induction n as [|n IH]; intros x; cbn [treev_span]; [lra|].
  apply sum_of_nonneg. intros c _.
  pose proof (treev_arc_bound_pos (Z.of_nat (List.length (children (t c))))).
  pose proof (Rmax_l (treev_arc_bound (Z.of_nat (List.length (children (t c)))))
                (treev_span t n c)). lra.
Qed.

Lemma sum_of_ext_in (f g : nat -> R) (l : list nat) :
  (forall c, In c l -> f c = g c) -> sum_of f l = sum_of g l.
Proof.
  induction l as [|x l IH]; intros Hfg; unfold sum_of in *; cbn [fold_right]; [reflexivity|].
  rewrite (Hfg x (or_introl eq_refl)), (IH (fun c Hc => Hfg c (or_intror Hc))). reflexivity.
Qed.

Lemma treev_span_S (n x : nat) :
  treev_span t (S n) x
  = sum_of (fun c => Rmax (treev_arc_bound (Z.of_nat (List.length (children (t c)))))
                          (treev_span t n c))
      (leading_dirs t (children (t x))).
Proof. reflexivity. Qed.

(** With fuel for the whole tree, more fuel changes nothing. *)
Lemma treev_span_fits (n : nat) :
  forall x, fits t n x = true -> treev_span t (S n) x = treev_span t n x.
Proof.
  induction n as [|n IH]; intros x Hf; [discriminate|].
  cbn [fits] in Hf. rewrite forallb_forall in Hf.
  rewrite (treev_span_S (S n)), (treev_span_S n).
  apply sum_of_ext_in. intros c Hc.
  rewrite IH; [reflexivity|]. apply Hf. exact (proj1 (leading_dirs_in t _ c Hc)).
Qed.

Lemma fits_le (n m : nat) (x : nat) : (n <= m)%nat -> fits t n x = true -> fits t m x = true.
Proof.
  induction 1 as [|m _ IH]; intros Hf; [exact Hf|]. apply fits_S, IH, Hf.
Qed.

Lemma treev_span_le (n m : nat) (x : nat) :
  (n <= m)%nat -> fits t n x = true -> treev_span t m x = treev_span t n x.
Proof.
  induction 1 as [|m Hle IH]; intros Hf; [reflexivity|].
  rewrite treev_span_fits; [now apply IH | exact (fits_le n m x Hle Hf)].
Qed.

Lemma nodes_below_fits (n : nat) :
  forall x, fits t n x = true -> nodes_below t (S n) x = nodes_below t n x.
Proof.
  induction n as [|n IH]; intros x Hf; [discriminate|].
  cbn [fits] in Hf. rewrite forallb_forall in Hf.
  rewrite (nodes_below_S t (S n)), (nodes_below_S t n).
  revert Hf. induction (children (t x)) as [|c l IHl]; intros Hf; [reflexivity|].
  cbn [flat_map]. rewrite IHl by (intros y Hy; apply Hf; now right).
  f_equal. unfold node_and_below.
  destruct (NODE_IS_DIR t c); [|reflexivity]. f_equal. apply IH, Hf. now left.
Qed.

Lemma nodes_below_le (n m : nat) (x : nat) :
  (n <= m)%nat -> fits t n x = true -> nodes_below t m x = nodes_below t n x.
Proof.
  induction 1 as [|m Hle IH]; intros Hf; [reflexivity|].
  rewrite nodes_below_fits; [now apply IH | exact (fits_le n m x Hle Hf)].
Qed.

(** *** The arcs after an arrangement *)

Lemma deployed_below_ext (w w' : World R) (x : nat) :
  anim w' = anim w -> ctree_expanded w' = ctree_expanded w ->
  deployed_below t w x -> deployed_below t w' x.
Proof.
  intros Ea Ec Hd d Hb Hdir. unfold deployment. rewrite Ea, Ec. exact (Hd d Hb Hdir).
Qed.

Lemma deployed_below_child (w : World R) (x c : nat) :
  In c (children (t x)) -> NODE_IS_DIR t c = true ->
  deployed_below t w x -> deployed_below t w c.
Proof.
  intros Hin Hc Hd d Hb Hdir. apply Hd; [|exact Hdir].
  exact (dir_below_child x Hin Hc Hb).
Qed.

Lemma in_flat_map_leading {A : Type} (f : nat -> list A) (nodes : list nat) (y : A) :
  In y (flat_map f (leading_dirs t nodes)) -> In y (flat_map f nodes).
Proof.
  destruct (leading_dirs_prefix t nodes) as (rest & E). intros Hin.
  rewrite E, flat_map_app. apply in_or_app. now left.
Qed.

(** The loop over the subdirectories: what it adds to the running sum. *)
Lemma treev_arrange_subdirs_span (n : nat) (r : R) (nodes : list nat) :
  8192 <= r ->
  (forall c w w', fits t n c = true -> NoDup (c :: nodes_below t n c) ->
     deployed_below t w c -> NODE_IS_DIR t c = true -> ctree_expanded w c = true ->
     treev_arrange_recursive t n c r true w = Some w' ->
     0 <= platform_subtree_arc_width (treev_geom w' c) <= treev_span t n c / r /\
     0 <= platform_arc_width (treev_geom w' c)
       <= treev_arc_bound (Z.of_nat (List.length (children (t c)))) / r) ->
  forall acc w w2 tot,
    (forall c, In c (leading_dirs t nodes) -> fits t n c = true) ->
    NoDup (flat_map (node_and_below t n) (leading_dirs t nodes)) ->
    (forall c, In c (leading_dirs t nodes) -> deployed_below t w c) ->
    treev_arrange_subdirs t (fun node w => treev_arrange_recursive t n node r true w)
      nodes acc w = Some (w2, tot) ->
    acc <= tot
        <= acc + sum_of (fun c => Rmax (treev_arc_bound (Z.of_nat (List.length (children (t c)))))
                                       (treev_span t n c))
                   (leading_dirs t nodes) / r.
Proof.
  intros Hr IHn. induction nodes as [|c nodes IH]; intros acc w w2 tot Hf Hnd Hdep E.
  - cbn in E. injection E as _ <-. unfold sum_of. cbn. lra.
  - cbn [treev_arrange_subdirs] in E. cbn [leading_dirs] in Hf, Hnd, Hdep |- *.
    destruct (NODE_IS_DIR t c) eqn:Hd; cbn [negb] in E.
    2:{ injection E as _ <-. unfold sum_of. cbn. lra. }
    destruct (treev_arrange_recursive t n c r true w) as [w1|] eqn:E1; [|discriminate].
    cbv zeta in E.
    destruct (treev_arrange_recursive_frame R t n c r true w w1 E1) as (Fa & Fc & _).
    cbn [flat_map] in Hnd. destruct (NoDup_app_parts _ _ Hnd) as (N1 & N2 & _).
    unfold node_and_below in N1. rewrite Hd in N1.
    set (bc := Rmax (treev_arc_bound (Z.of_nat (List.length (children (t c)))))
                    (treev_span t n c)).
    assert (Hbc : 0 <= bc).
    { unfold bc. pose proof (treev_arc_bound_pos (Z.of_nat (List.length (children (t c))))).
      pose proof (Rmax_l (treev_arc_bound (Z.of_nat (List.length (children (t c)))))
                    (treev_span t n c)). lra. }
    set (arc := (deployment w1 c
                 * MAX (platform_arc_width (treev_geom w1 c))
                       (platform_subtree_arc_width (treev_geom w1 c)))%D) in *.
    assert (Harc : 0 <= arc <= bc / r).
    { assert (Hdc : deployment w1 c = if ctree_expanded w c then 1 else 0).
      { unfold deployment. rewrite Fa. apply (Hdep c (or_introl eq_refl)); [constructor | exact Hd]. }
      unfold arc. on_reals. rewrite Hdc.
      destruct (ctree_expanded w c) eqn:Hexp.
      - destruct (IHn c w w1 (Hf c (or_introl eq_refl)) N1 (Hdep c (or_introl eq_refl))
                    Hd Hexp E1) as ((P1 & P2) & (Q1 & Q2)).
        pose proof (MAX_ge_l (platform_arc_width (treev_geom w1 c))
                      (platform_subtree_arc_width (treev_geom w1 c))) as M1.
        assert (M2 : MAX (platform_arc_width (treev_geom w1 c))
                         (platform_subtree_arc_width (treev_geom w1 c)) <= bc / r).
        { apply MAX_le.
          - eapply Rle_trans; [exact Q2|]. unfold Rdiv.
            apply Rmult_le_compat_r; [left; apply Rinv_0_lt_compat; lra | apply Rmax_l].
          - eapply Rle_trans; [exact P2|]. unfold Rdiv.
            apply Rmult_le_compat_r; [left; apply Rinv_0_lt_compat; lra | apply Rmax_r]. }
        lra.
      - assert (0 <= bc / r) by (apply Rle_mult_inv_pos; lra). lra. }
    match type of E with treev_arrange_subdirs _ _ _ _ ?b = _ => set (w1' := b) in * end.
    assert (Hdep' : forall c', In c' (leading_dirs t nodes) -> deployed_below t w1' c').
    { intros c' Hc'. apply (deployed_below_ext w w1' c'); [exact Fa | exact Fc|].
      apply Hdep. now right. }
    pose proof (IH (acc + arc)%D w1' w2 tot (fun c' Hc' => Hf c' (or_intror Hc')) N2 Hdep' E)
      as (B1 & B2).
    on_reals. unfold sum_of in *. cbn [fold_right]. fold bc.
    set (S := fold_right _ 0 (leading_dirs t nodes)) in *.
    replace ((bc + S) / r) with (bc / r + S / r) by (field; lra).
    lra.
Qed.

Lemma treev_spacing_depth : @TREEV_PLATFORM_SPACING_DEPTH R _ = 2048.
Proof. reflexivity. Qed.

(** treev_arrange_recursive( x, r0, TRUE ) on the metanode or an expanded
    directory: the subtree arc width and the arc width it leaves at
    [x]. *)
Lemma treev_arrange_recursive_span (n : nat) :
  forall x r0 w w',
    8192 <= r0 ->
    fits t n x = true -> NoDup (x :: nodes_below t n x) ->
    deployed_below t w x ->
    (if NODE_IS_DIR t x then ctree_expanded w x = true
     else 0 <= platform_depth (treev_geom w x)) ->
    treev_arrange_recursive t n x r0 true w = Some w' ->
    0 <= platform_subtree_arc_width (treev_geom w' x) <= treev_span t n x / r0 /\
    (NODE_IS_DIR t x = true ->
     0 <= platform_arc_width (treev_geom w' x)
       <= treev_arc_bound (Z.of_nat (List.length (children (t x)))) / r0).
Proof.
  induction n as [|n IH]; intros x r0 w w' Hr Hf Hnd Hdep Hx E; [discriminate|].
  cbn [treev_arrange_recursive] in E. cbv zeta in E. cbn [negb andb] in E.
  set (w1 := if NODE_IS_DIR t x then treev_reshape_platform t x r0 w else w).
  assert (E' : match treev_arrange_subdirs t
                       (fun node w => treev_arrange_recursive t n node
                          (r0 + platform_depth (treev_geom w1 x)
                           + TREEV_PLATFORM_SPACING_DEPTH)%D true w)
                       (children (t x)) d0 w1 with
               | Some (w, subtree_arc_width) =>
                   let w := upd_treev x (with_platform_subtree_arc_width subtree_arc_width) w in
                   let w := treev_spread_subdirs t (children (t x))
                              (- d_lit 1 2 * subtree_arc_width)%D w in
                   Some (set_node_flags
                           (upd (node_flags w) x
                              (Z.land (node_flags w x) (Z.lnot TREEV_NEED_REARRANGE))) w)
               | None => None
               end = Some w').
  { unfold w1. destruct (NODE_IS_DIR t x) eqn:Hd; [|exact E].
    unfold geometry_treev_is_leaf, dirtree_entry_expanded in E. rewrite Hd, Hx in E.
    exact E. }
  clear E.
  assert (W1 : anim w1 = anim w /\ ctree_expanded w1 = ctree_expanded w /\
               0 <= platform_depth (treev_geom w1 x) /\
               (NODE_IS_DIR t x = true ->
                0 <= platform_arc_width (treev_geom w1 x)
                  <= treev_arc_bound (Z.of_nat (List.length (children (t x)))) / r0)).
  { unfold w1. destruct (NODE_IS_DIR t x) eqn:Hd.
    - destruct (treev_shape_arc_bound (Z.of_nat (List.length (children (t x)))) r0 Hr)
        as (S1 & S2 & S3).
      unfold treev_reshape_platform. cbv zeta.
      cbn [anim ctree_expanded treev_geom geometry_queue_rebuild queue_uncached_draw
           set_a_dlist_stale set_b_dlist_stale set_c_dlist_stale
           set_fstree_high_draw_stage set_fstree_low_draw_stage set_treev_geom].
      unfold upd. rewrite !Nat.eqb_refl. cbn [platform_depth platform_arc_width].
      splits; auto; [lra|]. intros _. split; lra.
    - splits; auto. discriminate. }
  destruct W1 as (Wa & Wc & Wd & Wp).
  set (r1 := (r0 + platform_depth (treev_geom w1 x) + TREEV_PLATFORM_SPACING_DEPTH)%D) in *.
  assert (Hr1 : r0 <= r1) by (unfold r1; rewrite treev_spacing_depth; on_reals; lra).
  destruct (treev_arrange_subdirs t
              (fun node w => treev_arrange_recursive t n node r1 true w)
              (children (t x)) d0 w1) as [[w2 tot]|] eqn:E2; [|discriminate].
  cbv zeta in E'. injection E' as <-.
  cbn [fits] in Hf. rewrite forallb_forall in Hf.
  pose proof Hnd as Hnd0. apply NoDup_cons_iff in Hnd. destruct Hnd as (Hx0 & Hnd).
  rewrite nodes_below_S in Hx0, Hnd.
  assert (Hlead : forall c, In c (leading_dirs t (children (t x))) ->
                    In c (children (t x)) /\ NODE_IS_DIR t c = true)
    by (intros c Hc; exact (leading_dirs_in t _ c Hc)).
  assert (IHc : forall c w0 w0', fits t n c = true -> NoDup (c :: nodes_below t n c) ->
            deployed_below t w0 c -> NODE_IS_DIR t c = true -> ctree_expanded w0 c = true ->
            treev_arrange_recursive t n c r1 true w0 = Some w0' ->
            0 <= platform_subtree_arc_width (treev_geom w0' c) <= treev_span t n c / r1 /\
            0 <= platform_arc_width (treev_geom w0' c)
              <= treev_arc_bound (Z.of_nat (List.length (children (t c)))) / r1).
  { intros c w0 w0' F N Dp Hd He Ec.
    destruct (IH c r1 w0 w0' ltac:(lra) F N Dp ltac:(rewrite Hd; exact He) Ec) as (P & Q).
    split; [exact P | exact (Q Hd)]. }
  destruct (treev_arrange_subdirs_span n r1 (children (t x)) ltac:(lra)
              (fun c w0 w0' F N Dp Hd He Ec =>
                 IHc c w0 w0' F N Dp Hd He Ec)
              d0 w1 w2 tot
              (fun c Hc => Hf c (proj1 (Hlead c Hc)))
              (leading_dirs_NoDup t n _ Hnd)
              (fun c Hc => deployed_below_ext w w1 c Wa Wc
                             (deployed_below_child w x c (proj1 (Hlead c Hc))
                                (proj2 (Hlead c Hc)) Hdep))
              E2) as (T1 & T2).
  destruct (treev_arrange_subdirs_frame R t n r1 true (children (t x))
              (fun c w0 w0' Ec => treev_arrange_recursive_frame R t n c r1 true w0 w0' Ec)
              d0 w1 w2 tot E2) as (_ & _ & F2).
  assert (Hx2 : treev_geom w2 x = treev_geom w1 x).
  { apply F2. intros Hin. apply Hx0. exact (in_flat_map_leading _ _ _ Hin). }
  match goal with |- context [treev_spread_subdirs t ?l ?th ?w3] =>
    destruct (treev_spread_subdirs_frame R t l th w3) as (_ & _ & F4);
    set (w4 := treev_spread_subdirs t l th w3) in * end.
  assert (Hx4 : treev_geom w4 x
                = with_platform_subtree_arc_width tot (treev_geom w1 x)).
  { rewrite F4.
    - unfold upd_treev. cbn [treev_geom set_treev_geom]. unfold upd.
      rewrite Nat.eqb_refl, Hx2. reflexivity.
    - intros Hin. apply Hx0. apply in_flat_map. exists x.
      split; [exact (proj1 (Hlead x Hin)) | now left]. }
  cbn [treev_geom set_node_flags]. rewrite Hx4.
  cbn [with_platform_subtree_arc_width platform_subtree_arc_width platform_arc_width].
  rewrite treev_span_S. on_reals.
  set (S := sum_of _ _) in *.
  assert (HS : 0 <= S).
  { unfold S. apply sum_of_nonneg. intros c _.
    pose proof (treev_arc_bound_pos (Z.of_nat (List.length (children (t c))))).
    pose proof (Rmax_l (treev_arc_bound (Z.of_nat (List.length (children (t c)))))
                  (treev_span t n c)). lra. }
  assert (HSr : S / r1 <= S / r0) by (apply Rdiv_le_cross; nra).
  split; [lra | exact Wp].
Qed.

(** *** The loop of treev_arrange( ) *)

Variable fstree : nat.
Hypothesis fstree_meta : NODE_IS_DIR t fstree = false.

Lemma treev_grow_factor : @TREEV_CORE_GROW_FACTOR R _ = 5 / 4.
Proof. reflexivity. Qed.

(** With the core radius so large that [m] more growths bring the span of
    the tree below TREEV_MAX_ARC_WIDTH, the loop returns within [m + 1]
    rounds. *)
Lemma treev_arrange_loop_returns (fuel : nat) (m : nat) :
  forall n resized w,
    (m < n)%nat ->
    fits t fuel fstree = true -> NoDup (fstree :: nodes_below t fuel fstree) ->
    deployed_below t w fstree ->
    platform_depth (treev_geom w fstree) = 0 ->
    8192 <= treev_core_radius w ->
    platform_subtree_arc_width (treev_geom w fstree)
      <= treev_span t fuel fstree / treev_core_radius w ->
    treev_span t fuel fstree / (treev_core_radius w * (5 / 4) ^ m) <= 225 ->
    exists r, treev_arrange_loop t fstree n fuel resized w = Some r.
Proof.
  induction m as [|m IH]; intros n resized w Hn Hf Hnd Hdep Hd0 Hcore Hpsa Hm;
    (destruct n as [|n]; [lia|]); cbn [treev_arrange_loop]; cbv zeta.
  - assert (E1 : (platform_subtree_arc_width (treev_geom w fstree)
                  >? @TREEV_MAX_ARC_WIDTH R _)%D = false).
    { apply Rltb_false. change (@TREEV_MAX_ARC_WIDTH R _) with 225.
      rewrite pow_O, Rmult_1_r in Hm. lra. }
    assert (E2 : (platform_depth (treev_geom w fstree) >? @TREEV_MIN_CORE_RADIUS R _)%D
                 = false).
    { apply Rltb_false. rewrite Hd0. change (@TREEV_MIN_CORE_RADIUS R _) with 8192. lra. }
    rewrite E1, E2, Bool.andb_false_r. now eexists.
  - assert (E2 : (platform_depth (treev_geom w fstree) >? @TREEV_MIN_CORE_RADIUS R _)%D
                 = false).
    { apply Rltb_false. rewrite Hd0. change (@TREEV_MIN_CORE_RADIUS R _) with 8192. lra. }
    destruct (platform_subtree_arc_width (treev_geom w fstree) >? @TREEV_MAX_ARC_WIDTH R _)%D;
      [|rewrite E2, Bool.andb_false_r; now eexists].
    set (w1 := set_treev_core_radius (treev_core_radius w * TREEV_CORE_GROW_FACTOR)%D w).
    assert (Hc1 : treev_core_radius w1 = treev_core_radius w * (5 / 4)).
    { unfold w1. cbn [treev_core_radius set_treev_core_radius]. cbn. lra. }
    destruct (treev_arrange_recursive_returns R t fuel fstree (treev_core_radius w1) true w1 Hf)
      as (w2 & E).
    rewrite E.
    destruct (treev_arrange_recursive_frame R t fuel fstree _ true w1 w2 E) as (Fa & Fc & _).
    destruct (treev_arrange_recursive_core R t fuel fstree _ true w1 w2 E) as (Cr & Cd).
    assert (Hdep1 : deployed_below t w1 fstree)
      by (apply (deployed_below_ext w w1 fstree); auto).
    destruct (treev_arrange_recursive_span fuel fstree (treev_core_radius w1) w1 w2
                ltac:(rewrite Hc1; lra) Hf Hnd Hdep1
                ltac:(rewrite fstree_meta; unfold w1; cbn; rewrite Hd0; lra) E) as (P & _).
    apply IH; auto; try lia.
    + apply (deployed_below_ext w1 w2 fstree); auto.
    + rewrite (Cd fstree fstree_meta). unfold w1. cbn. exact Hd0.
    + rewrite Cr, Hc1. lra.
    + rewrite Cr. apply P.
    + rewrite Cr, Hc1.
      replace (treev_core_radius w * (5 / 4) * (5 / 4) ^ m)
        with (treev_core_radius w * (5 / 4) ^ S m) by (cbn [pow]; ring).
      exact Hm.
Qed.

(** Growing the core radius by a quarter often enough brings any span
    below TREEV_MAX_ARC_WIDTH. *)
Lemma treev_growths_suffice (s : R) :
  exists m, forall rc, 8192 <= rc -> s / (rc * (5 / 4) ^ m) <= 225.
Proof.
  destruct (Pow_x_infinity (5 / 4) ltac:(rewrite Rabs_right; lra) (s / (225 * 8192)))
    as (N & HN).
  exists N. intros rc Hrc.
  pose proof (HN N (le_n N)) as Hp.
  assert (Hpos : 0 < (5 / 4) ^ N) by (apply pow_lt; lra).
  rewrite Rabs_right in Hp by lra.
  assert (Hs : s <= 225 * 8192 * (5 / 4) ^ N).
  { apply Rge_le in Hp.
    apply (Rmult_le_compat_r (225 * 8192)) in Hp; [|lra].
    replace (s / (225 * 8192) * (225 * 8192)) with s in Hp by (field; lra). lra. }
  apply (Rmult_le_reg_r (rc * (5 / 4) ^ N)); [nra|].
  replace (s / (rc * (5 / 4) ^ N) * (rc * (5 / 4) ^ N)) with s by (field; nra).
  nra.
Qed.

Variable camera_pan_break : World R -> World R.
Variable camera_look_at_full : nat -> MorphType -> R -> World R -> World R.

(** treev_arrange( TRUE ) returns. *)
Lemma treev_arrange_returns (fuel m : nat) (w : World R) :
  (m < fuel)%nat ->
  (forall rc, 8192 <= rc -> treev_span t fuel fstree / (rc * (5 / 4) ^ m) <= 225) ->
  fits t fuel fstree = true -> NoDup (fstree :: nodes_below t fuel fstree) ->
  deployed_below t w fstree ->
  platform_depth (treev_geom w fstree) = 0 ->
  8192 <= treev_core_radius w ->
  exists w', treev_arrange t fstree camera_pan_break camera_look_at_full fuel true w = Some w'.
Proof.
  intros Hm Hs Hf Hnd Hdep Hd0 Hcore. unfold treev_arrange.
  destruct (treev_arrange_recursive_returns R t fuel fstree (treev_core_radius w) true w Hf)
    as (w1 & E).
  rewrite E.
  destruct (treev_arrange_recursive_frame R t fuel fstree _ true w w1 E) as (Fa & Fc & _).
  destruct (treev_arrange_recursive_core R t fuel fstree _ true w w1 E) as (Cr & Cd).
  destruct (treev_arrange_recursive_span fuel fstree (treev_core_radius w) w w1
              Hcore Hf Hnd Hdep ltac:(rewrite fstree_meta, Hd0; lra) E) as (P & _).
  destruct (treev_arrange_loop_returns fuel m fuel false w1 Hm Hf Hnd) as ([w2 r] & E2).
  - apply (deployed_below_ext w w1 fstree); auto.
  - rewrite (Cd fstree fstree_meta). exact Hd0.
  - rewrite Cr. exact Hcore.
  - rewrite Cr. apply P.
  - apply Hs. rewrite Cr. exact Hcore.
  - rewrite E2. destruct (r && camera_currently_moving w2); now eexists.
Qed.

(** treev_init_recursive( ) leaves the core radius alone. *)
Lemma treev_init_children_core (rec : nat -> World R -> option (World R)) :
  (forall x w w', rec x w = Some w' -> treev_core_radius w' = treev_core_radius w) ->
  forall l (w w' : World R), treev_init_children t rec l w = Some w' ->
    treev_core_radius w' = treev_core_radius w.
Proof.
  intros Hrec. induction l as [|c l IHl]; intros w w' E.
  - cbn in E. now injection E as <-.
  - rewrite (treev_init_children_cons R t) in E.
    destruct (NODE_IS_DIR t c).
    + destruct (rec c _) as [w1|] eqn:E1; [|discriminate].
      rewrite (IHl _ _ E). cbn. rewrite (Hrec _ _ _ E1). reflexivity.
    + rewrite (IHl _ _ E). reflexivity.
Qed.

Lemma treev_init_recursive_core (n : nat) :
  forall x (w w' : World R), treev_init_recursive t n x w = Some w' ->
    treev_core_radius w' = treev_core_radius w.
Proof.
  induction n as [|n IH]; intros x w w' E; [discriminate|].
  cbn [treev_init_recursive] in E. cbv zeta in E.
  rewrite (treev_init_children_core _ IH _ _ _ E).
  destruct (NODE_IS_DIR t x); reflexivity.
Qed.

Hypothesis camera_pan_break_calm :
  forall w, queue_ok (morph_queue (anim w)) -> calm w (camera_pan_break w).
Hypothesis camera_look_at_full_calm :
  forall n ty tm w, queue_ok (morph_queue (anim w)) ->
    calm w (camera_look_at_full n ty tm w).

(** geometry_init( FSV_TREEV ) returns once the fuel covers the tree and
    the growths of the core radius. *)
Lemma geometry_init_treev_returns (fuel0 root : nat) (rest : list nat) (w : World R) :
  children (t fstree) = root :: rest ->
  queue_ok (morph_queue (anim w)) ->
  fits t fuel0 fstree = true -> NoDup (fstree :: nodes_below t fuel0 fstree) ->
  exists fuel1, forall fuel, (fuel1 <= fuel)%nat ->
    exists w',
      geometry_init t fstree camera_pan_break camera_look_at_full fuel FSV_TREEV w = Some w'.
Proof.
  intros Hc Hq Hf0 Hnd0.
  destruct (treev_growths_suffice (treev_span t fuel0 fstree)) as (m & Hm).
  exists (Nat.max fuel0 (S m)). intros fuel Hfuel.
  assert (Hle : (fuel0 <= fuel)%nat) by lia.
  assert (Hf : fits t fuel fstree = true) by exact (fits_le fuel0 fuel fstree Hle Hf0).
  assert (Hnd : NoDup (fstree :: nodes_below t fuel fstree))
    by (rewrite (nodes_below_le fuel0 fuel fstree Hle Hf0); exact Hnd0).
  assert (Hs : forall rc, 8192 <= rc ->
                 treev_span t fuel fstree / (rc * (5 / 4) ^ m) <= 225)
    by (rewrite (treev_span_le fuel0 fuel fstree Hle Hf0); exact Hm).
  assert (Hne : fstree <> root).
  { intros <-. apply NoDup_cons_iff in Hnd0. apply (proj1 Hnd0).
    destruct fuel0 as [|k]; [discriminate|].
    rewrite (nodes_below_S t), Hc. cbn [flat_map]. apply in_or_app. left.
    now left. }
  unfold geometry_init. cbv zeta.
  set (w1 := geometry_queue_rebuild fstree (set_deployment fstree d1 w)).
  assert (Hq1 : queue_ok (morph_queue (anim w1))) by exact Hq.
  unfold treev_init. rewrite Hc. cbv zeta.
  match goal with |- context [treev_init_recursive t fuel fstree ?b] => set (w2 := b) end.
  assert (Hq2 : queue_ok (morph_queue (anim w2))) by exact Hq1.
  assert (Hd2 : platform_depth (treev_geom w2 fstree) = 0).
  { unfold w2, upd_treev. cbn [treev_geom set_treev_geom]. unfold upd.
    rewrite Nat.eqb_refl, (proj2 (Nat.eqb_neq fstree root) Hne). reflexivity. }
  assert (Hc2 : treev_core_radius w2 = 8192) by reflexivity.
  destruct (treev_init_recursive_returns R t fuel fstree w2 Hf) as (w3 & E3).
  rewrite E3.
  pose proof (treev_init_recursive_visits R t fuel fstree w2 w3 Hq2 E3) as (C3 & B3).
  destruct (treev_init_recursive_frame R t fuel fstree w2 w3 E3) as (F3 & _).
  assert (Hdep3 : deployed_below t w3 fstree).
  { intros d Hb Hdir. destruct (B3 d Hb Hdir) as (_ & Hdv & _). exact Hdv. }
  assert (Hd3 : platform_depth (treev_geom w3 fstree) = 0).
  { rewrite F3; [exact Hd2|]. now apply NoDup_cons_iff in Hnd. }
  assert (Hc3 : 8192 <= treev_core_radius w3)
    by (rewrite (treev_init_recursive_core fuel fstree w2 w3 E3), Hc2; lra).
  destruct (treev_arrange_returns fuel m w3 ltac:(lia) Hs Hf Hnd Hdep3 Hd3 Hc3) as (w4 & E4).
  rewrite E4. apply (color_assign_recursive_returns R t), Hf.
Qed.

End TreeVReturns.

(** C9. With the metanode [fstree] above the one root directory:
    whenever geometry_init( ) returns, in any of the three modes and in
    either arithmetic, every directory of the tree has no deployment morph
    left in the queue, its deployment at exactly 1 if its directory-tree
    entry is expanded and at exactly 0 otherwise, and its three display
    lists stale; the directory tree is as it was.  geometry_init( ) does
    return: in DiscV and MapV mode with fuel for the depth of the tree, as
    does treev_init_recursive( ), whose result has every directory settled
    already; and in TreeV mode, in exact arithmetic on a tree none of whose
    nodes appears twice, with any fuel from some bound on, the loop of
    treev_arrange( ) that grows the core radius coming to its end. *)
Theorem geometry_init_settles (t : Tree) (fstree root : nat) :
  NODE_IS_DIR t fstree = false -> children (t fstree) = [root] ->
  (forall (D : Type) (HD : Double D) (HL : Libm D)
          (camera_pan_break : World D -> World D)
          (camera_look_at_full : nat -> MorphType -> D -> World D -> World D),
     (forall w, queue_ok (morph_queue (anim w)) -> calm w (camera_pan_break w)) ->
     (forall n ty tm w, queue_ok (morph_queue (anim w)) ->
        calm w (camera_look_at_full n ty tm w)) ->
     forall (fuel : nat) (mode : FsvMode) (w : World D),
       queue_ok (morph_queue (anim w)) ->
       (forall w',
          geometry_init t fstree camera_pan_break camera_look_at_full fuel mode w = Some w' ->
          ctree_expanded w' = ctree_expanded w /\
          forall d, dir_below t fstree d -> NODE_IS_DIR t d = true -> settled w' d) /\
       (fits t fuel fstree = true -> mode = FSV_DISCV \/ mode = FSV_MAPV ->
        exists w',
          geometry_init t fstree camera_pan_break camera_look_at_full fuel mode w = Some w') /\
       (fits t fuel fstree = true ->
        exists w',
          treev_init_recursive t fuel fstree w = Some w' /\
          ctree_expanded w' = ctree_expanded w /\
          forall d, dir_below t fstree d -> NODE_IS_DIR t d = true -> settled w' d)) /\
  (forall (camera_pan_break : World R -> World R)
          (camera_look_at_full : nat -> MorphType -> R -> World R -> World R),
     (forall w, queue_ok (morph_queue (anim w)) -> calm w (camera_pan_break w)) ->
     (forall n ty tm w, queue_ok (morph_queue (anim w)) ->
        calm w (camera_look_at_full n ty tm w)) ->
     forall (fuel0 : nat) (w : World R),
       queue_ok (morph_queue (anim w)) ->
       fits t fuel0 fstree = true -> NoDup (fstree :: nodes_below t fuel0 fstree) ->
       exists fuel1, forall fuel, (fuel1 <= fuel)%nat ->
         exists w',
           geometry_init t fstree camera_pan_break camera_look_at_full fuel FSV_TREEV w
           = Some w' /\
           ctree_expanded w' = ctree_expanded w /\
           forall d, dir_below t fstree d -> NODE_IS_DIR t d = true -> settled w' d).
Proof.
  intros Hm Hc. split.
  - intros D HD HL cpb claf Hcpb Hclaf fuel mode w Hq.
    destruct (geometry_init_run D t fstree cpb claf Hcpb Hclaf fuel mode root w Hq Hm Hc)
      as (P1 & P2).
    split; [exact P1|]. split; [exact P2|].
    intros Hf. destruct (treev_init_recursive_returns D t fuel fstree w Hf) as (w' & E).
    exists w'. split; [exact E|].
    destruct (treev_init_recursive_visits D t fuel fstree w w' Hq E) as (Cw & Bw).
    split; [apply Cw | exact Bw].
  - intros cpb claf Hcpb Hclaf fuel0 w Hq Hf Hnd.
    destruct (geometry_init_treev_returns t fstree Hm cpb claf fuel0 root [] w Hc Hq Hf Hnd)
      as (fuel1 & Hret).
    exists fuel1. intros fuel Hfuel. destruct (Hret fuel Hfuel) as (w' & E).
    exists w'. split; [exact E|].
    exact (proj1 (geometry_init_run R t fstree cpb claf Hcpb Hclaf fuel FSV_TREEV root w
                    Hq Hm Hc) w' E).
Qed.

Lemma geometry_init_settles_witness :
  deployment ex_world_midR 2 = (1 / 2)%R /\
  g_list_find_custom (morph_queue (anim ex_world_midR)) (VarDeployment 2) <> None /\
  exists fuel1, forall fuel, (fuel1 <= fuel)%nat ->
    exists w',
      geometry_init ex_tree 0 (fun w => w) ex_camera fuel FSV_TREEV ex_world_midR = Some w' /\
      g_list_find_custom (morph_queue (anim w')) (VarDeployment 2) = None /\
      deployment w' 1 = 1%R /\ deployment w' 2 = 0%R /\
      a_dlist_stale w' 2 = true /\ b_dlist_stale w' 2 = true /\ c_dlist_stale w' 2 = true.
Proof.
  split; [reflexivity|]. split; [discriminate|].
  destruct (geometry_init_settles ex_tree 0 1 eq_refl eq_refl) as (_ & Htreev).
  destruct (Htreev (fun w => w) ex_camera
              (fun w Hq => calm_refl R w Hq) (fun _ _ _ w Hq => calm_refl R w Hq)
              8%nat ex_world_midR) as (fuel1 & Hret).
  - split; [repeat constructor; intros []|].
    repeat constructor.
  - reflexivity.
  - exact ex_tree_is_tree_from_metanode.
  - exists fuel1. intros fuel Hfuel.
    destruct (Hret fuel Hfuel) as (w' & E & Hct & Hs).
    exists w'. split; [exact E|].
    assert (H1 : dir_below ex_tree 0 1) by (apply dir_below_child with (c := 1%nat); [now left | reflexivity | apply dir_below_here]).
    assert (H2 : dir_below ex_tree 0 2).
    { apply dir_below_child with (c := 1%nat); [now left | reflexivity |].
      apply dir_below_child with (c := 2%nat); [now left | reflexivity | apply dir_below_here]. }
    destruct (Hs 1%nat H1 eq_refl) as (_ & D1 & _).
    destruct (Hs 2%nat H2 eq_refl) as (Q2 & D2 & A2 & B2 & C2).
    unfold dirtree_entry_expanded in D1, D2. rewrite Hct in D1, D2.
    repeat split; assumption.
Defined.
